(** * TrivialThreadPool: the type-erased callable container and the task
      scheduler, embedded in Rocq.

    Two modules follow the two headers of the library.

    - [UniqueFunction] embeds [include/ttp/unique_function.hpp]: [Storage<N>]
      and [ErasuredType<N>], as state-passing functions over an abstract
      machine (an allocator and the trace of the calls made through the
      captured function pointers).
    - [Pool] embeds [include/ttp/thread_pool.hpp]: [details::Task],
      [Future<T>] and [ThreadPool], as an interleaving small-step semantics
      in which every thread executes the statements of the member function
      it is in, one atomic action at a time; [Wakeups] adds the two
      condition variables of [ThreadPool] to it: the threads blocked on
      them and the notifications. *)

From Stdlib Require Import ZArith NArith Lia Bool.
From stdpp Require Import base tactics option list.

Set Default Proof Using "Type".

(* ===================================================================== *)
(** * unique_function.hpp *)
(* ===================================================================== *)

Module UniqueFunction.

(** ** Addresses, types and the machine *)

(** An object of class [Storage] lives at a location ([this]); its inline
    buffer [&std::get<0>(m_data)] is part of the object, so the buffer's
    address is determined by that location. *)
Definition loc := nat.

Inductive addr :=
| InlineBuf (owner : loc)   (* the inline buffer of the Storage at [owner] *)
| HeapPtr (block : nat)     (* a block returned by std::aligned_alloc *)
| NullPtr.                  (* what std::aligned_alloc returns on failure *)

#[global] Instance addr_eq_dec : EqDecision addr.
Proof. solve_decision. Defined.

(** A concrete C++ type [T], as far as the header looks at it: an identity
    (which instantiation of [details::mover<T>] and [details::destroyer<T>]
    a function pointer designates), [sizeof(T)] and [alignof(T)]. *)
Record ctype := CType { type_id : nat; size_of : N; align_of : N }.

#[global] Instance ctype_eq_dec : EqDecision ctype.
Proof. solve_decision. Defined.

(** What an execution does that an observer (the test-suite's counters, the
    allocator) can see. *)
Inductive event :=
| EvAlloc (size align : N) (ret : addr)   (* details::aligned_alloc(size, align) returned [ret] *)
| EvFree (p : addr)                       (* details::aligned_free(p) *)
| EvConstruct (T : ctype) (at_ : addr)    (* new (pointer) T(std::forward<T>(data)) *)
| EvMover (T : ctype) (lhs rhs : addr)    (* details::mover<T>(lhs, rhs) *)
| EvDestroyer (T : ctype) (instance : addr). (* details::destroyer<T>(instance) *)

#[global] Instance event_eq_dec : EqDecision event.
Proof. solve_decision. Defined.

(** The machine: the C allocator behind [std::aligned_alloc] (a supply of
    fresh blocks, the bytes still available, the live blocks with their
    sizes) and the trace of events so far, oldest first. *)
Record machine := Machine {
  next_block : nat;
  avail : N;
  live : list (nat * N);
  trace : list event
}.

Definition emit (e : event) (m : machine) : machine :=
  Machine (next_block m) (avail m) (live m) (trace m ++ [e]).

(** What the C++ standard leaves undefined and the header can run into. *)
Inductive ub :=
| UnassignedFunctionPointer   (* a call through a pointer no constructor assigned *)
| ConstructAtNull.            (* a placement construction at the null pointer *)

(** The outcome of running a member function: it returns, or the
    behaviour is undefined from some machine on, or the process is aborted
    ([std::abort], [std::terminate]). *)
Inductive result (A : Type) :=
| Done (a : A) (m : machine)
| Undefined (why : ub) (m : machine)
| Fatal.
Arguments Done {A} a m.
Arguments Undefined {A} why m.
Arguments Fatal {A}.

Definition M (A : Type) : Type := machine -> result A.

Definition ret {A} (a : A) : M A := fun m => Done a m.

Definition bind {A B} (c : M A) (k : A -> M B) : M B :=
  fun m => match c m with
           | Done a m' => k a m'
           | Undefined why m' => Undefined why m'
           | Fatal => Fatal
           end.

Definition tell (e : event) : M unit := fun m => Done tt (emit e m).

Definition undefined {A} (why : ub) : M A := fun m => Undefined why m.

Declare Scope uf_scope.
Delimit Scope uf_scope with uf.
Notation "'let*' x := c 'in' k" := (bind c (fun x => k))
  (at level 10, x name, c at level 100, k at level 200) : uf_scope.
Notation "'let*' ' p := c 'in' k" := (bind c (fun x => let 'p := x in k))
  (at level 10, p pattern, c at level 100, k at level 200) : uf_scope.
Open Scope uf_scope.

(** ** namespace details: the allocator *)

(** [details::aligned_alloc(size, align)], lines 19-26: the pointer of
    [std::aligned_alloc] is returned as it is, null on failure. The
    allocator fails when fewer than [size] bytes are available. *)
Definition aligned_alloc (size align : N) : M addr := fun m =>
  if (size <=? avail m)%N then
    let p := HeapPtr (next_block m) in
    Done p (emit (EvAlloc size align p)
              (Machine (S (next_block m)) (avail m - size)
                       ((next_block m, size) :: live m) (trace m)))
  else
    Done NullPtr (emit (EvAlloc size align NullPtr) m).

Fixpoint release (b : nat) (l : list (nat * N)) : list (nat * N) * N :=
  match l with
  | [] => ([], 0%N)
  | (b', sz) :: l' =>
      if Nat.eqb b b' then (l', sz)
      else let '(r, n) := release b l' in ((b', sz) :: r, n)
  end.

(** [details::aligned_free(ptr)], lines 28-34: [free]; a null pointer is
    accepted and nothing happens to the heap. *)
Definition aligned_free (p : addr) : M unit := fun m =>
  match p with
  | HeapPtr b =>
      let '(l, n) := release b (live m) in
      Done tt (emit (EvFree p) (Machine (next_block m) (avail m + n) l (trace m)))
  | _ => Done tt (emit (EvFree p) m)
  end.

(** ** Storage<N> *)

Record Allocation := mkAllocation { ptr : addr; size : N }.

(** [std::variant<inline_storage_t, Allocation> m_data]: index 0 is the
    inline buffer, index 1 the allocation record. *)
Inductive variant :=
| Inline
| Heap (a : Allocation).

Record Storage := mkStorage { self : loc; m_data : variant }.

Section Platform.

(** [alignof(std::max_align_t)], the alignment of [inline_storage_t]. *)
Variable max_align : N.

(** The inline capacity, the template parameter [N] of [Storage<N>] and
    [ErasuredType<N>]. *)
Variable cap : N.

(** [Storage() = default]: the variant holds its first alternative. *)
Definition Storage_default (this : loc) : Storage := mkStorage this Inline.

(** [bool is_inlined() const], line 98. *)
Definition is_inlined (s : Storage) : bool :=
  match m_data s with Inline => true | Heap _ => false end.

(** [void* pointer()], lines 100-106. *)
Definition pointer (s : Storage) : addr :=
  match m_data s with
  | Inline => InlineBuf (self s)
  | Heap a => ptr a
  end.

(** [new (pointer) T(std::forward<T>(data))], lines 60 and 75: [T]'s move
    constructor runs at [pointer]; at the null pointer the behaviour is
    undefined. *)
Definition construct_at (T : ctype) (p : addr) : M unit :=
  match p with
  | NullPtr => undefined ConstructAtNull
  | _ => tell (EvConstruct T p)
  end.

(** [explicit Storage(T&& data)], lines 48-61 (the overload of lines 63-76
    differs only in how [data] is forwarded). *)
Definition Storage_ctor (this : loc) (T : ctype) : M Storage :=
  if ((size_of T <=? cap) && (align_of T <=? max_align))%N then
    let s := mkStorage this Inline in
    let* _ := construct_at T (InlineBuf this) in
    ret s
  else
    let* p := aligned_alloc (size_of T) (align_of T) in
    let s := mkStorage this (Heap (mkAllocation p (size_of T))) in
    let* _ := construct_at T p in
    ret s.

(** [~Storage()], lines 92-96. *)
Definition Storage_dtor (s : Storage) : M unit :=
  match m_data s with
  | Heap a => aligned_free (ptr a)
  | Inline => ret tt
  end.

(** [Storage(Storage&& rhs)], lines 80-83: the new object at [this] and
    what is left of [rhs]. *)
Definition Storage_move_ctor (this : loc) (rhs : Storage) : M (Storage * Storage) :=
  ret (mkStorage this (m_data rhs), mkStorage (self rhs) Inline).

(** [Storage& operator=(Storage&& rhs)], lines 84-90. *)
Definition Storage_move_assign (this rhs : Storage) : M (Storage * Storage) :=
  let* _ := Storage_dtor this in
  ret (mkStorage (self this) (m_data rhs), mkStorage (self rhs) Inline).

(** ** ErasuredType<N> *)

(** [mover_t] and [destroyer_t] values: [Some T] is [&details::mover<T>]
    (resp. [&details::destroyer<T>]); [None] is a member that no
    constructor has assigned. The member [m_trivial] is never read or
    written by the header and is left out. *)
Record ErasuredType := mkErasured {
  m_valid : bool;
  m_storage : Storage;
  m_mover : option ctype;
  m_destroyer : option ctype
}.

Definition set_valid (b : bool) (e : ErasuredType) : ErasuredType :=
  mkErasured b (m_storage e) (m_mover e) (m_destroyer e).

Definition set_storage (s : Storage) (e : ErasuredType) : ErasuredType :=
  mkErasured (m_valid e) s (m_mover e) (m_destroyer e).

Definition set_fnptrs (mv ds : option ctype) (e : ErasuredType) : ErasuredType :=
  mkErasured (m_valid e) (m_storage e) mv ds.

(** A call through [m_mover]: [details::mover<T>(lhs, rhs)], lines 135-138. *)
Definition call_mover (f : option ctype) (lhs rhs : addr) : M unit :=
  match f with
  | Some T => tell (EvMover T lhs rhs)
  | None => undefined UnassignedFunctionPointer
  end.

(** A call through [m_destroyer]: [details::destroyer<T>(instance)],
    lines 140-143. *)
Definition call_destroyer (f : option ctype) (instance : addr) : M unit :=
  match f with
  | Some T => tell (EvDestroyer T instance)
  | None => undefined UnassignedFunctionPointer
  end.

(** [ErasuredType() : m_valid(false) {}], line 158. *)
Definition ErasuredType_default (this : loc) : ErasuredType :=
  mkErasured false (Storage_default this) None None.

(** [explicit ErasuredType(T&& data)], lines 160-163. *)
Definition ErasuredType_ctor (this : loc) (T : ctype) : M ErasuredType :=
  let* s := Storage_ctor this T in
  ret (mkErasured true s (Some T) (Some T)).

(** [bool valid() const], line 217. *)
Definition valid (e : ErasuredType) : bool := m_valid e.

(** [ErasuredType& operator=(ErasuredType&& rhs)], lines 173-195, called
    on two objects: [rhs] is not [*this], so that what is written to one is
    not read from the other (for [x = std::move(x)] see
    [ErasuredType_move_assign_self]). The assigned object and what is left
    of [rhs]. *)
Definition ErasuredType_move_assign (this rhs : ErasuredType)
  : M (ErasuredType * ErasuredType) :=
  let* this1 :=
    (if m_valid this then
       let* _ := call_destroyer (m_destroyer this) (pointer (m_storage this)) in
       ret (set_valid false this)
     else ret this) in
  if negb (m_valid rhs) then ret (this1, rhs)
  else
    let* '(this2, rhs2) :=
      (if negb (is_inlined (m_storage rhs)) then
         let* '(s, rs) := Storage_move_assign (m_storage this1) (m_storage rhs) in
         ret (set_storage s this1, set_storage rs rhs)
       else
         let* _ := call_mover (m_mover rhs) (pointer (m_storage this1))
                              (pointer (m_storage rhs)) in
         ret (this1, rhs)) in
    let this3 := set_fnptrs (m_mover rhs) (m_destroyer rhs) this2 in
    ret (set_valid true this3, set_valid false rhs2).

(** The same [operator=], lines 173-195, called as [x = std::move(x)]:
    [rhs] is [*this], one object, and every read of [rhs] sees what the
    statements before it wrote to [*this]. So line 178 reads the [m_valid]
    that line 176 cleared; in [Storage::operator=] (lines 85-87) the
    variant is assigned to itself after its block is freed and then reset
    to the inline buffer; and line 193 clears the [m_valid] that line 192
    set. *)
Definition ErasuredType_move_assign_self (this : ErasuredType) : M ErasuredType :=
  let* this1 :=
    (if m_valid this then
       let* _ := call_destroyer (m_destroyer this) (pointer (m_storage this)) in
       ret (set_valid false this)
     else ret this) in
  if negb (m_valid this1) then ret this1
  else
    let* this2 :=
      (if negb (is_inlined (m_storage this1)) then
         let* _ := Storage_dtor (m_storage this1) in
         ret (set_storage (mkStorage (self (m_storage this1)) Inline) this1)
       else
         let* _ := call_mover (m_mover this1) (pointer (m_storage this1))
                              (pointer (m_storage this1)) in
         ret this1) in
    ret (set_valid false this2).

(** [ErasuredType(ErasuredType&& rhs)], lines 168-171: the members are
    default-initialised, [m_valid] is cleared, then [*this = std::move(rhs)]. *)
Definition ErasuredType_move_ctor (this : loc) (rhs : ErasuredType)
  : M (ErasuredType * ErasuredType) :=
  ErasuredType_move_assign (ErasuredType_default this) rhs.

(** [~ErasuredType()], lines 197-201, followed by the destructor of the
    member [m_storage]. *)
Definition ErasuredType_dtor (e : ErasuredType) : M unit :=
  let* _ :=
    (if m_valid e then call_destroyer (m_destroyer e) (pointer (m_storage e))
     else ret tt) in
  Storage_dtor (m_storage e).

End Platform.

(** ** UniqueFunction<R(Args...)> *)

(** A call of [details::caller<F, R, Args...>(instance, args...)], lines
    145-149: [std::invoke] of the [F] that [instance] is taken to point to.
    What the callable then does is its own business; the call is
    identified by the instantiation and the address it is made on. *)
Record invocation := Invoke { callee : ctype; instance : addr }.

(** The members, lines 257-258. [m_caller] is [Some F] for
    [&details::caller<F, R, Args...>] and [None] when no constructor has
    assigned it. *)
Record UniqueFunction := mkFunction {
  m_type_erasured : ErasuredType;
  m_caller : option ctype
}.

Section Function.

(** [alignof(std::max_align_t)] and [sizeof(void* )]: the container is an
    [ErasuredType<sizeof(void* ) * 4>]. *)
Variable max_align : N.
Variable pointer_size : N.

(** [void* ErasuredType::pointer()], line 213. *)
Definition ErasuredType_pointer (e : ErasuredType) : addr := pointer (m_storage e).

(** [UniqueFunction() = default], line 240: the container is
    default-constructed, [m_caller] is left as it is. *)
Definition UniqueFunction_default (this : loc) : UniqueFunction :=
  mkFunction (ErasuredType_default this) None.

(** [UniqueFunction(F&& func)], lines 242-245. *)
Definition UniqueFunction_ctor (this : loc) (F : ctype) : M UniqueFunction :=
  let* e := ErasuredType_ctor max_align (pointer_size * 4) this F in
  ret (mkFunction e (Some F)).

(** [UniqueFunction(UniqueFunction&&) = default], line 249: the members
    are move-constructed in turn; moving a function pointer copies it. The
    new object and what is left of [rhs]. *)
Definition UniqueFunction_move_ctor (this : loc) (rhs : UniqueFunction)
  : M (UniqueFunction * UniqueFunction) :=
  let* '(e, re) := ErasuredType_move_ctor this (m_type_erasured rhs) in
  ret (mkFunction e (m_caller rhs), mkFunction re (m_caller rhs)).

(** [UniqueFunction& operator=(UniqueFunction&&) = default], line 250:
    the members are move-assigned in turn. *)
Definition UniqueFunction_move_assign (this rhs : UniqueFunction)
  : M (UniqueFunction * UniqueFunction) :=
  let* '(e, re) := ErasuredType_move_assign (m_type_erasured this)
                                            (m_type_erasured rhs) in
  ret (mkFunction e (m_caller rhs), mkFunction re (m_caller rhs)).

(** The implicit destructor: the one of [m_type_erasured]. *)
Definition UniqueFunction_dtor (f : UniqueFunction) : M unit :=
  ErasuredType_dtor (m_type_erasured f).

(** A call through [m_caller]. *)
Definition call_caller (f : option ctype) (instance : addr) : M invocation :=
  match f with
  | Some F => ret (Invoke F instance)
  | None => undefined UnassignedFunctionPointer
  end.

(** [R operator()(Args&&... args)], line 252. *)
Definition UniqueFunction_call (f : UniqueFunction) : M invocation :=
  call_caller (m_caller f) (ErasuredType_pointer (m_type_erasured f)).

(** [bool valid() const], line 254. *)
Definition UniqueFunction_valid (f : UniqueFunction) : bool :=
  valid (m_type_erasured f).

End Function.

End UniqueFunction.

(* ===================================================================== *)
(** * thread_pool.hpp *)
(* ===================================================================== *)

Module Pool.

(** An execution is an interleaving of atomic actions of threads. An
    action is one statement of the member function the thread is in, with
    one access to a shared object. The synchronisation objects are taken
    by their contracts: [std::atomic_flag::test_and_set] is one action; the
    mutex is held by at most one thread; reading a [std::future] waits
    until the shared state is ready (once per Future: a second [get] on
    one Future is outside the contract of [std::future] and is not told
    apart here). A submitted callable is one action with an outcome: what
    else it does, and the calls it may itself make on the pool, are not
    part of the model. A user thread is a list of calls on the pool and on
    the Futures it returned.

    A thread inside [condition_variable::wait(lock, pred)] checks [pred]
    under the lock whenever it takes a step: that is what it does when a
    notification wakes it, or when it wakes spuriously, as the standard
    allows. In this way every execution of the code is an execution of
    [step] (the test of the predicate and the blocking that follows it are
    one step here; in the code the mutex is held from the one to the
    other, and what other threads do in between they do without the
    mutex), so that what holds in every execution of [step] holds in every
    execution of the code. The converse is not so: that a waiting thread
    has a step here does not say that anything wakes it. Whether it is
    woken is the subject of module [Wakeups], which adds the
    notifications. *)

(** ** Data *)

(** Threads are numbered; a [std::shared_ptr<details::Task>] is the number
    of the Task it points to in the world's table of Tasks. *)
Abbreviation tid := nat.
Abbreviation task_id := nat.

(** [enum class Wait { Async, Sync }]. *)
Inductive Wait := Async | Sync.

(** What the submitted callable does when it is invoked,
    [std::invoke(func, args...)]: it returns a value or throws. *)
Inductive behaviour :=
| Returns (v : Z)
| Throws (e : nat).

(** What the shared state of [std::promise<result_t>] holds once it is
    ready: the value of [set_value] or the exception of [set_exception]. *)
Inductive delivered :=
| Value (v : Z)
| Exception (e : nat).

(** [details::Task]. [m_task] is the lambda of lines 43-56; its captures
    are the submitted callable ([callable]), the result promise, whose
    shared state ([channel]) is the one the Future reads, and
    [task_barrier], whose shared state is the one of the member [m_future]
    (true once [task_barrier.set_value()] has run). *)
Record Task := mkTask {
  m_worked_on : bool;
  m_ready : bool;
  m_future : bool;
  channel : option delivered;
  callable : behaviour
}.

(** [explicit Task(future, func, args...)], lines 24-59. *)
Definition Task_ctor (b : behaviour) : Task := mkTask false false false None b.

(** [std::size_t] arithmetic of [m_ongoing]. *)
Definition size_max : Z := 2 ^ 64.
Definition incr (x : Z) : Z := ((x + 1) mod size_max)%Z.
Definition decr (x : Z) : Z := ((x - 1) mod size_max)%Z.

(** [ThreadPool]: the members but the two condition variables (they are
    in module [Wakeups]) and [m_workers] (the worker
    threads are the first [m_pool_size] threads of the world).
    [m_task_mutex] is the thread that holds the mutex, if any. *)
Record ThreadPool := mkPool {
  m_pool_size : nat;
  m_quit : bool;
  m_ongoing : Z;
  m_tasks : list task_id;
  m_task_mutex : option tid
}.

(** Who called [Task::try_run]: [Future::get] (line 96/102),
    [ThreadPool::wait] (line 173) or [ThreadPool::do_work] (line 205). *)
Inductive caller := FromGet | FromWait | FromWorker.

(** The statements of [Task::try_run] and of the [m_task] it calls. *)
Inductive try_run_pc :=
| TrTest                        (* line 62: m_worked_on.test_and_set() *)
| TrInvoke                      (* line 65 into lines 47/50: task() *)
| TrDeliver (o : behaviour)     (* lines 48/50/53: set_value or set_exception *)
| TrBarrier                     (* line 55: task_barrier.set_value() *)
| TrReady.                      (* line 66: m_ready = true *)

(** Where a thread is. *)
Inductive pc :=
| Idle                                   (* between two calls of its script *)
| Exited                                 (* do_work has returned *)
(* ThreadPool::async, lines 140-154 *)
| AsyncMake (b : behaviour)              (* line 145: std::make_shared<details::Task> *)
| AsyncLock (t : task_id)                (* line 147: lock_guard *)
| AsyncPush (t : task_id)                (* line 149: m_tasks.push *)
| AsyncUnlock (t : task_id)              (* line 150: end of the lock's scope *)
| AsyncReturn (t : task_id)              (* lines 151-153: notify_one, return the Future *)
(* Task::try_run, lines 61-68 *)
| TryRun (k : caller) (t : task_id) (p : try_run_pc)
(* Future::get after try_run, lines 97-98 / 103-104 *)
| GetRead (t : task_id)
(* Future::wait, line 93 *)
| FutureWait (t : task_id)
(* ThreadPool::wait, lines 161-181 *)
| WaitLoopLock                           (* line 164 *)
| WaitLoopCheck                          (* lines 165-168 *)
| WaitLoopPop                            (* lines 169-170 *)
| WaitLoopUnlock (t : task_id)           (* line 171 *)
| WaitLoopDec                            (* line 175 *)
| WaitFinalLock                          (* line 179, and waking up inside line 180 *)
| WaitFinalCv                            (* line 180: the predicate of the wait *)
(* ThreadPool::do_work, lines 192-211 *)
| WorkLock                               (* lines 193 and 209, and waking up inside line 195 *)
| WorkCv                                 (* line 195: the predicate of the wait *)
| WorkQuit                               (* lines 196-200 *)
| WorkPop                                (* lines 201-202 *)
| WorkUnlock (t : task_id)               (* line 203 *)
| WorkDec                                (* lines 207-208 *)
(* ~ThreadPool, lines 127-133 *)
| DtorQuit                               (* lines 128-129 *)
| DtorJoin.                              (* lines 130-132 *)

(** The calls a user thread makes, in order. [CallGet t] and
    [CallFutureWait t] are calls on the [Future] that [async] returned for
    Task [t]. *)
Inductive call :=
| CallAsync (b : behaviour)
| CallGet (t : task_id)
| CallFutureWait (t : task_id)
| CallWait (how : Wait)
| CallDestroy.

Record thread := mkThread { at_pc : pc; script : list call }.

(** What an observer of an execution sees. *)
Inductive event :=
| EvSubmit (i : tid) (t : task_id)               (* async returned the Future of Task t *)
| EvClaim (i : tid) (t : task_id) (k : caller)   (* test_and_set returned false *)
| EvSkip (i : tid) (t : task_id) (k : caller)    (* test_and_set returned true *)
| EvInvoke (i : tid) (t : task_id) (k : caller)  (* the submitted callable is invoked *)
| EvDeliver (i : tid) (t : task_id) (r : delivered) (* promise.set_value / set_exception *)
| EvSignal (i : tid) (t : task_id)               (* task_barrier.set_value() *)
| EvReady (i : tid) (t : task_id)                (* m_ready = true *)
| EvDequeue (i : tid) (t : task_id) (k : caller) (* m_tasks.front() and m_tasks.pop() *)
| EvGet (i : tid) (t : task_id) (r : delivered)  (* get returned the value or rethrew *)
| EvFutureWait (i : tid) (t : task_id)           (* Future::wait returned *)
| EvWaitReturn (i : tid).                        (* ThreadPool::wait returned *)

Record world := mkWorld {
  tasks : list Task;
  pool : ThreadPool;
  threads : list thread;
  trace : list event
}.

#[global] Instance caller_eq_dec : EqDecision caller.
Proof. solve_decision. Defined.
#[global] Instance behaviour_eq_dec : EqDecision behaviour.
Proof. solve_decision. Defined.
#[global] Instance delivered_eq_dec : EqDecision delivered.
Proof. solve_decision. Defined.
#[global] Instance try_run_pc_eq_dec : EqDecision try_run_pc.
Proof. solve_decision. Defined.
#[global] Instance pc_eq_dec : EqDecision pc.
Proof. solve_decision. Defined.
#[global] Instance event_eq_dec : EqDecision event.
Proof. solve_decision. Defined.

(** ** Updates *)

Definition set_worked_on (T : Task) : Task :=
  mkTask true (m_ready T) (m_future T) (channel T) (callable T).
Definition set_channel (r : delivered) (T : Task) : Task :=
  mkTask (m_worked_on T) (m_ready T) (m_future T) (Some r) (callable T).
Definition set_barrier (T : Task) : Task :=
  mkTask (m_worked_on T) (m_ready T) true (channel T) (callable T).
Definition set_ready (T : Task) : Task :=
  mkTask (m_worked_on T) true (m_future T) (channel T) (callable T).

Definition set_quit (P : ThreadPool) : ThreadPool :=
  mkPool (m_pool_size P) true (m_ongoing P) (m_tasks P) (m_task_mutex P).
Definition set_ongoing (n : Z) (P : ThreadPool) : ThreadPool :=
  mkPool (m_pool_size P) (m_quit P) n (m_tasks P) (m_task_mutex P).
Definition set_queue (q : list task_id) (P : ThreadPool) : ThreadPool :=
  mkPool (m_pool_size P) (m_quit P) (m_ongoing P) q (m_task_mutex P).
Definition set_mutex (h : option tid) (P : ThreadPool) : ThreadPool :=
  mkPool (m_pool_size P) (m_quit P) (m_ongoing P) (m_tasks P) h.

Definition with_tasks (f : list Task -> list Task) (w : world) : world :=
  mkWorld (f (tasks w)) (pool w) (threads w) (trace w).
Definition with_pool (f : ThreadPool -> ThreadPool) (w : world) : world :=
  mkWorld (tasks w) (f (pool w)) (threads w) (trace w).
Definition with_thread (i : tid) (th : thread) (w : world) : world :=
  mkWorld (tasks w) (pool w) (<[i := th]> (threads w)) (trace w).
Definition emit (e : event) (w : world) : world :=
  mkWorld (tasks w) (pool w) (threads w) (trace w ++ [e]).

(** ** The steps *)

(** Where [try_run] returns to. *)
Definition after_try_run (k : caller) (t : task_id) : pc :=
  match k with
  | FromGet => GetRead t
  | FromWait => WaitLoopDec
  | FromWorker => WorkDec
  end.

(** Lines 45-54: the [try]/[catch] around the callable turns its outcome
    into what the promise is given. *)
Definition deliver (o : behaviour) : delivered :=
  match o with
  | Returns v => Value v
  | Throws e => Exception e
  end.

(** Locking [m_task_mutex]: enabled when no thread holds it. *)
Definition lock (i : tid) (next : pc) (th : thread) (w : world) : option world :=
  match m_task_mutex (pool w) with
  | None => Some (with_thread i (mkThread next (script th))
                    (with_pool (set_mutex (Some i)) w))
  | Some _ => None
  end.

Definition goto (i : tid) (next : pc) (th : thread) (w : world) : world :=
  with_thread i (mkThread next (script th)) w.

(** The workers have all returned from [do_work]: what the [join]s of
    lines 130-132 wait for. *)
Definition workers_exited (w : world) : bool :=
  forallb (fun th => match at_pc th with Exited => true | _ => false end)
          (take (m_pool_size (pool w)) (threads w)).

(** One atomic action of thread [i]; [None] when the thread does not
    exist, has nothing left to do, or waits (for the mutex, for a shared
    state to become ready, for the workers to exit). *)
Definition step (i : tid) (w : world) : option world :=
  th ← threads w !! i;
  match at_pc th with
  | Idle =>
      match script th with
      | [] => None
      | c :: rest =>
          let th' := mkThread Idle rest in
          match c with
          | CallAsync b => Some (goto i (AsyncMake b) th' w)
          | CallGet t =>
              if decide (t < length (tasks w))
              then Some (goto i (TryRun FromGet t TrTest) th' w) else None
          | CallFutureWait t =>
              if decide (t < length (tasks w))
              then Some (goto i (FutureWait t) th' w) else None
          | CallWait Async => Some (goto i WaitLoopLock th' w)
          | CallWait Sync => Some (goto i WaitFinalLock th' w)
          | CallDestroy => Some (goto i DtorQuit th' w)
          end
      end
  | Exited => None
  (* ThreadPool::async *)
  | AsyncMake b =>
      let t := length (tasks w) in
      Some (goto i (AsyncLock t) th (with_tasks (fun l => l ++ [Task_ctor b]) w))
  | AsyncLock t => lock i (AsyncPush t) th w
  | AsyncPush t =>
      Some (goto i (AsyncUnlock t) th
              (with_pool (fun P => set_queue (m_tasks P ++ [t]) P) w))
  | AsyncUnlock t => Some (goto i (AsyncReturn t) th (with_pool (set_mutex None) w))
  | AsyncReturn t => Some (goto i Idle th (emit (EvSubmit i t) w))
  (* Task::try_run *)
  | TryRun k t TrTest =>
      T ← tasks w !! t;
      if m_worked_on T
      then Some (goto i (after_try_run k t) th (emit (EvSkip i t k) w))
      else Some (goto i (TryRun k t TrInvoke) th
                   (emit (EvClaim i t k) (with_tasks (alter set_worked_on t) w)))
  | TryRun k t TrInvoke =>
      T ← tasks w !! t;
      Some (goto i (TryRun k t (TrDeliver (callable T))) th (emit (EvInvoke i t k) w))
  | TryRun k t (TrDeliver o) =>
      Some (goto i (TryRun k t TrBarrier) th
              (emit (EvDeliver i t (deliver o))
                 (with_tasks (alter (set_channel (deliver o)) t) w)))
  | TryRun k t TrBarrier =>
      Some (goto i (TryRun k t TrReady) th
              (emit (EvSignal i t) (with_tasks (alter set_barrier t) w)))
  | TryRun k t TrReady =>
      Some (goto i (after_try_run k t) th
              (emit (EvReady i t) (with_tasks (alter set_ready t) w)))
  (* Future::get, Future::wait *)
  | GetRead t =>
      T ← tasks w !! t;
      r ← channel T;
      Some (goto i Idle th (emit (EvGet i t r) w))
  | FutureWait t =>
      T ← tasks w !! t;
      r ← channel T;
      Some (goto i Idle th (emit (EvFutureWait i t) w))
  (* ThreadPool::wait *)
  | WaitLoopLock => lock i WaitLoopCheck th w
  | WaitLoopCheck =>
      match m_tasks (pool w) with
      | [] => Some (goto i WaitFinalLock th (with_pool (set_mutex None) w))
      | _ :: _ =>
          Some (goto i WaitLoopPop th
                  (with_pool (fun P => set_ongoing (incr (m_ongoing P)) P) w))
      end
  | WaitLoopPop =>
      match m_tasks (pool w) with
      | [] => None
      | t :: q =>
          Some (goto i (WaitLoopUnlock t) th
                  (emit (EvDequeue i t FromWait) (with_pool (set_queue q) w)))
      end
  | WaitLoopUnlock t =>
      Some (goto i (TryRun FromWait t TrTest) th (with_pool (set_mutex None) w))
  | WaitLoopDec =>
      Some (goto i WaitLoopLock th
              (with_pool (fun P => set_ongoing (decr (m_ongoing P)) P) w))
  | WaitFinalLock => lock i WaitFinalCv th w
  | WaitFinalCv =>
      if decide (m_ongoing (pool w) = 0%Z)
      then Some (goto i Idle th (emit (EvWaitReturn i) (with_pool (set_mutex None) w)))
      else Some (goto i WaitFinalLock th (with_pool (set_mutex None) w))
  (* ThreadPool::do_work *)
  | WorkLock => lock i WorkCv th w
  | WorkCv =>
      if m_quit (pool w) || negb (bool_decide (m_tasks (pool w) = []))
      then Some (goto i WorkQuit th w)
      else Some (goto i WorkLock th (with_pool (set_mutex None) w))
  | WorkQuit =>
      if m_quit (pool w)
      then Some (goto i Exited th (with_pool (set_mutex None) w))
      else Some (goto i WorkPop th
                   (with_pool (fun P => set_ongoing (incr (m_ongoing P)) P) w))
  | WorkPop =>
      match m_tasks (pool w) with
      | [] => None
      | t :: q =>
          Some (goto i (WorkUnlock t) th
                  (emit (EvDequeue i t FromWorker) (with_pool (set_queue q) w)))
      end
  | WorkUnlock t =>
      Some (goto i (TryRun FromWorker t TrTest) th (with_pool (set_mutex None) w))
  | WorkDec =>
      Some (goto i WorkLock th
              (with_pool (fun P => set_ongoing (decr (m_ongoing P)) P) w))
  (* ~ThreadPool *)
  | DtorQuit => Some (goto i DtorJoin th (with_pool set_quit w))
  | DtorJoin =>
      if workers_exited w then Some (goto i Idle th w) else None
  end.

(** [ThreadPool(std::size_t pool_size)], lines 118-125: [m_ongoing = 0],
    [m_quit = false], and [pool_size] threads are started in [do_work]. No
    value of [pool_size] is refused. The user threads, one per script, come
    after the workers. *)
Definition ThreadPool_ctor (pool_size : nat) (scripts : list (list call)) : world :=
  mkWorld []
          (mkPool pool_size false 0 [] None)
          (replicate pool_size (mkThread WorkLock [])
             ++ map (mkThread Idle) scripts)
          [].

(** Running a schedule: the threads take their steps in the given order. *)
Fixpoint run (sched : list tid) (w : world) : option world :=
  match sched with
  | [] => Some w
  | i :: rest => w' ← step i w; run rest w'
  end.

(** The worlds an execution can be in. *)
Inductive reachable (w0 : world) : world -> Prop :=
| reach_init : reachable w0 w0
| reach_step w i w' : reachable w0 w -> step i w = Some w' -> reachable w0 w'.

(** [std::size_t tasks() const], lines 184-187, and [is_working()], line
    183, as they read the world. *)
Definition tasks_count (w : world) : nat := length (m_tasks (pool w)).
Definition is_working (w : world) : bool :=
  (0 <? m_ongoing (pool w))%Z || (0 <? tasks_count w).

(** [bool Task::ready() const], line 72. *)
Definition ready (T : Task) : bool := m_ready T.

(** [void Task::wait() const], line 70: [m_future.wait()] returns once the
    shared state of [task_barrier] is ready, and not before. *)
Definition Task_wait (T : Task) : option unit :=
  if m_future T then Some tt else None.

(** [std::size_t pool_size() const], line 188. *)
Definition pool_size (w : world) : nat := m_pool_size (pool w).

(** ** Reading the trace *)

(** The Task whose execution an event is a stage of. *)
Definition stage_of (e : event) : option task_id :=
  match e with
  | EvClaim _ t _ | EvInvoke _ t _ | EvDeliver _ t _
  | EvSignal _ t | EvReady _ t => Some t
  | _ => None
  end.

(** The stages Task [t] has gone through, in order. *)
Definition stages (t : task_id) (tr : list event) : list event :=
  filter (fun e => stage_of e = Some t) tr.

(** The threads that claimed Task [t], in order. *)
Definition claimers (t : task_id) (tr : list event) : list tid :=
  omap (fun e => match e with
                 | EvClaim i t' _ => if decide (t' = t) then Some i else None
                 | _ => None
                 end) tr.

(** The threads that invoked the callable of Task [t], in order. *)
Definition invokers (t : task_id) (tr : list event) : list tid :=
  omap (fun e => match e with
                 | EvInvoke i t' _ => if decide (t' = t) then Some i else None
                 | _ => None
                 end) tr.

(** The Tasks thread [i] took from the queue, in order. *)
Definition dequeued (i : tid) (tr : list event) : list task_id :=
  omap (fun e => match e with
                 | EvDequeue i' t _ => if decide (i' = i) then Some t else None
                 | _ => None
                 end) tr.

End Pool.

(* ===================================================================== *)
(** * thread_pool.hpp: the condition variables *)
(* ===================================================================== *)

Module Wakeups.
Import Pool.

(** [Pool.step] tells what a thread does when it runs; it does not tell
    whether a thread inside [condition_variable::wait] is ever woken. Here
    the two condition variables are added to the world: which threads are
    blocked on them, and the calls of [notify_one] and [notify_all] that
    wake them. A blocked thread takes no step until a notification wakes
    it: the standard allows a spurious wake-up but promises none, so what
    a call of [wait] can be relied upon to do is what it does here.

    [cv.wait(lock, pred)] is [while (!pred()) cv.wait(lock);]: the
    predicate is evaluated with the mutex held, and [cv.wait(lock)]
    releases the mutex and blocks in one atomic action. A thread that
    changes what the predicate reads and notifies without holding the
    mutex (lines 128-129, 207-208) can do both between the two. *)

(** [m_work_condition] and [m_complete_condition], lines 217-218. *)
Inductive condition := m_work_condition | m_complete_condition.

#[global] Instance condition_eq_dec : EqDecision condition.
Proof. solve_decision. Defined.

(** Where a thread is with respect to the condition variables. *)
Inductive phase :=
| Running
    (* not inside a wait, and no notification due *)
| Unsatisfied (c : condition)
    (* inside wait(lock, pred): pred() returned false; cv.wait(lock) is next *)
| Blocked (c : condition)
    (* inside cv.wait(lock): the mutex released, not notified *)
| Notifying (c : condition) (all : bool).
    (* the call of notify_one (notify_all when [all]) is next *)

#[global] Instance phase_eq_dec : EqDecision phase.
Proof. solve_decision. Defined.

(** The world of [Pool] and, thread by thread, the phase. *)
Record state := mkState { world_of : world; phases : list phase }.

(** A scheduler's choice: the thread that takes the step and, should the
    step be a [notify_one] with several threads blocked, the one of them
    that is woken. *)
Record turn := Turn { who : tid; wakes : tid }.

Definition is_blocked (c : condition) (ph : phase) : bool :=
  match ph with
  | Blocked c' => bool_decide (c' = c)
  | _ => false
  end.

(** [notify_all]: every thread blocked on [c] is woken. *)
Definition notify_all (c : condition) (phs : list phase) : list phase :=
  map (fun ph => if is_blocked c ph then Running else ph) phs.

(** [notify_one]: nothing happens when no thread is blocked on [c];
    otherwise one of them, [j], is woken. [None] when [j] is not one of
    them. *)
Definition notify_one (c : condition) (j : tid) (phs : list phase)
  : option (list phase) :=
  if existsb (is_blocked c) phs then
    ph ← phs !! j;
    if is_blocked c ph then Some (<[j := Running]> phs) else None
  else Some phs.

(** Where a thread woken inside a wait goes on: at the re-acquisition of
    the mutex, after which the predicate is evaluated again. *)
Definition wakes_at (c : condition) : pc :=
  match c with
  | m_work_condition => WorkLock
  | m_complete_condition => WaitFinalLock
  end.

(** One atomic action. The statements that involve a condition variable
    are written out; every other statement is the action [Pool.step]
    gives it. *)
Definition step (tn : turn) (s : state) : option state :=
  let i := who tn in
  let w := world_of s in
  th ← threads w !! i;
  ph ← phases s !! i;
  match ph with
  | Blocked _ => None
  | Unsatisfied c =>
      (* cv.wait(lock) *)
      Some (mkState (goto i (wakes_at c) th (with_pool (set_mutex None) w))
                    (<[i := Blocked c]> (phases s)))
  | Notifying c all =>
      phs ← (if all then Some (notify_all c (phases s))
             else notify_one c (wakes tn) (phases s));
      Some (mkState w (<[i := Running]> phs))
  | Running =>
      match at_pc th with
      | WaitFinalCv =>
          (* line 180: the predicate *)
          if decide (m_ongoing (pool w) = 0%Z)
          then Some (mkState (goto i Idle th
                                (emit (EvWaitReturn i) (with_pool (set_mutex None) w)))
                             (phases s))
          else Some (mkState w (<[i := Unsatisfied m_complete_condition]> (phases s)))
      | WorkCv =>
          (* line 195: the predicate *)
          if m_quit (pool w) || negb (bool_decide (m_tasks (pool w) = []))
          then Some (mkState (goto i WorkQuit th w) (phases s))
          else Some (mkState w (<[i := Unsatisfied m_work_condition]> (phases s)))
      | AsyncUnlock _ =>
          (* line 150, then m_work_condition.notify_one() of line 151 is due *)
          w' ← Pool.step i w;
          Some (mkState w' (<[i := Notifying m_work_condition false]> (phases s)))
      | WorkDec =>
          (* line 207, then m_complete_condition.notify_one() of line 208 is due *)
          w' ← Pool.step i w;
          Some (mkState w' (<[i := Notifying m_complete_condition false]> (phases s)))
      | DtorQuit =>
          (* line 128, then m_work_condition.notify_all() of line 129 is due *)
          w' ← Pool.step i w;
          Some (mkState w' (<[i := Notifying m_work_condition true]> (phases s)))
      | _ =>
          (* no condition variable; line 175 is one of these *)
          w' ← Pool.step i w;
          Some (mkState w' (phases s))
      end
  end.

(** The constructor, lines 118-125: no thread is inside a wait. *)
Definition ThreadPool_ctor (pool_size : nat) (scripts : list (list call)) : state :=
  mkState (Pool.ThreadPool_ctor pool_size scripts)
          (replicate (pool_size + length scripts) Running).

Fixpoint run (sched : list turn) (s : state) : option state :=
  match sched with
  | [] => Some s
  | tn :: rest => s' ← step tn s; run rest s'
  end.

(** [n] steps of thread [i], none of them a [notify_one] that has to
    choose. *)
Definition turns (n : nat) (i : tid) : list turn := replicate n (Turn i i).

End Wakeups.

(* ===================================================================== *)
(** * Properties of unique_function.hpp *)
(* ===================================================================== *)

Module UniqueFunctionFacts.
Import UniqueFunction.

(** ** The scenarios of test/tests_unique_function.cpp *)

(** x86-64: [alignof(std::max_align_t)] is 16. *)
Definition max_align_x64 : N := 16.

Definition uint32_t : ctype := CType 1 4 4.
Definition int64_t : ctype := CType 2 8 8.
(** [S2<8>], a class around [std::array<uint8_t, 8>]. *)
Definition S2_8 : ctype := CType 3 8 1.

Definition m0 : machine := Machine 0 1024 [] [].

(** The number of calls of [T]'s destructor made through a function pointer. *)
Definition destroyer_calls (tr : list event) : nat :=
  length (List.filter (fun e => match e with EvDestroyer _ _ => true | _ => false end) tr).

(** The number of calls of [T]'s move constructor: the placement
    construction of the stored value and the relocations. *)
Definition move_calls (tr : list event) : nat :=
  length (List.filter (fun e => match e with
                           | EvConstruct _ _ | EvMover _ _ _ => true
                           | _ => false end) tr).

(** TEST_CASE "Inlined data", [Storage<4>]. *)
Example test_inlined_data :
  exists s m1, Storage_ctor max_align_x64 4 0 uint32_t m0 = Done s m1
    /\ is_inlined s = true
    /\ exists s2 s' m2, Storage_move_ctor 1 s m1 = Done (s2, s') m2
    /\ is_inlined s2 = true
    /\ exists t m3, Storage_ctor max_align_x64 4 2 int64_t m2 = Done t m3
    /\ exists s'' t' m4, Storage_move_assign s' t m3 = Done (s'', t') m4
    /\ is_inlined s'' = false.
Proof. repeat first [progress cbv; reflexivity | reflexivity | eexists]. Qed.

(** TEST_CASE "Inlined allocated constructors and destructors", second
    block, [ErasuredType<8>] around [S2<8>]: construct, move, move, then the
    three containers go out of scope. The test requires three moves and,
    the temporary apart, a single destructor call, none of them at a move. *)
Definition inlined_scenario : result unit :=
  (let* i1 := ErasuredType_ctor max_align_x64 8 1 S2_8 in
   let* '(i2, i1') := ErasuredType_move_ctor 2 i1 in
   let* '(i3, i2') := ErasuredType_move_ctor 3 i2 in
   let* _ := ErasuredType_dtor i3 in
   let* _ := ErasuredType_dtor i2' in
   ErasuredType_dtor i1') m0.

Example test_inlined_counters :
  exists m, inlined_scenario = Done tt m
    /\ move_calls (trace m) = 3 /\ destroyer_calls (trace m) = 1.
Proof. eexists; split; [reflexivity|]. split; reflexivity. Qed.

(** TEST_CASE "Heap allocated constructors and destructors", second block,
    [ErasuredType<4>] around [S2<8>]: one move (the construction), one
    destructor call, and the block is freed once. *)
Definition heap_scenario : result unit :=
  (let* i1 := ErasuredType_ctor max_align_x64 4 1 S2_8 in
   let* '(i2, i1') := ErasuredType_move_ctor 2 i1 in
   let* '(i3, i2') := ErasuredType_move_ctor 3 i2 in
   let* _ := ErasuredType_dtor i3 in
   let* _ := ErasuredType_dtor i2' in
   ErasuredType_dtor i1') m0.

Example test_heap_counters :
  exists m, heap_scenario = Done tt m
    /\ move_calls (trace m) = 1 /\ destroyer_calls (trace m) = 1
    /\ live m = [] /\ avail m = 1024%N.
Proof. eexists; split; [reflexivity|]. repeat split; reflexivity. Qed.


(** ** Storage: inline or heap *)

Section Laws.

Variable max_align : N.
Variable cap : N.

Abbreviation Storage_ctor := (Storage_ctor max_align cap).
Abbreviation ErasuredType_ctor := (ErasuredType_ctor max_align cap).

(** The condition of the [if constexpr] of line 51. *)
Definition fits_inline (T : ctype) : bool :=
  ((size_of T <=? cap) && (align_of T <=? max_align))%N.

Lemma fits_inline_spec T :
  fits_inline T = true <-> (size_of T <= cap /\ align_of T <= max_align)%N.
Proof.
  unfold fits_inline. rewrite andb_true_iff, !N.leb_le. tauto.
Qed.

Lemma Storage_ctor_inline this T m :
  fits_inline T = true ->
  Storage_ctor this T m
  = Done (mkStorage this Inline) (emit (EvConstruct T (InlineBuf this)) m).
Proof.
  intros H. unfold UniqueFunction.Storage_ctor. fold (fits_inline T).
  rewrite H. reflexivity.
Qed.

Lemma Storage_ctor_heap this T m :
  fits_inline T = false ->
  exists p m1,
    aligned_alloc (size_of T) (align_of T) m = Done p m1
    /\ trace m1 = trace m ++ [EvAlloc (size_of T) (align_of T) p]
    /\ ((size_of T <= avail m)%N ->
          p = HeapPtr (next_block m)
          /\ live m1 = (next_block m, size_of T) :: live m)
    /\ ((avail m < size_of T)%N -> p = NullPtr /\ m1 = emit (EvAlloc (size_of T) (align_of T) NullPtr) m)
    /\ Storage_ctor this T m
       = match p with
         | NullPtr => Undefined ConstructAtNull m1
         | _ => Done (mkStorage this (Heap (mkAllocation p (size_of T))))
                     (emit (EvConstruct T p) m1)
         end.
Proof.
  intros H. unfold UniqueFunction.Storage_ctor. fold (fits_inline T).
  rewrite H. unfold bind, aligned_alloc.
  destruct (size_of T <=? avail m)%N eqn:Hav.
  - apply N.leb_le in Hav. eexists _, _. split; [reflexivity|].
    split; [reflexivity|]. split; [auto|]. split; [lia | reflexivity].
  - apply N.leb_gt in Hav. eexists _, _. split; [reflexivity|].
    split; [reflexivity|]. split; [lia|]. split; [auto | reflexivity].
Qed.

(** Whatever [Storage_ctor] does, it does not abort and it calls through
    no function pointer. *)
Lemma Storage_ctor_outcome this T m :
  (exists s m', Storage_ctor this T m = Done s m')
  \/ (exists m', Storage_ctor this T m = Undefined ConstructAtNull m').
Proof.
  destruct (fits_inline T) eqn:Hfit.
  - left. rewrite (Storage_ctor_inline this T m Hfit). eauto.
  - destruct (Storage_ctor_heap this T m Hfit) as (p & m1 & _ & _ & _ & _ & ->).
    destruct p; eauto.
Qed.

(** C6. Constructing [Storage<N>] from a value of type [T]: when
    [sizeof(T) <= N] and [alignof(T) <= alignof(std::max_align_t)] the
    value is constructed in the inline buffer, the allocator is not called
    and [is_inlined()] is true; otherwise the allocator is asked for
    exactly [sizeof(T)] bytes aligned to [alignof(T)] (a fresh live block
    of that size when it has the bytes), and with the block it returns the
    Storage records it with size [sizeof(T)], the value is constructed in
    it and [is_inlined()] is false. So a constructed Storage is inline
    exactly when the type fits. *)
Theorem Storage_ctor_inline_iff_fits (this : loc) (T : ctype) (m : machine) :
  ((size_of T <= cap /\ align_of T <= max_align)%N ->
     exists s,
       Storage_ctor this T m = Done s (emit (EvConstruct T (InlineBuf this)) m)
       /\ is_inlined s = true
       /\ pointer s = InlineBuf this)
  /\ (~ (size_of T <= cap /\ align_of T <= max_align)%N ->
        exists p m1,
          aligned_alloc (size_of T) (align_of T) m = Done p m1
          /\ trace m1 = trace m ++ [EvAlloc (size_of T) (align_of T) p]
          /\ ((size_of T <= avail m)%N ->
                p = HeapPtr (next_block m)
                /\ live m1 = (next_block m, size_of T) :: live m)
          /\ (p <> NullPtr ->
                exists s,
                  Storage_ctor this T m = Done s (emit (EvConstruct T p) m1)
                  /\ m_data s = Heap (mkAllocation p (size_of T))
                  /\ pointer s = p
                  /\ is_inlined s = false))
  /\ (forall s m',
        Storage_ctor this T m = Done s m' ->
        (is_inlined s = true <-> (size_of T <= cap /\ align_of T <= max_align)%N)).
Proof.
  split; [|split].
  - intros Hfit. apply fits_inline_spec in Hfit.
    rewrite (Storage_ctor_inline this T m Hfit).
    eexists. split; [reflexivity|]. split; reflexivity.
  - intros Hno. rewrite <- fits_inline_spec in Hno.
    apply not_true_is_false in Hno.
    destruct (Storage_ctor_heap this T m Hno) as (p & m1 & Hal & Htr & Hok & _ & Hrun).
    exists p, m1. split; [exact Hal|]. split; [exact Htr|]. split; [exact Hok|].
    intros Hp. rewrite Hrun.
    destruct p; [| |contradiction]; (eexists; split; [reflexivity|]);
      repeat split; reflexivity.
  - intros s m' Hrun. rewrite <- fits_inline_spec.
    destruct (fits_inline T) eqn:Hfit.
    + rewrite (Storage_ctor_inline this T m Hfit) in Hrun.
      inversion Hrun; subst. cbn. tauto.
    + destruct (Storage_ctor_heap this T m Hfit) as (p & m1 & _ & _ & _ & _ & Hrun').
      rewrite Hrun' in Hrun.
      destruct p; inversion Hrun; subst; cbn; split; discriminate.
Qed.

(** C5, as the code has it. When the value does not fit inline and
    [std::aligned_alloc] fails, the constructor does not look at the pointer
    it got: it goes on to the placement construction with the null
    pointer, where the behaviour is undefined. Nothing aborts the
    process. *)
Theorem Storage_ctor_alloc_failure_unchecked
    (this : loc) (T : ctype) (m : machine) :
  fits_inline T = false ->
  (avail m < size_of T)%N ->
  aligned_alloc (size_of T) (align_of T) m
  = Done NullPtr (emit (EvAlloc (size_of T) (align_of T) NullPtr) m)
  /\ Storage_ctor this T m
     = Undefined ConstructAtNull
         (emit (EvAlloc (size_of T) (align_of T) NullPtr) m)
  /\ Storage_ctor this T m <> Fatal.
Proof.
  intros Hfit Hav.
  destruct (Storage_ctor_heap this T m Hfit) as (p & m1 & Hal & _ & _ & Hnull & Hrun).
  destruct (Hnull Hav) as [-> ->].
  split; [exact Hal|]. rewrite Hrun. split; [reflexivity | discriminate].
Qed.

(** ** ErasuredType: moves, validity and the captured function pointers *)

(** The function pointers of a container that holds a value have been
    assigned. Nothing is asked of a container that holds none. *)
Definition fnptrs_ok (e : ErasuredType) : Prop :=
  m_valid e = true -> is_Some (m_mover e) /\ is_Some (m_destroyer e).

(** The call [m_destroyer(m_storage.pointer())] guarded by [m_valid]. *)
Definition destroy_events (e : ErasuredType) : list event :=
  if m_valid e then
    match m_destroyer e with
    | Some T => [EvDestroyer T (pointer (m_storage e))]
    | None => []
    end
  else [].

(** What [~Storage()] does. *)
Definition free_events (s : Storage) : list event :=
  match m_data s with
  | Heap a => [EvFree (ptr a)]
  | Inline => []
  end.

Lemma aligned_free_trace p m :
  exists m', aligned_free p m = Done tt m' /\ trace m' = trace m ++ [EvFree p].
Proof.
  unfold aligned_free. destruct p; try (eexists; split; reflexivity).
  destruct (release block (live m)); eexists; split; reflexivity.
Qed.

Lemma Storage_dtor_trace s m :
  exists m', Storage_dtor s m = Done tt m' /\ trace m' = trace m ++ free_events s.
Proof.
  unfold Storage_dtor, free_events. destruct (m_data s).
  - eexists; split; [reflexivity|]. cbn. rewrite app_nil_r. reflexivity.
  - apply aligned_free_trace.
Qed.

Lemma guarded_destroy_trace e m :
  fnptrs_ok e ->
  (if m_valid e then
     let* _ := call_destroyer (m_destroyer e) (pointer (m_storage e)) in
     ret (set_valid false e)
   else ret e) m
  = Done (set_valid false e)
         (Machine (next_block m) (avail m) (live m) (trace m ++ destroy_events e)).
Proof.
  intros Hok. unfold destroy_events, fnptrs_ok in *.
  destruct e as [v st mv ds]; cbn in *.
  destruct v; cbn.
  - destruct (Hok eq_refl) as [_ [T ->]]. reflexivity.
  - rewrite app_nil_r. destruct m; reflexivity.
Qed.

Lemma destroy_events_invalid e : m_valid e = false -> destroy_events e = [].
Proof. unfold destroy_events. intros ->. reflexivity. Qed.

(** The shape of every move-assignment from a source that holds a value. *)
Lemma move_assign_from_valid this rhs m T Td :
  m_valid rhs = true ->
  m_mover rhs = Some T ->
  m_destroyer rhs = Some Td ->
  fnptrs_ok this ->
  exists d s m',
    ErasuredType_move_assign this rhs m = Done (d, s) m'
    /\ m_valid d = true /\ m_valid s = false
    /\ m_mover d = Some T /\ m_destroyer d = Some Td
    /\ m_mover s = Some T /\ m_destroyer s = Some Td
    /\ (is_inlined (m_storage rhs) = false ->
          m_storage d = mkStorage (self (m_storage this)) (m_data (m_storage rhs))
          /\ m_storage s = mkStorage (self (m_storage rhs)) Inline
          /\ trace m' = trace m ++ destroy_events this
                                ++ free_events (m_storage this))
    /\ (is_inlined (m_storage rhs) = true ->
          m_storage d = m_storage this
          /\ m_storage s = m_storage rhs
          /\ trace m' = trace m ++ destroy_events this
                ++ [EvMover T (pointer (m_storage this))
                              (InlineBuf (self (m_storage rhs)))]).
Proof.
  intros Hv Hmv Hds Hok.
  unfold ErasuredType_move_assign.
  unfold bind at 1. rewrite (guarded_destroy_trace this m Hok).
  rewrite Hv. cbn [negb].
  destruct (is_inlined (m_storage rhs)) eqn:Hin; cbn [negb].
  - unfold bind. rewrite Hmv. cbn.
    eexists _, _, _. split; [reflexivity|]. cbn.
    repeat split; auto; try discriminate.
    unfold is_inlined, pointer in *. destruct (m_data (m_storage rhs)); [|discriminate].
    rewrite <- app_assoc. reflexivity.
  - unfold Storage_move_assign. unfold bind. cbn [m_storage set_valid].
    set (m1 := Machine _ _ _ _).
    destruct (Storage_dtor_trace (m_storage this) m1) as (m2 & -> & Htr).
    eexists _, _, _. split; [reflexivity|]. cbn.
    repeat split; auto; try discriminate.
    rewrite Htr. subst m1. cbn. rewrite <- app_assoc. reflexivity.
Qed.

(** The destructor of a container that holds no value and no allocation
    does nothing at all. *)
Lemma dtor_of_moved_from s m :
  m_valid s = false ->
  is_inlined (m_storage s) = true ->
  ErasuredType_dtor s m = Done tt m.
Proof.
  intros Hv Hin. unfold ErasuredType_dtor, Storage_dtor, bind. rewrite Hv. cbn.
  unfold is_inlined in Hin. destruct (m_data (m_storage s)); [reflexivity | discriminate].
Qed.

(** [x = std::move(x)]: the value, if any, is destroyed and the container
    is left holding nothing, with the storage and the function pointers it
    had. No relocate call is made and nothing is given to the allocator. *)
Lemma self_move_assign_destroys this m :
  fnptrs_ok this ->
  ErasuredType_move_assign_self this m
  = Done (set_valid false this)
         (Machine (next_block m) (avail m) (live m)
                  (trace m ++ destroy_events this)).
Proof.
  intros Hok. unfold ErasuredType_move_assign_self.
  unfold bind at 1. rewrite (guarded_destroy_trace this m Hok). reflexivity.
Qed.

(** C4, as the code has it. Moving, by construction or by assignment to
    another container, from a container that holds a value: when the
    source's value is on the heap, the destination takes over the
    allocation record (same pointer), no relocate call is made, both
    function pointers are copied and the source is invalidated; when the
    source's value is inline and the destination's storage is inline
    (always so for a move-construction), the source's captured relocate
    function is called once, from the source's buffer to the destination's
    buffer, both function pointers are copied and the source is
    invalidated. The only other events of the move are the destruction of
    the value the destination held and the release of its block: no
    destroyer is called on the source's buffer. And the destructor of the
    source, run after the move, calls no destroyer and frees nothing: it
    leaves the machine as it is. *)
Theorem move_from_valid_source
    (this rhs : ErasuredType) (l : loc) (m : machine) (T Td : ctype) :
  m_valid rhs = true ->
  m_mover rhs = Some T ->
  m_destroyer rhs = Some Td ->
  fnptrs_ok this ->
  self (m_storage this) <> self (m_storage rhs) ->
  l <> self (m_storage rhs) ->
  (is_inlined (m_storage rhs) = true -> is_inlined (m_storage this) = true) ->
  (exists d s m',
     ErasuredType_move_assign this rhs m = Done (d, s) m'
     /\ valid d = true /\ valid s = false
     /\ m_mover d = Some T /\ m_destroyer d = Some Td
     /\ (is_inlined (m_storage rhs) = false ->
           pointer (m_storage d) = pointer (m_storage rhs)
           /\ m_data (m_storage d) = m_data (m_storage rhs)
           /\ trace m' = trace m ++ destroy_events this
                                 ++ free_events (m_storage this))
     /\ (is_inlined (m_storage rhs) = true ->
           pointer (m_storage d) = InlineBuf (self (m_storage this))
           /\ trace m' = trace m ++ destroy_events this
                 ++ [EvMover T (InlineBuf (self (m_storage this)))
                               (InlineBuf (self (m_storage rhs)))]
           /\ forall U, ~ In (EvDestroyer U (InlineBuf (self (m_storage rhs))))
                             (destroy_events this))
     /\ ErasuredType_dtor s m' = Done tt m')
  /\ (exists d s m',
     ErasuredType_move_ctor l rhs m = Done (d, s) m'
     /\ valid d = true /\ valid s = false
     /\ m_mover d = Some T /\ m_destroyer d = Some Td
     /\ (is_inlined (m_storage rhs) = false ->
           pointer (m_storage d) = pointer (m_storage rhs)
           /\ m_data (m_storage d) = m_data (m_storage rhs)
           /\ trace m' = trace m)
     /\ (is_inlined (m_storage rhs) = true ->
           pointer (m_storage d) = InlineBuf l
           /\ trace m' = trace m
                 ++ [EvMover T (InlineBuf l) (InlineBuf (self (m_storage rhs)))])
     /\ ErasuredType_dtor s m' = Done tt m').
Proof.
  intros Hv Hmv Hds Hok Hne Hnel Hdst.
  assert (Hleft : forall e0 d s m',
    (is_inlined (m_storage rhs) = false ->
       m_storage d = mkStorage (self (m_storage e0)) (m_data (m_storage rhs))
       /\ m_storage s = mkStorage (self (m_storage rhs)) Inline
       /\ trace m' = trace m ++ destroy_events e0 ++ free_events (m_storage e0)) ->
    (is_inlined (m_storage rhs) = true ->
       m_storage d = m_storage e0 /\ m_storage s = m_storage rhs
       /\ trace m' = trace m ++ destroy_events e0
             ++ [EvMover T (pointer (m_storage e0))
                           (InlineBuf (self (m_storage rhs)))]) ->
    is_inlined (m_storage s) = true).
  { intros e0 d s m' Hheap Hinl.
    destruct (is_inlined (m_storage rhs)) eqn:Hin.
    - destruct (Hinl eq_refl) as (_ & -> & _). exact Hin.
    - destruct (Hheap eq_refl) as (_ & -> & _). reflexivity. }
  split.
  - destruct (move_assign_from_valid this rhs m T Td Hv Hmv Hds Hok)
      as (d & s & m' & Hrun & Hvd & Hvs & Hm & Hd & _ & _ & Hheap & Hinl).
    exists d, s, m'. split; [exact Hrun|].
    split; [exact Hvd|]. split; [exact Hvs|]. split; [exact Hm|]. split; [exact Hd|].
    split; [|split].
    + intros H. destruct (Hheap H) as (Hst & _ & Htr). rewrite Hst.
      split; [|split; [reflexivity | exact Htr]].
      unfold pointer; cbn. unfold is_inlined in H.
      destruct (m_data (m_storage rhs)); [discriminate | reflexivity].
    + intros H. destruct (Hinl H) as (Hst & _ & Htr). specialize (Hdst H).
      assert (Hp : pointer (m_storage this) = InlineBuf (self (m_storage this))).
      { unfold pointer. unfold is_inlined in Hdst.
        destruct (m_data (m_storage this)); [reflexivity | discriminate]. }
      rewrite Hst, Htr, Hp. split; [reflexivity|]. split; [reflexivity|].
      intros U. unfold destroy_events. rewrite Hp.
      destruct (m_valid this); [|intros []].
      destruct (m_destroyer this); [|intros []].
      intros [Heq|[]]. inversion Heq. congruence.
    + apply dtor_of_moved_from; [exact Hvs|].
      eapply (Hleft this); eassumption.
  - assert (Hok0 : fnptrs_ok (ErasuredType_default l)) by (intros ?; discriminate).
    destruct (move_assign_from_valid (ErasuredType_default l) rhs m T Td
                Hv Hmv Hds Hok0)
      as (d & s & m' & Hrun & Hvd & Hvs & Hm & Hd & _ & _ & Hheap & Hinl).
    exists d, s, m'. split; [exact Hrun|].
    split; [exact Hvd|]. split; [exact Hvs|]. split; [exact Hm|]. split; [exact Hd|].
    split; [|split].
    + intros H. destruct (Hheap H) as (Hst & _ & Htr). rewrite Hst.
      split; [|split; [reflexivity|]].
      * unfold pointer; cbn. unfold is_inlined in H.
        destruct (m_data (m_storage rhs)); [discriminate | reflexivity].
      * rewrite Htr. cbn. rewrite app_nil_r. reflexivity.
    + intros H. destruct (Hinl H) as (Hst & _ & Htr).
      rewrite Hst, Htr. split; reflexivity.
    + apply dtor_of_moved_from; [exact Hvs|].
      eapply (Hleft (ErasuredType_default l)); eassumption.
Qed.


Lemma ErasuredType_dtor_trace e m :
  fnptrs_ok e ->
  exists m',
    ErasuredType_dtor e m = Done tt m'
    /\ trace m' = trace m ++ destroy_events e ++ free_events (m_storage e).
Proof.
  intros Hok. unfold ErasuredType_dtor, destroy_events, fnptrs_ok in *.
  destruct (m_valid e).
  - destruct (Hok eq_refl) as [_ [T HT]]. rewrite HT. unfold bind; cbn.
    destruct (Storage_dtor_trace (m_storage e)
                (emit (EvDestroyer T (pointer (m_storage e))) m))
      as (m' & -> & Htr).
    exists m'. split; [reflexivity|]. rewrite Htr. cbn.
    rewrite <- app_assoc. reflexivity.
  - unfold bind; cbn. apply Storage_dtor_trace.
Qed.

(** Move-assignment from a source that holds nothing. *)
Lemma move_assign_from_invalid this rhs m :
  m_valid rhs = false ->
  fnptrs_ok this ->
  ErasuredType_move_assign this rhs m
  = Done (set_valid false this, rhs)
         (Machine (next_block m) (avail m) (live m)
                  (trace m ++ destroy_events this)).
Proof.
  intros Hv Hok. unfold ErasuredType_move_assign.
  unfold bind at 1. rewrite (guarded_destroy_trace this m Hok).
  rewrite Hv. reflexivity.
Qed.

(** Every move leaves a source that holds nothing and whose destructor
    calls no destroyer, and keeps [fnptrs_ok] on both sides. *)
Lemma move_assign_invariant this rhs m :
  fnptrs_ok this -> fnptrs_ok rhs ->
  exists d s m',
    ErasuredType_move_assign this rhs m = Done (d, s) m'
    /\ fnptrs_ok d /\ fnptrs_ok s
    /\ valid s = false
    /\ destroy_events s = [].
Proof.
  intros Hthis Hrhs. destruct (m_valid rhs) eqn:Hv.
  - destruct (Hrhs Hv) as [[T HT] [Td HTd]].
    destruct (move_assign_from_valid this rhs m T Td Hv HT HTd Hthis)
      as (d & s & m' & Hrun & Hvd & Hvs & Hm & Hd & _).
    exists d, s, m'. split; [exact Hrun|].
    split; [intros _; rewrite Hm, Hd; split; eauto |].
    split; [intros H; congruence |].
    split; [exact Hvs | apply destroy_events_invalid, Hvs].
  - rewrite (move_assign_from_invalid this rhs m Hv Hthis).
    eexists _, _, _. split; [reflexivity|].
    split; [intros H; cbn in H; discriminate |].
    split; [exact Hrhs |].
    split; [exact Hv | apply destroy_events_invalid, Hv].
Qed.

(** C7. [fnptrs_ok] (the function pointers of a container that holds a
    value are assigned) holds of every constructed container and is kept
    by move-assignment, move-construction and destruction; under it no
    member function calls through an unassigned pointer, although the
    pointers of a container that holds nothing may well be unassigned:
    they are read only under [m_valid]. After a move the source reports
    [valid() == false], and the destructor of a container that reports so
    calls no destroyer: all it does is what [~Storage()] does. *)
Theorem validity_guards_function_pointers
    (this rhs : ErasuredType) (l : loc) (T : ctype) (m : machine) :
  fnptrs_ok this ->
  fnptrs_ok rhs ->
  (valid (ErasuredType_default l) = false /\ fnptrs_ok (ErasuredType_default l))
  /\ (forall e m', ErasuredType_ctor l T m = Done e m' ->
        valid e = true /\ fnptrs_ok e)
  /\ (forall m', ErasuredType_ctor l T m <> Undefined UnassignedFunctionPointer m')
  /\ (exists d s m', ErasuredType_move_assign this rhs m = Done (d, s) m'
        /\ fnptrs_ok d /\ fnptrs_ok s /\ valid s = false
        /\ exists m'', ErasuredType_dtor s m' = Done tt m''
             /\ trace m'' = trace m' ++ free_events (m_storage s))
  /\ (exists d s m', ErasuredType_move_ctor l rhs m = Done (d, s) m'
        /\ fnptrs_ok d /\ fnptrs_ok s /\ valid s = false
        /\ exists m'', ErasuredType_dtor s m' = Done tt m''
             /\ trace m'' = trace m' ++ free_events (m_storage s))
  /\ (exists m', ErasuredType_dtor this m = Done tt m'
        /\ (valid this = false ->
              trace m' = trace m ++ free_events (m_storage this))).
Proof.
  intros Hthis Hrhs.
  assert (Hdef : fnptrs_ok (ErasuredType_default l)) by (intros ?; discriminate).
  split; [split; [reflexivity | exact Hdef]|].
  split.
  { intros e m'. unfold UniqueFunction.ErasuredType_ctor, bind.
    destruct (Storage_ctor_outcome l T m) as [(s & m1 & ->) | (m1 & ->)];
      [|discriminate].
    intros [= <- <-]. split; [reflexivity|].
    intros _. cbn. split; eexists; reflexivity. }
  split.
  { intros m'. unfold UniqueFunction.ErasuredType_ctor, bind.
    destruct (Storage_ctor_outcome l T m) as [(s & m1 & ->) | (m1 & ->)];
      discriminate. }
  split.
  { destruct (move_assign_invariant this rhs m Hthis Hrhs)
      as (d & s & m' & Hrun & Hd & Hs & Hvs & Hev).
    exists d, s, m'. split; [exact Hrun|].
    split; [exact Hd|]. split; [exact Hs|]. split; [exact Hvs|].
    destruct (ErasuredType_dtor_trace s m' Hs) as (m'' & Hdt & Htr).
    exists m''. split; [exact Hdt|]. rewrite Htr, Hev. reflexivity. }
  split.
  { destruct (move_assign_invariant (ErasuredType_default l) rhs m Hdef Hrhs)
      as (d & s & m' & Hrun & Hd & Hs & Hvs & Hev).
    exists d, s, m'. split; [exact Hrun|].
    split; [exact Hd|]. split; [exact Hs|]. split; [exact Hvs|].
    destruct (ErasuredType_dtor_trace s m' Hs) as (m'' & Hdt & Htr).
    exists m''. split; [exact Hdt|]. rewrite Htr, Hev. reflexivity. }
  destruct (ErasuredType_dtor_trace this m Hthis) as (m' & Hdt & Htr).
  exists m'. split; [exact Hdt|]. intros Hv.
  rewrite Htr, (destroy_events_invalid this Hv). reflexivity.
Qed.

(** C9. Move-assigning a source that holds nothing ([valid() == false]:
    default-constructed or moved-from) into [d]: the value [d] held, if
    any, is destroyed through [d]'s destroyer, and that is the only event;
    afterwards [d] and the source both report [valid() == false]; [d]'s
    storage and both of its function pointers are what they were, and the
    source is untouched. *)
Theorem move_assign_from_invalid_source
    (d s : ErasuredType) (m : machine) :
  valid s = false ->
  fnptrs_ok d ->
  exists d' s' m',
    ErasuredType_move_assign d s m = Done (d', s') m'
    /\ trace m' = trace m ++ destroy_events d
    /\ valid d' = false /\ valid s' = false
    /\ m_mover d' = m_mover d /\ m_destroyer d' = m_destroyer d
    /\ m_storage d' = m_storage d
    /\ s' = s.
Proof.
  intros Hv Hok. rewrite (move_assign_from_invalid d s m Hv Hok).
  eexists _, _, _. split; [reflexivity|]. cbn.
  split; [reflexivity|]. split; [reflexivity|]. split; [exact Hv|].
  repeat (split; [reflexivity|]). reflexivity.
Qed.

End Laws.

Lemma Storage_ctor_alloc_failure_unchecked_witness :
  Storage_ctor max_align_x64 4 0 int64_t (Machine 0 0 [] [])
  = Undefined ConstructAtNull (Machine 0 0 [] [EvAlloc 8 8 NullPtr]).
Proof.
  apply (Storage_ctor_alloc_failure_unchecked max_align_x64 4 0 int64_t
           (Machine 0 0 [] [])); reflexivity.
Defined.

Lemma Storage_ctor_inline_iff_fits_witness :
  exists s m,
    Storage_ctor max_align_x64 4 0 int64_t m0 = Done s m
    /\ trace m = [EvAlloc 8 8 (HeapPtr 0); EvConstruct int64_t (HeapPtr 0)]
    /\ is_inlined s = false.
Proof.
  destruct (Storage_ctor_inline_iff_fits max_align_x64 4 0 int64_t m0)
    as (_ & Hheap & _).
  destruct Hheap as (p & m1 & Hal & _ & Hfresh & Hdone).
  - cbn. lia.
  - destruct Hfresh as [-> _]; [cbn; lia|].
    destruct Hdone as (s & Hrun & _ & _ & Hin); [discriminate|].
    exists s, (emit (EvConstruct int64_t (HeapPtr (next_block m0))) m1).
    split; [exact Hrun|]. split; [|exact Hin].
    cbv in Hal. inversion Hal; subst m1. reflexivity.
Defined.

(** C5, as stated, fails: [Storage<4>] constructed from an [int64_t] on a
    machine whose allocator has nothing left. The allocator returns the
    null pointer, and the run is not an abort: the constructor goes on with
    the null pointer to the placement construction. *)
Lemma Storage_ctor_alloc_failure_not_fatal :
  aligned_alloc 8 8 (Machine 0 0 [] [])
  = Done NullPtr (Machine 0 0 [] [EvAlloc 8 8 NullPtr])
  /\ Storage_ctor max_align_x64 4 0 int64_t (Machine 0 0 [] [])
     = Undefined ConstructAtNull (Machine 0 0 [] [EvAlloc 8 8 NullPtr])
  /\ Storage_ctor max_align_x64 4 0 int64_t (Machine 0 0 [] []) <> Fatal.
Proof.
  split; [reflexivity|]. split; [cbv; reflexivity | cbv; discriminate].
Qed.

(** ** Concrete containers *)

(** An [ErasuredType<8>] at location 1 that holds an [S2<8>] inline, as
    [ErasuredType_ctor] builds it (see [inline_src_built]). *)
Definition inline_src : ErasuredType :=
  mkErasured true (mkStorage 1 Inline) (Some S2_8) (Some S2_8).

Example inline_src_built :
  exists m, ErasuredType_ctor max_align_x64 8 1 S2_8 m0 = Done inline_src m.
Proof. eexists. cbv. reflexivity. Qed.

(** An [ErasuredType<4>] at location 5 that holds an [int64_t] on the heap. *)
Definition heap_dst : ErasuredType :=
  mkErasured true (mkStorage 5 (Heap (mkAllocation (HeapPtr 0) 8)))
             (Some int64_t) (Some int64_t).

Lemma move_from_valid_source_witness :
  exists d s m',
    ErasuredType_move_ctor 2 inline_src m0 = Done (d, s) m'
    /\ valid d = true /\ valid s = false
    /\ m_mover d = Some S2_8 /\ m_destroyer d = Some S2_8
    /\ trace m' = [EvMover S2_8 (InlineBuf 2) (InlineBuf 1)]
    /\ ErasuredType_dtor s m' = Done tt m'.
Proof.
  destruct (move_from_valid_source (ErasuredType_default 2) inline_src 2 m0
              S2_8 S2_8)
    as [_ (d & s & m' & H1 & H2 & H3 & H4 & H5 & _ & H6 & H8)].
  - reflexivity.
  - reflexivity.
  - reflexivity.
  - intros H; discriminate H.
  - cbn. lia.
  - cbn. lia.
  - intros _; reflexivity.
  - exists d, s, m'. destruct (H6 eq_refl) as [_ H7]. auto 10.
Defined.

(** C4, as stated, fails on its last clause. Move-constructing from the
    container of the test-suite (an [S2<8>] held inline): the relocate
    function is called, the source is invalidated, and no destroyer is
    called on the source's buffer, neither by the move nor afterwards by
    the source's destructor. *)
Lemma move_inline_leaves_remains_undestroyed :
  exists d s m1 m2,
    valid inline_src = true
    /\ is_inlined (m_storage inline_src) = true
    /\ ErasuredType_move_ctor 2 inline_src m0 = Done (d, s) m1
    /\ trace m1 = [EvMover S2_8 (InlineBuf 2) (InlineBuf 1)]
    /\ valid s = false
    /\ ErasuredType_dtor s m1 = Done tt m2
    /\ ~ In (EvDestroyer S2_8 (InlineBuf 1)) (trace m2)
    /\ destroyer_calls (trace m2) = 0.
Proof.
  eexists _, _, _, _.
  split; [reflexivity|]. split; [reflexivity|].
  split; [cbv; reflexivity|]. split; [reflexivity|]. split; [reflexivity|].
  split; [cbv; reflexivity|]. split; [|reflexivity].
  cbn. intros [H | []]. discriminate H.
Qed.

Lemma validity_guards_function_pointers_witness :
  exists d s m',
    ErasuredType_move_assign (ErasuredType_default 7) inline_src m0 = Done (d, s) m'
    /\ valid s = false
    /\ exists m'', ErasuredType_dtor s m' = Done tt m''
         /\ trace m'' = trace m' ++ free_events (m_storage s).
Proof.
  destruct (validity_guards_function_pointers max_align_x64 8
              (ErasuredType_default 7) inline_src 2 S2_8 m0)
    as (_ & _ & _ & (d & s & m' & H1 & _ & _ & H2 & H3) & _).
  - intros H; discriminate H.
  - intros _; split; eexists; reflexivity.
  - exists d, s, m'. auto.
Defined.

Lemma move_assign_from_invalid_source_witness :
  exists d' s' m',
    ErasuredType_move_assign heap_dst (ErasuredType_default 9) m0 = Done (d', s') m'
    /\ trace m' = [EvDestroyer int64_t (HeapPtr 0)]
    /\ valid d' = false /\ valid s' = false
    /\ m_mover d' = Some int64_t /\ m_destroyer d' = Some int64_t
    /\ m_storage d' = m_storage heap_dst.
Proof.
  destruct (move_assign_from_invalid_source heap_dst (ErasuredType_default 9) m0)
    as (d' & s' & m' & H1 & H2 & H3 & H4 & H5 & H6 & H7 & _).
  - reflexivity.
  - intros _; split; eexists; reflexivity.
  - exists d', s', m'. auto 10.
Defined.

End UniqueFunctionFacts.

(* ===================================================================== *)
(** * Properties of UniqueFunction *)
(* ===================================================================== *)

Module FunctionFacts.
Import UniqueFunction UniqueFunctionFacts.

(** ** Where the objects are *)

(** The object an address holds after one more event: a placement
    construction or a relocation starts the lifetime of a [T] at its
    target; a destructor call ends the lifetime of what is there, and so
    does the release of the block; a block just allocated holds nothing.
    The source of a relocation stays what it was: a moved-from [T]. *)
Definition holds_after (p : addr) (o : option ctype) (e : event) : option ctype :=
  match e with
  | EvConstruct T q => if decide (q = p) then Some T else o
  | EvMover T lhs _ => if decide (lhs = p) then Some T else o
  | EvDestroyer _ q => if decide (q = p) then None else o
  | EvFree q => if decide (q = p) then None else o
  | EvAlloc _ _ q => if decide (q = p) then None else o
  end.

(** The object at [p] after the events [tr], from a machine in which
    nothing has been constructed. *)
Definition holds (tr : list event) (p : addr) : option ctype :=
  fold_left (holds_after p) tr None.

(** The blocks an event takes from the allocator or gives back to it. *)
Definition allocator_events (tr : list event) : list event :=
  List.filter (fun e => match e with
                        | EvAlloc _ _ _ | EvFree _ => true
                        | _ => false
                        end) tr.

(** [f] holds a callable of type [F]: the container reports a value, the
    three function pointers are the instantiations for [F], and the
    address the container gives out holds an [F]. *)
Definition owns (f : UniqueFunction) (F : ctype) (tr : list event) : Prop :=
  UniqueFunction_valid f = true
  /\ m_mover (m_type_erasured f) = Some F
  /\ m_destroyer (m_type_erasured f) = Some F
  /\ m_caller f = Some F
  /\ holds tr (ErasuredType_pointer (m_type_erasured f)) = Some F.

Lemma holds_app tr1 tr2 p :
  holds (tr1 ++ tr2) p = fold_left (holds_after p) tr2 (holds tr1 p).
Proof. apply fold_left_app. Qed.

Lemma holds_snoc tr e p : holds (tr ++ [e]) p = holds_after p (holds tr p) e.
Proof. rewrite holds_app. reflexivity. Qed.

(** Events at other addresses do not change what [p] holds. *)
Definition touches (e : event) : addr :=
  match e with
  | EvConstruct _ q | EvDestroyer _ q | EvFree q | EvAlloc _ _ q => q
  | EvMover _ lhs _ => lhs
  end.

Lemma holds_after_other p o e : touches e <> p -> holds_after p o e = o.
Proof.
  destruct e; cbn; intros H; destruct (decide _); congruence.
Qed.

Lemma holds_frame tr1 tr2 p :
  Forall (fun e => touches e <> p) tr2 -> holds (tr1 ++ tr2) p = holds tr1 p.
Proof.
  intros H. rewrite holds_app. generalize (holds tr1 p) as o.
  induction H as [|e tr2 He _ IH]; intros o; cbn; [reflexivity|].
  rewrite holds_after_other by exact He. apply IH.
Qed.

Lemma destroy_events_touch e :
  Forall (fun ev => touches ev = pointer (m_storage e)) (destroy_events e).
Proof.
  unfold destroy_events. destruct (m_valid e); [|constructor].
  destruct (m_destroyer e); repeat constructor.
Qed.

Lemma free_events_touch s :
  Forall (fun ev => touches ev = pointer s) (free_events s).
Proof.
  unfold free_events, pointer. destruct (m_data s); repeat constructor.
Qed.

Lemma Forall_touch_ne (q p : addr) evs :
  q <> p -> Forall (fun ev => touches ev = q) evs ->
  Forall (fun ev => touches ev <> p) evs.
Proof.
  intros Hne H. eapply Forall_impl; [exact H|]. cbn. intros ev ->. exact Hne.
Qed.

Section Function.

Variable max_align : N.
Variable pointer_size : N.

Abbreviation cap := (pointer_size * 4)%N.
Abbreviation UniqueFunction_ctor := (UniqueFunction_ctor max_align pointer_size).

(** What the constructor does, by the two cases of line 51. *)
Lemma UniqueFunction_ctor_cases this F m f m' :
  UniqueFunction_ctor this F m = Done f m' ->
  exists p,
    f = mkFunction
          (mkErasured true
             (mkStorage this (if fits_inline max_align cap F then Inline
                              else Heap (mkAllocation p (size_of F))))
             (Some F) (Some F))
          (Some F)
    /\ ErasuredType_pointer (m_type_erasured f) = p
    /\ (if fits_inline max_align cap F
        then p = InlineBuf this /\ m' = emit (EvConstruct F p) m
        else p = HeapPtr (next_block m)
             /\ (size_of F <= avail m)%N
             /\ m' = Machine (S (next_block m)) (avail m - size_of F)
                             ((next_block m, size_of F) :: live m)
                             (trace m ++ [EvAlloc (size_of F) (align_of F) p;
                                          EvConstruct F p])).
Proof.
  unfold UniqueFunction.UniqueFunction_ctor, ErasuredType_ctor, bind.
  destruct (fits_inline max_align cap F) eqn:Hfit.
  - rewrite (Storage_ctor_inline max_align cap this F m Hfit).
    intros [= <- <-]. exists (InlineBuf this). repeat split; reflexivity.
  - unfold Storage_ctor. fold (fits_inline max_align cap F). rewrite Hfit.
    unfold bind, aligned_alloc.
    destruct (size_of F <=? avail m)%N eqn:Hav; cbn; [|discriminate].
    intros [= <- <-]. exists (HeapPtr (next_block m)).
    apply N.leb_le in Hav. split; [reflexivity|]. split; [reflexivity|].
    split; [reflexivity|]. split; [exact Hav|].
    unfold emit; cbn. rewrite <- app_assoc. reflexivity.
Qed.

(** X1. A UniqueFunction constructed from a callable of type [F] reports
    [valid()], and calling it calls [details::caller<F>] on the address at
    which the callable was constructed, the last thing the constructor
    did: in the container's inline buffer exactly when [F] fits. *)
Theorem constructed_function_calls_its_callable
    (this : loc) (F : ctype) (m : machine) (f : UniqueFunction) (m' : machine) :
  UniqueFunction_ctor this F m = Done f m' ->
  owns f F (trace m')
  /\ UniqueFunction_call f m'
     = Done (Invoke F (ErasuredType_pointer (m_type_erasured f))) m'
  /\ last (trace m')
     = Some (EvConstruct F (ErasuredType_pointer (m_type_erasured f)))
  /\ (ErasuredType_pointer (m_type_erasured f) = InlineBuf this
      <-> (size_of F <= cap /\ align_of F <= max_align)%N).
Proof.
  intros Hrun.
  destruct (UniqueFunction_ctor_cases this F m f m' Hrun) as (p & Hf & Hp & Hcase).
  rewrite <- fits_inline_spec.
  assert (Hlast : trace m' = removelast (trace m') ++ [EvConstruct F p]).
  { destruct (fits_inline max_align cap F).
    - destruct Hcase as [_ ->]. cbn. rewrite removelast_last. reflexivity.
    - destruct Hcase as (_ & _ & ->). cbn.
      change [EvAlloc (size_of F) (align_of F) p; EvConstruct F p]
        with ([EvAlloc (size_of F) (align_of F) p] ++ [EvConstruct F p]).
      rewrite app_assoc, removelast_last. reflexivity. }
  split; [|split; [|split]].
  - unfold owns. rewrite Hp. subst f. cbn.
    repeat (split; [reflexivity|]).
    rewrite Hlast, holds_snoc. cbn. destruct (decide (p = p)); congruence.
  - unfold UniqueFunction_call. rewrite Hp. subst f. reflexivity.
  - rewrite Hp, Hlast. apply last_snoc.
  - rewrite Hp. destruct (fits_inline max_align cap F).
    + destruct Hcase as [-> _]. tauto.
    + destruct Hcase as (-> & _). split; intros H; discriminate H.
Qed.

(** X2. Moving a UniqueFunction, by assignment or by construction, from a
    source that holds a callable of type [F]: the destination then holds
    it (the source's block when the callable is on the heap, the
    destination's own storage when it is inline), calling the destination
    calls [details::caller<F>] on the address that now holds the [F], and
    the source reports [valid() == false]. The destination's storage must
    not be the source's. *)
Theorem moved_function_calls_its_callable
    (this rhs : UniqueFunction) (l : loc) (F : ctype) (m : machine) :
  owns rhs F (trace m) ->
  fnptrs_ok (m_type_erasured this) ->
  ErasuredType_pointer (m_type_erasured this)
  <> ErasuredType_pointer (m_type_erasured rhs) ->
  (exists d s m',
     UniqueFunction_move_assign this rhs m = Done (d, s) m'
     /\ owns d F (trace m')
     /\ UniqueFunction_valid s = false
     /\ UniqueFunction_call d m'
        = Done (Invoke F (ErasuredType_pointer (m_type_erasured d))) m'
     /\ ErasuredType_pointer (m_type_erasured d)
        = if is_inlined (m_storage (m_type_erasured rhs))
          then ErasuredType_pointer (m_type_erasured this)
          else ErasuredType_pointer (m_type_erasured rhs))
  /\ (exists d s m',
     UniqueFunction_move_ctor l rhs m = Done (d, s) m'
     /\ owns d F (trace m')
     /\ UniqueFunction_valid s = false
     /\ UniqueFunction_call d m'
        = Done (Invoke F (ErasuredType_pointer (m_type_erasured d))) m'
     /\ ErasuredType_pointer (m_type_erasured d)
        = if is_inlined (m_storage (m_type_erasured rhs))
          then InlineBuf l
          else ErasuredType_pointer (m_type_erasured rhs)).
Proof.
  intros (Hv & Hmv & Hds & Hcl & Hh) Hok Hne.
  assert (Hgen : forall e0 : ErasuredType,
    fnptrs_ok e0 ->
    (is_inlined (m_storage (m_type_erasured rhs)) = false ->
     Forall (fun ev => touches ev <> ErasuredType_pointer (m_type_erasured rhs))
            (destroy_events e0 ++ free_events (m_storage e0))) ->
    exists e re m',
      ErasuredType_move_assign e0 (m_type_erasured rhs) m = Done (e, re) m'
      /\ owns (mkFunction e (m_caller rhs)) F (trace m')
      /\ m_valid re = false
      /\ pointer (m_storage e)
         = if is_inlined (m_storage (m_type_erasured rhs))
           then pointer (m_storage e0)
           else ErasuredType_pointer (m_type_erasured rhs)).
  { intros e0 Hok0 Hfar.
    destruct (move_assign_from_valid e0 (m_type_erasured rhs) m F F Hv Hmv Hds Hok0)
      as (e & re & m' & Hrun & Hve & Hvs & Hme & Hde & _ & _ & Hheap & Hinl).
    exists e, re, m'. split; [exact Hrun|].
    destruct (is_inlined (m_storage (m_type_erasured rhs))) eqn:Hin.
    - destruct (Hinl eq_refl) as (Hst & _ & Htr).
      assert (Hp : pointer (m_storage e) = pointer (m_storage e0))
        by (rewrite Hst; reflexivity).
      split; [|split; [exact Hvs | exact Hp]].
      unfold owns, UniqueFunction_valid, valid, ErasuredType_pointer. cbn.
      repeat (split; [assumption|]).
      rewrite Hp, Htr, app_assoc, holds_snoc. cbn.
      destruct (decide _); congruence.
    - destruct (Hheap eq_refl) as (Hst & _ & Htr).
      assert (Hp : pointer (m_storage e)
                   = ErasuredType_pointer (m_type_erasured rhs)).
      { rewrite Hst. unfold ErasuredType_pointer, pointer, is_inlined in *. cbn.
        destruct (m_data (m_storage (m_type_erasured rhs))); [discriminate|].
        reflexivity. }
      split; [|split; [exact Hvs | exact Hp]].
      unfold owns, UniqueFunction_valid, valid. cbn.
      repeat (split; [assumption|]).
      unfold ErasuredType_pointer at 1. cbn. rewrite Hp, Htr.
      rewrite holds_frame by (apply Hfar; reflexivity). exact Hh. }
  split.
  - destruct (Hgen (m_type_erasured this) Hok) as (e & re & m' & Hrun & Hown & Hvs & Hp).
    { intros _. apply Forall_app. split.
      - eapply Forall_touch_ne; [exact Hne | apply destroy_events_touch].
      - eapply Forall_touch_ne; [exact Hne | apply free_events_touch]. }
    unfold UniqueFunction_move_assign, bind. rewrite Hrun.
    eexists _, _, _. split; [reflexivity|].
    split; [exact Hown|]. split; [exact Hvs|].
    split; [|exact Hp].
    unfold UniqueFunction_call. cbn. rewrite Hcl. reflexivity.
  - destruct (Hgen (ErasuredType_default l)) as (e & re & m' & Hrun & Hown & Hvs & Hp).
    { intros H; discriminate H. }
    { intros _. constructor. }
    unfold UniqueFunction_move_ctor, ErasuredType_move_ctor, bind. rewrite Hrun.
    eexists _, _, _. split; [reflexivity|].
    split; [exact Hown|]. split; [exact Hvs|].
    split; [|exact Hp].
    unfold UniqueFunction_call. cbn. rewrite Hcl. reflexivity.
Qed.

(** The source of a move of a function that was just constructed. *)
Lemma move_ctor_of_constructed this l F m f m1 :
  UniqueFunction_ctor this F m = Done f m1 ->
  exists d s m2,
    UniqueFunction_move_ctor l f m1 = Done (d, s) m2
    /\ s = mkFunction (mkErasured false (mkStorage this Inline) (Some F) (Some F))
                      (Some F)
    /\ d = mkFunction
             (mkErasured true
                (mkStorage l (if fits_inline max_align cap F then Inline
                              else Heap (mkAllocation (HeapPtr (next_block m))
                                                      (size_of F))))
                (Some F) (Some F))
             (Some F)
    /\ m2 = (if fits_inline max_align cap F
             then emit (EvMover F (InlineBuf l) (InlineBuf this)) m1
             else m1).
Proof.
  intros Hrun.
  destruct (UniqueFunction_ctor_cases this F m f m1 Hrun) as (p & -> & _ & Hcase).
  unfold UniqueFunction_move_ctor, ErasuredType_move_ctor,
    ErasuredType_move_assign, bind. cbn.
  destruct (fits_inline max_align cap F); cbn.
  - eexists _, _, _. repeat split; reflexivity.
  - destruct Hcase as (-> & _ & _).
    eexists _, _, _. split; [reflexivity|]. split; [reflexivity|].
    split; [reflexivity|]. destruct m1; reflexivity.
Qed.

(** X3. [operator()] does not look at [valid()]. Calling a default-constructed
    UniqueFunction calls through the pointer no constructor assigned. And
    a UniqueFunction that has been moved from reports [valid() == false]
    but keeps its [m_caller]: calling it calls [details::caller<F>] on its
    own inline buffer, which holds the moved-from [F] when the callable was
    inline, and which the constructor and the move have left as it was
    when the callable was on the heap. *)
Theorem call_does_not_check_validity
    (this l : loc) (F : ctype) (m : machine) (f : UniqueFunction) (m1 : machine) :
  UniqueFunction_ctor this F m = Done f m1 ->
  UniqueFunction_valid (UniqueFunction_default this) = false
  /\ UniqueFunction_call (UniqueFunction_default this) m
     = Undefined UnassignedFunctionPointer m
  /\ exists d s m2,
       UniqueFunction_move_ctor l f m1 = Done (d, s) m2
       /\ UniqueFunction_valid s = false
       /\ UniqueFunction_call s m2 = Done (Invoke F (InlineBuf this)) m2
       /\ ((size_of F <= cap /\ align_of F <= max_align)%N ->
             holds (trace m2) (InlineBuf this) = Some F)
       /\ (~ (size_of F <= cap /\ align_of F <= max_align)%N ->
             holds (trace m2) (InlineBuf this) = holds (trace m) (InlineBuf this)).
Proof.
  intros Hrun. split; [reflexivity|]. split; [reflexivity|].
  destruct (move_ctor_of_constructed this l F m f m1 Hrun)
    as (d & s & m2 & Hmove & Hs & _ & Hm2).
  destruct (UniqueFunction_ctor_cases this F m f m1 Hrun) as (p & _ & _ & Hcase).
  exists d, s, m2. split; [exact Hmove|]. subst s.
  split; [reflexivity|]. split; [reflexivity|].
  rewrite <- fits_inline_spec.
  destruct (fits_inline max_align cap F).
  - destruct Hcase as [-> ->]. subst m2. split; [|intros H; contradiction H; reflexivity].
    intros _. cbn [trace emit]. rewrite !holds_snoc.
    cbn. destruct (decide (InlineBuf l = InlineBuf this)); [reflexivity|].
    destruct (decide (InlineBuf this = InlineBuf this)); congruence.
  - destruct Hcase as (-> & _ & ->). subst m2. split; [intros H; discriminate H|].
    intros _. cbn [trace]. apply holds_frame.
    repeat constructor; discriminate.
Qed.

(** X4. The whole life of a callable: constructed into a UniqueFunction,
    moved into another, then both destroyed. When the callable fits inline
    the allocator is never called; otherwise one block of [sizeof(F)]
    bytes is allocated and freed, once. Either way the destroyer runs
    once, on the address that holds the callable (what the move left in
    the source's inline buffer is not destroyed), and the allocator is left
    as it was found. *)
Theorem function_lifecycle_is_balanced
    (this l : loc) (F : ctype) (m : machine) (f : UniqueFunction) (m1 : machine) :
  UniqueFunction_ctor this F m = Done f m1 ->
  exists d s m2 m3 m4,
    UniqueFunction_move_ctor l f m1 = Done (d, s) m2
    /\ UniqueFunction_dtor s m2 = Done tt m3
    /\ UniqueFunction_dtor d m3 = Done tt m4
    /\ live m4 = live m /\ avail m4 = avail m
    /\ trace m4
       = trace m ++
         (if fits_inline max_align cap F
          then [EvConstruct F (InlineBuf this);
                EvMover F (InlineBuf l) (InlineBuf this);
                EvDestroyer F (InlineBuf l)]
          else [EvAlloc (size_of F) (align_of F) (HeapPtr (next_block m));
                EvConstruct F (HeapPtr (next_block m));
                EvDestroyer F (HeapPtr (next_block m));
                EvFree (HeapPtr (next_block m))]).
Proof.
  intros Hrun.
  destruct (move_ctor_of_constructed this l F m f m1 Hrun)
    as (d & s & m2 & Hmove & -> & -> & ->).
  destruct (UniqueFunction_ctor_cases this F m f m1 Hrun) as (p & _ & _ & Hcase).
  destruct (fits_inline max_align cap F).
  - destruct Hcase as [-> ->].
    eexists _, _, _, _, _. split; [exact Hmove|].
    split; [reflexivity|]. split; [reflexivity|]. cbn.
    split; [reflexivity|]. split; [reflexivity|].
    rewrite <- !app_assoc. reflexivity.
  - destruct Hcase as (-> & Hav & ->).
    eexists _, _, _, _, _. split; [exact Hmove|].
    split; [reflexivity|].
    split.
    { unfold UniqueFunction_dtor, ErasuredType_dtor, bind. cbn.
      unfold aligned_free. cbn. rewrite Nat.eqb_refl. reflexivity. }
    cbn. split; [reflexivity|]. split; [lia|].
    rewrite <- !app_assoc. reflexivity.
Qed.

End Function.

(** X5. Move-assignment to another container from a source whose value
    is inline leaves the destination's storage as it is, whatever it is:
    the value the destination held is destroyed, the source's value is
    relocated to the address the destination's storage gives out, and the
    allocator is not called. A destination that held a heap allocation
    keeps it, with the size it was allocated with, and goes on reporting
    [is_inlined() == false]; the code does not compare that size with the
    size of the value it relocates into the block. *)
Theorem inline_source_keeps_destination_storage
    (this rhs : ErasuredType) (F Fd : ctype) (m : machine) :
  m_valid rhs = true ->
  m_mover rhs = Some F ->
  m_destroyer rhs = Some Fd ->
  is_inlined (m_storage rhs) = true ->
  fnptrs_ok this ->
  self (m_storage this) <> self (m_storage rhs) ->
  exists d s m',
    ErasuredType_move_assign this rhs m = Done (d, s) m'
    /\ m_storage d = m_storage this
    /\ valid d = true /\ m_mover d = Some F /\ m_destroyer d = Some Fd
    /\ valid s = false
    /\ trace m' = trace m ++ destroy_events this
                  ++ [EvMover F (pointer (m_storage this))
                                (InlineBuf (self (m_storage rhs)))]
    /\ live m' = live m /\ avail m' = avail m /\ next_block m' = next_block m.
Proof.
  intros Hv Hmv Hds Hin Hok _.
  assert (Hp : pointer (m_storage rhs) = InlineBuf (self (m_storage rhs))).
  { unfold pointer. unfold is_inlined in Hin.
    destruct (m_data (m_storage rhs)); [reflexivity | discriminate]. }
  unfold ErasuredType_move_assign.
  unfold bind at 1. rewrite (guarded_destroy_trace this m Hok).
  rewrite Hv, Hin. cbn [negb]. unfold bind. rewrite Hmv, Hp. cbn.
  eexists _, _, _. split; [reflexivity|]. cbn.
  repeat (split; [first [reflexivity | assumption]|]).
  split; [|repeat split; reflexivity].
  rewrite <- app_assoc. reflexivity.
Qed.

(** X25. [x = std::move(x)] on a container: the value it holds, if any, is
    destroyed through its destroyer, and that is all that happens: no
    relocate call is made and the allocator is not called. Afterwards the
    container reports [valid() == false] and has the storage and the two
    function pointers it had; a heap block it held is still allocated and
    still its own, and its destructor frees it without calling the
    destroyer again. *)
Theorem self_move_assignment_destroys_the_value
    (this : ErasuredType) (m : machine) :
  fnptrs_ok this ->
  exists this' m',
    ErasuredType_move_assign_self this m = Done this' m'
    /\ valid this' = false
    /\ m_storage this' = m_storage this
    /\ m_mover this' = m_mover this /\ m_destroyer this' = m_destroyer this
    /\ trace m' = trace m ++ destroy_events this
    /\ (valid this = true ->
          exists T, m_destroyer this = Some T
            /\ destroy_events this = [EvDestroyer T (pointer (m_storage this))])
    /\ (valid this = false -> destroy_events this = [])
    /\ live m' = live m /\ avail m' = avail m /\ next_block m' = next_block m
    /\ exists m'',
         ErasuredType_dtor this' m' = Done tt m''
         /\ trace m'' = trace m' ++ free_events (m_storage this).
Proof.
  intros Hok. rewrite (self_move_assign_destroys this m Hok).
  eexists _, _. split; [reflexivity|]. cbn.
  do 4 (split; [reflexivity|]). split; [reflexivity|]. split; [|split].
  - intros Hv. unfold valid in Hv. destruct (Hok Hv) as [_ [T HT]].
    exists T. split; [exact HT|]. unfold destroy_events. rewrite Hv, HT. reflexivity.
  - intros Hv. apply destroy_events_invalid, Hv.
  - do 3 (split; [reflexivity|]).
    destruct (ErasuredType_dtor_trace (set_valid false this)
                (Machine (next_block m) (avail m) (live m)
                         (trace m ++ destroy_events this)))
      as (m'' & Hrun & Htr).
    { intros H; discriminate H. }
    exists m''. split; [exact Hrun|]. rewrite Htr. reflexivity.
Qed.

(** ** Concrete functions *)

(** x86-64: [sizeof(void* )] is 8, so the container is an
    [ErasuredType<32>]. *)
Definition pointer_size_x64 : N := 8.

(** A lambda that captures 64 bytes. *)
Definition capture64 : ctype := CType 4 64 8.

(** A 32-byte type aligned to 32 bytes ([struct alignas(32)] around 32
    bytes), and a 24-byte type. *)
Definition aligned32 : ctype := CType 5 32 32.
Definition bytes24 : ctype := CType 6 24 8.

Lemma constructed_function_calls_its_callable_witness :
  exists f m',
    UniqueFunction_ctor max_align_x64 pointer_size_x64 1 capture64 m0 = Done f m'
    /\ owns f capture64 (trace m')
    /\ UniqueFunction_call f m' = Done (Invoke capture64 (HeapPtr 0)) m'.
Proof.
  eexists _, _. split; [reflexivity|].
  destruct (constructed_function_calls_its_callable
              max_align_x64 pointer_size_x64 1 capture64 m0 _ _ eq_refl)
    as (Hown & Hcall & _).
  split; [exact Hown | exact Hcall].
Defined.

(** [UniqueFunction<void()>] around an [S2<8>], as its constructor builds
    it at location 1 on [m0]. *)
Definition small_function : UniqueFunction :=
  mkFunction inline_src (Some S2_8).

Example small_function_built :
  UniqueFunction_ctor max_align_x64 pointer_size_x64 1 S2_8 m0
  = Done small_function (emit (EvConstruct S2_8 (InlineBuf 1)) m0).
Proof. reflexivity. Qed.

Lemma moved_function_calls_its_callable_witness :
  exists d s m',
    UniqueFunction_move_ctor 2 small_function
      (emit (EvConstruct S2_8 (InlineBuf 1)) m0) = Done (d, s) m'
    /\ owns d S2_8 (trace m')
    /\ UniqueFunction_valid s = false
    /\ ErasuredType_pointer (m_type_erasured d) = InlineBuf 2.
Proof.
  destruct (moved_function_calls_its_callable
              (UniqueFunction_default 2) small_function 2 S2_8
              (emit (EvConstruct S2_8 (InlineBuf 1)) m0))
    as [_ (d & s & m' & Hrun & Hown & Hvs & _ & Hp)].
  - repeat split; reflexivity.
  - intros H; discriminate H.
  - discriminate.
  - exists d, s, m'. auto.
Defined.

Lemma call_does_not_check_validity_witness :
  exists f m1 d s m2,
    UniqueFunction_ctor max_align_x64 pointer_size_x64 1 capture64 m0 = Done f m1
    /\ UniqueFunction_move_ctor 2 f m1 = Done (d, s) m2
    /\ UniqueFunction_valid s = false
    /\ UniqueFunction_call s m2 = Done (Invoke capture64 (InlineBuf 1)) m2
    /\ holds (trace m2) (InlineBuf 1) = None.
Proof.
  eexists _, _.
  destruct (call_does_not_check_validity
              max_align_x64 pointer_size_x64 1 2 capture64 m0 _ _ eq_refl)
    as (_ & _ & d & s & m2 & Hmove & Hvs & Hcall & _ & Hheap).
  exists d, s, m2. split; [reflexivity|].
  split; [exact Hmove|]. split; [exact Hvs|]. split; [exact Hcall|].
  rewrite Hheap; [reflexivity|]. cbv. intros [H _]. exact (H eq_refl).
Defined.

Lemma function_lifecycle_is_balanced_witness :
  exists f m1 d s m2 m3 m4,
    UniqueFunction_ctor max_align_x64 pointer_size_x64 1 capture64 m0 = Done f m1
    /\ UniqueFunction_move_ctor 2 f m1 = Done (d, s) m2
    /\ UniqueFunction_dtor s m2 = Done tt m3
    /\ UniqueFunction_dtor d m3 = Done tt m4
    /\ live m4 = [] /\ avail m4 = 1024%N
    /\ trace m4 = [EvAlloc 64 8 (HeapPtr 0); EvConstruct capture64 (HeapPtr 0);
                   EvDestroyer capture64 (HeapPtr 0); EvFree (HeapPtr 0)].
Proof.
  eexists _, _.
  destruct (function_lifecycle_is_balanced
              max_align_x64 pointer_size_x64 1 2 capture64 m0 _ _ eq_refl)
    as (d & s & m2 & m3 & m4 & H1 & H2 & H3 & H4 & H5 & H6).
  exists d, s, m2, m3, m4. split; [reflexivity|]. auto 10.
Defined.

(** An [ErasuredType<32>] at location 1 that holds an [aligned32] in a
    block of 32 bytes (the type is too strictly aligned for the inline
    buffer), and one at location 2 that holds a [bytes24] inline. *)
Definition aligned_dst : ErasuredType :=
  mkErasured true (mkStorage 1 (Heap (mkAllocation (HeapPtr 0) 32)))
             (Some aligned32) (Some aligned32).
Definition bytes_src : ErasuredType :=
  mkErasured true (mkStorage 2 Inline) (Some bytes24) (Some bytes24).

(** The machine after the construction of [aligned_dst] on [m0]. *)
Definition m_aligned : machine :=
  Machine 1 992 [(0, 32%N)]
          [EvAlloc 32 32 (HeapPtr 0); EvConstruct aligned32 (HeapPtr 0)].

Example aligned_dst_built :
  ErasuredType_ctor max_align_x64 32 1 aligned32 m0 = Done aligned_dst m_aligned.
Proof. reflexivity. Qed.

Lemma inline_source_keeps_destination_storage_witness :
  exists d s m',
    ErasuredType_move_assign aligned_dst bytes_src m_aligned = Done (d, s) m'
    /\ m_storage d = mkStorage 1 (Heap (mkAllocation (HeapPtr 0) 32))
    /\ m_destroyer d = Some bytes24
    /\ trace m' = trace m_aligned
                  ++ [EvDestroyer aligned32 (HeapPtr 0);
                      EvMover bytes24 (HeapPtr 0) (InlineBuf 2)]
    /\ live m' = [(0, 32%N)].
Proof.
  destruct (inline_source_keeps_destination_storage
              aligned_dst bytes_src bytes24 bytes24 m_aligned)
    as (d & s & m' & Hrun & Hst & _ & _ & Hds & _ & Htr & Hlive & _).
  - reflexivity.
  - reflexivity.
  - reflexivity.
  - reflexivity.
  - intros _. split; eexists; reflexivity.
  - cbn. lia.
  - exists d, s, m'. auto.
Defined.

Lemma self_move_assignment_destroys_the_value_witness :
  exists this' m' m'',
    ErasuredType_move_assign_self aligned_dst m_aligned = Done this' m'
    /\ valid this' = false
    /\ m_storage this' = mkStorage 1 (Heap (mkAllocation (HeapPtr 0) 32))
    /\ trace m' = trace m_aligned ++ [EvDestroyer aligned32 (HeapPtr 0)]
    /\ live m' = [(0, 32%N)]
    /\ ErasuredType_dtor this' m' = Done tt m''
    /\ trace m'' = trace m' ++ [EvFree (HeapPtr 0)].
Proof.
  destruct (self_move_assignment_destroys_the_value aligned_dst m_aligned)
    as (this' & m' & Hrun & Hv & Hst & _ & _ & Htr & _ & _ & Hlive & _ & _
        & m'' & Hdt & Htr').
  - intros _. split; eexists; reflexivity.
  - exists this', m', m''. split; [exact Hrun|]. split; [exact Hv|].
    split; [exact Hst|]. split; [exact Htr|]. split; [exact Hlive|].
    split; [exact Hdt | exact Htr'].
Defined.

End FunctionFacts.

(* ===================================================================== *)
(** * Memory safety of ErasuredType *)
(* ===================================================================== *)

Module ErasureSafety.
Import UniqueFunction UniqueFunctionFacts FunctionFacts.

(** ** Clients *)

(** The statements of a client of [ErasuredType<N>]. Every container is
    an object at a location of its own. *)
Inductive op :=
| New (l : loc) (T : ctype)   (* ErasuredType<N> x(T{...});  x is at l *)
| NewEmpty (l : loc)          (* ErasuredType<N> x; *)
| MoveNew (l r : loc)         (* ErasuredType<N> x(std::move(y));  y is at r *)
| Assign (l r : loc)          (* x = std::move(y); *)
| Delete (l : loc).           (* x goes out of scope *)

(** The containers that are alive, by location. *)
Definition store := loc -> option ErasuredType.

Definition no_objects : store := fun _ => None.

Definition upd (l : loc) (v : option ErasuredType) (s : store) : store :=
  fun l' => if decide (l' = l) then v else s l'.

Section Client.

Variable max_align : N.
Variable cap : N.

(** One statement. [None] when the statement is not one of a C++ program
    with these objects: it names a container that is not alive, or
    declares one where one is alive. *)
Definition exec (o : op) (s : store) : option (M store) :=
  match o with
  | New l T =>
      match s l with
      | None => Some (let* e := ErasuredType_ctor max_align cap l T in
                      ret (upd l (Some e) s))
      | Some _ => None
      end
  | NewEmpty l =>
      match s l with
      | None => Some (ret (upd l (Some (ErasuredType_default l)) s))
      | Some _ => None
      end
  | MoveNew l r =>
      match s l, s r with
      | None, Some er =>
          Some (let* '(d, sr) := ErasuredType_move_ctor l er in
                ret (upd l (Some d) (upd r (Some sr) s)))
      | _, _ => None
      end
  | Assign l r =>
      match s l, s r with
      | Some el, Some er =>
          if decide (l = r)
          then Some (let* d := ErasuredType_move_assign_self el in
                     ret (upd l (Some d) s))
          else Some (let* '(d, sr) := ErasuredType_move_assign el er in
                     ret (upd l (Some d) (upd r (Some sr) s)))
      | _, _ => None
      end
  | Delete l =>
      match s l with
      | Some e => Some (let* _ := ErasuredType_dtor e in ret (upd l None s))
      | None => None
      end
  end.

(** A client: its statements in order, until one of them is undefined. *)
Fixpoint run_ops (ops : list op) (s : store) (m : machine) : option (result store) :=
  match ops with
  | [] => Some (Done s m)
  | o :: rest =>
      c ← exec o s;
      match c m with
      | Done s' m' => run_ops rest s' m'
      | Undefined why m' => Some (Undefined why m')
      | Fatal => Some Fatal
      end
  end.

End Client.

(** ** What the trace must look like *)

(** Whether block [b] is allocated after one more event. *)
Definition allocated_after (b : nat) (a : bool) (e : event) : bool :=
  match e with
  | EvAlloc _ _ (HeapPtr b') => if decide (b' = b) then true else a
  | EvFree (HeapPtr b') => if decide (b' = b) then false else a
  | _ => a
  end.

Definition allocated (tr : list event) (b : nat) : bool :=
  fold_left (allocated_after b) tr false.

(** Memory in which an object can be constructed: the inline buffer of a
    container, or a block that is allocated. *)
Definition usable (tr : list event) (p : addr) : Prop :=
  match p with
  | InlineBuf _ => True
  | HeapPtr b => allocated tr b = true
  | NullPtr => False
  end.

(** What an event requires of the events before it: a destructor runs on
    an object of its type; a relocation moves from an object of its type
    into usable memory elsewhere; an object is constructed in usable
    memory; and what is freed is a block that is allocated. *)
Definition event_ok (before : list event) (e : event) : Prop :=
  match e with
  | EvDestroyer T p => holds before p = Some T
  | EvMover T lhs rhs => holds before rhs = Some T /\ usable before lhs /\ lhs <> rhs
  | EvConstruct T p => usable before p
  | EvFree p => exists b, p = HeapPtr b /\ allocated before b = true
  | EvAlloc _ _ _ => True
  end.

Definition sound (tr : list event) : Prop :=
  forall tr1 e tr2, tr = tr1 ++ e :: tr2 -> event_ok tr1 e.

Lemma sound_snoc tr e : sound tr -> event_ok tr e -> sound (tr ++ [e]).
Proof.
  intros Hs He tr1 e' tr2 Heq.
  destruct tr2 as [|x tr2 _] using rev_ind.
  - apply app_inj_tail in Heq as [-> ->]. exact He.
  - rewrite app_comm_cons, app_assoc in Heq.
    apply app_inj_tail in Heq as [Heq _]. eapply Hs, Heq.
Qed.

Lemma allocated_snoc tr e b :
  allocated (tr ++ [e]) b = allocated_after b (allocated tr b) e.
Proof. unfold allocated. rewrite fold_left_app. reflexivity. Qed.

(** ** The invariant *)

(** Every container is where the store says; a container that holds a
    value has the function pointers of the type of the object at the
    address it gives out; a heap allocation belongs to one container and
    is a live block of the allocator, and the allocator has no other live
    block; the trace is sound. *)
Record Safe (s : store) (m : machine) : Prop := mkSafe {
  sf_self : forall l e, s l = Some e -> self (m_storage e) = l;
  sf_value : forall l e, s l = Some e -> m_valid e = true ->
      exists T, m_mover e = Some T /\ m_destroyer e = Some T
                /\ holds (trace m) (pointer (m_storage e)) = Some T;
  sf_block : forall l e a, s l = Some e -> m_data (m_storage e) = Heap a ->
      exists b, ptr a = HeapPtr b /\ In (b, size a) (live m);
  sf_owner : forall l l' e e' a a',
      s l = Some e -> s l' = Some e' ->
      m_data (m_storage e) = Heap a -> m_data (m_storage e') = Heap a' ->
      ptr a = ptr a' -> l = l';
  sf_owned : forall b sz, In (b, sz) (live m) ->
      exists l e a, s l = Some e /\ m_data (m_storage e) = Heap a
                    /\ ptr a = HeapPtr b;
  sf_live : NoDup (map fst (live m))
            /\ forall b sz, In (b, sz) (live m) -> b < next_block m;
  sf_allocated : forall b, allocated (trace m) b = true <-> In b (map fst (live m));
  sf_sound : sound (trace m)
}.

Lemma upd_eq l v s : upd l v s l = v.
Proof. unfold upd. destruct (decide (l = l)); congruence. Qed.

Lemma upd_ne l l' v s : l' <> l -> upd l v s l' = s l'.
Proof. unfold upd. intros H. destruct (decide (l' = l)); congruence. Qed.

Lemma pointer_cases e :
  (m_data (m_storage e) = Inline
   /\ pointer (m_storage e) = InlineBuf (self (m_storage e)))
  \/ (exists a, m_data (m_storage e) = Heap a /\ pointer (m_storage e) = ptr a).
Proof.
  unfold pointer. destruct (m_data (m_storage e)); [left | right]; eauto.
Qed.

(** Two containers do not give out the same address. *)
Lemma Safe_pointer_inj s m l l' e e' :
  Safe s m -> s l = Some e -> s l' = Some e' ->
  pointer (m_storage e) = pointer (m_storage e') -> l = l'.
Proof.
  intros HS Hl Hl' Hp.
  destruct (pointer_cases e) as [[Hd He]|(a & Hd & He)];
    destruct (pointer_cases e') as [[Hd' He']|(a' & Hd' & He')];
    rewrite He, He' in Hp.
  - inversion Hp as [Hq].
    rewrite (sf_self s m HS l e Hl), (sf_self s m HS l' e' Hl') in Hq. exact Hq.
  - destruct (sf_block s m HS l' e' a' Hl' Hd') as (b & Hb & _). congruence.
  - destruct (sf_block s m HS l e a Hl Hd) as (b & Hb & _). congruence.
  - eapply (sf_owner s m HS); eassumption.
Qed.

Lemma Safe_usable s m l e :
  Safe s m -> s l = Some e -> usable (trace m) (pointer (m_storage e)).
Proof.
  intros HS Hl. destruct (pointer_cases e) as [[_ ->]|(a & Hd & ->)]; [exact I|].
  destruct (sf_block s m HS l e a Hl Hd) as (b & -> & Hin). cbn.
  apply (sf_allocated s m HS). apply (in_map fst) in Hin. exact Hin.
Qed.

Lemma Safe_ext s s' m : (forall l, s' l = s l) -> Safe s m -> Safe s' m.
Proof.
  intros Hext [H1 H2 H3 H4 H5 H6 H7 H8]. split; auto.
  - intros l e. rewrite Hext. apply H1.
  - intros l e. rewrite Hext. apply H2.
  - intros l e a. rewrite Hext. apply H3.
  - intros l l' e e' a a'. rewrite !Hext. apply H4.
  - intros b sz Hin. destruct (H5 b sz Hin) as (l & e & a & Hl & Hd & Hp).
    exists l, e, a. rewrite Hext. auto.
Qed.

(** An update that leaves every container's storage and the allocator as
    they are. *)
Lemma Safe_restate s m s' m' :
  Safe s m ->
  (forall l e', s' l = Some e' -> exists e, s l = Some e /\ m_storage e' = m_storage e) ->
  (forall l e, s l = Some e -> exists e', s' l = Some e' /\ m_storage e' = m_storage e) ->
  live m' = live m ->
  next_block m' = next_block m ->
  (forall l e', s' l = Some e' -> m_valid e' = true ->
     exists T, m_mover e' = Some T /\ m_destroyer e' = Some T
               /\ holds (trace m') (pointer (m_storage e')) = Some T) ->
  (forall b, allocated (trace m') b = allocated (trace m) b) ->
  sound (trace m') ->
  Safe s' m'.
Proof.
  intros HS Hback Hforth Hlive Hnext Hvalue Halloc Hsound. split.
  - intros l e' Hl. destruct (Hback l e' Hl) as (e & He & ->).
    apply (sf_self s m HS l e He).
  - exact Hvalue.
  - intros l e' a Hl Hd. destruct (Hback l e' Hl) as (e & He & Hst).
    rewrite Hst in Hd. rewrite Hlive. apply (sf_block s m HS l e a He Hd).
  - intros l l' e1 e2 a a' Hl Hl' Hd Hd' Hp.
    destruct (Hback l e1 Hl) as (x & Hx & Hsx).
    destruct (Hback l' e2 Hl') as (y & Hy & Hsy).
    rewrite Hsx in Hd. rewrite Hsy in Hd'.
    apply (sf_owner s m HS l l' x y a a' Hx Hy Hd Hd' Hp).
  - intros b sz Hin. rewrite Hlive in Hin.
    destruct (sf_owned s m HS b sz Hin) as (l & e & a & Hl & Hd & Hp).
    destruct (Hforth l e Hl) as (e' & Hl' & Hst).
    exists l, e', a. rewrite Hst. auto.
  - rewrite Hlive, Hnext. apply (sf_live s m HS).
  - intros b. rewrite Halloc, Hlive. apply (sf_allocated s m HS).
  - exact Hsound.
Qed.

Ltac upd_cases H l' l :=
  unfold upd in H; destruct (decide (l' = l)) as [->|?].

(** The value of the container at [l] is destroyed (lines 174-177 and
    198-200). *)
Lemma safe_destroy s m l e T :
  Safe s m -> s l = Some e -> m_valid e = true -> m_destroyer e = Some T ->
  Safe (upd l (Some (set_valid false e)) s)
       (emit (EvDestroyer T (pointer (m_storage e))) m).
Proof.
  intros HS Hl Hv Hd.
  destruct (sf_value s m HS l e Hl Hv) as (T' & _ & Hd' & Hh).
  assert (T' = T) by congruence. subst T'.
  apply (Safe_restate s m); try exact HS; try reflexivity.
  - intros l' e' H. upd_cases H l' l; [|eauto].
    inversion H; subst e'. eauto.
  - intros l' e' H. unfold upd. destruct (decide (l' = l)) as [->|]; [|eauto].
    assert (e' = e) by congruence. subst e'. eauto.
  - intros l' e' H Hv'. upd_cases H l' l.
    + inversion H; subst e'. discriminate Hv'.
    + destruct (sf_value s m HS l' e' H Hv') as (U & Hm & Hds & Hh').
      exists U. split; [exact Hm|]. split; [exact Hds|]. cbn [trace emit].
      rewrite holds_frame; [exact Hh'|]. repeat constructor. cbn.
      intros Hp. apply n. symmetry.
      eapply (Safe_pointer_inj s m l l'); eassumption.
  - intros b. cbn [trace emit]. apply allocated_snoc.
  - cbn [trace emit]. apply sound_snoc; [apply (sf_sound s m HS) | exact Hh].
Qed.

(** The value of the container at [r], which is inline, is relocated into
    the storage of the container at [l] (line 187, with lines 189-193). *)
Lemma safe_relocate s m l r el er T :
  Safe s m -> l <> r -> s l = Some el -> s r = Some er ->
  m_valid er = true -> m_mover er = Some T ->
  Safe (upd l (Some (mkErasured true (m_storage el) (m_mover er) (m_destroyer er)))
          (upd r (Some (set_valid false er)) s))
       (emit (EvMover T (pointer (m_storage el)) (pointer (m_storage er))) m).
Proof.
  intros HS Hne Hl Hr Hv Hmv.
  destruct (sf_value s m HS r er Hr Hv) as (T' & Hmv' & Hds & Hh).
  assert (T' = T) by congruence. subst T'.
  assert (Hpp : pointer (m_storage el) <> pointer (m_storage er)).
  { intros Hp. apply Hne. eapply (Safe_pointer_inj s m l r); eassumption. }
  apply (Safe_restate s m); try exact HS; try reflexivity.
  - intros l' e' H. upd_cases H l' l.
    { inversion H; subst e'. eauto. }
    upd_cases H l' r; [|eauto]. inversion H; subst e'. eauto.
  - intros l' e' H. unfold upd. destruct (decide (l' = l)) as [->|].
    { assert (e' = el) by congruence. subst e'. eauto. }
    destruct (decide (l' = r)) as [->|]; [|eauto].
    assert (e' = er) by congruence. subst e'. eauto.
  - intros l' e' H Hv'. upd_cases H l' l.
    { inversion H; subst e'. exists T.
      cbn [m_mover m_destroyer m_storage trace emit]. rewrite Hmv, Hds.
      split; [reflexivity|]. split; [reflexivity|].
      rewrite holds_snoc. cbn. destruct (decide _); congruence. }
    upd_cases H l' r.
    { inversion H; subst e'. discriminate Hv'. }
    destruct (sf_value s m HS l' e' H Hv') as (U & Hm & Hd & Hh').
    exists U. split; [exact Hm|]. split; [exact Hd|]. cbn [trace emit].
    rewrite holds_frame; [exact Hh'|]. repeat constructor. cbn.
    intros Hp. apply n. symmetry.
    eapply (Safe_pointer_inj s m l l'); eassumption.
  - intros b. cbn [trace emit]. apply allocated_snoc.
  - cbn [trace emit]. apply sound_snoc; [apply (sf_sound s m HS)|]. cbn.
    split; [exact Hh|]. split; [|exact Hpp].
    eapply Safe_usable; eassumption.
Qed.

(** What [free] does to the allocator's blocks. *)
Lemma release_spec b l :
  NoDup (map fst l) ->
  (forall x, In x (release b l).1 <-> In x l /\ x.1 <> b)
  /\ NoDup (map fst (release b l).1).
Proof.
  induction l as [|[b' sz] l IH]; intros Hnd; cbn.
  - split; [tauto | constructor].
  - cbn in Hnd. apply NoDup_cons in Hnd as [Hnotin Hnd].
    destruct (IH Hnd) as [IH1 IH2].
    destruct (Nat.eqb b b') eqn:Hb.
    + apply Nat.eqb_eq in Hb. subst b'. cbn. split; [|exact Hnd].
      intros x. split.
      * intros Hx. split; [auto|]. intros Heq. apply Hnotin.
        apply list_elem_of_In. rewrite <- Heq. apply in_map, Hx.
      * intros [[<-|Hx] Hne]; [contradiction Hne; reflexivity | exact Hx].
    + apply Nat.eqb_neq in Hb. destruct (release b l) as [r n] eqn:Hrel. cbn in *.
      split.
      * intros x. rewrite IH1. split.
        -- intros [<-|[Hx Hne]]; [split; [auto | cbn; congruence] | auto].
        -- intros [[<-|Hx] Hne]; auto.
      * apply NoDup_cons. split; [|exact IH2].
        intros Hin. apply Hnotin. apply list_elem_of_In in Hin.
        apply list_elem_of_In. apply in_map_iff in Hin as (x & Hx1 & Hx2).
        apply IH1 in Hx2 as [Hx2 _]. apply in_map_iff. eauto.
Qed.

(** [details::aligned_free] on a live block. *)
Lemma aligned_free_live b m :
  exists m',
    aligned_free (HeapPtr b) m = Done tt m'
    /\ trace m' = trace m ++ [EvFree (HeapPtr b)]
    /\ next_block m' = next_block m
    /\ live m' = (release b (live m)).1.
Proof.
  unfold aligned_free. destruct (release b (live m)) as [l n].
  eexists. repeat split; reflexivity.
Qed.

(** The block of the container at [l], which holds no value, is given
    back (lines 92-96, called from line 85 or at the end of the
    destructor). *)
Lemma safe_free s m m' l e a b :
  Safe s m -> s l = Some e -> m_valid e = false ->
  m_data (m_storage e) = Heap a -> ptr a = HeapPtr b ->
  trace m' = trace m ++ [EvFree (HeapPtr b)] ->
  next_block m' = next_block m ->
  live m' = (release b (live m)).1 ->
  Safe (upd l (Some (mkErasured false (mkStorage l Inline) (m_mover e)
                                (m_destroyer e))) s) m'.
Proof.
  intros HS Hl Hv Hd Hb Htr Hnext Hlive.
  destruct (sf_live s m HS) as [Hnd Hbound].
  destruct (release_spec b (live m) Hnd) as [Hrel Hnd'].
  rewrite <- Hlive in Hrel, Hnd'.
  assert (Hmine : forall l' e' a', s l' = Some e' -> l' <> l ->
            m_data (m_storage e') = Heap a' -> ptr a' <> HeapPtr b).
  { intros l' e' a' Hl' Hne Hd' Hp. apply Hne.
    eapply (sf_owner s m HS l' l); try eassumption. congruence. }
  split.
  - intros l' e' H. upd_cases H l' l; [inversion H; reflexivity|].
    apply (sf_self s m HS l' e' H).
  - intros l' e' H Hv'. upd_cases H l' l; [inversion H; subst e'; discriminate|].
    destruct (sf_value s m HS l' e' H Hv') as (U & Hm & Hds & Hh).
    exists U. split; [exact Hm|]. split; [exact Hds|]. rewrite Htr.
    rewrite holds_frame; [exact Hh|]. repeat constructor. cbn. intros Hp.
    destruct (pointer_cases e') as [[_ He']|(a' & Hd' & He')]; rewrite He' in Hp.
    + discriminate.
    + eapply Hmine; eauto.
  - intros l' e' a' H Hd'. upd_cases H l' l; [inversion H; subst e'; discriminate|].
    destruct (sf_block s m HS l' e' a' H Hd') as (b' & Hb' & Hin).
    exists b'. split; [exact Hb'|]. apply Hrel. split; [exact Hin|]. cbn.
    intros ->. eapply Hmine; eauto.
  - intros l1 l2 e1 e2 a1 a2 H1 H2 Hd1 Hd2 Hp.
    upd_cases H1 l1 l; [inversion H1; subst e1; discriminate|].
    upd_cases H2 l2 l; [inversion H2; subst e2; discriminate|].
    eapply (sf_owner s m HS); eassumption.
  - intros b' sz Hin. apply Hrel in Hin as [Hin Hne]. cbn in Hne.
    destruct (sf_owned s m HS b' sz Hin) as (lo & eo & ao & Hlo & Hdo & Hpo).
    exists lo, eo, ao. rewrite upd_ne; [auto|].
    intros ->. assert (eo = e) by congruence. subst eo.
    assert (ao = a) by congruence. subst ao. congruence.
  - split; [exact Hnd'|]. intros b' sz Hin. apply Hrel in Hin as [Hin _].
    rewrite Hnext. eapply Hbound, Hin.
  - intros b'. rewrite Htr, allocated_snoc. cbn.
    rewrite in_map_iff. destruct (decide (b = b')) as [->|Hne].
    + split; [discriminate|]. intros ([b1 sz] & Hb1 & Hin). cbn in Hb1. subst b1.
      apply Hrel in Hin as [_ Hx]. contradiction Hx. reflexivity.
    + rewrite (sf_allocated s m HS b'), in_map_iff. split.
      * intros (x & Hx & Hin). exists x. split; [exact Hx|]. apply Hrel.
        split; [exact Hin | congruence].
      * intros (x & Hx & Hin). exists x. split; [exact Hx|]. apply Hrel, Hin.
  - rewrite Htr. apply sound_snoc; [apply (sf_sound s m HS)|].
    exists b. split; [reflexivity|]. apply (sf_allocated s m HS).
    destruct (sf_block s m HS l e a Hl Hd) as (b0 & Hb0 & Hin).
    assert (b0 = b) by congruence. subst b0. apply (in_map fst) in Hin. exact Hin.
Qed.

(** The allocation of the container at [r] becomes the one of the
    container at [l], which holds no value and no allocation (lines 86-87
    with lines 189-193). *)
Lemma safe_transfer s m l r el er a :
  Safe s m -> l <> r -> s l = Some el -> s r = Some er ->
  m_valid el = false -> m_data (m_storage el) = Inline ->
  m_valid er = true -> m_data (m_storage er) = Heap a ->
  Safe (upd l (Some (mkErasured true (mkStorage l (Heap a))
                                (m_mover er) (m_destroyer er)))
          (upd r (Some (mkErasured false (mkStorage r Inline)
                                   (m_mover er) (m_destroyer er))) s))
       m.
Proof.
  intros HS Hne Hl Hr Hvl Hdl Hvr Hdr.
  destruct (sf_value s m HS r er Hr Hvr) as (T & Hmv & Hds & Hh).
  assert (Hpr : pointer (m_storage er) = ptr a) by (unfold pointer; rewrite Hdr; reflexivity).
  split.
  - intros l' e' H. upd_cases H l' l; [inversion H; reflexivity|].
    upd_cases H l' r; [inversion H; reflexivity|].
    apply (sf_self s m HS l' e' H).
  - intros l' e' H Hv'. upd_cases H l' l.
    { inversion H; subst e'. exists T. cbn. rewrite <- Hpr. auto. }
    upd_cases H l' r; [inversion H; subst e'; discriminate|].
    apply (sf_value s m HS l' e' H Hv').
  - intros l' e' a' H Hd'. upd_cases H l' l.
    { inversion H; subst e'. cbn in Hd'. inversion Hd'; subst a'.
      apply (sf_block s m HS r er a Hr Hdr). }
    upd_cases H l' r; [inversion H; subst e'; discriminate|].
    apply (sf_block s m HS l' e' a' H Hd').
  - intros l1 l2 e1 e2 a1 a2 H1 H2 Hd1 Hd2 Hp.
    upd_cases H1 l1 l; upd_cases H2 l2 l; try reflexivity.
    + inversion H1; subst e1. cbn in Hd1. inversion Hd1; subst a1.
      upd_cases H2 l2 r; [inversion H2; subst e2; discriminate|].
      exfalso. apply n0. symmetry.
      eapply (sf_owner s m HS r l2); eassumption.
    + inversion H2; subst e2. cbn in Hd2. inversion Hd2; subst a2.
      upd_cases H1 l1 r; [inversion H1; subst e1; discriminate|].
      exfalso. apply n0.
      eapply (sf_owner s m HS l1 r); eassumption.
    + upd_cases H1 l1 r; [inversion H1; subst e1; discriminate|].
      upd_cases H2 l2 r; [inversion H2; subst e2; discriminate|].
      eapply (sf_owner s m HS); eassumption.
  - intros b sz Hin.
    destruct (sf_owned s m HS b sz Hin) as (lo & eo & ao & Hlo & Hdo & Hpo).
    destruct (decide (lo = r)) as [->|Hnr].
    + assert (eo = er) by congruence. subst eo.
      assert (ao = a) by congruence. subst ao.
      eexists l, _, a. rewrite upd_eq. split; [reflexivity|]. auto.
    + assert (lo <> l).
      { intros ->. assert (eo = el) by congruence. subst eo. congruence. }
      exists lo, eo, ao. rewrite !upd_ne by assumption. auto.
  - apply (sf_live s m HS).
  - apply (sf_allocated s m HS).
  - apply (sf_sound s m HS).
Qed.

(** A container that holds no value and no allocation goes away. *)
Lemma safe_remove s m l e :
  Safe s m -> s l = Some e -> m_valid e = false ->
  m_data (m_storage e) = Inline ->
  Safe (upd l None s) m.
Proof.
  intros HS Hl Hv Hd. split.
  - intros l' e' H. upd_cases H l' l; [discriminate|]. apply (sf_self s m HS l' e' H).
  - intros l' e' H. upd_cases H l' l; [discriminate|]. apply (sf_value s m HS l' e' H).
  - intros l' e' a H. upd_cases H l' l; [discriminate|].
    apply (sf_block s m HS l' e' a H).
  - intros l1 l2 e1 e2 a1 a2 H1 H2.
    upd_cases H1 l1 l; [discriminate|]. upd_cases H2 l2 l; [discriminate|].
    apply (sf_owner s m HS l1 l2 e1 e2 a1 a2 H1 H2).
  - intros b sz Hin.
    destruct (sf_owned s m HS b sz Hin) as (lo & eo & ao & Hlo & Hdo & Hpo).
    exists lo, eo, ao. rewrite upd_ne; [auto|].
    intros ->. assert (eo = e) by congruence. subst eo. congruence.
  - apply (sf_live s m HS).
  - apply (sf_allocated s m HS).
  - apply (sf_sound s m HS).
Qed.

(** A container that holds no value and no allocation appears. *)
Lemma safe_add s m l mv ds :
  Safe s m -> s l = None ->
  Safe (upd l (Some (mkErasured false (mkStorage l Inline) mv ds)) s) m.
Proof.
  intros HS Hl. split.
  - intros l' e' H. upd_cases H l' l; [inversion H; reflexivity|].
    apply (sf_self s m HS l' e' H).
  - intros l' e' H. upd_cases H l' l; [inversion H; subst e'; discriminate|].
    apply (sf_value s m HS l' e' H).
  - intros l' e' a H. upd_cases H l' l; [inversion H; subst e'; discriminate|].
    apply (sf_block s m HS l' e' a H).
  - intros l1 l2 e1 e2 a1 a2 H1 H2.
    upd_cases H1 l1 l; [inversion H1; subst e1; discriminate|].
    upd_cases H2 l2 l; [inversion H2; subst e2; discriminate|].
    apply (sf_owner s m HS l1 l2 e1 e2 a1 a2 H1 H2).
  - intros b sz Hin.
    destruct (sf_owned s m HS b sz Hin) as (lo & eo & ao & Hlo & Hdo & Hpo).
    exists lo, eo, ao. rewrite upd_ne; [auto|]. congruence.
  - apply (sf_live s m HS).
  - apply (sf_allocated s m HS).
  - apply (sf_sound s m HS).
Qed.

(** The container at [l], which holds no value, is given a fresh block
    (line 57-58). *)
Lemma safe_alloc s m l e sz al :
  Safe s m -> s l = Some e -> m_valid e = false ->
  m_data (m_storage e) = Inline ->
  Safe (upd l (Some (mkErasured false
                       (mkStorage l (Heap (mkAllocation (HeapPtr (next_block m)) sz)))
                       (m_mover e) (m_destroyer e))) s)
       (Machine (S (next_block m)) (avail m - sz) ((next_block m, sz) :: live m)
                (trace m ++ [EvAlloc sz al (HeapPtr (next_block m))])).
Proof.
  intros HS Hl Hv Hd.
  destruct (sf_live s m HS) as [Hnd Hbound].
  assert (Hfresh : forall l' e' a', s l' = Some e' ->
            m_data (m_storage e') = Heap a' -> ptr a' <> HeapPtr (next_block m)).
  { intros l' e' a' Hl' Hd' Hp.
    destruct (sf_block s m HS l' e' a' Hl' Hd') as (b & Hb & Hin).
    assert (b = next_block m) by congruence. subst b.
    specialize (Hbound _ _ Hin). lia. }
  split; cbn [live next_block trace].
  - intros l' e' H. upd_cases H l' l; [inversion H; reflexivity|].
    apply (sf_self s m HS l' e' H).
  - intros l' e' H Hv'. upd_cases H l' l; [inversion H; subst e'; discriminate|].
    destruct (sf_value s m HS l' e' H Hv') as (U & Hm & Hds & Hh).
    exists U. split; [exact Hm|]. split; [exact Hds|].
    rewrite holds_frame; [exact Hh|]. repeat constructor. cbn. intros Hp.
    destruct (pointer_cases e') as [[_ He']|(a' & Hd' & He')]; rewrite He' in Hp.
    + discriminate.
    + eapply Hfresh; eauto.
  - intros l' e' a' H Hd'. upd_cases H l' l.
    { inversion H; subst e'. cbn in Hd'. inversion Hd'; subst a'. cbn.
      eexists. split; [reflexivity|]. left. reflexivity. }
    destruct (sf_block s m HS l' e' a' H Hd') as (b & Hb & Hin).
    exists b. split; [exact Hb|]. right. exact Hin.
  - intros l1 l2 e1 e2 a1 a2 H1 H2 Hd1 Hd2 Hp.
    upd_cases H1 l1 l; upd_cases H2 l2 l; try reflexivity.
    + inversion H1; subst e1. cbn in Hd1. inversion Hd1; subst a1. cbn in Hp.
      exfalso. eapply Hfresh; eauto.
    + inversion H2; subst e2. cbn in Hd2. inversion Hd2; subst a2. cbn in Hp.
      exfalso. eapply Hfresh; eauto.
    + eapply (sf_owner s m HS); eassumption.
  - intros b sz' [Heq|Hin].
    + inversion Heq; subst. eexists l, _, _. rewrite upd_eq.
      split; [reflexivity|]. split; reflexivity.
    + destruct (sf_owned s m HS b sz' Hin) as (lo & eo & ao & Hlo & Hdo & Hpo).
      exists lo, eo, ao. rewrite upd_ne; [auto|].
      intros ->. assert (eo = e) by congruence. subst eo. congruence.
  - split.
    + cbn. apply NoDup_cons. split; [|exact Hnd].
      intros Hin. apply list_elem_of_In, in_map_iff in Hin as ([b sz'] & Hb & Hin).
      cbn in Hb. subst b. specialize (Hbound _ _ Hin). lia.
    + intros b sz' [Heq|Hin]; [inversion Heq; lia|].
      specialize (Hbound _ _ Hin). lia.
  - intros b. rewrite allocated_snoc. cbn.
    destruct (decide (next_block m = b)) as [<-|Hne].
    + split; auto.
    + rewrite (sf_allocated s m HS b). split; [auto|].
      intros [Heq|Hin]; [congruence | exact Hin].
  - apply sound_snoc; [apply (sf_sound s m HS) | exact I].
Qed.

(** A value is constructed in the storage of the container at [l] (line
    60 with lines 160-163). *)
Lemma safe_construct s m l e T :
  Safe s m -> s l = Some e -> m_valid e = false ->
  Safe (upd l (Some (mkErasured true (m_storage e) (Some T) (Some T))) s)
       (emit (EvConstruct T (pointer (m_storage e))) m).
Proof.
  intros HS Hl Hv.
  apply (Safe_restate s m); try exact HS; try reflexivity.
  - intros l' e' H. upd_cases H l' l; [|eauto]. inversion H; subst e'. eauto.
  - intros l' e' H. unfold upd. destruct (decide (l' = l)) as [->|]; [|eauto].
    assert (e' = e) by congruence. subst e'. eauto.
  - intros l' e' H Hv'. upd_cases H l' l.
    { inversion H; subst e'. exists T. cbn [m_mover m_destroyer m_storage trace emit].
      split; [reflexivity|]. split; [reflexivity|].
      rewrite holds_snoc. cbn. destruct (decide _); congruence. }
    destruct (sf_value s m HS l' e' H Hv') as (U & Hm & Hd & Hh').
    exists U. split; [exact Hm|]. split; [exact Hd|]. cbn [trace emit].
    rewrite holds_frame; [exact Hh'|]. repeat constructor. cbn.
    intros Hp. apply n. symmetry.
    eapply (Safe_pointer_inj s m l l'); eassumption.
  - intros b. cbn [trace emit]. apply allocated_snoc.
  - cbn [trace emit]. apply sound_snoc; [apply (sf_sound s m HS)|]. cbn.
    eapply Safe_usable; eassumption.
Qed.

Lemma upd_upd l v v' s l' : upd l v (upd l v' s) l' = upd l v s l'.
Proof. unfold upd. destruct (decide (l' = l)); reflexivity. Qed.

Lemma upd_same l e s l' : s l = Some e -> upd l (Some e) s l' = s l'.
Proof. unfold upd. intros H. destruct (decide (l' = l)); congruence. Qed.

Lemma Safe_nil s nb av lv tr :
  Safe s (Machine nb av lv tr) -> Safe s (Machine nb av lv (tr ++ [])).
Proof. rewrite app_nil_r. auto. Qed.

Section Safety.

Variable max_align : N.
Variable cap : N.

(** The constructor (lines 160-163 with 48-61). *)
Lemma new_safe s m l T :
  Safe s m -> s l = None ->
  (exists e m', ErasuredType_ctor max_align cap l T m = Done e m'
                /\ Safe (upd l (Some e) s) m')
  \/ (exists m', ErasuredType_ctor max_align cap l T m = Undefined ConstructAtNull m').
Proof.
  intros HS Hl.
  pose proof (safe_add s m l (Some T) (Some T) HS Hl) as H1.
  set (s1 := upd l _ s) in H1.
  assert (Hl1 : s1 l = Some (mkErasured false (mkStorage l Inline) (Some T) (Some T)))
    by apply upd_eq.
  unfold ErasuredType_ctor, Storage_ctor, bind.
  destruct ((size_of T <=? cap) && (align_of T <=? max_align))%N.
  - left. cbn. eexists _, _. split; [reflexivity|].
    pose proof (safe_construct s1 m l _ T H1 Hl1 eq_refl) as H2.
    eapply Safe_ext; [|exact H2]. intros l'. cbn. unfold s1.
    rewrite upd_upd. reflexivity.
  - unfold aligned_alloc.
    destruct (size_of T <=? avail m)%N; cbn; [left | right; eauto].
    eexists _, _. split; [reflexivity|].
    pose proof (safe_alloc s1 m l _ (size_of T) (align_of T) H1 Hl1 eq_refl eq_refl)
      as H2.
    set (s2 := upd l _ s1) in H2. set (m2 := Machine _ _ _ _) in H2.
    pose proof (safe_construct s2 m2 l _ T H2 (upd_eq _ _ _) eq_refl) as H3.
    eapply Safe_ext; [|exact H3]. intros l'. cbn. unfold s2, s1.
    rewrite !upd_upd. reflexivity.
Qed.

(** The first statement of the move-assignment and of the destructor:
    the value, if any, is destroyed. *)
Lemma destroy_safe s m l e :
  Safe s m -> s l = Some e ->
  exists m1,
    (if m_valid e then
       let* _ := call_destroyer (m_destroyer e) (pointer (m_storage e)) in
       ret (set_valid false e)
     else ret e) m = Done (set_valid false e) m1
    /\ Safe (upd l (Some (set_valid false e)) s) m1.
Proof.
  intros HS Hl. destruct (m_valid e) eqn:Hv.
  - destruct (sf_value s m HS l e Hl Hv) as (T & _ & Hds & _).
    rewrite Hds. unfold bind. cbn. eexists. split; [reflexivity|].
    apply safe_destroy; assumption.
  - exists m. split.
    + unfold ret. f_equal. destruct e. cbn in *. subst. reflexivity.
    + eapply Safe_ext; [|exact HS]. intros l'. apply upd_same.
      rewrite Hl. f_equal. destruct e. cbn in *. subst. reflexivity.
Qed.

(** [~Storage()] of a container that holds no value. *)
Lemma release_safe s m l e :
  Safe s m -> s l = Some e -> m_valid e = false ->
  exists m1,
    Storage_dtor (m_storage e) m = Done tt m1
    /\ Safe (upd l (Some (mkErasured false (mkStorage l Inline)
                                     (m_mover e) (m_destroyer e))) s) m1.
Proof.
  intros HS Hl Hv. unfold Storage_dtor.
  destruct (m_data (m_storage e)) as [|a] eqn:Hd.
  - exists m. split; [reflexivity|].
    eapply Safe_ext; [|exact HS]. intros l'. apply upd_same.
    rewrite Hl. f_equal. pose proof (sf_self s m HS l e Hl) as Hself.
    destruct e as [v [sl d] mv ds]. cbn in *. subst. reflexivity.
  - destruct (sf_block s m HS l e a Hl Hd) as (b & Hb & _). rewrite Hb.
    destruct (aligned_free_live b m) as (m1 & Hrun & Htr & Hnext & Hlive).
    exists m1. split; [exact Hrun|].
    eapply safe_free; eassumption.
Qed.

(** The move-assignment (lines 173-195), between two containers. *)
Lemma assign_safe s m l r el er :
  Safe s m -> l <> r -> s l = Some el -> s r = Some er ->
  exists d sr m',
    ErasuredType_move_assign el er m = Done (d, sr) m'
    /\ Safe (upd l (Some d) (upd r (Some sr) s)) m'.
Proof.
  intros HS Hne Hl Hr.
  destruct (destroy_safe s m l el HS Hl) as (m1 & Hrun1 & HS1).
  unfold ErasuredType_move_assign. unfold bind at 1. rewrite Hrun1. clear Hrun1.
  set (el1 := set_valid false el) in *. set (s1 := upd l (Some el1) s) in *.
  assert (Hl1 : s1 l = Some el1) by apply upd_eq.
  assert (Hr1 : s1 r = Some er) by (unfold s1; rewrite upd_ne by congruence; exact Hr).
  destruct (m_valid er) eqn:Hvr; cbn [negb].
  - destruct (sf_value s1 m1 HS1 r er Hr1 Hvr) as (T & Hmv & Hds & Hh).
    destruct (is_inlined (m_storage er)) eqn:Hin; cbn [negb].
    + (* the source's value is inline *)
      unfold bind. rewrite Hmv. cbn.
      eexists _, _, _. split; [reflexivity|].
      pose proof (safe_relocate s1 m1 l r el1 er T HS1 Hne Hl1 Hr1 Hvr Hmv) as H2.
      eapply Safe_ext; [|exact H2]. intros l'. unfold s1, upd.
      destruct (decide (l' = l)); [rewrite Hmv; reflexivity|].
      destruct (decide (l' = r)); reflexivity.
    + (* the source's value is on the heap *)
      unfold is_inlined in Hin.
      destruct (m_data (m_storage er)) as [|a] eqn:Hdr; [discriminate|].
      destruct (release_safe s1 m1 l el1 HS1 Hl1 eq_refl) as (m2 & Hrun2 & HS2).
      set (s2 := upd l _ s1) in HS2.
      assert (Hr2 : s2 r = Some er)
        by (unfold s2; rewrite upd_ne by congruence; exact Hr1).
      unfold Storage_move_assign, bind. cbn [m_storage el1 set_valid].
      cbn [m_storage el1 set_valid] in Hrun2. rewrite Hrun2. cbn.
      eexists _, _, _. split; [reflexivity|].
      pose proof (safe_transfer s2 m2 l r _ er a HS2 Hne (upd_eq _ _ _) Hr2
                    eq_refl eq_refl Hvr Hdr) as H3.
      eapply Safe_ext; [|exact H3]. intros l'. unfold s2, s1, upd.
      pose proof (sf_self s m HS l el Hl) as Hsl.
      pose proof (sf_self s m HS r er Hr) as Hsr.
      destruct (decide (l' = l)); [rewrite Hsl, Hdr; reflexivity|].
      destruct (decide (l' = r)); [rewrite Hsr; reflexivity|]. reflexivity.
  - (* the source holds nothing *)
    cbn. eexists _, _, _. split; [reflexivity|].
    eapply Safe_ext; [|exact HS1]. intros l'. unfold s1, upd.
    destruct (decide (l' = l)); [reflexivity|].
    destruct (decide (l' = r)); [congruence|]. reflexivity.
Qed.

(** The move-assignment of a container to itself. *)
Lemma assign_self_safe s m l e :
  Safe s m -> s l = Some e ->
  exists m',
    ErasuredType_move_assign_self e m = Done (set_valid false e) m'
    /\ Safe (upd l (Some (set_valid false e)) s) m'.
Proof.
  intros HS Hl.
  destruct (destroy_safe s m l e HS Hl) as (m1 & Hrun1 & HS1).
  exists m1. split; [|exact HS1].
  unfold ErasuredType_move_assign_self. unfold bind at 1. rewrite Hrun1.
  reflexivity.
Qed.

(** The destructor (lines 197-201, then lines 92-96). *)
Lemma delete_safe s m l e :
  Safe s m -> s l = Some e ->
  exists m', ErasuredType_dtor e m = Done tt m' /\ Safe (upd l None s) m'.
Proof.
  intros HS Hl.
  destruct (destroy_safe s m l e HS Hl) as (m1 & Hrun1 & HS1).
  set (e1 := set_valid false e) in *. set (s1 := upd l (Some e1) s) in *.
  destruct (release_safe s1 m1 l e1 HS1 (upd_eq _ _ _) eq_refl) as (m2 & Hrun2 & HS2).
  set (s2 := upd l _ s1) in HS2.
  exists m2. split.
  - unfold ErasuredType_dtor, bind.
    destruct (m_valid e) eqn:Hv.
    + destruct (sf_value s m HS l e Hl Hv) as (T & _ & Hds & _).
      rewrite Hds in *. unfold bind in Hrun1. cbn in Hrun1.
      inversion Hrun1; subst m1. cbn. exact Hrun2.
    + cbn in Hrun1. inversion Hrun1; subst m1. cbn. exact Hrun2.
  - pose proof (safe_remove s2 m2 l _ HS2 (upd_eq _ _ _) eq_refl eq_refl) as H3.
    eapply Safe_ext; [|exact H3]. intros l'. unfold s2, s1.
    rewrite !upd_upd. reflexivity.
Qed.

(** Every statement keeps the invariant, or stops at the placement
    construction at a null pointer that follows a failed allocation. *)
Lemma exec_safe o s m c :
  Safe s m -> exec max_align cap o s = Some c ->
  (exists s' m', c m = Done s' m' /\ Safe s' m')
  \/ (exists m', c m = Undefined ConstructAtNull m').
Proof.
  intros HS Hex. destruct o as [l T|l|l r|l r|l]; cbn in Hex.
  - destruct (s l) eqn:Hl; [discriminate|]. inversion Hex; subst c.
    unfold bind.
    destruct (new_safe s m l T HS Hl) as [(e & m' & -> & HS')|(m' & ->)]; eauto.
  - destruct (s l) eqn:Hl; [discriminate|]. inversion Hex; subst c.
    left. eexists _, _. split; [reflexivity|]. apply safe_add; assumption.
  - destruct (s l) eqn:Hl; [discriminate|].
    destruct (s r) as [er|] eqn:Hr; [|discriminate]. inversion Hex; subst c.
    assert (Hne : l <> r) by congruence.
    pose proof (safe_add s m l None None HS Hl) as H1.
    set (s1 := upd l _ s) in H1.
    destruct (assign_safe s1 m l r (ErasuredType_default l) er H1 Hne (upd_eq _ _ _))
      as (d & sr & m' & Hrun & HS').
    { unfold s1. rewrite upd_ne by congruence. exact Hr. }
    left. unfold bind, ErasuredType_move_ctor. rewrite Hrun.
    eexists _, _. split; [reflexivity|].
    eapply Safe_ext; [|exact HS']. intros l'. unfold s1, upd.
    destruct (decide (l' = l)); [reflexivity|].
    destruct (decide (l' = r)); reflexivity.
  - destruct (s l) as [el|] eqn:Hl; [|discriminate].
    destruct (s r) as [er|] eqn:Hr; [|discriminate].
    destruct (decide (l = r)) as [Heq|Hne]; inversion Hex; subst c.
    + destruct (assign_self_safe s m l el HS Hl) as (m' & Hrun & HS').
      left. unfold bind. rewrite Hrun. eauto.
    + destruct (assign_safe s m l r el er HS Hne Hl Hr) as (d & sr & m' & Hrun & HS').
      left. unfold bind. rewrite Hrun. eauto.
  - destruct (s l) as [e|] eqn:Hl; [|discriminate]. inversion Hex; subst c.
    destruct (delete_safe s m l e HS Hl) as (m' & Hrun & HS').
    left. unfold bind. rewrite Hrun. eauto.
Qed.

End Safety.

Lemma safe_initial m0 : live m0 = [] -> trace m0 = [] -> Safe no_objects m0.
Proof.
  intros Hlive Htr. split; try (intros; discriminate).
  - intros b sz Hin. rewrite Hlive in Hin. destruct Hin.
  - rewrite Hlive. split; [constructor | intros b sz []].
  - intros b. rewrite Htr, Hlive. cbn. split; [discriminate | intros []].
  - rewrite Htr. intros tr1 e tr2 H. destruct tr1; discriminate H.
Qed.

Lemma run_safe max_align cap ops : forall s m r,
  Safe s m ->
  run_ops max_align cap ops s m = Some r ->
  match r with
  | Done s' m' => Safe s' m'
  | Undefined why _ => why = ConstructAtNull
  | Fatal => False
  end.
Proof.
  induction ops as [|o ops IH]; intros s m r HS Hrun; cbn in Hrun.
  - inversion Hrun; subst r. exact HS.
  - destruct (exec max_align cap o s) as [c|] eqn:Hex; [|discriminate].
    cbn in Hrun.
    destruct (exec_safe max_align cap o s m c HS Hex)
      as [(s' & m' & Hc & HS')|(m' & Hc)]; rewrite Hc in Hrun.
    + eapply IH; eassumption.
    + inversion Hrun; subst r. reflexivity.
Qed.

(** ** Room *)

(** The size and the alignment block [b] was allocated with, while it is
    allocated. *)
Definition block_after (b : nat) (o : option (N * N)) (e : event) : option (N * N) :=
  match e with
  | EvAlloc sz al (HeapPtr b') => if decide (b' = b) then Some (sz, al) else o
  | EvFree (HeapPtr b') => if decide (b' = b) then None else o
  | _ => o
  end.

Definition block (tr : list event) (b : nat) : option (N * N) :=
  fold_left (block_after b) tr None.

Section Room.

Variable max_align : N.
Variable cap : N.

(** Memory with room for an object of type [T]: the inline buffer of a
    container when [T] passes the test of line 51; a block that is
    allocated, has at least [sizeof(T)] bytes and is aligned for [T]. *)
Definition room (tr : list event) (T : ctype) (p : addr) : bool :=
  match p with
  | InlineBuf _ => fits_inline max_align cap T
  | HeapPtr b =>
      match block tr b with
      | Some (sz, al) => (size_of T <=? sz)%N && (al mod align_of T =? 0)%N
      | None => false
      end
  | NullPtr => false
  end.

(** What a construction or a relocation requires of the memory it is
    given. *)
Definition event_fits (before : list event) (e : event) : Prop :=
  match e with
  | EvConstruct T p | EvMover T p _ => room before T p = true
  | _ => True
  end.

Definition fitting (tr : list event) : Prop :=
  forall tr1 e tr2, tr = tr1 ++ e :: tr2 -> event_fits tr1 e.

(** Line 187 relocates the source's inline value to the address the
    destination's storage gives out; when the destination has kept a
    block, nothing in the code compares the block with the value. Whether
    every such relocation of a trace went into a block with room: *)
Fixpoint relocations_fit (before tr : list event) : bool :=
  match tr with
  | [] => true
  | e :: tr' =>
      match e with
      | EvMover T (HeapPtr b) _ => room before T (HeapPtr b)
      | _ => true
      end && relocations_fit (before ++ [e]) tr'
  end.

Definition kept_blocks_fit (tr : list event) : bool := relocations_fit [] tr.

Lemma relocations_fit_spec tr : forall before,
  relocations_fit before tr = true ->
  forall tr1 T b src tr2,
    tr = tr1 ++ EvMover T (HeapPtr b) src :: tr2 ->
    room (before ++ tr1) T (HeapPtr b) = true.
Proof.
  induction tr as [|e tr IH]; intros before H tr1 T b src tr2 Heq.
  - destruct tr1; discriminate Heq.
  - cbn [relocations_fit] in H. apply andb_true_iff in H as [He Hrest].
    destruct tr1 as [|x tr1]; cbn in Heq; inversion Heq; subst.
    + rewrite app_nil_r. exact He.
    + specialize (IH _ Hrest tr1 T b src tr2 eq_refl).
      rewrite <- app_assoc in IH. exact IH.
Qed.

Lemma relocations_fit_prefix tr1 : forall before tr2,
  relocations_fit before (tr1 ++ tr2) = true -> relocations_fit before tr1 = true.
Proof.
  induction tr1 as [|e tr1 IH]; intros before tr2 H; [reflexivity|].
  cbn [app relocations_fit] in *. apply andb_true_iff in H as [He Hrest].
  rewrite He. cbn. eapply IH, Hrest.
Qed.

Lemma fitting_snoc tr e : fitting tr -> event_fits tr e -> fitting (tr ++ [e]).
Proof.
  intros Hs He tr1 e' tr2 Heq.
  destruct tr2 as [|x tr2 _] using rev_ind.
  - apply app_inj_tail in Heq as [-> ->]. exact He.
  - rewrite app_comm_cons, app_assoc in Heq.
    apply app_inj_tail in Heq as [Heq _]. eapply Hs, Heq.
Qed.

(** An event that puts nothing into memory. *)
Definition quiet (e : event) : Prop :=
  match e with
  | EvConstruct _ _ | EvMover _ _ _ => False
  | _ => True
  end.

Lemma fitting_quiet evs : forall tr,
  fitting tr -> Forall quiet evs -> fitting (tr ++ evs).
Proof.
  induction evs as [|e evs IH]; intros tr Hf Hq.
  - rewrite app_nil_r. exact Hf.
  - apply Forall_cons in Hq as [He Hq].
    change (e :: evs) with ([e] ++ evs). rewrite app_assoc.
    apply IH; [|exact Hq]. apply fitting_snoc; [exact Hf|].
    destruct e; cbn in *; tauto.
Qed.

Lemma destroy_events_quiet e : Forall quiet (destroy_events e).
Proof.
  unfold destroy_events. destruct (m_valid e); [|constructor].
  destruct (m_destroyer e); repeat constructor.
Qed.

Lemma free_events_quiet s : Forall quiet (free_events s).
Proof. unfold free_events. destruct (m_data s); repeat constructor. Qed.

Lemma block_snoc tr e b : block (tr ++ [e]) b = block_after b (block tr b) e.
Proof. unfold block. rewrite fold_left_app. reflexivity. Qed.

(** A value held in an inline buffer is of a type that passes the test of
    line 51, and so far every construction and relocation had room. *)
Record Fits (s : store) (m : machine) : Prop := mkFits {
  ft_inline : forall l e T, s l = Some e -> m_valid e = true ->
      m_data (m_storage e) = Inline -> m_mover e = Some T ->
      fits_inline max_align cap T = true;
  ft_trace : fitting (trace m)
}.

Lemma Safe_fnptrs s m l e : Safe s m -> s l = Some e -> fnptrs_ok e.
Proof.
  intros HS Hl Hv. destruct (sf_value s m HS l e Hl Hv) as (T & -> & -> & _).
  split; eexists; reflexivity.
Qed.

(** The constructor. *)
Lemma new_fits s m l T e m' :
  s l = None ->
  ErasuredType_ctor max_align cap l T m = Done e m' ->
  (exists evs, trace m' = trace m ++ evs)
  /\ (Fits s m -> Fits (upd l (Some e) s) m').
Proof.
  intros Hl. unfold ErasuredType_ctor, bind.
  destruct (fits_inline max_align cap T) eqn:Hfit.
  - rewrite (Storage_ctor_inline max_align cap l T m Hfit).
    intros [= <- <-]. split; [eexists; reflexivity|]. intros [Hin Htr]. split.
    + intros l' e' T' H Hv Hd Hm. unfold upd in H.
      destruct (decide (l' = l)) as [->|]; [|eapply Hin; eassumption].
      inversion H; subst e'. cbn in Hm. congruence.
    + cbn [trace emit]. apply fitting_snoc; [exact Htr | exact Hfit].
  - unfold Storage_ctor. fold (fits_inline max_align cap T). rewrite Hfit.
    unfold bind, aligned_alloc.
    destruct (size_of T <=? avail m)%N; cbn; [|discriminate].
    intros [= <- <-]. split.
    { exists [EvAlloc (size_of T) (align_of T) (HeapPtr (next_block m));
              EvConstruct T (HeapPtr (next_block m))].
      cbn. rewrite <- app_assoc. reflexivity. }
    intros [Hin Htr]. split.
    + intros l' e' T' H Hv Hd Hm. unfold upd in H.
      destruct (decide (l' = l)) as [->|]; [|eapply Hin; eassumption].
      inversion H; subst e'. discriminate Hd.
    + cbn [trace emit]. apply fitting_snoc.
      * apply fitting_snoc; [exact Htr | exact I].
      * cbn. rewrite block_snoc. cbn.
        destruct (decide (next_block m = next_block m)); [|congruence].
        rewrite N.leb_refl, N.Div0.mod_same. reflexivity.
Qed.

(** The move-assignment between two containers. *)
Lemma assign_fits s m l r el er d sr m' :
  Safe s m -> l <> r -> s l = Some el -> s r = Some er ->
  ErasuredType_move_assign el er m = Done (d, sr) m' ->
  (exists evs, trace m' = trace m ++ evs)
  /\ (Fits s m -> kept_blocks_fit (trace m') = true ->
      Fits (upd l (Some d) (upd r (Some sr) s)) m').
Proof.
  intros HS Hne Hl Hr Hrun.
  pose proof (Safe_fnptrs s m l el HS Hl) as Hok.
  assert (Hstore : forall d' sr',
    Fits s m ->
    (m_valid d' = true -> m_data (m_storage d') = Inline ->
     forall T, m_mover d' = Some T -> fits_inline max_align cap T = true) ->
    m_valid sr' = false ->
    forall l' e T, upd l (Some d') (upd r (Some sr') s) l' = Some e ->
      m_valid e = true -> m_data (m_storage e) = Inline -> m_mover e = Some T ->
      fits_inline max_align cap T = true).
  { intros d' sr' [Hin _] Hd' Hsr' l' e T H Hv Hd Hm. unfold upd in H.
    destruct (decide (l' = l)) as [->|].
    { inversion H; subst e. eapply Hd'; eassumption. }
    destruct (decide (l' = r)) as [->|]; [|eapply Hin; eassumption].
    inversion H; subst e. congruence. }
  destruct (m_valid er) eqn:Hvr.
  - destruct (sf_value s m HS r er Hr Hvr) as (T & Hmv & Hds & _).
    destruct (move_assign_from_valid el er m T T Hvr Hmv Hds Hok)
      as (d0 & s0 & m0 & Hrun0 & Hvd & Hvs & Hmd & _ & _ & _ & Hheap & Hinl).
    rewrite Hrun in Hrun0. inversion Hrun0; subst d0 s0 m0. clear Hrun0.
    destruct (is_inlined (m_storage er)) eqn:Hi.
    + destruct (Hinl eq_refl) as (Hst & _ & Htr').
      split; [eexists; exact Htr'|]. intros HF Hkept.
      assert (HT : fits_inline max_align cap T = true).
      { eapply (ft_inline s m HF r er T); try eassumption. unfold is_inlined in Hi.
        destruct (m_data (m_storage er)); [reflexivity | discriminate]. }
      split.
      * apply Hstore; [exact HF| |exact Hvs]. intros _ _ T' HT'. congruence.
      * rewrite Htr', app_assoc. apply fitting_snoc.
        { apply fitting_quiet; [apply (ft_trace s m HF) | apply destroy_events_quiet]. }
        cbn. destruct (pointer_cases el) as [[_ Hp]|(a & Hda & Hp)]; rewrite Hp.
        { exact HT. }
        destruct (sf_block s m HS l el a Hl Hda) as (b & Hb & _). rewrite Hb.
        unfold kept_blocks_fit in Hkept. rewrite Htr', app_assoc in Hkept.
        rewrite Hp, Hb in Hkept.
        apply (relocations_fit_spec _ [] Hkept _ T b _ [] eq_refl).
    + destruct (Hheap eq_refl) as (Hst & _ & Htr').
      split; [eexists; exact Htr'|]. intros HF _. split.
      * apply Hstore; [exact HF| |exact Hvs]. intros _ Hd. rewrite Hst in Hd. cbn in Hd.
        unfold is_inlined in Hi. destruct (m_data (m_storage er)); discriminate.
      * rewrite Htr'. apply fitting_quiet; [apply (ft_trace s m HF)|].
        apply Forall_app. split; [apply destroy_events_quiet | apply free_events_quiet].
  - rewrite (move_assign_from_invalid el er m Hvr Hok) in Hrun.
    inversion Hrun; subst d sr m'. clear Hrun. cbn [trace].
    split; [eexists; reflexivity|]. intros HF _. split.
    + apply Hstore; [exact HF| |exact Hvr]. intros Hv. discriminate Hv.
    + apply fitting_quiet; [apply (ft_trace s m HF) | apply destroy_events_quiet].
Qed.

(** Every statement. *)
Lemma exec_fits o s m c s' m' :
  Safe s m ->
  exec max_align cap o s = Some c -> c m = Done s' m' ->
  (exists evs, trace m' = trace m ++ evs)
  /\ (Fits s m -> kept_blocks_fit (trace m') = true -> Fits s' m').
Proof.
  intros HS Hex Hc. destruct o as [l T|l|l r|l r|l]; cbn in Hex.
  - destruct (s l) eqn:Hl; [discriminate|]. inversion Hex; subst c.
    unfold bind in Hc.
    destruct (ErasuredType_ctor max_align cap l T m) as [e m1| |] eqn:Hrun;
      try discriminate Hc.
    inversion Hc; subst s' m'.
    destruct (new_fits s m l T e m1 Hl Hrun) as [Hext HF']. auto.
  - destruct (s l) eqn:Hl; [discriminate|]. inversion Hex; subst c.
    inversion Hc; subst s' m'. split; [exists []; rewrite app_nil_r; reflexivity|].
    intros [Hin Htr] _. split; [|exact Htr].
    intros l' e T H Hv. unfold upd in H.
    destruct (decide (l' = l)) as [->|]; [|eapply Hin; eassumption].
    inversion H; subst e. discriminate Hv.
  - destruct (s l) eqn:Hl; [discriminate|].
    destruct (s r) as [er|] eqn:Hr; [|discriminate]. inversion Hex; subst c.
    assert (Hne : l <> r) by congruence.
    pose proof (safe_add s m l None None HS Hl) as HS1.
    set (s1 := upd l _ s) in HS1.
    unfold bind, ErasuredType_move_ctor in Hc.
    destruct (ErasuredType_move_assign (ErasuredType_default l) er m)
      as [[d sr] m1| |] eqn:Hrun; try discriminate Hc.
    inversion Hc; subst s' m'.
    destruct (assign_fits s1 m l r (ErasuredType_default l) er d sr m1
                HS1 Hne (upd_eq _ _ _)) as [Hext HF']; [|exact Hrun|].
    { unfold s1. rewrite upd_ne by congruence. exact Hr. }
    split; [exact Hext|]. intros [Hin Htr] Hk.
    assert (HF1 : Fits s1 m).
    { split; [|exact Htr].
      intros l' e T H Hv. unfold s1, upd in H.
      destruct (decide (l' = l)) as [->|]; [|eapply Hin; eassumption].
      inversion H; subst e. discriminate Hv. }
    destruct (HF' HF1 Hk) as [Hin' Htr'].
    split; [|exact Htr']. intros l' e T H. apply (Hin' l' e T).
    unfold s1, upd in *. destruct (decide (l' = l)); [exact H|].
    destruct (decide (l' = r)); exact H.
  - destruct (s l) as [el|] eqn:Hl; [|discriminate].
    destruct (s r) as [er|] eqn:Hr; [|discriminate].
    destruct (decide (l = r)) as [Heq|Hne]; inversion Hex; subst c.
    + unfold bind in Hc.
      rewrite (self_move_assign_destroys el m (Safe_fnptrs s m l el HS Hl)) in Hc.
      inversion Hc; subst s' m'. cbn [trace].
      split; [eexists; reflexivity|]. intros [Hin Htr] _. split.
      * intros l' e T H Hv. unfold upd in H.
        destruct (decide (l' = l)) as [->|]; [|eapply Hin; eassumption].
        inversion H; subst e. discriminate Hv.
      * apply fitting_quiet; [exact Htr | apply destroy_events_quiet].
    + unfold bind in Hc.
      destruct (ErasuredType_move_assign el er m) as [[d sr] m1| |] eqn:Hrun;
        try discriminate Hc.
      inversion Hc; subst s' m'.
      apply (assign_fits s m l r el er d sr m1 HS Hne Hl Hr Hrun).
  - destruct (s l) as [e|] eqn:Hl; [|discriminate]. inversion Hex; subst c.
    unfold bind in Hc.
    destruct (ErasuredType_dtor_trace e m (Safe_fnptrs s m l e HS Hl))
      as (m1 & Hrun & Htr1).
    rewrite Hrun in Hc. inversion Hc; subst s' m'.
    split; [eexists; exact Htr1|]. intros [Hin Htr] _.
    split.
    + intros l' e' T H. unfold upd in H.
      destruct (decide (l' = l)); [discriminate|]. eapply Hin; eassumption.
    + rewrite Htr1. apply fitting_quiet; [exact Htr|].
      apply Forall_app. split; [apply destroy_events_quiet | apply free_events_quiet].
Qed.

Lemma run_fits ops : forall s m s' m',
  Safe s m ->
  run_ops max_align cap ops s m = Some (Done s' m') ->
  (exists evs, trace m' = trace m ++ evs)
  /\ (Fits s m -> kept_blocks_fit (trace m') = true -> Fits s' m').
Proof.
  induction ops as [|o ops IH]; intros s m s' m' HS Hrun; cbn in Hrun.
  - inversion Hrun; subst s' m'. split; [exists []; rewrite app_nil_r; reflexivity|].
    auto.
  - destruct (exec max_align cap o s) as [c|] eqn:Hex; [|discriminate].
    cbn in Hrun.
    destruct (exec_safe max_align cap o s m c HS Hex)
      as [(s1 & m1 & Hc & HS1)|(m1 & Hc)]; rewrite Hc in Hrun; [|discriminate].
    destruct (exec_fits o s m c s1 m1 HS Hex Hc) as [[evs1 Hext1] HF1].
    destruct (IH s1 m1 s' m' HS1 Hrun) as [[evs2 Hext2] HF2].
    split; [exists (evs1 ++ evs2); rewrite Hext2, Hext1, app_assoc; reflexivity|].
    intros HF Hk. apply HF2; [|exact Hk]. apply HF1; [exact HF|].
    unfold kept_blocks_fit in *. rewrite Hext2 in Hk.
    eapply relocations_fit_prefix, Hk.
Qed.

Lemma fits_initial m0 : trace m0 = [] -> Fits no_objects m0.
Proof.
  intros Htr. split; [intros l e T H; discriminate H|].
  rewrite Htr. intros tr1 e tr2 H. destruct tr1; discriminate H.
Qed.

End Room.

(** X23. Memory safety of the type erasure. Take any client: containers
    declared (with a value of any type, or empty), move-constructed from
    one another, move-assigned to one another or to themselves, and
    destroyed, in any order, as long as each statement names containers
    that are alive; and run it from a machine on which nothing has
    happened. The code never compares the block a destination has kept
    with the inline value that line 187 relocates into it, so take a run
    in which every such relocation went into a block with room
    ([kept_blocks_fit]; [kept_block_overrun] is a run in which one does
    not). When the run comes to its end:
    - every call through [m_destroyer] or [m_mover] was made on an address
      that held an object of the type the function was instantiated for,
      whose lifetime had begun and not ended; every construction and
      relocation went into an inline buffer or into a block that was
      allocated and not freed; and every block freed was allocated and not
      freed before ([sound]);
    - every construction and every relocation went into memory with room
      for the object: an inline buffer only for a type that passes the
      test of line 51, a block only when it has the size and the alignment
      ([fitting]);
    - every container that reports a value has the mover and the destroyer
      of the type of the object at the address it gives out;
    - every live block of the allocator belongs to one container that is
      alive, and to no other; so when every container has been destroyed
      no block is left.
    And when the run stops before its end, it stops at the placement
    construction at the null pointer that follows a failed allocation, not
    at a call through a function pointer that was never assigned. *)
Theorem erasure_is_memory_safe
    (max_align cap : N) (ops : list op) (m0 : machine) :
  live m0 = [] ->
  trace m0 = [] ->
  (forall s m,
     run_ops max_align cap ops no_objects m0 = Some (Done s m) ->
     kept_blocks_fit max_align cap (trace m) = true ->
     sound (trace m)
     /\ fitting max_align cap (trace m)
     /\ (forall l e, s l = Some e -> valid e = true ->
           exists T, m_mover e = Some T /\ m_destroyer e = Some T
                     /\ holds (trace m) (pointer (m_storage e)) = Some T)
     /\ (forall b sz, In (b, sz) (live m) ->
           exists l e a, s l = Some e /\ m_data (m_storage e) = Heap a
                         /\ ptr a = HeapPtr b)
     /\ (forall l l' e e' a a',
           s l = Some e -> s l' = Some e' ->
           m_data (m_storage e) = Heap a -> m_data (m_storage e') = Heap a' ->
           ptr a = ptr a' -> l = l')
     /\ ((forall l, s l = None) -> live m = []))
  /\ (forall why m,
     run_ops max_align cap ops no_objects m0 = Some (Undefined why m) ->
     kept_blocks_fit max_align cap (trace m) = true ->
     why = ConstructAtNull).
Proof.
  intros Hlive Htr. split.
  - intros s m Hrun Hkept.
    pose proof (run_safe max_align cap ops no_objects m0 _
                  (safe_initial m0 Hlive Htr) Hrun) as H. cbn in H.
    destruct (run_fits max_align cap ops no_objects m0 s m
                (safe_initial m0 Hlive Htr) Hrun) as [_ HF].
    specialize (HF (fits_initial max_align cap m0 Htr) Hkept).
    split; [apply (sf_sound s m H)|].
    split; [apply (ft_trace max_align cap s m HF)|].
    split; [apply (sf_value s m H)|].
    split; [apply (sf_owned s m H)|]. split; [apply (sf_owner s m H)|].
    intros Hnone. destruct (live m) as [|[b sz] lv] eqn:Hl; [reflexivity|].
    destruct (sf_owned s m H b sz) as (l & e & _ & Hs & _).
    { rewrite Hl. left. reflexivity. }
    rewrite Hnone in Hs. discriminate.
  - intros why m Hrun _.
    exact (run_safe max_align cap ops no_objects m0 _
             (safe_initial m0 Hlive Htr) Hrun).
Qed.

(** ** Two clients *)

(** A container with a 64-byte callable (on the heap) is moved into a new
    one; a container with an [S2<8>] (inline) is assigned to that one, which
    has kept the block of 64 bytes; the three go out of scope.
    [ErasuredType<32>] on x86-64. *)
Definition client : list op :=
  [New 1 capture64; MoveNew 2 1; New 3 S2_8; Assign 2 3;
   Delete 3; Delete 2; Delete 1].

(** A 48-byte type. *)
Definition bytes48 : ctype := CType 7 48 8.

(** [ErasuredType<64>] on x86-64: a container with an [aligned32] (in a
    block of 32 bytes, being too strictly aligned for the inline buffer) is
    assigned a container with a [bytes48] (inline). Line 187 relocates the
    48 bytes into the block of 32. *)
Definition overrunning_client : list op :=
  [New 1 aligned32; New 2 bytes48; Assign 1 2; Delete 2; Delete 1].

Example kept_block_overrun :
  exists s m,
    run_ops max_align_x64 64 overrunning_client no_objects m0 = Some (Done s m)
    /\ trace m = [EvAlloc 32 32 (HeapPtr 0); EvConstruct aligned32 (HeapPtr 0);
                  EvConstruct bytes48 (InlineBuf 2);
                  EvDestroyer aligned32 (HeapPtr 0);
                  EvMover bytes48 (HeapPtr 0) (InlineBuf 2);
                  EvDestroyer bytes48 (HeapPtr 0); EvFree (HeapPtr 0)]
    /\ kept_blocks_fit max_align_x64 64 (trace m) = false.
Proof.
  eexists _, _. split; [vm_compute; reflexivity|].
  split; [reflexivity | vm_compute; reflexivity].
Qed.

Lemma erasure_is_memory_safe_witness :
  exists s m,
    run_ops max_align_x64 32 client no_objects m0 = Some (Done s m)
    /\ sound (trace m)
    /\ fitting max_align_x64 32 (trace m)
    /\ trace m = [EvAlloc 64 8 (HeapPtr 0); EvConstruct capture64 (HeapPtr 0);
                  EvConstruct S2_8 (InlineBuf 3);
                  EvDestroyer capture64 (HeapPtr 0);
                  EvMover S2_8 (HeapPtr 0) (InlineBuf 3);
                  EvDestroyer S2_8 (HeapPtr 0); EvFree (HeapPtr 0)]
    /\ live m = [].
Proof.
  eexists _, _. split; [vm_compute; reflexivity|].
  destruct (erasure_is_memory_safe max_align_x64 32 client m0 eq_refl eq_refl)
    as [H _].
  destruct (H _ _ ltac:(vm_compute; reflexivity) ltac:(vm_compute; reflexivity))
    as (H1 & H2 & _).
  split; [exact H1|]. split; [exact H2|]. split; reflexivity.
Defined.

End ErasureSafety.

(* ===================================================================== *)
(** * Properties of thread_pool.hpp *)
(* ===================================================================== *)

Module PoolFacts.
Import Pool.

(** ** Scenarios *)

(** One worker (thread 0) and one user thread (thread 1) that submits a
    callable returning 42 and calls [get] on the Future. *)
Definition one_worker : world :=
  ThreadPool_ctor 1 [[CallAsync (Returns 42); CallGet 0]].

(** The user thread submits; the worker dequeues the Task, claims it,
    invokes the callable and sets the result promise; then the user
    thread calls [get]. *)
Definition worker_first : list tid :=
  replicate 6 1 ++ replicate 8 0 ++ replicate 3 1.

(** No worker: the user thread submits and runs the Task itself in [get]. *)
Definition no_worker (b : behaviour) : world :=
  ThreadPool_ctor 0 [[CallAsync b; CallGet 0]].

Example get_runs_unclaimed_task :
  trace <$> run (replicate 13 0) (no_worker (Returns 42))
  = Some [EvSubmit 0 0; EvClaim 0 0 FromGet; EvInvoke 0 0 FromGet;
          EvDeliver 0 0 (Value 42); EvSignal 0 0; EvReady 0 0;
          EvGet 0 0 (Value 42)].
Proof. vm_compute. reflexivity. Qed.

(** test/tests.cpp, "Free function", at a smaller size: two workers, three
    Tasks computing [2 * i + 3], and [get] on the three Futures in order. *)
Definition free_function : world :=
  ThreadPool_ctor 2 [[CallAsync (Returns 3); CallAsync (Returns 5);
                      CallAsync (Returns 7);
                      CallGet 0; CallGet 1; CallGet 2]].

Example free_function_results :
  (fun w => List.filter (fun e => match e with EvGet _ _ _ => true | _ => false end)
                        (trace w))
    <$> run (replicate 18 2 ++ replicate 10 0 ++ replicate 5 1
               ++ replicate 3 2 ++ replicate 5 1 ++ replicate 3 2
               ++ replicate 7 2) free_function
  = Some [EvGet 2 0 (Value 3); EvGet 2 1 (Value 5); EvGet 2 2 (Value 7)].
Proof. vm_compute. reflexivity. Qed.

(** ** Schedules and reachability *)

Lemma run_app s1 s2 w :
  run (s1 ++ s2) w = w' ← run s1 w; run s2 w'.
Proof.
  revert w. induction s1 as [|i s1 IH]; intros w; cbn; [reflexivity|].
  destruct (step i w); cbn; [apply IH | reflexivity].
Qed.

Lemma reachable_trans w0 w1 w2 :
  reachable w0 w1 -> reachable w1 w2 -> reachable w0 w2.
Proof.
  intros H01 H12. induction H12; [exact H01 | eapply reach_step; eauto].
Qed.

Lemma run_reachable sched w w' : run sched w = Some w' -> reachable w w'.
Proof.
  revert w. induction sched as [|i sched IH]; intros w; cbn.
  - intros [= <-]. constructor.
  - destruct (step i w) as [w1|] eqn:Hs; cbn; [|discriminate].
    intros H. eapply reachable_trans; [|apply IH, H].
    eapply reach_step; [constructor | exact Hs].
Qed.

(** ** The stages of a Task *)

(** The stages of a Task that thread [j] claimed, in the order the code
    goes through them: lines 62, 65 (into 47/50), 48/50/53, 55, 66. *)
Definition script_of (j : tid) (k : caller) (t : task_id) (b : behaviour)
  : list event :=
  [EvClaim j t k; EvInvoke j t k; EvDeliver j t (deliver b);
   EvSignal j t; EvReady j t].

(** The members of a Task that has gone through its first [n] stages. *)
Definition task_at (n : nat) (b : behaviour) : Task :=
  mkTask (bool_decide (1 <= n)) (bool_decide (5 <= n)) (bool_decide (4 <= n))
         (if decide (3 <= n) then Some (deliver b) else None) b.

(** Where the claiming thread is after [n] stages, for [n] from 1 to 4. *)
Definition pc_at (n : nat) (b : behaviour) : try_run_pc :=
  match n with
  | 1 => TrInvoke
  | 2 => TrDeliver b
  | 3 => TrBarrier
  | 4 => TrReady
  | _ => TrTest
  end.

(** The Task a program counter refers to. *)
Definition pc_task (p : pc) : option task_id :=
  match p with
  | AsyncLock t | AsyncPush t | AsyncUnlock t | AsyncReturn t
  | TryRun _ t _ | GetRead t | FutureWait t
  | WaitLoopUnlock t | WorkUnlock t => Some t
  | _ => None
  end.

(** A thread between its claim of a Task and the end of [try_run]. *)
Definition running (p : pc) : Prop :=
  match p with
  | TryRun _ _ TrTest => False
  | TryRun _ _ _ => True
  | _ => False
  end.

Lemma stages_app t tr1 tr2 : stages t (tr1 ++ tr2) = stages t tr1 ++ stages t tr2.
Proof. apply filter_app. Qed.

Lemma stages_snoc t tr e :
  stages t (tr ++ [e])
  = stages t tr ++ (if decide (stage_of e = Some t) then [e] else []).
Proof.
  rewrite stages_app. reflexivity.
Qed.

Lemma stages_snoc_other t tr e :
  stage_of e <> Some t -> stages t (tr ++ [e]) = stages t tr.
Proof.
  intros H. rewrite stages_snoc. destruct (decide _); [done|].
  apply app_nil_r.
Qed.

Lemma stages_snoc_same t tr e :
  stage_of e = Some t -> stages t (tr ++ [e]) = stages t tr ++ [e].
Proof. intros H. rewrite stages_snoc. destruct (decide _); done. Qed.

Lemma in_stages t tr e : In e (stages t tr) <-> In e tr /\ stage_of e = Some t.
Proof.
  unfold stages. rewrite <- !list_elem_of_In, list_elem_of_filter. tauto.
Qed.

Lemma stages_nil_not_in t tr e :
  stages t tr = [] -> stage_of e = Some t -> ~ In e tr.
Proof.
  intros Hnil Hst Hin.
  assert (H : In e (stages t tr)) by (apply in_stages; auto).
  rewrite Hnil in H. destruct H.
Qed.

(** ** The invariant *)

(** A Task has gone through the first [n] of its stages, all performed by
    one thread [j]; its members say so; and while the stages are under way
    ([n] from 1 to 4), [j] is at the statement that performs the next one. *)
Definition task_ok (w : world) (t : task_id) (T : Task) : Prop :=
  exists j k n,
    n <= 5
    /\ stages t (trace w) = take n (script_of j k t (callable T))
    /\ T = task_at n (callable T)
    /\ (1 <= n <= 4 ->
        exists th, threads w !! j = Some th
                   /\ at_pc th = TryRun k t (pc_at n (callable T))).

(** The Task a thread refers to exists; a thread past the test of line 62
    is the one that performed the stages so far; a thread that reads the
    result in [get] has gone through [try_run]. *)
Definition thread_ok (w : world) (i : tid) (th : thread) : Prop :=
  (forall t, pc_task (at_pc th) = Some t -> t < length (tasks w))
  /\ (forall k t p, at_pc th = TryRun k t p -> p <> TrTest ->
        exists T n, tasks w !! t = Some T /\ 1 <= n <= 4
                    /\ p = pc_at n (callable T)
                    /\ stages t (trace w) = take n (script_of i k t (callable T)))
  /\ (forall t, at_pc th = GetRead t ->
        In (EvClaim i t FromGet) (trace w) \/ In (EvSkip i t FromGet) (trace w)).

(** What had happened before an event. *)
Definition justified (tr1 : list event) (e : event) : Prop :=
  match e with
  | EvClaim i t k => stages t tr1 = []
  | EvSkip i t k => exists j k', In (EvClaim j t k') tr1
  | EvInvoke i t k => stages t tr1 = [EvClaim i t k]
  | EvDeliver i t r =>
      exists k, stages t tr1 = [EvClaim i t k; EvInvoke i t k]
  | EvSignal i t =>
      exists k r, stages t tr1 = [EvClaim i t k; EvInvoke i t k; EvDeliver i t r]
  | EvReady i t =>
      exists k r, stages t tr1 = [EvClaim i t k; EvInvoke i t k;
                                  EvDeliver i t r; EvSignal i t]
  | EvGet i t r =>
      (exists j, In (EvDeliver j t r) tr1)
      /\ (In (EvClaim i t FromGet) tr1 \/ In (EvSkip i t FromGet) tr1)
      /\ (In (EvClaim i t FromGet) tr1 -> In (EvReady i t) tr1)
  | EvFutureWait i t => exists j r, In (EvDeliver j t r) tr1
  | _ => True
  end.

Definition history_ok (tr : list event) : Prop :=
  forall tr1 e tr2, tr = tr1 ++ e :: tr2 -> justified tr1 e.

Record Inv (w : world) : Prop := mkInv {
  inv_tasks : forall t T, tasks w !! t = Some T -> task_ok w t T;
  inv_threads : forall i th, threads w !! i = Some th -> thread_ok w i th;
  inv_queue : forall t, In t (m_tasks (pool w)) -> t < length (tasks w);
  inv_fresh : forall t, length (tasks w) <= t -> stages t (trace w) = [];
  inv_history : history_ok (trace w)
}.

Lemma history_snoc tr e :
  history_ok tr -> justified tr e -> history_ok (tr ++ [e]).
Proof.
  intros Hh Hj tr1 e' tr2 Heq.
  destruct tr2 as [|x tr2 _] using rev_ind.
  - apply app_inj_tail in Heq as [-> ->]. exact Hj.
  - rewrite app_comm_cons, app_assoc in Heq.
    apply app_inj_tail in Heq as [Heq _]. eapply Hh, Heq.
Qed.

Lemma task_at_inj_flag n b :
  m_worked_on (task_at n b) = false -> n = 0.
Proof. cbn. intros H. apply bool_decide_eq_false in H. lia. Qed.

Lemma pc_at_not_test n b : 1 <= n <= 4 -> pc_at n b <> TrTest.
Proof.
  intros [H1 H4]. destruct n as [|[|[|[|[|n]]]]]; cbn; try discriminate; lia.
Qed.

Lemma pc_at_inj n n' b :
  1 <= n <= 4 -> 1 <= n' <= 4 -> pc_at n b = pc_at n' b -> n = n'.
Proof.
  intros H H'.
  destruct n as [|[|[|[|[|n]]]]]; destruct n' as [|[|[|[|[|n']]]]];
    cbn; intros Heq; try discriminate; try lia.
Qed.

Lemma take_script_claim n j k t b j' k' :
  1 <= n ->
  In (EvClaim j' t k') (take n (script_of j k t b)) -> j' = j /\ k' = k.
Proof.
  intros Hn Hin. apply list_elem_of_In, elem_of_take in Hin as (m & Hm & _).
  destruct m as [|[|[|[|[|m]]]]]; cbn in Hm; inversion Hm; auto.
Qed.

Lemma take_script_head n j k t b :
  1 <= n -> In (EvClaim j t k) (take n (script_of j k t b)).
Proof. intros Hn. destruct n; [lia|]. cbn. left. reflexivity. Qed.

Lemma stages_silent t tr evs :
  (forall e, In e evs -> stage_of e = None) -> stages t (tr ++ evs) = stages t tr.
Proof.
  intros Hs. rewrite stages_app.
  replace (stages t evs) with (@nil event); [apply app_nil_r|].
  symmetry. induction evs as [|e evs IH]; [reflexivity|].
  unfold stages in *. rewrite filter_cons.
  destruct (decide _) as [Heq|_].
  - rewrite (Hs e) in Heq by (left; reflexivity). discriminate.
  - apply IH. intros e' He'. apply Hs. right. exact He'.
Qed.

(** [thread_ok] looks at the Tasks that exist, their stages and what the
    trace contains: it survives whatever keeps these. *)
Lemma thread_ok_mono w w' j th :
  (forall t T, tasks w !! t = Some T -> tasks w' !! t = Some T) ->
  (forall t, t < length (tasks w) -> stages t (trace w') = stages t (trace w)) ->
  (forall e, In e (trace w) -> In e (trace w')) ->
  thread_ok w j th -> thread_ok w' j th.
Proof.
  intros Htasks Hst Hin (H1 & H2 & H3). repeat split.
  - intros t Ht. specialize (H1 t Ht).
    apply lookup_lt_is_Some in H1 as [T HT].
    apply Htasks in HT. eapply lookup_lt_Some, HT.
  - intros k t p Hpc Hp. destruct (H2 k t p Hpc Hp) as (T & n & HT & Hn & Hpn & Hs).
    exists T, n. split; [apply Htasks, HT|]. split; [exact Hn|].
    split; [exact Hpn|]. rewrite Hst; [exact Hs|]. eapply lookup_lt_Some, HT.
  - intros t Hpc. destruct (H3 t Hpc) as [H|H]; [left|right]; apply Hin, H.
Qed.

(** [task_ok] survives whatever keeps the Task's stages and the thread
    that is performing them. *)
Lemma task_ok_frame w w' t T :
  stages t (trace w') = stages t (trace w) ->
  (forall j th, threads w !! j = Some th -> running (at_pc th) ->
                pc_task (at_pc th) = Some t -> threads w' !! j = Some th) ->
  task_ok w t T -> task_ok w' t T.
Proof.
  intros Hst Hth (j & k & n & Hn & Hs & HT & Hrun).
  exists j, k, n. split; [exact Hn|]. split; [rewrite Hst; exact Hs|].
  split; [exact HT|]. intros Hn14. destruct (Hrun Hn14) as (th & Hj & Hpc).
  exists th. split; [|exact Hpc]. apply Hth; [exact Hj| |].
  - rewrite Hpc. cbn. pose proof (pc_at_not_test n (callable T) Hn14) as Hne.
    destruct (pc_at n (callable T)); tauto.
  - rewrite Hpc. reflexivity.
Qed.

Lemma running_not_test k t p : running (TryRun k t p) <-> p <> TrTest.
Proof. destruct p; cbn; split; try tauto; try discriminate; congruence. Qed.

(** A step that changes no Task, adds no stage to the trace, and moves a
    thread that is not between claim and end of [try_run] to a statement
    that is not either. *)
Lemma inv_silent w w' i th p' scr' evs :
  Inv w ->
  threads w !! i = Some th ->
  ~ running (at_pc th) ->
  ~ running p' ->
  tasks w' = tasks w ->
  threads w' = <[i := mkThread p' scr']> (threads w) ->
  trace w' = trace w ++ evs ->
  (forall e, In e evs -> stage_of e = None) ->
  history_ok (trace w ++ evs) ->
  (forall t, pc_task p' = Some t -> t < length (tasks w)) ->
  (forall t, p' = GetRead t ->
     In (EvClaim i t FromGet) (trace w ++ evs)
     \/ In (EvSkip i t FromGet) (trace w ++ evs)) ->
  (forall t, In t (m_tasks (pool w')) -> t < length (tasks w)) ->
  Inv w'.
Proof.
  intros HI Hi Hold Hnew Htasks Hthreads Htrace Hsil Hhist Hpc Hget Hq.
  assert (Hst : forall t, stages t (trace w') = stages t (trace w)).
  { intros t. rewrite Htrace. apply stages_silent, Hsil. }
  split.
  - intros t T HT. rewrite Htasks in HT.
    eapply task_ok_frame; [apply Hst | | apply (inv_tasks w HI), HT].
    intros j thj Hj Hrun _. rewrite Hthreads.
    rewrite list_lookup_insert_ne; [exact Hj|].
    intros Heq. assert (th = thj) by congruence. subst. contradiction.
  - intros j thj Hj. rewrite Hthreads in Hj.
    destruct (decide (i = j)) as [<-|Hne].
    + rewrite list_lookup_insert_eq in Hj by (eapply lookup_lt_Some, Hi).
      inversion Hj; subst thj; clear Hj. repeat split; cbn.
      * intros t Ht. rewrite Htasks. apply Hpc, Ht.
      * intros k t p -> Hp. exfalso. apply Hnew, running_not_test, Hp.
      * intros t ->. rewrite Htrace. apply Hget. reflexivity.
    + rewrite list_lookup_insert_ne in Hj by exact Hne.
      eapply thread_ok_mono; [| | |apply (inv_threads w HI), Hj].
      * intros t T. rewrite Htasks. tauto.
      * intros t _. apply Hst.
      * intros e He. rewrite Htrace. apply in_or_app. left. exact He.
  - intros t Ht. rewrite Htasks. apply Hq, Ht.
  - intros t Ht. rewrite Hst. apply (inv_fresh w HI). rewrite <- Htasks. exact Ht.
  - rewrite Htrace. exact Hhist.
Qed.

(** Line 145: a new Task enters the table. *)
Lemma inv_new_task w w' i th b scr' :
  Inv w ->
  threads w !! i = Some th ->
  ~ running (at_pc th) ->
  tasks w' = tasks w ++ [Task_ctor b] ->
  threads w' = <[i := mkThread (AsyncLock (length (tasks w))) scr']> (threads w) ->
  trace w' = trace w ->
  pool w' = pool w ->
  Inv w'.
Proof.
  intros HI Hi Hold Htasks Hthreads Htrace Hpool.
  assert (Hpersist : forall j thj, threads w !! j = Some thj ->
            running (at_pc thj) -> threads w' !! j = Some thj).
  { intros j thj Hj Hrun. rewrite Hthreads, list_lookup_insert_ne; [exact Hj|].
    intros Heq. assert (th = thj) by congruence. subst. contradiction. }
  split.
  - intros t T HT. rewrite Htasks in HT.
    apply lookup_app_Some in HT as [HT | [Hlen HT]].
    + eapply task_ok_frame; [rewrite Htrace; reflexivity | | apply (inv_tasks w HI), HT].
      intros j thj Hj Hrun _. apply Hpersist; assumption.
    + destruct (t - length (tasks w)) as [|m] eqn:Hm; [|destruct m; discriminate].
      cbn in HT. inversion HT; subst T; clear HT.
      exists 0, FromGet, 0. split; [lia|]. split.
      * rewrite Htrace. apply (inv_fresh w HI). exact Hlen.
      * split; [reflexivity | lia].
  - intros j thj Hj. rewrite Hthreads in Hj.
    destruct (decide (i = j)) as [<-|Hne].
    + rewrite list_lookup_insert_eq in Hj by (eapply lookup_lt_Some, Hi).
      inversion Hj; subst thj; clear Hj. repeat split; cbn.
      * intros t [= <-]. rewrite Htasks, length_app. cbn. lia.
      * intros k t p [=].
      * intros t [=].
    + rewrite list_lookup_insert_ne in Hj by exact Hne.
      eapply thread_ok_mono; [| | |apply (inv_threads w HI), Hj].
      * intros t T HT. rewrite Htasks. apply lookup_app_l_Some, HT.
      * intros t _. rewrite Htrace. reflexivity.
      * intros e He. rewrite Htrace. exact He.
  - intros t Ht. rewrite Hpool in Ht. apply (inv_queue w HI) in Ht.
    rewrite Htasks, length_app. lia.
  - intros t Ht. rewrite Htrace. apply (inv_fresh w HI).
    rewrite Htasks, length_app in Ht. lia.
  - rewrite Htrace. apply (inv_history w HI).
Qed.

Lemma script_stage j k t b e : In e (script_of j k t b) -> stage_of e = Some t.
Proof. cbn. intros [<-|[<-|[<-|[<-|[<-|[]]]]]]; reflexivity. Qed.

Lemma take_script_eq n n' j k j' k' t b :
  1 <= n -> n <= 5 -> n' <= 5 ->
  take n (script_of j k t b) = take n' (script_of j' k' t b) ->
  n = n' /\ j = j' /\ k = k'.
Proof.
  intros H1 H5 H5' Heq.
  assert (Hlen : n = n').
  { apply (f_equal length) in Heq. rewrite !length_take in Heq. cbn in Heq. lia. }
  subst n'. destruct n; [lia|]. cbn in Heq. inversion Heq. auto.
Qed.

(** Line 62, the flag was clear: the thread claims the Task. *)
Lemma inv_claim w w' i th k t T scr' :
  Inv w ->
  threads w !! i = Some th ->
  at_pc th = TryRun k t TrTest ->
  tasks w !! t = Some T ->
  m_worked_on T = false ->
  tasks w' = alter set_worked_on t (tasks w) ->
  threads w' = <[i := mkThread (TryRun k t TrInvoke) scr']> (threads w) ->
  trace w' = trace w ++ [EvClaim i t k] ->
  pool w' = pool w ->
  Inv w'.
Proof.
  intros HI Hi Hpc HT Hflag Htasks Hthreads Htrace Hpool.
  assert (Hold : ~ running (at_pc th)) by (rewrite Hpc; cbn; tauto).
  destruct (inv_tasks w HI t T HT) as (j0 & k0 & n0 & Hn0 & Hs0 & HT0 & _).
  assert (n0 = 0) by (rewrite HT0 in Hflag; apply task_at_inj_flag in Hflag; exact Hflag).
  subst n0. cbn in Hs0.
  assert (Hother : forall t', t' <> t ->
            stages t' (trace w') = stages t' (trace w)).
  { intros t' Hne. rewrite Htrace. apply stages_snoc_other. cbn. congruence. }
  assert (Hsame : stages t (trace w') = [EvClaim i t k]).
  { rewrite Htrace, stages_snoc_same by reflexivity. rewrite Hs0. reflexivity. }
  assert (Hlt : t < length (tasks w)) by (eapply lookup_lt_Some, HT).
  split.
  - intros t' T' HT'. rewrite Htasks in HT'.
    destruct (decide (t = t')) as [<-|Hne].
    + rewrite list_lookup_alter_eq, HT in HT'. cbn in HT'.
      inversion HT'; subst T'; clear HT'.
      exists i, k, 1. split; [lia|]. split; [exact Hsame|].
      split; [rewrite HT0; reflexivity|]. intros _.
      eexists. split.
      * rewrite Hthreads. apply list_lookup_insert_eq. eapply lookup_lt_Some, Hi.
      * reflexivity.
    + rewrite list_lookup_alter_ne in HT' by exact Hne.
      eapply task_ok_frame; [apply Hother; congruence | | apply (inv_tasks w HI), HT'].
      intros j thj Hj Hrun _. rewrite Hthreads, list_lookup_insert_ne; [exact Hj|].
      intros Heq. assert (th = thj) by congruence. subst. contradiction.
  - intros j thj Hj. rewrite Hthreads in Hj.
    destruct (decide (i = j)) as [<-|Hne].
    + rewrite list_lookup_insert_eq in Hj by (eapply lookup_lt_Some, Hi).
      inversion Hj; subst thj; clear Hj. repeat split; cbn.
      * intros t' [= <-]. rewrite Htasks, length_alter. exact Hlt.
      * intros k' t' p [= <- <- <-] _. exists (set_worked_on T), 1.
        split; [rewrite Htasks, list_lookup_alter_eq, HT; reflexivity|].
        split; [lia|]. split; [reflexivity|]. exact Hsame.
      * intros t' [=].
    + rewrite list_lookup_insert_ne in Hj by exact Hne.
      destruct (inv_threads w HI j thj Hj) as (H1 & H2 & H3). repeat split.
      * intros t' Ht'. rewrite Htasks, length_alter. apply H1, Ht'.
      * intros k' t' p Hpc' Hp.
        destruct (H2 k' t' p Hpc' Hp) as (T' & n & HT' & Hn & Hpn & Hs).
        destruct (decide (t' = t)) as [->|Hne'].
        { rewrite Hs0 in Hs. destruct n; [lia | discriminate Hs]. }
        exists T', n. split; [rewrite Htasks, list_lookup_alter_ne; [exact HT'|congruence]|].
        split; [exact Hn|]. split; [exact Hpn|]. rewrite Hother; assumption.
      * intros t' Hpc'. rewrite Htrace.
        destruct (H3 t' Hpc') as [H|H]; [left|right]; apply in_or_app; left; exact H.
  - intros t' Ht'. rewrite Hpool in Ht'. rewrite Htasks, length_alter.
    apply (inv_queue w HI), Ht'.
  - intros t' Ht'. rewrite Htasks, length_alter in Ht'.
    rewrite Hother by lia. apply (inv_fresh w HI), Ht'.
  - rewrite Htrace. apply history_snoc; [apply (inv_history w HI)|]. exact Hs0.
Qed.

Lemma justified_stage i k t b n e :
  1 <= n <= 4 ->
  script_of i k t b !! n = Some e ->
  forall tr, stages t tr = take n (script_of i k t b) -> justified tr e.
Proof.
  intros Hn He tr Hs.
  destruct n as [|[|[|[|[|n]]]]]; try lia; cbn in He, Hs;
    inversion He; subst e; cbn; eauto.
Qed.

(** Lines 65 (into 47/50), 48/50/53, 55 and 66: the claiming thread
    performs stage [n] of the Task. *)
Lemma inv_advance w w' i th k t T n f e p' scr' :
  Inv w ->
  threads w !! i = Some th ->
  tasks w !! t = Some T ->
  1 <= n <= 4 ->
  at_pc th = TryRun k t (pc_at n (callable T)) ->
  stages t (trace w) = take n (script_of i k t (callable T)) ->
  script_of i k t (callable T) !! n = Some e ->
  f (task_at n (callable T)) = task_at (S n) (callable T) ->
  p' = (if decide (n = 4) then after_try_run k t
        else TryRun k t (pc_at (S n) (callable T))) ->
  tasks w' = alter f t (tasks w) ->
  threads w' = <[i := mkThread p' scr']> (threads w) ->
  trace w' = trace w ++ [e] ->
  pool w' = pool w ->
  Inv w'.
Proof.
  intros HI Hi HT Hn Hpc Hs He Hf Hp' Htasks Hthreads Htrace Hpool.
  set (b := callable T) in *.
  assert (Hst : stage_of e = Some t).
  { eapply script_stage, list_elem_of_In, list_elem_of_lookup_2, He. }
  destruct (inv_tasks w HI t T HT) as (j0 & k0 & n0 & Hn0 & Hs0 & HT0 & _).
  fold b in Hs0, HT0.
  assert (n = n0) as <-.
  { rewrite Hs in Hs0. apply take_script_eq in Hs0; [tauto|lia..]. }
  clear j0 k0 Hs0 Hn0.
  assert (HfT : f T = task_at (S n) b) by (rewrite HT0; exact Hf).
  assert (Hother : forall t', t' <> t ->
            stages t' (trace w') = stages t' (trace w)).
  { intros t' Hne. rewrite Htrace. apply stages_snoc_other. congruence. }
  assert (Hsame : stages t (trace w') = take (S n) (script_of i k t b)).
  { rewrite Htrace, stages_snoc_same by exact Hst. rewrite Hs.
    symmetry. apply take_S_r, He. }
  assert (Hlt : t < length (tasks w)) by (eapply lookup_lt_Some, HT).
  assert (Hin : forall x, In x (trace w) -> In x (trace w')).
  { intros x Hx. rewrite Htrace. apply in_or_app. left. exact Hx. }
  split.
  - intros t' T' HT'. rewrite Htasks in HT'.
    destruct (decide (t = t')) as [<-|Hne].
    + rewrite list_lookup_alter_eq, HT in HT'. cbn in HT'.
      inversion HT'; subst T'; clear HT'. rewrite HfT. cbn [callable task_at].
      exists i, k, (S n). split; [lia|]. split; [exact Hsame|].
      split; [reflexivity|]. intros HSn.
      eexists. split.
      * rewrite Hthreads. apply list_lookup_insert_eq. eapply lookup_lt_Some, Hi.
      * cbn. rewrite Hp'. destruct (decide (n = 4)); [lia | reflexivity].
    + rewrite list_lookup_alter_ne in HT' by exact Hne.
      eapply task_ok_frame; [apply Hother; congruence | | apply (inv_tasks w HI), HT'].
      intros j thj Hj Hrun Htask. rewrite Hthreads, list_lookup_insert_ne; [exact Hj|].
      intros Heq. assert (th = thj) by congruence. subst thj.
      rewrite Hpc in Htask. cbn in Htask. congruence.
  - intros j thj Hj. rewrite Hthreads in Hj.
    destruct (decide (i = j)) as [<-|Hne].
    + rewrite list_lookup_insert_eq in Hj by (eapply lookup_lt_Some, Hi).
      inversion Hj; subst thj; clear Hj. cbn [at_pc].
      assert (Hclaim : In (EvClaim i t k) (trace w')).
      { apply Hin. eapply in_stages. rewrite Hs. apply take_script_head. lia. }
      rewrite Hp'. destruct (decide (n = 4)) as [->|Hn4].
      * repeat split.
        -- intros t'. destruct k; cbn; intros [= <-].
           rewrite Htasks, length_alter. exact Hlt.
        -- intros k' t' p. destruct k; discriminate.
        -- intros t'. destruct k; cbn; intros [= <-]. left. exact Hclaim.
      * repeat split.
        -- intros t' [= <-]. rewrite Htasks, length_alter. exact Hlt.
        -- intros k' t' p [= <- <- <-] _. exists (f T), (S n).
           split; [rewrite Htasks, list_lookup_alter_eq, HT; reflexivity|].
           split; [lia|]. rewrite HfT. cbn [callable task_at].
           split; [reflexivity | exact Hsame].
        -- intros t' [=].
    + rewrite list_lookup_insert_ne in Hj by exact Hne.
      destruct (inv_threads w HI j thj Hj) as (H1 & H2 & H3). repeat split.
      * intros t' Ht'. rewrite Htasks, length_alter. apply H1, Ht'.
      * intros k' t' p Hpc' Hp.
        destruct (H2 k' t' p Hpc' Hp) as (T' & n' & HT' & Hn' & Hpn & Hs').
        destruct (decide (t' = t)) as [->|Hne'].
        { assert (T' = T) by congruence. subst T'. fold b in Hs'.
          rewrite Hs in Hs'. apply take_script_eq in Hs'; [|lia..].
          destruct Hs' as (_ & Hij & _). congruence. }
        exists T', n'. split; [rewrite Htasks, list_lookup_alter_ne; [exact HT'|congruence]|].
        split; [exact Hn'|]. split; [exact Hpn|]. rewrite Hother; assumption.
      * intros t' Hpc'.
        destruct (H3 t' Hpc') as [H|H]; [left|right]; apply Hin, H.
  - intros t' Ht'. rewrite Hpool in Ht'. rewrite Htasks, length_alter.
    apply (inv_queue w HI), Ht'.
  - intros t' Ht'. rewrite Htasks, length_alter in Ht'.
    rewrite Hother by lia. apply (inv_fresh w HI), Ht'.
  - rewrite Htrace. apply history_snoc; [apply (inv_history w HI)|].
    eapply justified_stage; eassumption.
Qed.

Lemma inv_silent0 w w' i th p' scr' :
  Inv w ->
  threads w !! i = Some th ->
  ~ running (at_pc th) ->
  ~ running p' ->
  tasks w' = tasks w ->
  threads w' = <[i := mkThread p' scr']> (threads w) ->
  trace w' = trace w ->
  (forall t, pc_task p' = Some t -> t < length (tasks w)) ->
  (forall t, p' = GetRead t ->
     In (EvClaim i t FromGet) (trace w) \/ In (EvSkip i t FromGet) (trace w)) ->
  (forall t, In t (m_tasks (pool w')) -> t < length (tasks w)) ->
  Inv w'.
Proof.
  intros HI Hi Hold Hnew Htasks Hthreads Htrace Hpc Hget Hq.
  eapply (inv_silent w w' i th p' scr' []); try eassumption.
  - rewrite app_nil_r. exact Htrace.
  - intros e [].
  - rewrite app_nil_r. apply (inv_history w HI).
  - rewrite app_nil_r. exact Hget.
Qed.

Lemma inv_silent1 w w' i th p' scr' e :
  Inv w ->
  threads w !! i = Some th ->
  ~ running (at_pc th) ->
  ~ running p' ->
  tasks w' = tasks w ->
  threads w' = <[i := mkThread p' scr']> (threads w) ->
  trace w' = trace w ++ [e] ->
  stage_of e = None ->
  justified (trace w) e ->
  (forall t, pc_task p' = Some t -> t < length (tasks w)) ->
  (forall t, p' = GetRead t ->
     In (EvClaim i t FromGet) (trace w ++ [e])
     \/ In (EvSkip i t FromGet) (trace w ++ [e])) ->
  (forall t, In t (m_tasks (pool w')) -> t < length (tasks w)) ->
  Inv w'.
Proof.
  intros HI Hi Hold Hnew Htasks Hthreads Htrace Hst Hj Hpc Hget Hq.
  eapply (inv_silent w w' i th p' scr' [e]); try eassumption.
  - intros e' [<-|[]]. exact Hst.
  - apply history_snoc; [apply (inv_history w HI) | exact Hj].
Qed.

(** What the members of a Task say about the trace. *)
Lemma claimed_in_trace w t T :
  Inv w -> tasks w !! t = Some T -> m_worked_on T = true ->
  exists j k, In (EvClaim j t k) (trace w).
Proof.
  intros HI HT Hflag.
  destruct (inv_tasks w HI t T HT) as (j & k & n & Hn & Hs & HT0 & _).
  assert (1 <= n).
  { rewrite HT0 in Hflag. cbn in Hflag. apply bool_decide_eq_true in Hflag. exact Hflag. }
  exists j, k. eapply in_stages. rewrite Hs. apply take_script_head. assumption.
Qed.

Lemma delivered_in_trace w t T r :
  Inv w -> tasks w !! t = Some T -> channel T = Some r ->
  r = deliver (callable T) /\ exists j, In (EvDeliver j t r) (trace w).
Proof.
  intros HI HT Hch.
  destruct (inv_tasks w HI t T HT) as (j & k & n & Hn & Hs & HT0 & _).
  rewrite HT0 in Hch. cbn in Hch. destruct (decide (3 <= n)) as [H3|]; [|discriminate].
  inversion Hch; subst r. split; [reflexivity|].
  exists j. eapply in_stages. rewrite Hs.
  destruct n as [|[|[|n]]]; try lia. cbn. auto.
Qed.

(** A thread that is not inside [try_run] and whose claim of a Task is in
    the trace has taken the Task through all its stages. *)
Lemma claim_completed w i th t k :
  Inv w -> threads w !! i = Some th -> ~ running (at_pc th) ->
  In (EvClaim i t k) (trace w) -> In (EvReady i t) (trace w).
Proof.
  intros HI Hi Hnot Hin.
  destruct (decide (t < length (tasks w))) as [Hlt|Hge].
  - apply lookup_lt_is_Some in Hlt as [T HT].
    destruct (inv_tasks w HI t T HT) as (j & k' & n & Hn & Hs & HT0 & Hrun).
    assert (Hin' : In (EvClaim i t k) (stages t (trace w))).
    { apply in_stages. split; [exact Hin | reflexivity]. }
    rewrite Hs in Hin'.
    assert (1 <= n) by (destruct n; [destruct Hin' | lia]).
    apply take_script_claim in Hin' as [-> ->]; [|assumption].
    destruct (decide (n = 5)) as [->|Hn5].
    + eapply in_stages. rewrite Hs. cbn. auto 10.
    + destruct Hrun as (th' & Hth' & Hpc'); [lia|].
      assert (th' = th) by congruence. subst th'.
      exfalso. apply Hnot. rewrite Hpc'. apply running_not_test, pc_at_not_test. lia.
  - exfalso. eapply (stages_nil_not_in t (trace w) (EvClaim i t k)).
    + apply (inv_fresh w HI). lia.
    + reflexivity.
    + exact Hin.
Qed.

Lemma pc_at_inv n b p :
  1 <= n <= 4 -> p = pc_at n b ->
  match p with
  | TrTest => False
  | TrInvoke => n = 1
  | TrDeliver o => n = 2 /\ o = b
  | TrBarrier => n = 3
  | TrReady => n = 4
  end.
Proof.
  intros Hn ->. destruct n as [|[|[|[|[|n]]]]]; cbn; auto; lia.
Qed.

(** The side conditions of [inv_silent0] and [inv_silent1]. *)
Ltac side_conditions HI Hpt :=
  cbn;
  try solve
    [ tauto
    | reflexivity
    | intros ? [=]
    | intros ? [= <-]; first [assumption | apply Hpt; reflexivity]
    | intros ? ?; eapply (inv_queue _ HI); eassumption ].

Ltac silent0 HI Hi Hpt :=
  eapply inv_silent0;
  [exact HI | exact Hi | | | reflexivity | reflexivity | reflexivity | | | ];
  side_conditions HI Hpt.

Ltac silent1 HI Hi Hpt :=
  eapply inv_silent1;
  [exact HI | exact Hi | | | reflexivity | reflexivity | reflexivity | | | | | ];
  side_conditions HI Hpt.

(** Every step keeps the invariant. *)
Lemma step_inv i w w' : Inv w -> step i w = Some w' -> Inv w'.
Proof.
  intros HI Hstep. unfold step in Hstep.
  destruct (threads w !! i) as [th|] eqn:Hi; [|discriminate]. cbn in Hstep.
  destruct (inv_threads w HI i th Hi) as (Hpt & Hrun & Hget).
  destruct th as [p scr]. cbn [at_pc script] in *.
  destruct p as [ | |b|t|t|t|t|k t q|t|t| | | |t| | | | | | | |t| | | ].
  - (* Idle *)
    destruct scr as [|c rest]; [discriminate|].
    destruct c as [b|t|t|[]|].
    + inversion Hstep; subst w'.
      silent0 HI Hi Hpt.
    + destruct (decide _) as [Hlt|]; [|discriminate]. inversion Hstep; subst w'.
      silent0 HI Hi Hpt.
    + destruct (decide _) as [Hlt|]; [|discriminate]. inversion Hstep; subst w'.
      silent0 HI Hi Hpt.
    + inversion Hstep; subst w'.
      silent0 HI Hi Hpt.
    + inversion Hstep; subst w'.
      silent0 HI Hi Hpt.
    + inversion Hstep; subst w'.
      silent0 HI Hi Hpt.
  - discriminate.
  - (* AsyncMake *)
    inversion Hstep; subst w'.
    eapply inv_new_task; [exact HI | exact Hi | cbn; tauto | reflexivity..].
  - (* AsyncLock *)
    unfold lock in Hstep. destruct (m_task_mutex (pool w)); [discriminate|].
    inversion Hstep; subst w'.
    silent0 HI Hi Hpt.
  - (* AsyncPush *)
    inversion Hstep; subst w'.
    silent0 HI Hi Hpt.
    intros t' Hin. apply in_app_or in Hin as [Hin|[<-|[]]].
    + eapply (inv_queue _ HI), Hin.
    + apply Hpt. reflexivity.
  - (* AsyncUnlock *)
    inversion Hstep; subst w'.
    silent0 HI Hi Hpt.
  - (* AsyncReturn *)
    inversion Hstep; subst w'.
    silent1 HI Hi Hpt.
  - (* TryRun *)
    destruct q as [ | |o| | ].
    + (* line 62 *)
      destruct (tasks w !! t) as [T|] eqn:HT; [|discriminate]. cbn in Hstep.
      destruct (m_worked_on T) eqn:Hflag; inversion Hstep; subst w'.
      * silent1 HI Hi Hpt.
        -- destruct k; cbn; tauto.
        -- eapply claimed_in_trace; eassumption.
        -- destruct k; cbn; intros ? [= <-]; apply Hpt; reflexivity.
        -- destruct k; cbn; intros ? [= <-]. right.
           apply in_or_app. right. left. reflexivity.
      * eapply inv_claim;
          [exact HI | exact Hi | reflexivity | exact HT | exact Hflag
          | reflexivity ..].
    + (* the callable is invoked *)
      destruct (tasks w !! t) as [T0|] eqn:HT0; [|discriminate]. cbn in Hstep.
      inversion Hstep; subst w'.
      destruct (Hrun k t TrInvoke eq_refl ltac:(discriminate))
        as (T & n & HT & Hn & Hpn & Hs).
      assert (T0 = T) by congruence; subst T0.
      apply pc_at_inv in Hpn; [|exact Hn]. cbn in Hpn. subst n.
      eapply (inv_advance w _ i _ k t T 1 id);
        [exact HI | exact Hi | exact HT | lia | reflexivity | exact Hs
        | reflexivity | reflexivity | reflexivity
        | symmetry; apply list_alter_id; reflexivity
        | reflexivity | reflexivity | reflexivity].
    + (* the promise is set *)
      inversion Hstep; subst w'.
      destruct (Hrun k t (TrDeliver o) eq_refl ltac:(discriminate))
        as (T & n & HT & Hn & Hpn & Hs).
      apply pc_at_inv in Hpn; [|exact Hn]. cbn in Hpn. destruct Hpn as [-> ->].
      eapply (inv_advance w _ i _ k t T 2 (set_channel (deliver (callable T))));
        [exact HI | exact Hi | exact HT | lia | reflexivity | exact Hs
        | reflexivity | reflexivity | reflexivity | reflexivity
        | reflexivity | reflexivity | reflexivity].
    + (* the barrier is set *)
      inversion Hstep; subst w'.
      destruct (Hrun k t TrBarrier eq_refl ltac:(discriminate))
        as (T & n & HT & Hn & Hpn & Hs).
      apply pc_at_inv in Hpn; [|exact Hn]. cbn in Hpn. subst n.
      eapply (inv_advance w _ i _ k t T 3 set_barrier);
        [exact HI | exact Hi | exact HT | lia | reflexivity | exact Hs
        | reflexivity | reflexivity | reflexivity | reflexivity
        | reflexivity | reflexivity | reflexivity].
    + (* line 66 *)
      inversion Hstep; subst w'.
      destruct (Hrun k t TrReady eq_refl ltac:(discriminate))
        as (T & n & HT & Hn & Hpn & Hs).
      apply pc_at_inv in Hpn; [|exact Hn]. cbn in Hpn. subst n.
      eapply (inv_advance w _ i _ k t T 4 set_ready);
        [exact HI | exact Hi | exact HT | lia | reflexivity | exact Hs
        | reflexivity | reflexivity | reflexivity | reflexivity
        | reflexivity | reflexivity | reflexivity].
  - (* GetRead *)
    destruct (tasks w !! t) as [T|] eqn:HT; [|discriminate]. cbn in Hstep.
    destruct (channel T) as [r|] eqn:Hch; [|discriminate]. cbn in Hstep.
    inversion Hstep; subst w'.
    silent1 HI Hi Hpt.
    split; [eapply delivered_in_trace; eassumption|].
    split; [apply Hget; reflexivity|].
    intros Hc. eapply claim_completed; [exact HI | exact Hi | cbn; tauto | exact Hc].
  - (* FutureWait *)
    destruct (tasks w !! t) as [T|] eqn:HT; [|discriminate]. cbn in Hstep.
    destruct (channel T) as [r|] eqn:Hch; [|discriminate]. cbn in Hstep.
    inversion Hstep; subst w'.
    silent1 HI Hi Hpt.
    destruct (delivered_in_trace w t T r HI HT Hch) as [_ [j Hj]]. eauto.
  - (* WaitLoopLock *)
    unfold lock in Hstep. destruct (m_task_mutex (pool w)); [discriminate|].
    inversion Hstep; subst w'. silent0 HI Hi Hpt.
  - (* WaitLoopCheck *)
    destruct (m_tasks (pool w)) eqn:Hq; inversion Hstep; subst w';
      silent0 HI Hi Hpt.
  - (* WaitLoopPop *)
    destruct (m_tasks (pool w)) as [|t q] eqn:Hq; [discriminate|].
    inversion Hstep; subst w'. silent1 HI Hi Hpt.
    + intros ? [= <-]. eapply (inv_queue _ HI). rewrite Hq. left. reflexivity.
    + intros t' Ht'. eapply (inv_queue _ HI). rewrite Hq. right. exact Ht'.
  - (* WaitLoopUnlock *)
    inversion Hstep; subst w'. silent0 HI Hi Hpt.
  - (* WaitLoopDec *)
    inversion Hstep; subst w'. silent0 HI Hi Hpt.
  - (* WaitFinalLock *)
    unfold lock in Hstep. destruct (m_task_mutex (pool w)); [discriminate|].
    inversion Hstep; subst w'. silent0 HI Hi Hpt.
  - (* WaitFinalCv *)
    destruct (decide _); inversion Hstep; subst w';
      [silent1 HI Hi Hpt | silent0 HI Hi Hpt].
  - (* WorkLock *)
    unfold lock in Hstep. destruct (m_task_mutex (pool w)); [discriminate|].
    inversion Hstep; subst w'. silent0 HI Hi Hpt.
  - (* WorkCv *)
    destruct (m_quit (pool w) || _); inversion Hstep; subst w'; silent0 HI Hi Hpt.
  - (* WorkQuit *)
    destruct (m_quit (pool w)); inversion Hstep; subst w'; silent0 HI Hi Hpt.
  - (* WorkPop *)
    destruct (m_tasks (pool w)) as [|t q] eqn:Hq; [discriminate|].
    inversion Hstep; subst w'. silent1 HI Hi Hpt.
    + intros ? [= <-]. eapply (inv_queue _ HI). rewrite Hq. left. reflexivity.
    + intros t' Ht'. eapply (inv_queue _ HI). rewrite Hq. right. exact Ht'.
  - (* WorkUnlock *)
    inversion Hstep; subst w'. silent0 HI Hi Hpt.
  - (* WorkDec *)
    inversion Hstep; subst w'. silent0 HI Hi Hpt.
  - (* DtorQuit *)
    inversion Hstep; subst w'. silent0 HI Hi Hpt.
  - (* DtorJoin *)
    destruct (workers_exited w); inversion Hstep; subst w'. silent0 HI Hi Hpt.
Qed.

Lemma ctor_thread pool_size scripts i th :
  threads (ThreadPool_ctor pool_size scripts) !! i = Some th ->
  (i < pool_size /\ th = mkThread WorkLock [])
  \/ (pool_size <= i /\ exists scr, scripts !! (i - pool_size) = Some scr
                                    /\ th = mkThread Idle scr).
Proof.
  cbn. intros H. apply lookup_app_Some in H as [H | [Hlen H]].
  - left. apply lookup_replicate in H as [-> Hlt]. auto.
  - right. rewrite length_replicate in Hlen, H. split; [exact Hlen|].
    rewrite list_lookup_fmap in H.
    destruct (scripts !! (i - pool_size)) as [scr|]; [|discriminate].
    cbn in H. inversion H. eauto.
Qed.

Lemma ctor_inv pool_size scripts : Inv (ThreadPool_ctor pool_size scripts).
Proof.
  split.
  - intros t T H. cbn in H. rewrite lookup_nil in H. discriminate.
  - intros i th H. apply ctor_thread in H as [[_ ->] | [_ (scr & _ & ->)]];
      repeat split; cbn; intros; discriminate.
  - intros t [].
  - intros t _. reflexivity.
  - intros tr1 e tr2 H. cbn in H. destruct tr1; discriminate.
Qed.

Lemma reachable_inv w0 w : Inv w0 -> reachable w0 w -> Inv w.
Proof.
  intros H0 Hr. induction Hr; [exact H0 | eapply step_inv; eauto].
Qed.

(** ** Reading the stages *)

Lemma claimers_app t tr1 tr2 :
  claimers t (tr1 ++ tr2) = claimers t tr1 ++ claimers t tr2.
Proof. apply omap_app. Qed.

Lemma invokers_app t tr1 tr2 :
  invokers t (tr1 ++ tr2) = invokers t tr1 ++ invokers t tr2.
Proof. apply omap_app. Qed.

Lemma claimers_cons t e tr : claimers t (e :: tr) = claimers t [e] ++ claimers t tr.
Proof. apply (claimers_app t [e] tr). Qed.

Lemma invokers_cons t e tr : invokers t (e :: tr) = invokers t [e] ++ invokers t tr.
Proof. apply (invokers_app t [e] tr). Qed.

Lemma claimers_stages t tr : claimers t (stages t tr) = claimers t tr.
Proof.
  induction tr as [|e tr IH]; [reflexivity|].
  unfold stages in *. rewrite filter_cons.
  destruct (decide (stage_of e = Some t)) as [He|He].
  - rewrite (claimers_cons t e tr), claimers_cons, IH. reflexivity.
  - rewrite (claimers_cons t e tr), IH.
    replace (claimers t [e]) with (@nil nat); [reflexivity|].
    destruct e; cbn in *; try reflexivity.
    destruct (decide (t0 = t)); [congruence | reflexivity].
Qed.

Lemma invokers_stages t tr : invokers t (stages t tr) = invokers t tr.
Proof.
  induction tr as [|e tr IH]; [reflexivity|].
  unfold stages in *. rewrite filter_cons.
  destruct (decide (stage_of e = Some t)) as [He|He].
  - rewrite (invokers_cons t e tr), invokers_cons, IH. reflexivity.
  - rewrite (invokers_cons t e tr), IH.
    replace (invokers t [e]) with (@nil nat); [reflexivity|].
    destruct e; cbn in *; try reflexivity.
    destruct (decide (t0 = t)); [congruence | reflexivity].
Qed.

Lemma claimers_script n j k t b :
  claimers t (take n (script_of j k t b)) = if decide (1 <= n) then [j] else [].
Proof.
  destruct n as [|[|[|[|[|n]]]]]; cbn; rewrite ?take_nil; cbn;
    destruct (decide (t = t)); try congruence;
    destruct (decide _); try lia; reflexivity.
Qed.

Lemma invokers_script n j k t b :
  invokers t (take n (script_of j k t b)) = if decide (2 <= n) then [j] else [].
Proof.
  destruct n as [|[|[|[|[|n]]]]]; cbn; rewrite ?take_nil; cbn;
    destruct (decide (t = t)); try congruence;
    destruct (decide _); try lia; reflexivity.
Qed.

(** The stages of a Task are an initial segment of the stages of one
    thread, also for a Task that does not exist yet. *)
Lemma stages_shape w t :
  Inv w ->
  exists j k b n, n <= 5 /\ stages t (trace w) = take n (script_of j k t b)
    /\ (forall T, tasks w !! t = Some T -> callable T = b).
Proof.
  intros HI. destruct (tasks w !! t) as [T|] eqn:HT.
  - destruct (inv_tasks w HI t T HT) as (j & k & n & Hn & Hs & _).
    exists j, k, (callable T), n. split; [exact Hn|]. split; [exact Hs|].
    intros T' [= <-]. reflexivity.
  - exists 0, FromGet, (Returns 0), 0. split; [lia|]. split.
    + apply (inv_fresh w HI). apply lookup_ge_None. exact HT.
    + intros T' [=].
Qed.

Lemma in_claimers t tr i k : In (EvClaim i t k) tr -> In i (claimers t tr).
Proof.
  intros H. apply in_split in H as (a & b & ->).
  rewrite claimers_app. apply in_or_app. right. cbn.
  destruct (decide (t = t)); [left; reflexivity | congruence].
Qed.

Lemma one_claimer w t :
  Inv w ->
  length (claimers t (trace w)) <= 1 /\ length (invokers t (trace w)) <= 1.
Proof.
  intros HI. destruct (stages_shape w t HI) as (j & k & b & n & _ & Hs & _).
  rewrite <- claimers_stages, <- invokers_stages, Hs.
  rewrite claimers_script, invokers_script.
  split; destruct (decide _); cbn; lia.
Qed.

Lemma prefix_claimers t tr1 e tr2 j :
  length (claimers t (tr1 ++ e :: tr2)) <= 1 ->
  In j (claimers t tr1) ->
  claimers t tr1 = [j] /\ claimers t (tr1 ++ e :: tr2) = [j].
Proof.
  intros Hlen Hin. rewrite claimers_app in *. rewrite length_app in Hlen.
  destruct (claimers t tr1) as [|x [|y l]].
  - destruct Hin.
  - destruct Hin as [->|[]].
    destruct (claimers t (e :: tr2)); cbn in *; [tauto | lia].
  - cbn in Hlen. lia.
Qed.

(** What the test of line 62 does when the flag is set: [try_run] is over. *)
Lemma step_skip w i th k t T :
  threads w !! i = Some th ->
  at_pc th = TryRun k t TrTest ->
  tasks w !! t = Some T ->
  m_worked_on T = true ->
  step i w
  = Some (mkWorld (tasks w) (pool w)
            (<[i := mkThread (after_try_run k t) (script th)]> (threads w))
            (trace w ++ [EvSkip i t k])).
Proof.
  intros Hi Hpc HT Hflag. unfold step. rewrite Hi. cbn. rewrite Hpc, HT. cbn.
  rewrite Hflag. reflexivity.
Qed.

(** What the test of line 62 does when the flag is clear: the flag is set
    and the caller goes on to line 65. *)
Lemma step_claim w i th k t T :
  threads w !! i = Some th ->
  at_pc th = TryRun k t TrTest ->
  tasks w !! t = Some T ->
  m_worked_on T = false ->
  step i w
  = Some (mkWorld (alter set_worked_on t (tasks w)) (pool w)
            (<[i := mkThread (TryRun k t TrInvoke) (script th)]> (threads w))
            (trace w ++ [EvClaim i t k])).
Proof.
  intros Hi Hpc HT Hflag. unfold step. rewrite Hi. cbn. rewrite Hpc, HT. cbn.
  rewrite Hflag. reflexivity.
Qed.

(** The flag of a Task is set exactly when the Task has been claimed. *)
Lemma flag_is_claim w t T :
  Inv w -> tasks w !! t = Some T ->
  (m_worked_on T = false -> claimers t (trace w) = [] /\ invokers t (trace w) = [])
  /\ (m_worked_on T = true -> exists j, claimers t (trace w) = [j]).
Proof.
  intros HI HT.
  destruct (inv_tasks w HI t T HT) as (j & k & n & Hn & Hs & HTn & _).
  rewrite <- claimers_stages, <- invokers_stages, Hs.
  rewrite claimers_script, invokers_script.
  rewrite HTn. cbn. split; intros Hflag.
  - apply bool_decide_eq_false in Hflag.
    destruct (decide (1 <= n)); [contradiction|].
    destruct (decide (2 <= n)); [lia|]. auto.
  - apply bool_decide_eq_true in Hflag.
    destruct (decide (1 <= n)); [eauto | contradiction].
Qed.

(** C1. In every execution of a pool with any number of workers and any
    user threads, and for every Task: the callable is invoked at most once
    and the Task is claimed at most once; a call of [try_run] whose test
    finds the flag clear is the first to test it, and it claims the Task:
    it sets the flag, becomes the one claimer, and goes on to invoke the
    callable, the one invocation; a call whose test finds the flag set
    comes after the one claim, changes no Task and is over at once; the
    invocation is made by the thread that claimed, before any other
    invocation; the flag is set exactly when the Task has been claimed; and
    as soon as any call of [try_run] has made its test, exactly one caller
    has claimed. The callers of [try_run] are the workers, the draining
    loop of [ThreadPool::wait] and [Future::get]. *)
Theorem callable_invoked_at_most_once
    (pool_size : nat) (scripts : list (list call)) (w : world) (t : task_id) :
  reachable (ThreadPool_ctor pool_size scripts) w ->
  length (invokers t (trace w)) <= 1
  /\ length (claimers t (trace w)) <= 1
  /\ (forall tr1 i k tr2,
        trace w = tr1 ++ EvClaim i t k :: tr2 -> claimers t tr1 = [])
  /\ (forall tr1 i k tr2,
        trace w = tr1 ++ EvSkip i t k :: tr2 ->
        exists j, claimers t tr1 = [j] /\ claimers t (trace w) = [j])
  /\ (forall tr1 i k tr2,
        trace w = tr1 ++ EvInvoke i t k :: tr2 ->
        claimers t tr1 = [i] /\ invokers t tr1 = []
        /\ invokers t (trace w) = [i])
  /\ (forall i th k T,
        threads w !! i = Some th ->
        at_pc th = TryRun k t TrTest ->
        tasks w !! t = Some T ->
        m_worked_on T = true ->
        exists w',
          step i w = Some w'
          /\ tasks w' = tasks w
          /\ trace w' = trace w ++ [EvSkip i t k]
          /\ threads w' !! i = Some (mkThread (after_try_run k t) (script th)))
  /\ (forall i th k T,
        threads w !! i = Some th ->
        at_pc th = TryRun k t TrTest ->
        tasks w !! t = Some T ->
        m_worked_on T = false ->
        claimers t (trace w) = []
        /\ exists w',
             step i w = Some w'
             /\ tasks w' = alter set_worked_on t (tasks w)
             /\ tasks w' !! t = Some (set_worked_on T)
             /\ trace w' = trace w ++ [EvClaim i t k]
             /\ claimers t (trace w') = [i]
             /\ threads w' !! i = Some (mkThread (TryRun k t TrInvoke) (script th))
             /\ exists w'',
                  step i w' = Some w''
                  /\ tasks w'' = tasks w'
                  /\ trace w'' = trace w' ++ [EvInvoke i t k]
                  /\ invokers t (trace w'') = [i])
  /\ (forall T, tasks w !! t = Some T ->
        (m_worked_on T = true <-> exists j, claimers t (trace w) = [j]))
  /\ (forall i k,
        In (EvClaim i t k) (trace w) \/ In (EvSkip i t k) (trace w) ->
        exists j, claimers t (trace w) = [j]).
Proof.
  intros Hr.
  assert (HI : Inv w) by (eapply reachable_inv; [apply ctor_inv | exact Hr]).
  destruct (one_claimer w t HI) as [Hc Hv].
  assert (Hone : forall i k, In (EvClaim i t k) (trace w) ->
                 exists j, claimers t (trace w) = [j]).
  { intros i k Hin. apply in_claimers in Hin.
    destruct (claimers t (trace w)) as [|j [|j' l]]; [destruct Hin | eauto |].
    cbn in Hc. lia. }
  split; [exact Hv|]. split; [exact Hc|].
  split; [|split; [|split; [|split; [|split; [|split]]]]].
  - intros tr1 i k tr2 Htr.
    pose proof (inv_history w HI tr1 _ tr2 Htr) as Hj. cbn in Hj.
    rewrite <- claimers_stages, Hj. reflexivity.
  - intros tr1 i k tr2 Htr.
    destruct (inv_history w HI tr1 _ tr2 Htr) as (j & k' & Hin).
    exists j. rewrite Htr in Hc |- *. eapply prefix_claimers; [exact Hc|].
    eapply in_claimers, Hin.
  - intros tr1 i k tr2 Htr.
    pose proof (inv_history w HI tr1 _ tr2 Htr) as Hj. cbn in Hj.
    split; [rewrite <- claimers_stages, Hj; cbn;
            destruct (decide (t = t)); [reflexivity | congruence]|].
    split; [rewrite <- invokers_stages, Hj; reflexivity|].
    assert (H1 : invokers t tr1 = []) by (rewrite <- invokers_stages, Hj; reflexivity).
    assert (H2 : invokers t [EvInvoke i t k] = [i]).
    { cbn. destruct (decide (t = t)); [reflexivity | congruence]. }
    rewrite Htr in Hv |- *.
    rewrite invokers_app, invokers_cons, H1, H2 in Hv.
    rewrite invokers_app, invokers_cons, H1, H2.
    destruct (invokers t tr2); [reflexivity | cbn in Hv; lia].
  - intros i th k T Hi Hpc HT Hflag. eexists.
    split; [apply (step_skip w i th k t T Hi Hpc HT Hflag)|].
    split; [reflexivity|]. split; [reflexivity|]. cbn.
    apply list_lookup_insert_eq. eapply lookup_lt_Some, Hi.
  - intros i th k T Hi Hpc HT Hflag.
    assert (Hlen : i < length (threads w)) by (eapply lookup_lt_Some, Hi).
    destruct (flag_is_claim w t T HI HT) as [Hclear _].
    destruct (Hclear Hflag) as [Hnoc Hnoi].
    split; [exact Hnoc|]. eexists.
    split; [apply (step_claim w i th k t T Hi Hpc HT Hflag)|].
    cbn [tasks trace threads].
    assert (HT' : alter set_worked_on t (tasks w) !! t = Some (set_worked_on T))
      by (rewrite list_lookup_alter_eq, HT; reflexivity).
    split; [reflexivity|]. split; [exact HT'|]. split; [reflexivity|].
    split.
    { rewrite claimers_app, Hnoc. cbn.
      destruct (decide (t = t)); [reflexivity | congruence]. }
    split; [apply list_lookup_insert_eq, Hlen|].
    eexists. split.
    { unfold step. cbn [threads tasks].
      rewrite list_lookup_insert_eq by exact Hlen. cbn. rewrite HT'. cbn.
      reflexivity. }
    split; [reflexivity|]. split; [reflexivity|].
    cbn [trace goto with_thread emit].
    rewrite !invokers_app, Hnoi. cbn.
    destruct (decide (t = t)); [reflexivity | congruence].
  - intros T HT. destruct (flag_is_claim w t T HI HT) as [Hclear Hset].
    split; [exact Hset|]. intros [j Hj].
    destruct (m_worked_on T); [reflexivity|].
    destruct (Hclear eq_refl) as [Hnil _]. congruence.
  - intros i k [Hin|Hin]; [eapply Hone, Hin|].
    apply in_split in Hin as (tr1 & tr2 & Htr).
    destruct (inv_history w HI tr1 _ tr2 Htr) as (j & k' & Hin).
    apply (Hone j k'). rewrite Htr. apply in_or_app. left. exact Hin.
Qed.

(** The execution [worker_first] of [one_worker]: the worker has claimed
    the Task and set the result promise, and [get] has returned. *)
Definition raced : world :=
  Eval vm_compute in
    match run worker_first one_worker with Some w => w | None => one_worker end.

Lemma raced_run : run worker_first one_worker = Some raced.
Proof. vm_compute. reflexivity. Qed.

Lemma raced_reachable : reachable one_worker raced.
Proof. eapply run_reachable, raced_run. Qed.

(** Another execution of [one_worker]: the worker has taken the Task from
    the queue and the user thread has called [get]; both are at the test
    of line 62, and the flag is clear. *)
Definition contested : world :=
  Eval vm_compute in
    match run (replicate 6 1 ++ replicate 5 0 ++ [1]) one_worker with
    | Some w => w
    | None => one_worker
    end.

Lemma contested_reachable : reachable one_worker contested.
Proof.
  apply (run_reachable (replicate 6 1 ++ replicate 5 0 ++ [1])).
  vm_compute. reflexivity.
Qed.

Example contested_threads :
  map at_pc (threads contested)
  = [TryRun FromWorker 0 TrTest; TryRun FromGet 0 TrTest]
  /\ m_worked_on <$> tasks contested !! 0 = Some false.
Proof. split; reflexivity. Qed.

Lemma callable_invoked_at_most_once_witness :
  length (claimers 0 (trace raced)) = 1
  /\ length (invokers 0 (trace raced)) = 1
  /\ exists w' w'',
       step 0 contested = Some w'
       /\ claimers 0 (trace w') = [0]
       /\ step 1 w' = Some w''
       /\ trace w'' = trace w' ++ [EvSkip 1 0 FromGet]
       /\ claimers 0 (trace w'') = [0].
Proof.
  destruct (callable_invoked_at_most_once 1
              [[CallAsync (Returns 42); CallGet 0]] raced 0 raced_reachable)
    as (_ & _ & _ & _ & Hinv & _ & _ & _ & Hone).
  destruct (Hone 0 FromWorker) as [j Hj].
  { left. vm_compute. tauto. }
  destruct (Hinv [EvSubmit 1 0; EvDequeue 0 0 FromWorker; EvClaim 0 0 FromWorker]
                 0 FromWorker
                 [EvDeliver 0 0 (Value 42); EvSkip 1 0 FromGet;
                  EvGet 1 0 (Value 42)] eq_refl)
    as (_ & _ & Hi).
  split; [rewrite Hj; reflexivity|]. split; [rewrite Hi; reflexivity|].
  destruct (callable_invoked_at_most_once 1
              [[CallAsync (Returns 42); CallGet 0]] contested 0 contested_reachable)
    as (_ & _ & _ & _ & _ & _ & Hclaim & _).
  destruct (Hclaim 0 _ FromWorker _ eq_refl eq_refl eq_refl eq_refl)
    as (_ & w' & Hstep & Htasks & Hflag & Htr & Hcl & Hth & _).
  assert (Hr' : reachable one_worker w')
    by (eapply reach_step; [apply contested_reachable | exact Hstep]).
  destruct (callable_invoked_at_most_once 1
              [[CallAsync (Returns 42); CallGet 0]] w' 0 Hr')
    as (_ & _ & _ & _ & _ & Hskip & _).
  destruct (Hskip 1 (mkThread (TryRun FromGet 0 TrTest) []) FromGet
                  (set_worked_on (mkTask false false false None (Returns 42))))
    as (w'' & Hstep' & _ & Htr' & _).
  - rewrite (step_claim contested 0 _ FromWorker 0 _ eq_refl eq_refl eq_refl eq_refl)
      in Hstep.
    inversion Hstep. reflexivity.
  - reflexivity.
  - rewrite Hflag. reflexivity.
  - reflexivity.
  - exists w', w''. split; [exact Hstep|]. split; [exact Hcl|].
    split; [exact Hstep'|]. split; [exact Htr'|].
    rewrite Htr', claimers_app, Hcl. reflexivity.
Defined.

(** ** One thread on its own *)

Lemma run_cons i rest w w1 :
  step i w = Some w1 -> run (i :: rest) w = run rest w1.
Proof. intros H. cbn. rewrite H. reflexivity. Qed.

Lemma run_replicate_add n m i w :
  run (replicate (n + m) i) w = w' ← run (replicate n i) w; run (replicate m i) w'.
Proof. rewrite replicate_add. apply run_app. Qed.

(** The Task after [try_run] has taken it through its stages. *)
Definition completed (T : Task) : Task :=
  mkTask true true true (Some (deliver (callable T))) (callable T).

(** [try_run] from its first statement, with no other thread taking a
    step: one step when the flag is set, five when it is clear. *)
Lemma try_run_alone w i scr k t T :
  threads w !! i = Some (mkThread (TryRun k t TrTest) scr) ->
  tasks w !! t = Some T ->
  exists w',
    run (replicate (if m_worked_on T then 1 else 5) i) w = Some w'
    /\ threads w' = <[i := mkThread (after_try_run k t) scr]> (threads w)
    /\ pool w' = pool w
    /\ (if m_worked_on T
        then tasks w' = tasks w /\ trace w' = trace w ++ [EvSkip i t k]
        else tasks w' = <[t := completed T]> (tasks w)
             /\ trace w' = trace w ++ script_of i k t (callable T)).
Proof.
  intros Hi HT.
  assert (Hlen : i < length (threads w)) by (eapply lookup_lt_Some, Hi).
  assert (Hlt : t < length (tasks w)) by (eapply lookup_lt_Some, HT).
  destruct (m_worked_on T) eqn:Hflag.
  - eexists. split.
    + cbn [replicate]. erewrite run_cons; [reflexivity|].
      unfold step. rewrite Hi. cbn. rewrite HT. cbn. rewrite Hflag. reflexivity.
    + cbn. auto.
  - eexists. split.
    + cbn [replicate].
      erewrite run_cons.
      2:{ unfold step. rewrite Hi. cbn. rewrite HT. cbn. rewrite Hflag. reflexivity. }
      erewrite run_cons.
      2:{ unfold step. cbn [threads goto with_thread emit with_tasks].
          rewrite list_lookup_insert_eq by exact Hlen. cbn.
          rewrite list_lookup_alter_eq, HT. cbn. reflexivity. }
      erewrite run_cons.
      2:{ unfold step. cbn [threads goto with_thread emit with_tasks].
          rewrite list_lookup_insert_eq by (rewrite ?length_insert; exact Hlen).
          cbn. reflexivity. }
      erewrite run_cons.
      2:{ unfold step. cbn [threads goto with_thread emit with_tasks].
          rewrite list_lookup_insert_eq by (rewrite ?length_insert; exact Hlen).
          cbn. reflexivity. }
      erewrite run_cons.
      2:{ unfold step. cbn [threads goto with_thread emit with_tasks].
          rewrite list_lookup_insert_eq by (rewrite ?length_insert; exact Hlen).
          cbn. reflexivity. }
      reflexivity.
    + cbn. split; [rewrite !list_insert_insert_eq; reflexivity|].
      split; [reflexivity|]. split.
      * rewrite !list_alter_alter_eq, list_insert_alter.
        apply list_alter_ext; [|reflexivity].
        intros T' HT'. assert (T' = T) by congruence. subst T'. reflexivity.
      * rewrite <- !app_assoc. reflexivity.
Qed.


(** Single steps, with the world they lead to. *)
Lemma step_call_get w i rest t :
  threads w !! i = Some (mkThread Idle (CallGet t :: rest)) ->
  t < length (tasks w) ->
  step i w
  = Some (mkWorld (tasks w) (pool w)
            (<[i := mkThread (TryRun FromGet t TrTest) rest]> (threads w))
            (trace w)).
Proof.
  intros Hi Hlt. unfold step. rewrite Hi. cbn.
  destruct (decide _); [reflexivity | contradiction].
Qed.

Lemma step_invoke w i scr k t T :
  threads w !! i = Some (mkThread (TryRun k t TrInvoke) scr) ->
  tasks w !! t = Some T ->
  step i w
  = Some (mkWorld (tasks w) (pool w)
            (<[i := mkThread (TryRun k t (TrDeliver (callable T))) scr]> (threads w))
            (trace w ++ [EvInvoke i t k])).
Proof. intros Hi HT. unfold step. rewrite Hi. cbn. rewrite HT. reflexivity. Qed.

Lemma step_deliver w i scr k t o :
  threads w !! i = Some (mkThread (TryRun k t (TrDeliver o)) scr) ->
  step i w
  = Some (mkWorld (alter (set_channel (deliver o)) t (tasks w)) (pool w)
            (<[i := mkThread (TryRun k t TrBarrier) scr]> (threads w))
            (trace w ++ [EvDeliver i t (deliver o)])).
Proof. intros Hi. unfold step. rewrite Hi. reflexivity. Qed.

Lemma step_get_read w i scr t T r :
  threads w !! i = Some (mkThread (GetRead t) scr) ->
  tasks w !! t = Some T ->
  channel T = Some r ->
  step i w
  = Some (mkWorld (tasks w) (pool w)
            (<[i := mkThread Idle scr]> (threads w))
            (trace w ++ [EvGet i t r])).
Proof.
  intros Hi HT Hch. unfold step. rewrite Hi. cbn. rewrite HT. cbn.
  rewrite Hch. reflexivity.
Qed.

(** [get] on the Future of an existing Task returns: whoever has claimed
    the Task and not yet set the promise can take the steps that set it,
    and if nobody has, [get] runs the Task itself. *)
Lemma get_progress w i scr t :
  Inv w ->
  threads w !! i = Some (mkThread (TryRun FromGet t TrTest) scr) ->
  exists T sched w' tr',
    tasks w !! t = Some T
    /\ run sched w = Some w'
    /\ trace w' = trace w ++ tr' ++ [EvGet i t (deliver (callable T))]
    /\ threads w' !! i = Some (mkThread Idle scr)
    /\ (m_worked_on T = false ->
          sched = replicate 6 i /\ tr' = script_of i FromGet t (callable T)).
Proof.
  intros HI Hi.
  assert (Hlen : i < length (threads w)) by (eapply lookup_lt_Some, Hi).
  destruct (inv_threads w HI i _ Hi) as (Hpt & _ & _).
  assert (Hlt : t < length (tasks w)) by (apply Hpt; reflexivity).
  apply lookup_lt_is_Some in Hlt as [T HT]. exists T.
  destruct (try_run_alone w i scr FromGet t T Hi HT)
    as (w1 & Hrun1 & Hth1 & Hpool1 & Hrest).
  assert (Hi1 : threads w1 !! i = Some (mkThread (GetRead t) scr)).
  { rewrite Hth1. apply list_lookup_insert_eq, Hlen. }
  destruct (m_worked_on T) eqn:Hflag.
  - destruct Hrest as [Htasks1 Htrace1].
    destruct (inv_tasks w HI t T HT) as (j & k & n0 & Hn0 & Hs & HT0 & Hthj).
    assert (1 <= n0).
    { rewrite HT0 in Hflag. cbn in Hflag. apply bool_decide_eq_true in Hflag. exact Hflag. }
    destruct (decide (3 <= n0)) as [H3|H3].
    + (* the promise is set *)
      assert (Hch : channel T = Some (deliver (callable T))).
      { rewrite HT0. cbn. destruct (decide (3 <= n0)); [reflexivity | lia]. }
      eexists (replicate 1 i ++ [i]), _, [EvSkip i t FromGet].
      split; [exact HT|]. split.
      * assert (HT1 : tasks w1 !! t = Some T) by (rewrite Htasks1; exact HT).
        rewrite run_app, Hrun1. cbn.
        rewrite (step_get_read w1 i scr t T _ Hi1 HT1 Hch). reflexivity.
      * cbn. split; [rewrite Htrace1, <- app_assoc; reflexivity|].
        split; [|discriminate].
        rewrite Hth1, list_insert_insert_eq. apply list_lookup_insert_eq, Hlen.
    + (* thread [j] is about to invoke the callable, or to set the promise *)
      destruct Hthj as (thj & Hj & Hpcj); [lia|].
      assert (Hij : i <> j).
      { intros <-. rewrite Hi in Hj. inversion Hj; subst thj. cbn in Hpcj.
        inversion Hpcj as [[Hk Hq]]. symmetry in Hq.
        eapply pc_at_not_test; [|exact Hq]. lia. }
      destruct thj as [pj scrj]. cbn in Hpcj. subst pj.
      assert (Hj1 : threads w1 !! j = Some (mkThread (TryRun k t (pc_at n0 (callable T))) scrj)).
      { rewrite Hth1, list_lookup_insert_ne by exact Hij. exact Hj. }
      assert (Hlenj : j < length (threads w1)) by (eapply lookup_lt_Some, Hj1).
      assert (HT1 : tasks w1 !! t = Some T) by (rewrite Htasks1; exact HT).
      assert (Hdel : exists w2 trj,
                run (replicate (3 - n0) j) w1 = Some w2
                /\ trace w2 = trace w1 ++ trj
                /\ threads w2 !! i = Some (mkThread (GetRead t) scr)
                /\ length (threads w2) = length (threads w1)
                /\ exists T2, tasks w2 !! t = Some T2
                              /\ channel T2 = Some (deliver (callable T))).
      { destruct n0 as [|[|[|n0]]]; try lia; cbn [pc_at] in Hj1; cbn [Nat.sub replicate].
        - eexists _, _. split.
          + erewrite run_cons; [|apply (step_invoke w1 j scrj k t T Hj1 HT1)].
            erewrite run_cons; [reflexivity|].
            apply step_deliver. cbn. apply list_lookup_insert_eq, Hlenj.
          + cbn. split; [rewrite <- app_assoc; reflexivity|].
            split; [rewrite !list_lookup_insert_ne by congruence; exact Hi1|].
            split; [rewrite !length_insert; reflexivity|].
            eexists. split; [rewrite list_lookup_alter_eq, HT1; reflexivity|].
            reflexivity.
        - eexists _, _. split.
          + erewrite run_cons; [reflexivity|]. apply (step_deliver w1 j scrj k t _ Hj1).
          + cbn. split; [reflexivity|].
            split; [rewrite !list_lookup_insert_ne by congruence; exact Hi1|].
            split; [rewrite !length_insert; reflexivity|].
            eexists. split; [rewrite list_lookup_alter_eq, HT1; reflexivity|].
            reflexivity. }
      destruct Hdel as (w2 & trj & Hrun2 & Htrace2 & Hi2 & Hlen2 & T2 & HT2 & Hch2).
      eexists (replicate 1 i ++ replicate (3 - n0) j ++ [i]), _,
              ([EvSkip i t FromGet] ++ trj).
      split; [exact HT|]. split.
      * rewrite run_app, Hrun1. cbn. rewrite run_app, Hrun2. cbn.
        rewrite (step_get_read w2 i scr t T2 _ Hi2 HT2 Hch2). reflexivity.
      * cbn. split; [rewrite Htrace2, Htrace1, <- !app_assoc; reflexivity|].
        split; [|discriminate].
        apply list_lookup_insert_eq. rewrite Hlen2. rewrite Hth1, length_insert. exact Hlen.
  - (* nobody has claimed the Task: [get] runs it *)
    destruct Hrest as [Htasks1 Htrace1].
    eexists (replicate 5 i ++ [i]), _, (script_of i FromGet t (callable T)).
    split; [exact HT|]. split.
    + rewrite run_app, Hrun1. cbn.
      erewrite (step_get_read w1 i scr t (completed T) _ Hi1); [reflexivity| |reflexivity].
      rewrite Htasks1. apply list_lookup_insert_eq. eapply lookup_lt_Some, HT.
    + cbn. split; [rewrite Htrace1, <- !app_assoc; reflexivity|].
      split; [|split; reflexivity].
      rewrite Hth1, list_insert_insert_eq. apply list_lookup_insert_eq, Hlen.
Qed.

(** [get] from the call on. *)
Lemma get_returns w i rest t :
  Inv w ->
  threads w !! i = Some (mkThread Idle (CallGet t :: rest)) ->
  t < length (tasks w) ->
  exists T sched w' tr',
    tasks w !! t = Some T
    /\ run sched w = Some w'
    /\ trace w' = trace w ++ tr' ++ [EvGet i t (deliver (callable T))]
    /\ threads w' !! i = Some (mkThread Idle rest)
    /\ (m_worked_on T = false ->
          sched = replicate 7 i /\ tr' = script_of i FromGet t (callable T)).
Proof.
  intros HI Hi Hlt.
  assert (Hlen : i < length (threads w)) by (eapply lookup_lt_Some, Hi).
  pose proof (step_call_get w i rest t Hi Hlt) as Hstep.
  set (w0 := mkWorld _ _ _ _) in Hstep.
  assert (HI0 : Inv w0) by (eapply step_inv; [exact HI | exact Hstep]).
  assert (Hi0 : threads w0 !! i = Some (mkThread (TryRun FromGet t TrTest) rest)).
  { apply list_lookup_insert_eq, Hlen. }
  destruct (get_progress w0 i rest t HI0 Hi0)
    as (T & sched & w' & tr' & HT & Hrun & Htr & Hi' & Hsched).
  exists T, (i :: sched), w', tr'.
  split; [exact HT|]. split; [rewrite (run_cons i sched w w0 Hstep); exact Hrun|].
  split; [exact Htr|]. split; [exact Hi'|].
  intros Hflag. destruct (Hsched Hflag) as [-> ->]. split; reflexivity.
Qed.

(** Two stages of one Task in the trace belong to the same thread's run. *)
Lemma stages_agree w t e1 e2 :
  Inv w ->
  In e1 (trace w) -> stage_of e1 = Some t ->
  In e2 (trace w) -> stage_of e2 = Some t ->
  exists j k T,
    tasks w !! t = Some T
    /\ In e1 (script_of j k t (callable T))
    /\ In e2 (script_of j k t (callable T)).
Proof.
  intros HI H1 Hs1 H2 Hs2.
  assert (Hlt : t < length (tasks w)).
  { destruct (decide (t < length (tasks w))) as [|Hge]; [assumption|].
    exfalso. eapply (stages_nil_not_in t (trace w) e1); [|exact Hs1|exact H1].
    apply (inv_fresh w HI). lia. }
  apply lookup_lt_is_Some in Hlt as [T HT].
  destruct (inv_tasks w HI t T HT) as (j & k & n & _ & Hs & _).
  exists j, k, T. split; [exact HT|].
  assert (Hsub : forall e, In e (trace w) -> stage_of e = Some t ->
                           In e (script_of j k t (callable T))).
  { intros e He Hse.
    assert (Hin : In e (stages t (trace w))) by (apply in_stages; auto).
    rewrite Hs in Hin. apply list_elem_of_In in Hin. apply list_elem_of_In.
    eapply elem_of_take in Hin as (m & Hm & _).
    eapply list_elem_of_lookup_2, Hm. }
  auto.
Qed.

Lemma in_prefix {A} (x : A) tr1 e tr2 : In x tr1 -> In x (tr1 ++ e :: tr2).
Proof. intros H. apply in_or_app. left. exact H. Qed.

(** What had happened when [get] returned. *)
Lemma get_history w tr1 i t r tr2 :
  Inv w ->
  trace w = tr1 ++ EvGet i t r :: tr2 ->
  (In (EvClaim i t FromGet) tr1 \/ In (EvSkip i t FromGet) tr1)
  /\ (exists j k, In (EvInvoke j t k) tr1 /\ In (EvDeliver j t r) tr1)
  /\ (exists T, tasks w !! t = Some T /\ r = deliver (callable T))
  /\ (In (EvClaim i t FromGet) tr1 ->
        In (EvInvoke i t FromGet) tr1 /\ In (EvDeliver i t r) tr1
        /\ In (EvSignal i t) tr1 /\ In (EvReady i t) tr1).
Proof.
  intros HI Htr.
  destruct (inv_history w HI tr1 _ tr2 Htr) as ((j & Hdel) & Htest & Hdone).
  assert (Hsub : forall x, In x tr1 -> In x (trace w)).
  { intros x Hx. rewrite Htr. apply in_prefix, Hx. }
  split; [exact Htest|]. split; [|split].
  - apply in_split in Hdel as (a & b & ->).
    rewrite <- app_assoc in Htr. cbn in Htr.
    destruct (inv_history w HI a _ _ Htr) as (k & Hs).
    exists j, k. split.
    + apply in_or_app. left. eapply in_stages. rewrite Hs. cbn. auto.
    + apply in_or_app. right. left. reflexivity.
  - destruct (stages_agree w t _ _ HI (Hsub _ Hdel) eq_refl (Hsub _ Hdel) eq_refl)
      as (j0 & k0 & T & HT & Hin & _).
    exists T. split; [exact HT|]. cbn in Hin.
    destruct Hin as [H|[H|[H|[H|[H|[]]]]]]; inversion H. reflexivity.
  - intros Hclaim. specialize (Hdone Hclaim).
    pose proof Hdone as Hready.
    apply in_split in Hdone as (a & b & ->).
    rewrite <- app_assoc in Htr. cbn in Htr.
    destruct (inv_history w HI a _ _ Htr) as (k & r' & Hs).
    assert (Ha : forall x, In x (stages t a) -> In x (a ++ EvReady i t :: b)).
    { intros x Hx. apply in_or_app. left. eapply in_stages, Hx. }
    rewrite Hs in Ha.
    destruct (stages_agree w t (EvClaim i t FromGet) (EvClaim i t k) HI)
      as (j0 & k0 & T & HT & Hin1 & Hin2);
      [apply Hsub, Hclaim | reflexivity | apply Hsub, Ha; cbn; auto | reflexivity|].
    assert (k = FromGet).
    { cbn in Hin1, Hin2.
      destruct Hin1 as [H1|[H1|[H1|[H1|[H1|[]]]]]]; inversion H1; subst.
      destruct Hin2 as [H2|[H2|[H2|[H2|[H2|[]]]]]]; inversion H2; subst.
      reflexivity. }
    subst k.
    destruct (stages_agree w t (EvDeliver i t r') (EvDeliver j t r) HI)
      as (j1 & k1 & T1 & HT1 & Hin3 & Hin4);
      [apply Hsub, Ha; cbn; auto | reflexivity | apply Hsub, Hdel | reflexivity|].
    assert (r' = r).
    { cbn in Hin3, Hin4.
      destruct Hin3 as [H1|[H1|[H1|[H1|[H1|[]]]]]]; inversion H1; subst.
      destruct Hin4 as [H2|[H2|[H2|[H2|[H2|[]]]]]]; inversion H2; subst.
      reflexivity. }
    subst r'.
    split; [apply Ha; cbn; auto|]. split; [apply Ha; cbn; auto|].
    split; [apply Ha; cbn; auto 6 | exact Hready].
Qed.

(** C2, as the code has it. [get] first goes through [try_run]: when it
    returns (or rethrows), the calling thread has tested the flag in a
    [try_run] called from [get]; the callable has been invoked and its
    outcome, which is what [get] returns, has been given to the result
    promise. When it is [get]'s own [try_run] that claimed the Task, the
    callable ran on the calling thread and the Task went through all its
    stages, completion signal and [m_ready] included, before the read.
    And [get] does return: from a call of [get] on the Future of an
    existing Task there is a schedule that makes it return the outcome of
    the callable; when nobody has claimed the Task, the seven steps of the
    calling thread alone do. *)
Theorem get_returns_after_delivery
    (pool_size : nat) (scripts : list (list call)) (w : world) :
  reachable (ThreadPool_ctor pool_size scripts) w ->
  (forall tr1 i t r tr2,
     trace w = tr1 ++ EvGet i t r :: tr2 ->
     (In (EvClaim i t FromGet) tr1 \/ In (EvSkip i t FromGet) tr1)
     /\ (exists j k, In (EvInvoke j t k) tr1 /\ In (EvDeliver j t r) tr1)
     /\ (exists T, tasks w !! t = Some T /\ r = deliver (callable T))
     /\ (In (EvClaim i t FromGet) tr1 ->
           In (EvInvoke i t FromGet) tr1 /\ In (EvDeliver i t r) tr1
           /\ In (EvSignal i t) tr1 /\ In (EvReady i t) tr1))
  /\ (forall i rest t,
        threads w !! i = Some (mkThread Idle (CallGet t :: rest)) ->
        t < length (tasks w) ->
        exists T sched w' tr',
          tasks w !! t = Some T
          /\ run sched w = Some w'
          /\ trace w' = trace w ++ tr' ++ [EvGet i t (deliver (callable T))]
          /\ threads w' !! i = Some (mkThread Idle rest)
          /\ (m_worked_on T = false ->
                sched = replicate 7 i
                /\ tr' = script_of i FromGet t (callable T))).
Proof.
  intros Hr.
  assert (HI : Inv w) by (eapply reachable_inv; [apply ctor_inv | exact Hr]).
  split.
  - intros tr1 i t r tr2 Htr. eapply get_history; eassumption.
  - intros i rest t Hi Hlt. apply get_returns; assumption.
Qed.

Lemma get_returns_after_delivery_witness :
  exists j k, In (EvInvoke j 0 k) (trace raced)
              /\ In (EvDeliver j 0 (Value 42)) (trace raced).
Proof.
  destruct (get_returns_after_delivery 1 [[CallAsync (Returns 42); CallGet 0]]
              raced raced_reachable) as [Hsafe _].
  destruct (Hsafe (removelast (trace raced)) 1 0 (Value 42) [] eq_refl)
    as (_ & (j & k & H1 & H2) & _).
  exists j, k.
  change (trace raced) with (removelast (trace raced) ++ [EvGet 1 0 (Value 42)]).
  split; apply in_prefix; assumption.
Defined.

(** C2, as stated, fails on its last clause. In the execution
    [worker_first] the worker claims the Task, invokes the callable and
    sets the result promise (line 50); [get], called then, finds the flag
    set, reads the promise and returns 42, while the worker has not yet
    reached line 55: the Task's completion signal is not set, [m_ready] is
    false, and [m_task()] has not returned. *)
Lemma get_returns_before_task_completes :
  run worker_first one_worker = Some raced
  /\ last (trace raced) = Some (EvGet 1 0 (Value 42))
  /\ ~ In (EvSignal 0 0) (trace raced)
  /\ tasks raced !! 0 = Some (mkTask true false false (Some (Value 42)) (Returns 42))
  /\ threads raced !! 0 = Some (mkThread (TryRun FromWorker 0 TrBarrier) []).
Proof.
  split; [exact raced_run|]. split; [reflexivity|]. split; [|split; reflexivity].
  cbn. intros H. repeat (destruct H as [H|H]; [discriminate H|]). exact H.
Qed.

(** [m_task()] from the invocation of the callable on, with no other
    thread taking a step: whatever the callable does, the four steps are
    enabled, and [try_run] returns to its caller. *)
Lemma invoke_alone w i scr k t T :
  threads w !! i = Some (mkThread (TryRun k t TrInvoke) scr) ->
  tasks w !! t = Some T ->
  exists w',
    run (replicate 4 i) w = Some w'
    /\ threads w' = <[i := mkThread (after_try_run k t) scr]> (threads w)
    /\ pool w' = pool w
    /\ tasks w' = <[t := mkTask (m_worked_on T) true true
                           (Some (deliver (callable T))) (callable T)]> (tasks w)
    /\ trace w' = trace w ++ [EvInvoke i t k; EvDeliver i t (deliver (callable T));
                              EvSignal i t; EvReady i t].
Proof.
  intros Hi HT.
  assert (Hlen : i < length (threads w)) by (eapply lookup_lt_Some, Hi).
  eexists. split.
  - cbn [replicate].
    erewrite run_cons; [|apply (step_invoke w i scr k t T Hi HT)].
    erewrite run_cons.
    2:{ apply step_deliver. cbn. apply list_lookup_insert_eq, Hlen. }
    erewrite run_cons.
    2:{ unfold step. cbn [threads].
        rewrite list_lookup_insert_eq by (rewrite ?length_insert; exact Hlen).
        cbn. reflexivity. }
    erewrite run_cons.
    2:{ unfold step. cbn [threads goto with_thread emit with_tasks].
        rewrite list_lookup_insert_eq by (rewrite ?length_insert; exact Hlen).
        cbn. reflexivity. }
    reflexivity.
  - cbn. split; [rewrite !list_insert_insert_eq; reflexivity|].
    split; [reflexivity|]. split.
    + rewrite !list_alter_alter_eq, list_insert_alter.
      apply list_alter_ext; [|reflexivity].
      intros T' HT'. assert (T' = T) by congruence. subst T'. reflexivity.
    + rewrite <- !app_assoc. reflexivity.
Qed.

Lemma delivered_is_outcome w i t r T :
  Inv w -> In (EvDeliver i t r) (trace w) -> tasks w !! t = Some T ->
  r = deliver (callable T).
Proof.
  intros HI Hin HT.
  destruct (stages_agree w t _ _ HI Hin eq_refl Hin eq_refl)
    as (j & k & T' & HT' & H & _).
  assert (T' = T) by congruence. subst T'. cbn in H.
  destruct H as [H|[H|[H|[H|[H|[]]]]]]; inversion H. reflexivity.
Qed.

(** C3. For a Task whose callable throws [e]: what the result promise is
    given is the exception [e], and nothing else ever; from the invocation
    on, the four steps of the running thread are enabled and lead through
    [set_exception] and the completion signal to [m_ready = true] and back
    to the caller of [try_run], which is not left by an exception; every
    [get] on the Task's Future that returns rethrows [e]; and [get] does
    return. *)
Theorem throwing_callable_is_delivered
    (pool_size : nat) (scripts : list (list call)) (w : world)
    (t : task_id) (T : Task) (e : nat) :
  reachable (ThreadPool_ctor pool_size scripts) w ->
  tasks w !! t = Some T ->
  callable T = Throws e ->
  (forall i r, In (EvDeliver i t r) (trace w) -> r = Exception e)
  /\ (channel T = None \/ channel T = Some (Exception e))
  /\ (forall i scr k,
        threads w !! i = Some (mkThread (TryRun k t TrInvoke) scr) ->
        exists w' T',
          run (replicate 4 i) w = Some w'
          /\ trace w' = trace w ++ [EvInvoke i t k; EvDeliver i t (Exception e);
                                    EvSignal i t; EvReady i t]
          /\ threads w' !! i = Some (mkThread (after_try_run k t) scr)
          /\ tasks w' !! t = Some T'
          /\ channel T' = Some (Exception e)
          /\ m_future T' = true /\ m_ready T' = true)
  /\ (forall i r, In (EvGet i t r) (trace w) -> r = Exception e)
  /\ (forall i rest,
        threads w !! i = Some (mkThread Idle (CallGet t :: rest)) ->
        exists sched w' tr',
          run sched w = Some w'
          /\ trace w' = trace w ++ tr' ++ [EvGet i t (Exception e)]
          /\ threads w' !! i = Some (mkThread Idle rest)).
Proof.
  intros Hr HT Hthrows.
  assert (HI : Inv w) by (eapply reachable_inv; [apply ctor_inv | exact Hr]).
  assert (Hd : deliver (callable T) = Exception e) by (rewrite Hthrows; reflexivity).
  split; [|split; [|split; [|split]]].
  - intros i r Hin. rewrite <- Hd. eapply delivered_is_outcome; eassumption.
  - destruct (inv_tasks w HI t T HT) as (j & k & n & _ & _ & HT0 & _).
    rewrite HT0. cbn. destruct (decide (3 <= n)); [right | left; reflexivity].
    rewrite <- Hd. rewrite HT0 at 2. reflexivity.
  - intros i scr k Hi.
    destruct (invoke_alone w i scr k t T Hi HT)
      as (w' & Hrun & Hth & _ & Htasks & Htrace).
    eexists w', _. split; [exact Hrun|].
    split; [rewrite Htrace, Hd; reflexivity|].
    split; [rewrite Hth; apply list_lookup_insert_eq; eapply lookup_lt_Some, Hi|].
    split; [rewrite Htasks; apply list_lookup_insert_eq; eapply lookup_lt_Some, HT|].
    cbn. rewrite Hd. auto.
  - intros i r Hin. apply in_split in Hin as (tr1 & tr2 & Htr).
    destruct (get_history w tr1 i t r tr2 HI Htr) as (_ & _ & (T' & HT' & Hr') & _).
    assert (T' = T) by congruence. subst T'. rewrite Hr'. exact Hd.
  - intros i rest Hi.
    destruct (get_returns w i rest t HI Hi) as (T' & sched & w' & tr' & HT' & Hrun & Htr & Hi' & _).
    { eapply lookup_lt_Some, HT. }
    assert (T' = T) by congruence. subst T'.
    exists sched, w', tr'. rewrite <- Hd. auto.
Qed.

(** No worker; the user thread has submitted a callable that throws 7 and
    is about to call [get]. *)
Definition thrower : world :=
  Eval vm_compute in
    match run (replicate 6 0) (no_worker (Throws 7)) with
    | Some w => w
    | None => no_worker (Throws 7)
    end.

Lemma thrower_reachable : reachable (no_worker (Throws 7)) thrower.
Proof. apply (run_reachable (replicate 6 0)). vm_compute. reflexivity. Qed.

Lemma throwing_callable_is_delivered_witness :
  exists sched w' tr',
    run sched thrower = Some w'
    /\ trace w' = trace thrower ++ tr' ++ [EvGet 0 0 (Exception 7)].
Proof.
  destruct (throwing_callable_is_delivered 0 [[CallAsync (Throws 7); CallGet 0]]
              thrower 0 (Task_ctor (Throws 7)) 7 thrower_reachable eq_refl eq_refl)
    as (_ & _ & _ & _ & Hget).
  destruct (Hget 0 [] eq_refl) as (sched & w' & tr' & H1 & H2 & _).
  exists sched, w', tr'. auto.
Defined.

(** ** ThreadPool::wait *)

Lemma decr_incr x : (0 <= x < size_max)%Z -> decr (incr x) = x.
Proof.
  intros Hx. unfold decr, incr. rewrite Zminus_mod_idemp_l.
  replace (x + 1 - 1)%Z with x by lia. apply Z.mod_small. exact Hx.
Qed.

(** What the claim says of the cooperative mode, as a function of the
    queue and the table of Tasks: each Task of the queue, in order, is
    taken from the queue and goes through [try_run], which skips a Task
    that is claimed and takes an unclaimed one through all its stages. *)
Fixpoint drain (i : tid) (q : list task_id) (ts : list Task)
  : list Task * list event :=
  match q with
  | [] => (ts, [])
  | t :: q' =>
      match ts !! t with
      | None => (ts, [])
      | Some T =>
          let '(ts1, ev1) :=
            if m_worked_on T then (ts, [EvSkip i t FromWait])
            else (<[t := completed T]> ts, script_of i FromWait t (callable T)) in
          let '(ts2, ev2) := drain i q' ts1 in
          (ts2, EvDequeue i t FromWait :: ev1 ++ ev2)
      end
  end.

(** One turn of the loop of lines 163-176, with no other thread taking a
    step. *)
Lemma drain_turn w i scr t q T :
  threads w !! i = Some (mkThread WaitLoopLock scr) ->
  m_task_mutex (pool w) = None ->
  m_tasks (pool w) = t :: q ->
  tasks w !! t = Some T ->
  (0 <= m_ongoing (pool w) < size_max)%Z ->
  exists w',
    run (replicate (if m_worked_on T then 6 else 10) i) w = Some w'
    /\ threads w' = threads w
    /\ pool w' = set_queue q (pool w)
    /\ (if m_worked_on T
        then tasks w' = tasks w
             /\ trace w' = trace w ++ EvDequeue i t FromWait :: [EvSkip i t FromWait]
        else tasks w' = <[t := completed T]> (tasks w)
             /\ trace w' = trace w ++ EvDequeue i t FromWait
                                   :: script_of i FromWait t (callable T)).
Proof.
  intros Hi Hmx Hq HT Hon.
  assert (Hlen : i < length (threads w)) by (eapply lookup_lt_Some, Hi).
  (* lines 164-171 *)
  set (w4 := mkWorld (tasks w)
               (set_mutex None (set_queue q
                  (set_ongoing (incr (m_ongoing (pool w)))
                     (set_mutex (Some i) (pool w)))))
               (<[i := mkThread (TryRun FromWait t TrTest) scr]> (threads w))
               (trace w ++ [EvDequeue i t FromWait])).
  assert (H4 : run (replicate 4 i) w = Some w4).
  { cbn [replicate].
    erewrite run_cons.
    2:{ unfold step. rewrite Hi. cbn. unfold lock. rewrite Hmx. reflexivity. }
    erewrite run_cons.
    2:{ unfold step. cbn [threads goto with_thread with_pool].
        rewrite list_lookup_insert_eq by exact Hlen. cbn. rewrite Hq. reflexivity. }
    erewrite run_cons.
    2:{ unfold step. cbn [threads goto with_thread with_pool].
        rewrite list_lookup_insert_eq by (rewrite ?length_insert; exact Hlen).
        cbn. rewrite Hq. reflexivity. }
    erewrite run_cons.
    2:{ unfold step. cbn [threads goto with_thread with_pool emit].
        rewrite list_lookup_insert_eq by (rewrite ?length_insert; exact Hlen).
        cbn. reflexivity. }
    cbn [run]. f_equal. unfold w4, goto, with_pool, with_thread, emit. cbn.
    f_equal. rewrite !list_insert_insert_eq. reflexivity. }
  (* line 173 *)
  assert (Hi4 : threads w4 !! i = Some (mkThread (TryRun FromWait t TrTest) scr)).
  { apply list_lookup_insert_eq, Hlen. }
  destruct (try_run_alone w4 i scr FromWait t T Hi4 HT)
    as (w5 & Hrun5 & Hth5 & Hpool5 & Hrest).
  (* line 175 *)
  assert (Hi5 : threads w5 !! i = Some (mkThread WaitLoopDec scr)).
  { rewrite Hth5. apply list_lookup_insert_eq. unfold w4. cbn.
    rewrite length_insert. exact Hlen. }
  assert (H6 : step i w5
               = Some (mkWorld (tasks w5)
                         (set_ongoing (decr (m_ongoing (pool w5))) (pool w5))
                         (<[i := mkThread WaitLoopLock scr]> (threads w5))
                         (trace w5))).
  { unfold step. rewrite Hi5. reflexivity. }
  eexists. split.
  - replace (if m_worked_on T then 6 else 10)
      with (4 + ((if m_worked_on T then 1 else 5) + 1))
      by (destruct (m_worked_on T); reflexivity).
    rewrite run_replicate_add, H4. cbn [mbind option_bind].
    rewrite run_replicate_add, Hrun5. cbn [mbind option_bind replicate].
    erewrite run_cons; [reflexivity | exact H6].
  - cbn [threads pool tasks trace]. split.
    + rewrite Hth5. unfold w4. cbn. rewrite !list_insert_insert_eq.
      apply list_insert_id, Hi.
    + split.
      * rewrite Hpool5. unfold w4. cbn. rewrite decr_incr by exact Hon.
        destruct (pool w); cbn in *. subst. reflexivity.
      * destruct (m_worked_on T); destruct Hrest as [-> ->]; unfold w4; cbn;
          (split; [reflexivity | rewrite <- app_assoc; reflexivity]).
Qed.

(** The loop of lines 163-176 from its first statement, with no other
    thread taking a step: it ends, with the queue empty, and has done what
    [drain] says. *)
Lemma drain_alone q : forall w i scr,
  threads w !! i = Some (mkThread WaitLoopLock scr) ->
  m_task_mutex (pool w) = None ->
  m_tasks (pool w) = q ->
  (forall t, In t q -> t < length (tasks w)) ->
  (0 <= m_ongoing (pool w) < size_max)%Z ->
  exists n w',
    run (replicate n i) w = Some w'
    /\ threads w' = <[i := mkThread WaitFinalLock scr]> (threads w)
    /\ pool w' = set_queue [] (pool w)
    /\ tasks w' = (drain i q (tasks w)).1
    /\ trace w' = trace w ++ (drain i q (tasks w)).2.
Proof.
  induction q as [|t q IH]; intros w i scr Hi Hmx Hq Hvalid Hon.
  - assert (Hlen : i < length (threads w)) by (eapply lookup_lt_Some, Hi).
    exists 2. eexists. split.
    + cbn [replicate].
      erewrite run_cons.
      2:{ unfold step. rewrite Hi. cbn. unfold lock. rewrite Hmx. reflexivity. }
      erewrite run_cons.
      2:{ unfold step. cbn [threads goto with_thread with_pool].
          rewrite list_lookup_insert_eq by exact Hlen. cbn. rewrite Hq. reflexivity. }
      reflexivity.
    + cbn. split; [rewrite list_insert_insert_eq; reflexivity|].
      split; [|split; [reflexivity | rewrite app_nil_r; reflexivity]].
      destruct (pool w); cbn in *. subst. reflexivity.
  - assert (Hlt : t < length (tasks w)) by (apply Hvalid; left; reflexivity).
    apply lookup_lt_is_Some in Hlt as [T HT].
    destruct (drain_turn w i scr t q T Hi Hmx Hq HT Hon)
      as (w1 & Hrun1 & Hth1 & Hpool1 & Hrest).
    assert (Hlen1 : length (tasks w1) = length (tasks w)).
    { destruct (m_worked_on T); destruct Hrest as [-> _];
        [reflexivity | apply length_insert]. }
    destruct (IH w1 i scr) as (n & w' & Hrun & Hth & Hpool & Htasks & Htrace).
    + rewrite Hth1. exact Hi.
    + rewrite Hpool1. exact Hmx.
    + rewrite Hpool1. reflexivity.
    + intros t' Ht'. rewrite Hlen1. apply Hvalid. right. exact Ht'.
    + rewrite Hpool1. exact Hon.
    + exists ((if m_worked_on T then 6 else 10) + n), w'. split.
      * rewrite run_replicate_add, Hrun1. exact Hrun.
      * split; [rewrite Hth, Hth1; reflexivity|].
        split; [rewrite Hpool, Hpool1; reflexivity|].
        cbn [drain]. rewrite HT.
        destruct (m_worked_on T); destruct Hrest as [Ht1 Htr1];
          rewrite Ht1 in Htasks; rewrite Htr1, Ht1 in Htrace;
          destruct (drain i q _) as [ts2 ev2]; cbn in *;
          (split; [exact Htasks|]); rewrite Htrace, <- app_assoc; reflexivity.
Qed.

(** The Tasks [drain] takes from the queue are the queue. *)
Lemma drain_dequeued i q : forall ts,
  (forall t, In t q -> t < length ts) ->
  dequeued i (drain i q ts).2 = q.
Proof.
  induction q as [|t q IH]; intros ts Hvalid; [reflexivity|].
  assert (Hlt : t < length ts) by (apply Hvalid; left; reflexivity).
  apply lookup_lt_is_Some in Hlt as [T HT].
  cbn [drain]. rewrite HT.
  destruct (m_worked_on T).
  - specialize (IH ts). destruct (drain i q ts) as [ts2 ev2]. cbn in *.
    destruct (decide (i = i)); [|congruence]. f_equal.
    apply IH. intros t' Ht'. apply Hvalid. right. exact Ht'.
  - specialize (IH (<[t := completed T]> ts)).
    destruct (drain i q _) as [ts2 ev2]. cbn in *.
    destruct (decide (i = i)); [|congruence]. f_equal.
    apply IH. intros t' Ht'. rewrite length_insert. apply Hvalid. right. exact Ht'.
Qed.

Lemma snoc_inv {A} (l : list A) x y : l ++ [x] = l ++ [y] -> x = y.
Proof. intros H. apply app_inv_head in H. congruence. Qed.

Lemma snoc_neq {A} (l : list A) x : l = l ++ [x] -> False.
Proof.
  intros H. apply (f_equal length) in H. rewrite length_app in H. cbn in H. lia.
Qed.

(** [wait] returns only from the predicate of line 180, with [m_ongoing]
    zero. *)
Lemma wait_returns_at_zero i w w' :
  step i w = Some w' ->
  trace w' = trace w ++ [EvWaitReturn i] ->
  m_ongoing (pool w) = 0%Z
  /\ exists scr, threads w !! i = Some (mkThread WaitFinalCv scr).
Proof.
  intros Hstep Htr. unfold step in Hstep.
  destruct (threads w !! i) as [[p scr]|] eqn:Hi; [|discriminate].
  cbn in Hstep. unfold lock in Hstep.
  destruct p; unfold mbind, option_bind in Hstep;
    repeat case_match; try discriminate Hstep;
    inversion Hstep; subst w'; cbn in Htr;
    try (exfalso; eapply snoc_neq; exact Htr);
    try (apply snoc_inv in Htr; discriminate Htr).
  split; [assumption | eauto].
Qed.

Lemma step_call_wait_async w i rest :
  threads w !! i = Some (mkThread Idle (CallWait Async :: rest)) ->
  step i w
  = Some (mkWorld (tasks w) (pool w)
            (<[i := mkThread WaitLoopLock rest]> (threads w)) (trace w)).
Proof. intros Hi. unfold step. rewrite Hi. reflexivity. Qed.

Lemma step_call_wait_sync w i rest :
  threads w !! i = Some (mkThread Idle (CallWait Sync :: rest)) ->
  step i w
  = Some (mkWorld (tasks w) (pool w)
            (<[i := mkThread WaitFinalLock rest]> (threads w)) (trace w)).
Proof. intros Hi. unfold step. rewrite Hi. reflexivity. Qed.

(** Lines 165-167: the loop is left when the queue is found empty, and
    only then. *)
Lemma wait_loop_exit w i scr w' :
  threads w !! i = Some (mkThread WaitLoopCheck scr) ->
  step i w = Some w' ->
  (threads w' !! i = Some (mkThread WaitFinalLock scr) <-> m_tasks (pool w) = []).
Proof.
  intros Hi Hstep.
  assert (Hlen : i < length (threads w)) by (eapply lookup_lt_Some, Hi).
  unfold step in Hstep. rewrite Hi in Hstep. cbn in Hstep.
  destruct (m_tasks (pool w)); inversion Hstep; subst w'; cbn;
    rewrite list_lookup_insert_eq by exact Hlen; split; intros H;
    try reflexivity; discriminate H.
Qed.

(** [wait(Wait::Async)] from the call to the lock of line 179, with no
    other thread taking a step. *)
Lemma wait_async_alone w i rest :
  threads w !! i = Some (mkThread Idle (CallWait Async :: rest)) ->
  m_task_mutex (pool w) = None ->
  (forall t, In t (m_tasks (pool w)) -> t < length (tasks w)) ->
  (0 <= m_ongoing (pool w) < size_max)%Z ->
  exists n w',
    run (replicate n i) w = Some w'
    /\ threads w' = <[i := mkThread WaitFinalLock rest]> (threads w)
    /\ pool w' = set_queue [] (pool w)
    /\ tasks w' = (drain i (m_tasks (pool w)) (tasks w)).1
    /\ trace w' = trace w ++ (drain i (m_tasks (pool w)) (tasks w)).2.
Proof.
  intros Hi Hmx Hvalid Hon.
  assert (Hlen : i < length (threads w)) by (eapply lookup_lt_Some, Hi).
  pose proof (step_call_wait_async w i rest Hi) as Hstep.
  set (w0 := mkWorld _ _ _ _) in Hstep.
  destruct (drain_alone (m_tasks (pool w)) w0 i rest)
    as (n & w' & Hrun & Hth & Hpool & Htasks & Htrace);
    try assumption; try reflexivity.
  { apply list_lookup_insert_eq, Hlen. }
  exists (S n), w'. split; [cbn [replicate]; rewrite (run_cons _ _ _ _ Hstep); exact Hrun|].
  split; [rewrite Hth; apply list_insert_insert_eq|].
  auto.
Qed.

(** Lines 165-168 and line 175: [m_ongoing] is incremented before a Task
    is taken from the queue and decremented after [try_run]. *)
Lemma wait_loop_incr w i scr t q :
  threads w !! i = Some (mkThread WaitLoopCheck scr) ->
  m_tasks (pool w) = t :: q ->
  step i w
  = Some (mkWorld (tasks w) (set_ongoing (incr (m_ongoing (pool w))) (pool w))
            (<[i := mkThread WaitLoopPop scr]> (threads w)) (trace w)).
Proof. intros Hi Hq. unfold step. rewrite Hi. cbn. rewrite Hq. reflexivity. Qed.

Lemma wait_loop_decr w i scr :
  threads w !! i = Some (mkThread WaitLoopDec scr) ->
  step i w
  = Some (mkWorld (tasks w) (set_ongoing (decr (m_ongoing (pool w))) (pool w))
            (<[i := mkThread WaitLoopLock scr]> (threads w)) (trace w)).
Proof. intros Hi. unfold step. rewrite Hi. reflexivity. Qed.

(** X24. [wait(Wait::Async)]: the calling thread, left alone, takes the
    Tasks of the queue one after the other in queue order, each through
    [try_run] (which runs the unclaimed ones and skips the claimed ones),
    until the queue is empty; [m_ongoing] is incremented before a Task is
    taken (line 168) and decremented after its [try_run] (line 175), so
    that it ends up what it was; the loop is left exactly when the queue is
    found empty, and only then does the thread come to line 179.
    [wait(Wait::Sync)] comes to line 179 at once: nothing is taken from the
    queue and no Task is touched. *)
Theorem wait_drains_the_queue (w : world) (i : tid) (rest : list call) :
  (threads w !! i = Some (mkThread Idle (CallWait Async :: rest)) ->
   m_task_mutex (pool w) = None ->
   (forall t, In t (m_tasks (pool w)) -> t < length (tasks w)) ->
   (0 <= m_ongoing (pool w) < size_max)%Z ->
   exists n w',
     run (replicate n i) w = Some w'
     /\ threads w' = <[i := mkThread WaitFinalLock rest]> (threads w)
     /\ m_tasks (pool w') = []
     /\ m_ongoing (pool w') = m_ongoing (pool w)
     /\ m_task_mutex (pool w') = None
     /\ tasks w' = (drain i (m_tasks (pool w)) (tasks w)).1
     /\ trace w' = trace w ++ (drain i (m_tasks (pool w)) (tasks w)).2
     /\ dequeued i (drain i (m_tasks (pool w)) (tasks w)).2 = m_tasks (pool w))
  /\ (threads w !! i = Some (mkThread Idle (CallWait Sync :: rest)) ->
      step i w
      = Some (mkWorld (tasks w) (pool w)
                (<[i := mkThread WaitFinalLock rest]> (threads w)) (trace w)))
  /\ (forall w',
        threads w !! i = Some (mkThread WaitLoopCheck rest) ->
        step i w = Some w' ->
        (threads w' !! i = Some (mkThread WaitFinalLock rest)
         <-> m_tasks (pool w) = []))
  /\ (forall t q,
        threads w !! i = Some (mkThread WaitLoopCheck rest) ->
        m_tasks (pool w) = t :: q ->
        step i w
        = Some (mkWorld (tasks w) (set_ongoing (incr (m_ongoing (pool w))) (pool w))
                  (<[i := mkThread WaitLoopPop rest]> (threads w)) (trace w)))
  /\ (threads w !! i = Some (mkThread WaitLoopDec rest) ->
      step i w
      = Some (mkWorld (tasks w) (set_ongoing (decr (m_ongoing (pool w))) (pool w))
                (<[i := mkThread WaitLoopLock rest]> (threads w)) (trace w))).
Proof.
  split; [|split; [|split; [|split]]].
  - intros Hi Hmx Hvalid Hon.
    destruct (wait_async_alone w i rest Hi Hmx Hvalid Hon)
      as (n & w' & Hrun & Hth & Hpool & Htasks & Htrace).
    exists n, w'. split; [exact Hrun|]. split; [exact Hth|].
    rewrite Hpool. cbn. split; [reflexivity|]. split; [reflexivity|].
    split; [exact Hmx|]. split; [exact Htasks|]. split; [exact Htrace|].
    apply drain_dequeued, Hvalid.
  - apply step_call_wait_sync.
  - intros w'. apply wait_loop_exit.
  - intros t q. apply wait_loop_incr.
  - apply wait_loop_decr.
Qed.

(** No worker; the user thread has submitted a callable that throws and
    one that returns 3, and is about to call [wait(Wait::Async)]. *)
Definition two_queued : world :=
  Eval vm_compute in
    match run (replicate 12 0)
            (ThreadPool_ctor 0 [[CallAsync (Throws 7); CallAsync (Returns 3);
                                 CallWait Async]]) with
    | Some w => w
    | None => ThreadPool_ctor 0 []
    end.

Lemma wait_drains_the_queue_witness :
  exists n w',
    run (replicate n 0) two_queued = Some w'
    /\ m_tasks (pool w') = []
    /\ trace w' = trace two_queued
                  ++ EvDequeue 0 0 FromWait :: script_of 0 FromWait 0 (Throws 7)
                  ++ EvDequeue 0 1 FromWait :: script_of 0 FromWait 1 (Returns 3).
Proof.
  destruct (wait_drains_the_queue two_queued 0 []) as [Hasync _].
  destruct Hasync as (n & w' & H1 & _ & H2 & _ & _ & _ & H3 & _).
  - reflexivity.
  - reflexivity.
  - cbn. intros t [<-|[<-|[]]]; lia.
  - cbn. unfold size_max. lia.
  - exists n, w'. split; [exact H1|]. split; [exact H2|]. exact H3.
Defined.

(** ** Workers *)

(** The statements of [do_work], and of a [try_run] called from it. *)
Definition worker_pc (p : pc) : bool :=
  match p with
  | WorkLock | WorkCv | WorkQuit | WorkPop | WorkUnlock _ | WorkDec | Exited
  | TryRun FromWorker _ _ => true
  | _ => false
  end.

(** The thread of an event that only [do_work] produces. *)
Definition from_worker (e : event) : option tid :=
  match e with
  | EvClaim i _ FromWorker | EvSkip i _ FromWorker
  | EvInvoke i _ FromWorker | EvDequeue i _ FromWorker => Some i
  | _ => None
  end.

(** The threads in [do_work] are among the first [n]; the pool's size is
    [n]; [m_ongoing] is a [std::size_t]. *)
Record workers_ok (n : nat) (w : world) : Prop := mkWorkersOk {
  wk_size : m_pool_size (pool w) = n;
  wk_threads : forall i th, threads w !! i = Some th ->
                            worker_pc (at_pc th) = true -> i < n;
  wk_events : forall e i, In e (trace w) -> from_worker e = Some i -> i < n;
  wk_ongoing : (0 <= m_ongoing (pool w) < size_max)%Z
}.

Lemma incr_range x : (0 <= incr x < size_max)%Z.
Proof. apply Z.mod_pos_bound. reflexivity. Qed.

Lemma decr_range x : (0 <= decr x < size_max)%Z.
Proof. apply Z.mod_pos_bound. reflexivity. Qed.

Lemma workers_update n w w' i p scr p' scr' evs :
  workers_ok n w ->
  threads w !! i = Some (mkThread p scr) ->
  threads w' = <[i := mkThread p' scr']> (threads w) ->
  trace w' = trace w ++ evs ->
  m_pool_size (pool w') = m_pool_size (pool w) ->
  (0 <= m_ongoing (pool w') < size_max)%Z ->
  (worker_pc p' = true -> worker_pc p = true) ->
  Forall (fun e => forall j, from_worker e = Some j -> j = i /\ worker_pc p = true) evs ->
  workers_ok n w'.
Proof.
  intros [Hsz Hth Hev Hon] Hi Hthreads Htrace Hsize Hon' Hpc Hevs. split.
  - rewrite Hsize. exact Hsz.
  - intros j th Hj Hw. rewrite Hthreads in Hj.
    destruct (decide (i = j)) as [<-|Hne].
    + rewrite list_lookup_insert_eq in Hj by (eapply lookup_lt_Some, Hi).
      inversion Hj; subst th. eapply Hth; [exact Hi|]. apply Hpc, Hw.
    + rewrite list_lookup_insert_ne in Hj by exact Hne. eapply Hth; eassumption.
  - intros e j He Hfw. rewrite Htrace in He. apply in_app_or in He as [He|He].
    + eapply Hev; eassumption.
    + rewrite List.Forall_forall in Hevs.
      destruct (Hevs e He j Hfw) as [-> Hw]. eapply Hth; [exact Hi | exact Hw].
  - exact Hon'.
Qed.

Lemma step_workers n i w w' : workers_ok n w -> step i w = Some w' -> workers_ok n w'.
Proof.
  intros Hok Hstep. pose proof (wk_ongoing n w Hok) as Hon.
  unfold step in Hstep.
  destruct (threads w !! i) as [[p scr]|] eqn:Hi; [|discriminate].
  cbn in Hstep. unfold lock in Hstep.
  destruct p; unfold mbind, option_bind in Hstep;
    repeat case_match; try discriminate Hstep;
    inversion Hstep; subst w';
    (eapply (workers_update n w _ i _ _ _ _ _ Hok Hi);
     [ reflexivity
     | cbn; first [reflexivity | symmetry; apply app_nil_r]
     | reflexivity
     | cbn; first [exact Hon | apply incr_range | apply decr_range]
     | cbn; try discriminate; try tauto
     | first [solve [constructor] | constructor; [|solve [constructor]]] ]).
  all: try match goal with k : caller |- _ => destruct k end.
  all: cbn; try discriminate; try tauto.
  all: intros ? [= <-]; auto.
Qed.

Lemma ctor_workers pool_size scripts :
  workers_ok pool_size (ThreadPool_ctor pool_size scripts).
Proof.
  split.
  - reflexivity.
  - intros i th Hi Hw.
    apply ctor_thread in Hi as [[Hlt _] | [_ (scr & _ & ->)]];
      [exact Hlt | discriminate Hw].
  - intros e i [].
  - cbn. unfold size_max. lia.
Qed.

Lemma reachable_workers n w0 w :
  workers_ok n w0 -> reachable w0 w -> workers_ok n w.
Proof.
  intros H0 Hr. induction Hr; [exact H0 | eapply step_workers; eauto].
Qed.

(** A Task that is claimed is left alone by [drain]. *)
Lemma drain_keeps_claimed i q : forall ts t T,
  ts !! t = Some T -> m_worked_on T = true -> (drain i q ts).1 !! t = Some T.
Proof.
  induction q as [|t0 q IH]; intros ts t T HT Hflag; [exact HT|].
  cbn [drain]. destruct (ts !! t0) as [T0|] eqn:HT0; [|exact HT].
  destruct (m_worked_on T0) eqn:Hflag0.
  - specialize (IH ts t T HT Hflag). destruct (drain i q ts). exact IH.
  - assert (Hne : t0 <> t) by (intros ->; congruence).
    specialize (IH (<[t0 := completed T0]> ts) t T).
    rewrite list_lookup_insert_ne in IH by exact Hne.
    specialize (IH HT Hflag). destruct (drain i q _). exact IH.
Qed.

(** After [drain], every Task of the queue is claimed, and those that were
    not have been run by the draining thread. *)
Lemma drain_runs i q : forall ts t T,
  In t q -> ts !! t = Some T ->
  (forall t', In t' q -> t' < length ts) ->
  (exists T', (drain i q ts).1 !! t = Some T' /\ m_worked_on T' = true)
  /\ (m_worked_on T = false ->
        (drain i q ts).1 !! t = Some (completed T)
        /\ In (EvInvoke i t FromWait) (drain i q ts).2).
Proof.
  induction q as [|t0 q IH]; intros ts t T Hin HT Hvalid; [destruct Hin|].
  assert (Hlt0 : t0 < length ts) by (apply Hvalid; left; reflexivity).
  apply lookup_lt_is_Some in Hlt0 as [T0 HT0].
  cbn [drain]. rewrite HT0.
  destruct (decide (t0 = t)) as [->|Hne].
  - assert (T0 = T) by congruence. subst T0.
    destruct (m_worked_on T) eqn:Hflag.
    + pose proof (drain_keeps_claimed i q ts t T HT Hflag) as Hk.
      destruct (drain i q ts) as [ts2 ev2]. cbn in *.
      split; [eauto | discriminate].
    + assert (Hc : <[t := completed T]> ts !! t = Some (completed T)).
      { apply list_lookup_insert_eq. eapply lookup_lt_Some, HT. }
      pose proof (drain_keeps_claimed i q _ t _ Hc eq_refl) as Hk.
      destruct (drain i q _) as [ts2 ev2]. cbn in *.
      split; [eauto|]. intros _. split; [exact Hk|].
      right. right. left. reflexivity.
  - destruct Hin as [Heq|Hin]; [contradiction|].
    destruct (m_worked_on T0) eqn:Hflag0.
    + destruct (IH ts t T Hin HT) as [H1 H2].
      { intros t' Ht'. apply Hvalid. right. exact Ht'. }
      destruct (drain i q ts) as [ts2 ev2]. cbn in *.
      split; [exact H1|]. intros Hf. destruct (H2 Hf) as [H3 H4].
      split; [exact H3|]. right. right. exact H4.
    + destruct (IH (<[t0 := completed T0]> ts) t T Hin) as [H1 H2].
      { rewrite list_lookup_insert_ne by exact Hne. exact HT. }
      { intros t' Ht'. rewrite length_insert. apply Hvalid. right. exact Ht'. }
      destruct (drain i q _) as [ts2 ev2]. cbn in *.
      split; [exact H1|]. intros Hf. destruct (H2 Hf) as [H3 H4].
      split; [exact H3|]. right. do 5 right. exact H4.
Qed.

(** C10. [ThreadPool(0)] is built like any other pool: no check, no
    worker thread. In every execution of such a pool no thread is ever in
    [do_work], and a callable is invoked only inside a [try_run] called
    from [Future::get] or from the draining loop of [ThreadPool::wait].
    A submitted Task can still run: a call of [get] on its Future returns
    the callable's outcome, after the callable has been invoked (by the
    calling thread itself, in seven steps, when nobody had claimed the
    Task); and a call of [wait(Wait::Async)], with the mutex free, empties
    the queue, after which every Task that was queued is claimed and those
    that were not before have been run by the calling thread. *)
Theorem zero_workers_pool (scripts : list (list call)) (w : world) :
  reachable (ThreadPool_ctor 0 scripts) w ->
  (m_pool_size (pool (ThreadPool_ctor 0 scripts)) = 0
   /\ threads (ThreadPool_ctor 0 scripts) = map (mkThread Idle) scripts)
  /\ (forall i th, threads w !! i = Some th -> worker_pc (at_pc th) = false)
  /\ (forall i t k, In (EvInvoke i t k) (trace w) -> k = FromGet \/ k = FromWait)
  /\ (forall i rest t,
        threads w !! i = Some (mkThread Idle (CallGet t :: rest)) ->
        t < length (tasks w) ->
        exists T sched w' tr',
          tasks w !! t = Some T
          /\ run sched w = Some w'
          /\ trace w' = trace w ++ tr' ++ [EvGet i t (deliver (callable T))]
          /\ (exists j k, In (EvInvoke j t k) (trace w ++ tr'))
          /\ (m_worked_on T = false ->
                sched = replicate 7 i /\ In (EvInvoke i t FromGet) tr'))
  /\ (forall i rest,
        threads w !! i = Some (mkThread Idle (CallWait Async :: rest)) ->
        m_task_mutex (pool w) = None ->
        exists n w',
          run (replicate n i) w = Some w'
          /\ m_tasks (pool w') = []
          /\ (forall t T,
                In t (m_tasks (pool w)) -> tasks w !! t = Some T ->
                (exists T', tasks w' !! t = Some T' /\ m_worked_on T' = true)
                /\ (m_worked_on T = false ->
                      tasks w' !! t = Some (completed T)
                      /\ In (EvInvoke i t FromWait) (trace w')))).
Proof.
  intros Hr.
  assert (HI : Inv w) by (eapply reachable_inv; [apply ctor_inv | exact Hr]).
  assert (HW : workers_ok 0 w).
  { eapply reachable_workers; [apply ctor_workers | exact Hr]. }
  split; [split; reflexivity|]. split; [|split; [|split]].
  - intros i th Hi. destruct (worker_pc (at_pc th)) eqn:Hw; [|reflexivity].
    pose proof (wk_threads 0 w HW i th Hi Hw). lia.
  - intros i t k Hin. destruct k; auto.
    pose proof (wk_events 0 w HW _ i Hin eq_refl). lia.
  - intros i rest t Hi Hlt.
    destruct (get_returns w i rest t HI Hi Hlt)
      as (T & sched & w' & tr' & HT & Hrun & Htr & _ & Hfresh).
    exists T, sched, w', tr'. split; [exact HT|]. split; [exact Hrun|].
    split; [exact Htr|]. split.
    + assert (HI' : Inv w').
      { eapply reachable_inv; [exact HI | eapply run_reachable, Hrun]. }
      rewrite app_assoc in Htr.
      destruct (get_history w' _ i t _ [] HI' Htr) as (_ & (j & k & Hinv & _) & _).
      eauto.
    + intros Hflag. destruct (Hfresh Hflag) as [-> ->].
      split; [reflexivity|]. cbn. auto.
  - intros i rest Hi Hmx.
    destruct (wait_async_alone w i rest Hi Hmx (inv_queue w HI) (wk_ongoing 0 w HW))
      as (n & w' & Hrun & _ & Hpool & Htasks & Htrace).
    exists n, w'. split; [exact Hrun|]. split; [rewrite Hpool; reflexivity|].
    intros t T Hin HT.
    destruct (drain_runs i (m_tasks (pool w)) (tasks w) t T Hin HT (inv_queue w HI))
      as [H1 H2].
    rewrite Htasks, Htrace. split; [exact H1|].
    intros Hflag. destruct (H2 Hflag) as [H3 H4]. split; [exact H3|].
    apply in_or_app. right. exact H4.
Qed.

Lemma zero_workers_pool_witness :
  exists n w',
    run (replicate n 0) two_queued = Some w'
    /\ m_tasks (pool w') = []
    /\ In (EvInvoke 0 0 FromWait) (trace w')
    /\ In (EvInvoke 0 1 FromWait) (trace w').
Proof.
  assert (Hr : reachable
                 (ThreadPool_ctor 0 [[CallAsync (Throws 7); CallAsync (Returns 3);
                                      CallWait Async]]) two_queued).
  { apply (run_reachable (replicate 12 0)). vm_compute. reflexivity. }
  destruct (zero_workers_pool _ two_queued Hr) as (_ & _ & _ & _ & Hwait).
  destruct (Hwait 0 [] eq_refl eq_refl) as (n & w' & H1 & H2 & H3).
  exists n, w'. split; [exact H1|]. split; [exact H2|]. split.
  - apply (H3 0 (Task_ctor (Throws 7))); [left; reflexivity | reflexivity | reflexivity].
  - apply (H3 1 (Task_ctor (Returns 3)));
      [right; left; reflexivity | reflexivity | reflexivity].
Defined.

End PoolFacts.

(* ===================================================================== *)
(** * Properties of the scheduler *)
(* ===================================================================== *)

Module SchedulerFacts.
Import Pool PoolFacts.

(** ** The steps, case by case *)

(** Every step of thread [i], with the statement it executes. *)
Ltac step_cases Hstep Hi :=
  match type of Hstep with
  | step ?i ?w = Some ?w' =>
      unfold step in Hstep;
      destruct (threads w !! i) as [[?p ?scr]|] eqn:Hi; [|discriminate Hstep];
      cbn in Hstep; unfold lock in Hstep;
      destruct p; unfold mbind, option_bind in Hstep;
      repeat case_match; try discriminate Hstep;
      inversion Hstep; subst w'; clear Hstep
  end.

Lemma step_threads i w w' :
  step i w = Some w' ->
  exists p scr p' scr',
    threads w !! i = Some (mkThread p scr)
    /\ threads w' = <[i := mkThread p' scr']> (threads w).
Proof.
  intros Hstep. step_cases Hstep Hi; eexists _, _, _, _; split; reflexivity.
Qed.

Lemma step_length i w w' :
  step i w = Some w' -> length (threads w') = length (threads w).
Proof.
  intros Hstep. destruct (step_threads i w w' Hstep) as (p & scr & p' & scr' & _ & ->).
  apply length_insert.
Qed.

(** ** The mutex *)

(** The statements a thread executes with [m_task_mutex] locked: lines
    149-150 of [async], 165-171 and 180 of [wait], 195-203 of [do_work]. *)
Definition locked (p : pc) : bool :=
  match p with
  | AsyncPush _ | AsyncUnlock _
  | WaitLoopCheck | WaitLoopPop | WaitLoopUnlock _ | WaitFinalCv
  | WorkCv | WorkQuit | WorkPop | WorkUnlock _ => true
  | _ => false
  end.

(** What a thread about to call [m_tasks.front()] relies on: lines 169 and
    201 are reached with a queue that is not empty, line 196 with
    [m_quit] set or a queue that is not empty. *)
Definition pop_ready (w : world) (p : pc) : Prop :=
  match p with
  | WaitLoopPop | WorkPop => m_tasks (pool w) <> []
  | WorkQuit => m_quit (pool w) = true \/ m_tasks (pool w) <> []
  | _ => True
  end.

Record Mutex (w : world) : Prop := mkMutex {
  mx_holder : forall i th, threads w !! i = Some th ->
                           locked (at_pc th) = true ->
                           m_task_mutex (pool w) = Some i;
  mx_held : forall i, m_task_mutex (pool w) = Some i ->
                      exists th, threads w !! i = Some th
                                 /\ locked (at_pc th) = true;
  mx_ready : forall i th, threads w !! i = Some th -> pop_ready w (at_pc th)
}.

Lemma mutex_update w w' j p scr p' scr' :
  Mutex w ->
  threads w !! j = Some (mkThread p scr) ->
  threads w' = <[j := mkThread p' scr']> (threads w) ->
  (locked p = true -> locked p' = true ->
     m_task_mutex (pool w') = m_task_mutex (pool w)) ->
  (locked p = false -> locked p' = true ->
     m_task_mutex (pool w) = None /\ m_task_mutex (pool w') = Some j) ->
  (locked p = true -> locked p' = false -> m_task_mutex (pool w') = None) ->
  (locked p = false -> locked p' = false ->
     m_task_mutex (pool w') = m_task_mutex (pool w)) ->
  (locked p = false -> m_tasks (pool w') = m_tasks (pool w)) ->
  (m_quit (pool w) = true -> m_quit (pool w') = true) ->
  pop_ready w' p' ->
  Mutex w'.
Proof.
  intros [Hholder Hheld Hready] Hj Hthreads H1 H2 H3 H4 Hq Hquit Hp'.
  assert (Hlt : j < length (threads w)) by (eapply lookup_lt_Some, Hj).
  assert (Hother : forall i th, i <> j -> threads w !! i = Some th ->
            locked (at_pc th) = true -> locked p = false).
  { intros i th Hne Hi Hl. destruct (locked p) eqn:Hlp; [|reflexivity].
    pose proof (Hholder i th Hi Hl) as Ha.
    pose proof (Hholder j _ Hj Hlp) as Hb. congruence. }
  split.
  - intros i th Hi Hl. rewrite Hthreads in Hi.
    destruct (decide (i = j)) as [->|Hne].
    + rewrite list_lookup_insert_eq in Hi by exact Hlt.
      inversion Hi; subst th; cbn in Hl.
      destruct (locked p) eqn:Hlp.
      * rewrite (H1 eq_refl Hl). apply (Hholder j _ Hj Hlp).
      * apply (H2 eq_refl Hl).
    + rewrite list_lookup_insert_ne in Hi by congruence.
      pose proof (Hother i th Hne Hi Hl) as Hlp.
      destruct (locked p') eqn:Hlp'.
      * destruct (H2 Hlp eq_refl) as [Hnone _].
        rewrite (Hholder i th Hi Hl) in Hnone. discriminate.
      * rewrite (H4 Hlp eq_refl). apply (Hholder i th Hi Hl).
  - intros i Hm. rewrite Hthreads.
    destruct (locked p') eqn:Hlp'.
    + assert (i = j) as ->.
      { destruct (locked p) eqn:Hlp.
        - rewrite (H1 eq_refl eq_refl), (Hholder j _ Hj Hlp) in Hm. congruence.
        - destruct (H2 eq_refl eq_refl) as [_ Hs]. congruence. }
      eexists. rewrite list_lookup_insert_eq by exact Hlt.
      split; [reflexivity | exact Hlp'].
    + destruct (locked p) eqn:Hlp.
      * rewrite (H3 eq_refl eq_refl) in Hm. discriminate.
      * rewrite (H4 eq_refl eq_refl) in Hm.
        destruct (Hheld i Hm) as (th & Hi & Hl). exists th.
        rewrite list_lookup_insert_ne; [auto|].
        intros <-. rewrite Hj in Hi. inversion Hi; subst th. cbn in Hl. congruence.
  - intros i th Hi. rewrite Hthreads in Hi.
    destruct (decide (i = j)) as [->|Hne].
    + rewrite list_lookup_insert_eq in Hi by exact Hlt.
      inversion Hi; subst th. exact Hp'.
    + rewrite list_lookup_insert_ne in Hi by congruence.
      pose proof (Hready i th Hi) as Hr.
      assert (Hsame : locked (at_pc th) = true ->
                      m_tasks (pool w') = m_tasks (pool w)).
      { intros Hl. apply Hq. eapply Hother; eassumption. }
      destruct (at_pc th); cbn in *; try exact I.
      * rewrite Hsame by reflexivity. exact Hr.
      * destruct Hr as [Hr|Hr]; [left; auto | right].
        rewrite Hsame by reflexivity. exact Hr.
      * rewrite Hsame by reflexivity. exact Hr.
Qed.

(** The last side condition of [mutex_update]. *)
Ltac pop_ready_tac :=
  cbn; auto; try congruence;
  try match goal with
      | H : _ || negb (bool_decide _) = true |- _ =>
          apply orb_true_iff in H; destruct H as [H|H]; [left; exact H | right];
          apply negb_true_iff, bool_decide_eq_false in H; exact H
      | H : _ \/ _ |- _ => destruct H; congruence
      end.

Ltac split_callers :=
  try match goal with k : caller |- _ => destruct k end.

Lemma step_mutex i w w' : Mutex w -> step i w = Some w' -> Mutex w'.
Proof.
  intros HM Hstep. pose proof (mx_ready w HM i) as Hr.
  step_cases Hstep Hi; specialize (Hr _ eq_refl); cbn in Hr; split_callers;
    (eapply (mutex_update w _ i _ _ _ _ HM Hi);
     [ reflexivity
     | cbn; intros; first [discriminate | reflexivity]
     | cbn; intros; first [discriminate | split; [assumption | reflexivity]]
     | cbn; intros; first [discriminate | reflexivity]
     | cbn; intros; first [discriminate | reflexivity]
     | cbn; intros; first [discriminate | reflexivity]
     | cbn; intros; first [assumption | reflexivity]
     | pop_ready_tac ]).
Qed.

Lemma ctor_mutex pool_size scripts : Mutex (ThreadPool_ctor pool_size scripts).
Proof.
  split.
  - intros i th Hi Hl.
    apply ctor_thread in Hi as [[_ Hth]|(_ & scr & _ & Hth)]; subst th; discriminate.
  - intros i H. discriminate H.
  - intros i th Hi.
    apply ctor_thread in Hi as [[_ Hth]|(_ & scr & _ & Hth)]; subst th; exact I.
Qed.

Lemma reachable_mutex w0 w : Mutex w0 -> reachable w0 w -> Mutex w.
Proof.
  intros H0 Hr. induction Hr; [exact H0 | eapply step_mutex; eauto].
Qed.

(** X6. In every execution: the statements between a lock and an unlock of
    [m_task_mutex] are executed by one thread at a time; [m_tasks] is
    changed only by the thread that holds the mutex; and [m_tasks.front()]
    and [m_tasks.pop()] (lines 169-170 and 201-202) are reached only with a
    queue that is not empty. *)
Theorem queue_is_guarded_by_the_mutex
    (pool_size : nat) (scripts : list (list call)) (w : world) :
  reachable (ThreadPool_ctor pool_size scripts) w ->
  (forall i j thi thj,
      threads w !! i = Some thi -> threads w !! j = Some thj ->
      locked (at_pc thi) = true -> locked (at_pc thj) = true -> i = j)
  /\ (forall i w',
        step i w = Some w' ->
        m_tasks (pool w') <> m_tasks (pool w) ->
        m_task_mutex (pool w) = Some i)
  /\ (forall i th,
        threads w !! i = Some th ->
        at_pc th = WaitLoopPop \/ at_pc th = WorkPop ->
        m_tasks (pool w) <> []).
Proof.
  intros Hr.
  pose proof (reachable_mutex _ _ (ctor_mutex pool_size scripts) Hr) as HM.
  split; [|split].
  - intros i j thi thj Hi Hj Hli Hlj.
    pose proof (mx_holder w HM i thi Hi Hli) as Ha.
    pose proof (mx_holder w HM j thj Hj Hlj) as Hb. congruence.
  - intros i w' Hstep Hne.
    step_cases Hstep Hi; cbn in Hne; try (contradiction Hne; reflexivity);
      apply (mx_holder w HM i _ Hi); reflexivity.
  - intros i th Hi Hpc. pose proof (mx_ready w HM i th Hi) as Hp.
    destruct Hpc as [Hpc|Hpc]; rewrite Hpc in Hp; exact Hp.
Qed.

(** How far a thread that holds the mutex is from unlocking it. *)
Definition to_unlock (p : pc) : nat :=
  match p with
  | WorkCv => 4
  | WorkQuit | WaitLoopCheck => 3
  | WorkPop | WaitLoopPop | AsyncPush _ => 2
  | _ => 1
  end.

Lemma step_under_lock w i p scr :
  Mutex w ->
  threads w !! i = Some (mkThread p scr) ->
  locked p = true ->
  exists w' evs p',
    step i w = Some w'
    /\ trace w' = trace w ++ evs
    /\ Forall (fun e => stage_of e = None) evs
    /\ threads w' = <[i := mkThread p' scr]> (threads w)
    /\ tasks w' = tasks w
    /\ (m_task_mutex (pool w') = None
        \/ (locked p' = true /\ to_unlock p' < to_unlock p)).
Proof.
  intros HM Hi Hl.
  assert (Hlt : i < length (threads w)) by (eapply lookup_lt_Some, Hi).
  pose proof (mx_ready w HM i _ Hi) as Hr.
  unfold step. rewrite Hi. cbn.
  destruct p; try discriminate Hl; cbn in Hr |- *.
  - (* line 149 *)
    eexists _, [], _. split; [reflexivity|]. split; [symmetry; apply app_nil_r|].
    split; [constructor|]. split; [reflexivity|]. split; [reflexivity|].
    right. cbn. auto.
  - eexists _, [], _. split; [reflexivity|]. split; [symmetry; apply app_nil_r|].
    split; [constructor|]. split; [reflexivity|]. split; [reflexivity|].
    left. reflexivity.
  - (* line 165 *)
    destruct (m_tasks (pool w)).
    + eexists _, [], _. split; [reflexivity|]. split; [symmetry; apply app_nil_r|].
      split; [constructor|]. split; [reflexivity|]. split; [reflexivity|].
    left. reflexivity.
    + eexists _, [], _. split; [reflexivity|]. split; [symmetry; apply app_nil_r|].
      split; [constructor|]. split; [reflexivity|]. split; [reflexivity|].
      right. cbn. auto.
  - (* lines 169-170 *)
    destruct (m_tasks (pool w)) as [|t q]; [contradiction Hr; reflexivity|].
    eexists _, [_], _. split; [reflexivity|]. split; [reflexivity|].
    split; [repeat constructor|]. split; [reflexivity|]. split; [reflexivity|].
    right. cbn. auto.
  - eexists _, [], _. split; [reflexivity|]. split; [symmetry; apply app_nil_r|].
    split; [constructor|]. split; [reflexivity|]. split; [reflexivity|].
    left. reflexivity.
  - (* line 180 *)
    destruct (decide _).
    + eexists _, [_], _. split; [reflexivity|]. split; [reflexivity|].
      split; [repeat constructor|]. split; [reflexivity|]. split; [reflexivity|].
      left. reflexivity.
    + eexists _, [], _. split; [reflexivity|]. split; [symmetry; apply app_nil_r|].
      split; [constructor|]. split; [reflexivity|]. split; [reflexivity|].
    left. reflexivity.
  - (* line 195 *)
    destruct (m_quit (pool w) || negb (bool_decide (m_tasks (pool w) = []))).
    + eexists _, [], _. split; [reflexivity|]. split; [symmetry; apply app_nil_r|].
      split; [constructor|]. split; [reflexivity|]. split; [reflexivity|].
      right. cbn. auto.
    + eexists _, [], _. split; [reflexivity|]. split; [symmetry; apply app_nil_r|].
      split; [constructor|]. split; [reflexivity|]. split; [reflexivity|].
    left. reflexivity.
  - (* line 196 *)
    destruct (m_quit (pool w)).
    + eexists _, [], _. split; [reflexivity|]. split; [symmetry; apply app_nil_r|].
      split; [constructor|]. split; [reflexivity|]. split; [reflexivity|].
    left. reflexivity.
    + eexists _, [], _. split; [reflexivity|]. split; [symmetry; apply app_nil_r|].
      split; [constructor|]. split; [reflexivity|]. split; [reflexivity|].
      right. cbn. auto.
  - (* lines 201-202 *)
    destruct (m_tasks (pool w)) as [|t q]; [contradiction Hr; reflexivity|].
    eexists _, [_], _. split; [reflexivity|]. split; [reflexivity|].
    split; [repeat constructor|]. split; [reflexivity|]. split; [reflexivity|].
    right. cbn. auto.
  - eexists _, [], _. split; [reflexivity|]. split; [symmetry; apply app_nil_r|].
    split; [constructor|]. split; [reflexivity|]. split; [reflexivity|].
    left. reflexivity.
Qed.

Lemma unlock_alone n : forall w i p scr,
  Mutex w ->
  threads w !! i = Some (mkThread p scr) ->
  locked p = true ->
  to_unlock p <= n ->
  exists k w' evs p',
    1 <= k <= n
    /\ run (replicate k i) w = Some w'
    /\ m_task_mutex (pool w') = None
    /\ trace w' = trace w ++ evs
    /\ Forall (fun e => stage_of e = None) evs
    /\ threads w' = <[i := mkThread p' scr]> (threads w)
    /\ tasks w' = tasks w.
Proof.
  induction n as [|n IH]; intros w i p scr HM Hi Hl Hn.
  - destruct p; cbn in Hn; lia.
  - assert (Hlt : i < length (threads w)) by (eapply lookup_lt_Some, Hi).
    destruct (step_under_lock w i p scr HM Hi Hl)
      as (w1 & evs & p' & Hstep & Htr & Hev & Hth & Hts & [Hfree | (Hl' & Hlt')]).
    + exists 1, w1, evs, p'. split; [lia|]. cbn. rewrite Hstep. auto 10.
    + assert (Hi' : threads w1 !! i = Some (mkThread p' scr)).
      { rewrite Hth. apply list_lookup_insert_eq, Hlt. }
      destruct (IH w1 i p' scr)
        as (k & w' & evs' & p'' & Hk & Hrun & Hfree & Htr' & Hev' & Hth' & Hts');
        [eapply step_mutex; eassumption | exact Hi' | exact Hl' | lia |].
      exists (S k), w', (evs ++ evs'), p''. split; [lia|]. split.
      { cbn [replicate]. erewrite run_cons; [exact Hrun | exact Hstep]. }
      split; [exact Hfree|]. split.
      { rewrite Htr', Htr, app_assoc. reflexivity. }
      split; [apply Forall_app; auto|]. split.
      { rewrite Hth', Hth, list_insert_insert_eq. reflexivity. }
      congruence.
Qed.

(** X7. No thread keeps the mutex. In every execution the thread that holds
    [m_task_mutex] is between a lock and an unlock, where nothing makes it
    wait; left to take its steps it unlocks the mutex after at most four
    of them, and on the way it does not claim a Task or invoke a callable:
    [try_run] is called after the unlock. *)
Theorem mutex_holder_unlocks
    (pool_size : nat) (scripts : list (list call)) (w : world) (i : tid) :
  reachable (ThreadPool_ctor pool_size scripts) w ->
  m_task_mutex (pool w) = Some i ->
  (exists th, threads w !! i = Some th /\ locked (at_pc th) = true)
  /\ exists k w' evs,
       1 <= k <= 4
       /\ run (replicate k i) w = Some w'
       /\ m_task_mutex (pool w') = None
       /\ trace w' = trace w ++ evs
       /\ Forall (fun e => stage_of e = None) evs.
Proof.
  intros Hr Hm.
  pose proof (reachable_mutex _ _ (ctor_mutex pool_size scripts) Hr) as HM.
  destruct (mx_held w HM i Hm) as ([p scr] & Hi & Hl). cbn in Hl.
  split; [eauto|].
  destruct (unlock_alone 4 w i p scr HM Hi Hl)
    as (k & w' & evs & _ & Hk & Hrun & Hfree & Htr & Hev & _);
    [destruct p; cbn; lia|].
  exists k, w', evs. auto.
Qed.

(** ** The queue *)

(** The Tasks taken from the queue so far, by any thread, in order. *)
Definition all_dequeued (tr : list event) : list task_id :=
  omap (fun e => match e with EvDequeue _ t _ => Some t | _ => None end) tr.

(** The Tasks that have been pushed, in the order in which they leave the
    queue: those that left it, then those that are in it. *)
Definition served (w : world) : list task_id :=
  all_dequeued (trace w) ++ m_tasks (pool w).

(** The Task a thread inside [async] has created and not yet pushed. *)
Definition pending (p : pc) : option task_id :=
  match p with
  | AsyncLock t | AsyncPush t => Some t
  | _ => None
  end.

Arguments all_dequeued : simpl never.

Lemma all_dequeued_app tr1 tr2 :
  all_dequeued (tr1 ++ tr2) = all_dequeued tr1 ++ all_dequeued tr2.
Proof. apply omap_app. Qed.

Lemma in_all_dequeued t tr :
  In t (all_dequeued tr) <-> exists i k, In (EvDequeue i t k) tr.
Proof.
  unfold all_dequeued. rewrite <- list_elem_of_In, list_elem_of_omap. split.
  - intros (e & He & Ht). apply list_elem_of_In in He.
    destruct e; inversion Ht; subst. eauto.
  - intros (i & k & He). exists (EvDequeue i t k).
    split; [apply list_elem_of_In, He | reflexivity].
Qed.

(** What a step does to the queue and to the record of what left it:
    nothing; or it is the push of line 149; or it is the [front()] and
    [pop()] of lines 169-170 or 201-202, recorded as such. *)
Lemma step_served i w w' :
  step i w = Some w' ->
  exists p scr p' scr',
    threads w !! i = Some (mkThread p scr)
    /\ threads w' = <[i := mkThread p' scr']> (threads w)
    /\ length (tasks w) <= length (tasks w')
    /\ ((pending p' = pending p
         /\ all_dequeued (trace w') = all_dequeued (trace w)
         /\ m_tasks (pool w') = m_tasks (pool w))
        \/ (pending p' = pending p
            /\ exists t, m_tasks (pool w) = t :: m_tasks (pool w')
                         /\ all_dequeued (trace w') = all_dequeued (trace w) ++ [t])
        \/ (pending p = None /\ pending p' = Some (length (tasks w))
            /\ length (tasks w') = S (length (tasks w))
            /\ all_dequeued (trace w') = all_dequeued (trace w)
            /\ m_tasks (pool w') = m_tasks (pool w))
        \/ (exists t, pending p = Some t /\ pending p' = None
                      /\ all_dequeued (trace w') = all_dequeued (trace w)
                      /\ m_tasks (pool w') = m_tasks (pool w) ++ [t])).
Proof.
  intros Hstep.
  step_cases Hstep Hi; split_callers;
    eexists _, _, _, _; (split; [reflexivity|]); (split; [reflexivity|]);
    (split; [cbn; rewrite ?length_app, ?length_alter; cbn; lia|]);
    cbn; rewrite ?all_dequeued_app, ?app_nil_r;
    first
      [ left; repeat split; first [reflexivity | assumption | symmetry; assumption]
      | right; left; split; [reflexivity|]; eexists; split; [first [eassumption | reflexivity] | reflexivity]
      | right; right; left; repeat split; try reflexivity;
        rewrite length_app; cbn; lia
      | right; right; right; eexists; repeat split; reflexivity ].
Qed.

Lemma step_served_grows i w w' :
  step i w = Some w' ->
  exists newer pushed,
    all_dequeued (trace w') = all_dequeued (trace w) ++ newer
    /\ newer ++ m_tasks (pool w') = m_tasks (pool w) ++ pushed.
Proof.
  intros Hstep.
  destruct (step_served i w w' Hstep)
    as (p & scr & p' & scr' & _ & _ & _ &
        [(_ & -> & ->) | [(_ & t & -> & ->) | [(_ & _ & _ & -> & ->)
                                               | (t & _ & _ & -> & ->)]]]).
  - exists [], []. rewrite !app_nil_r. auto.
  - exists [t], []. rewrite !app_nil_r. auto.
  - exists [], []. rewrite !app_nil_r. auto.
  - exists [], [t]. rewrite !app_nil_r. auto.
Qed.

(** X8. First in, first out. Between any two worlds of an execution, the Tasks
    taken from the queue ([newer], in the order in which they were taken,
    whoever took them) are the head of what was in the queue followed by
    what has been pushed since: a Task is not overtaken by one that was
    behind it in the queue or pushed after it. *)
Theorem queue_is_first_in_first_out (w w' : world) :
  reachable w w' ->
  exists newer pushed,
    all_dequeued (trace w') = all_dequeued (trace w) ++ newer
    /\ newer ++ m_tasks (pool w') = m_tasks (pool w) ++ pushed.
Proof.
  intros Hr. induction Hr as [|w1 i w2 _ (newer & pushed & Hd & Hq) Hstep].
  - exists [], []. rewrite !app_nil_r. auto.
  - destruct (step_served_grows i w1 w2 Hstep) as (n2 & p2 & Hd2 & Hq2).
    exists (newer ++ n2), (pushed ++ p2). split.
    + rewrite Hd2, Hd, app_assoc. reflexivity.
    + rewrite <- app_assoc, Hq2, !app_assoc, Hq. reflexivity.
Qed.

(** Every Task is pushed once: the Tasks created and not yet pushed, the
    Tasks in the queue and the Tasks taken from it are all different. *)
Record Handoff (w : world) : Prop := mkHandoff {
  ho_nodup : NoDup (served w);
  ho_bound : forall t, In t (served w) -> t < length (tasks w);
  ho_pending : forall i th t,
      threads w !! i = Some th -> pending (at_pc th) = Some t ->
      t < length (tasks w) /\ ~ In t (served w);
  ho_distinct : forall i j thi thj t,
      threads w !! i = Some thi -> threads w !! j = Some thj ->
      pending (at_pc thi) = Some t -> pending (at_pc thj) = Some t -> i = j
}.

Lemma step_handoff_modes i w w' :
  step i w = Some w' ->
  exists p scr p' scr',
    threads w !! i = Some (mkThread p scr)
    /\ threads w' = <[i := mkThread p' scr']> (threads w)
    /\ length (tasks w) <= length (tasks w')
    /\ ((pending p' = pending p /\ served w' = served w)
        \/ (pending p = None /\ pending p' = Some (length (tasks w))
            /\ length (tasks w') = S (length (tasks w))
            /\ served w' = served w)
        \/ (exists t, pending p = Some t /\ pending p' = None
                      /\ served w' = served w ++ [t])).
Proof.
  intros Hstep.
  destruct (step_served i w w' Hstep)
    as (p & scr & p' & scr' & Hi & Hth & Hlen & Hmode).
  exists p, scr, p', scr'. split; [exact Hi|]. split; [exact Hth|].
  split; [exact Hlen|]. unfold served.
  destruct Hmode as [(Hp & -> & ->) | [(Hp & t & -> & ->)
                    | [(Hp & Hp' & Hl & -> & ->) | (t & Hp & Hp' & -> & ->)]]].
  - left. auto.
  - left. split; [exact Hp|]. rewrite <- app_assoc. reflexivity.
  - right. left. auto.
  - right. right. exists t. rewrite app_assoc. auto.
Qed.

Lemma step_handoff i w w' : Handoff w -> step i w = Some w' -> Handoff w'.
Proof.
  intros [Hnd Hbd Hpd Hdi] Hstep.
  destruct (step_handoff_modes i w w' Hstep)
    as (p & scr & p' & scr' & Hi & Hth & Hlen & Hmode).
  assert (Hlt : i < length (threads w)) by (eapply lookup_lt_Some, Hi).
  assert (Hlook : forall j th, threads w' !! j = Some th ->
            (j = i /\ th = mkThread p' scr')
            \/ (j <> i /\ threads w !! j = Some th)).
  { intros j th Hj. rewrite Hth in Hj. destruct (decide (j = i)) as [->|Hne].
    - rewrite list_lookup_insert_eq in Hj by exact Hlt. inversion Hj. auto.
    - rewrite list_lookup_insert_ne in Hj by congruence. auto. }
  destruct Hmode as [(Hp & Hs) | [(Hp & Hp' & Hl & Hs) | (t & Hp & Hp' & Hs)]].
  - (* neither a creation nor a push *)
    assert (Hold : forall j th t, threads w' !! j = Some th ->
              pending (at_pc th) = Some t ->
              exists th0, threads w !! j = Some th0 /\ pending (at_pc th0) = Some t).
    { intros j th t Hj Ht. destruct (Hlook j th Hj) as [[-> ->]|[_ Hj0]].
      - exists (mkThread p scr). split; [exact Hi|]. cbn in *. congruence.
      - eauto. }
    split.
    + rewrite Hs. exact Hnd.
    + intros t Ht. rewrite Hs in Ht. specialize (Hbd t Ht). lia.
    + intros j th t Hj Ht. destruct (Hold j th t Hj Ht) as (th0 & Hj0 & Ht0).
      destruct (Hpd j th0 t Hj0 Ht0) as [Hb Hn]. rewrite Hs. split; [lia | exact Hn].
    + intros j1 j2 th1 th2 t H1 H2 Ht1 Ht2.
      destruct (Hold j1 th1 t H1 Ht1) as (a & Ha & Hta).
      destruct (Hold j2 th2 t H2 Ht2) as (b & Hb & Htb).
      eapply Hdi; eassumption.
  - (* line 145: a new Task *)
    split.
    + rewrite Hs. exact Hnd.
    + intros t Ht. rewrite Hs in Ht. specialize (Hbd t Ht). lia.
    + intros j th t Hj Ht. rewrite Hs, Hl.
      destruct (Hlook j th Hj) as [[-> ->]|[_ Hj0]].
      * cbn in Ht. assert (t = length (tasks w)) as -> by congruence.
        split; [lia|]. intros Hin. specialize (Hbd _ Hin). lia.
      * destruct (Hpd j th t Hj0 Ht) as [Hb Hn]. split; [lia | exact Hn].
    + intros j1 j2 th1 th2 t H1 H2 Ht1 Ht2.
      destruct (Hlook j1 th1 H1) as [[-> ->]|[Hn1 Ha]];
        destruct (Hlook j2 th2 H2) as [[-> ->]|[Hn2 Hb]]; [reflexivity| | |].
      * cbn in Ht1. assert (t = length (tasks w)) as -> by congruence.
        destruct (Hpd j2 th2 _ Hb Ht2). lia.
      * cbn in Ht2. assert (t = length (tasks w)) as -> by congruence.
        destruct (Hpd j1 th1 _ Ha Ht1). lia.
      * eapply Hdi; eassumption.
  - (* line 149: the push *)
    destruct (Hpd i _ t Hi Hp) as [Hb Hn].
    split.
    + rewrite Hs. apply NoDup_app. split; [exact Hnd|].
      split; [|apply NoDup_singleton].
      intros x Hx Hx'. apply list_elem_of_singleton in Hx'. subst x.
      apply Hn, list_elem_of_In, Hx.
    + intros x Hx. rewrite Hs in Hx. apply in_app_or in Hx as [Hx|[<-|[]]].
      * specialize (Hbd x Hx). lia.
      * lia.
    + intros j th x Hj Hx. destruct (Hlook j th Hj) as [[-> ->]|[Hne Hj0]].
      * cbn in Hx. congruence.
      * destruct (Hpd j th x Hj0 Hx) as [Hb' Hn']. split; [lia|].
        rewrite Hs. intros Hin. apply in_app_or in Hin as [Hin|[<-|[]]].
        -- contradiction.
        -- apply Hne. eapply Hdi; [exact Hj0 | exact Hi | exact Hx | exact Hp].
    + intros j1 j2 th1 th2 x H1 H2 Ht1 Ht2.
      destruct (Hlook j1 th1 H1) as [[-> ->]|[Hn1 Ha]];
        [cbn in Ht1; congruence|].
      destruct (Hlook j2 th2 H2) as [[-> ->]|[Hn2 Hb2]];
        [cbn in Ht2; congruence|].
      eapply Hdi; eassumption.
Qed.

Lemma ctor_handoff pool_size scripts : Handoff (ThreadPool_ctor pool_size scripts).
Proof.
  split.
  - constructor.
  - intros t [].
  - intros i th t Hi Ht.
    apply ctor_thread in Hi as [[_ Hth]|(_ & scr & _ & Hth)]; subst th; discriminate.
  - intros i j thi thj t Hi _ Ht.
    apply ctor_thread in Hi as [[_ Hth]|(_ & scr & _ & Hth)]; subst thi; discriminate.
Qed.

Lemma reachable_handoff w0 w : Handoff w0 -> reachable w0 w -> Handoff w.
Proof.
  intros H0 Hr. induction Hr; [exact H0 | eapply step_handoff; eauto].
Qed.

(** X9. A Task is handed over once: in every execution, no Task is taken from
    the queue twice, no Task that was taken from the queue is in it, and
    no Task is in it twice. What is in the queue or was taken from it has
    been created by [async]; so [tasks()] is at most the number of Tasks
    created less the number of Tasks taken. *)
Theorem task_leaves_the_queue_once
    (pool_size : nat) (scripts : list (list call)) (w : world) :
  reachable (ThreadPool_ctor pool_size scripts) w ->
  NoDup (all_dequeued (trace w) ++ m_tasks (pool w))
  /\ (forall t, In t (all_dequeued (trace w) ++ m_tasks (pool w)) ->
                t < length (tasks w))
  /\ length (all_dequeued (trace w)) + tasks_count w <= length (tasks w).
Proof.
  intros Hr.
  pose proof (reachable_handoff _ _ (ctor_handoff pool_size scripts) Hr) as HH.
  split; [apply (ho_nodup w HH)|]. split; [apply (ho_bound w HH)|].
  unfold tasks_count. rewrite <- length_app.
  rewrite <- (length_seq (length (tasks w)) 0) at 1.
  apply List.NoDup_incl_length; [apply NoDup_ListNoDup, (ho_nodup w HH)|].
  intros t Ht. apply in_seq. pose proof (ho_bound w HH t Ht). lia.
Qed.

(** ** The count of ongoing Tasks *)

(** A thread between an increment of [m_ongoing] (lines 168, 200) and the
    decrement that follows it (lines 175, 207). *)
Definition busy (p : pc) : bool :=
  match p with
  | WaitLoopPop | WaitLoopUnlock _ | WaitLoopDec
  | WorkPop | WorkUnlock _ | WorkDec
  | TryRun FromWait _ _ | TryRun FromWorker _ _ => true
  | _ => false
  end.

Definition busy_threads (l : list thread) : nat :=
  length (List.filter (fun th => busy (at_pc th)) l).

Lemma busy_threads_cons th l :
  busy_threads (th :: l) = (if busy (at_pc th) then 1 else 0) + busy_threads l.
Proof. unfold busy_threads. cbn. destruct (busy (at_pc th)); reflexivity. Qed.

Lemma busy_threads_insert l : forall i x y,
  l !! i = Some x ->
  busy_threads (<[i := y]> l) + (if busy (at_pc x) then 1 else 0)
  = busy_threads l + (if busy (at_pc y) then 1 else 0).
Proof.
  induction l as [|a l IH]; intros [|i] x y Hi; try discriminate.
  - cbn in Hi. inversion Hi; subst a. cbn [insert list_insert].
    rewrite !busy_threads_cons. lia.
  - cbn in Hi. cbn [insert list_insert]. rewrite !busy_threads_cons.
    rewrite <- !Nat.add_assoc. f_equal. apply IH, Hi.
Qed.

Lemma busy_threads_le l : busy_threads l <= length l.
Proof.
  induction l as [|a l IH]; [reflexivity|].
  rewrite busy_threads_cons. cbn [length]. destruct (busy (at_pc a)); lia.
Qed.

Lemma busy_threads_zero l :
  busy_threads l = 0 <-> forall i th, l !! i = Some th -> busy (at_pc th) = false.
Proof.
  induction l as [|a l IH].
  - split; [intros _ i th H; discriminate H | reflexivity].
  - rewrite busy_threads_cons. split.
    + intros H [|i] th Hi; cbn in Hi.
      * inversion Hi; subst. destruct (busy (at_pc th)); [lia | reflexivity].
      * apply (proj1 IH) with i; [destruct (busy (at_pc a)); lia | exact Hi].
    + intros H. rewrite (H 0 a eq_refl). cbn. apply IH.
      intros i th Hi. apply (H (S i) th Hi).
Qed.

(** What a step does to [m_ongoing]: it is incremented by the steps that
    make the thread busy, decremented by the steps that end it, and left
    alone by all others. *)
Lemma step_ongoing i w w' :
  step i w = Some w' ->
  exists p scr p' scr',
    threads w !! i = Some (mkThread p scr)
    /\ threads w' = <[i := mkThread p' scr']> (threads w)
    /\ m_ongoing (pool w')
       = (if busy p then if busy p' then m_ongoing (pool w)
                         else decr (m_ongoing (pool w))
          else if busy p' then incr (m_ongoing (pool w))
               else m_ongoing (pool w)).
Proof.
  intros Hstep.
  step_cases Hstep Hi; split_callers;
    eexists _, _, _, _; (split; [reflexivity|]); (split; [reflexivity|]);
    reflexivity.
Qed.

Definition counted (w : world) : Prop :=
  m_ongoing (pool w) = Z.of_nat (busy_threads (threads w)).

Lemma step_counted i w w' :
  (Z.of_nat (length (threads w)) < size_max)%Z ->
  counted w -> step i w = Some w' -> counted w'.
Proof.
  unfold counted. intros Hmax Hc Hstep.
  destruct (step_ongoing i w w' Hstep) as (p & scr & p' & scr' & Hi & Hth & Hon).
  pose proof (busy_threads_insert (threads w) i _ (mkThread p' scr') Hi) as Hins.
  pose proof (busy_threads_le (threads w)) as Hle.
  pose proof (busy_threads_le (<[i := mkThread p' scr']> (threads w))) as Hle'.
  rewrite length_insert in Hle'.
  rewrite Hon, Hth, Hc. cbn in Hins. unfold incr, decr.
  destruct (busy p), (busy p').
  - f_equal. lia.
  - replace (Z.of_nat (busy_threads (threads w)) - 1)%Z
      with (Z.of_nat (busy_threads (<[i := mkThread p' scr']> (threads w)))) by lia.
    apply Z.mod_small. lia.
  - replace (Z.of_nat (busy_threads (threads w)) + 1)%Z
      with (Z.of_nat (busy_threads (<[i := mkThread p' scr']> (threads w)))) by lia.
    apply Z.mod_small. lia.
  - f_equal. lia.
Qed.

Lemma ctor_counted pool_size scripts : counted (ThreadPool_ctor pool_size scripts).
Proof.
  unfold counted. cbn. symmetry. change 0%Z with (Z.of_nat 0). f_equal.
  apply busy_threads_zero. intros i th Hi.
  apply ctor_thread in Hi as [[_ Hth]|(_ & scr & _ & Hth)]; subst th; reflexivity.
Qed.

Lemma reachable_length w0 w :
  reachable w0 w -> length (threads w) = length (threads w0).
Proof.
  intros Hr. induction Hr as [|w1 i w2 _ IH Hstep]; [reflexivity|].
  rewrite (step_length i w1 w2 Hstep). exact IH.
Qed.

Lemma reachable_counted w0 w :
  (Z.of_nat (length (threads w0)) < size_max)%Z ->
  counted w0 -> reachable w0 w -> counted w.
Proof.
  intros Hmax H0 Hr. induction Hr as [|w1 i w2 Hr1 IH Hstep]; [exact H0|].
  eapply step_counted; [|exact IH | exact Hstep].
  rewrite (reachable_length _ _ Hr1). exact Hmax.
Qed.

(** X10. [m_ongoing] counts the threads that have taken a Task from the queue
    and not yet come back from running it: in every execution with fewer
    than 2^64 threads it is the number of threads between an increment
    and the decrement that follows it. So the counter never wraps around,
    and it is zero exactly when no worker and no caller of
    [wait(Wait::Async)] holds a Task. *)
Theorem ongoing_counts_busy_threads
    (pool_size : nat) (scripts : list (list call)) (w : world) :
  (Z.of_nat (pool_size + length scripts) < size_max)%Z ->
  reachable (ThreadPool_ctor pool_size scripts) w ->
  m_ongoing (pool w) = Z.of_nat (busy_threads (threads w))
  /\ (0 <= m_ongoing (pool w) <= Z.of_nat (pool_size + length scripts))%Z
  /\ (m_ongoing (pool w) = 0%Z
      <-> forall i th, threads w !! i = Some th -> busy (at_pc th) = false).
Proof.
  intros Hmax Hr.
  assert (Hlen : length (threads (ThreadPool_ctor pool_size scripts))
                 = pool_size + length scripts).
  { cbn. rewrite length_app, length_replicate, length_map. reflexivity. }
  assert (Hc : counted w).
  { eapply reachable_counted; [|apply ctor_counted | exact Hr].
    rewrite Hlen. exact Hmax. }
  unfold counted in Hc. split; [exact Hc|].
  pose proof (busy_threads_le (threads w)) as Hle.
  rewrite (reachable_length _ _ Hr), Hlen in Hle.
  split; [lia|]. rewrite Hc, <- busy_threads_zero. lia.
Qed.

(** X22. What [wait] promises. In every execution with fewer than 2^64
    threads, at the step at which a call of [ThreadPool::wait] returns no
    thread is between taking a Task from the queue and the decrement of
    [m_ongoing] that follows its [try_run]: every Task that a worker or a
    caller of [wait(Wait::Async)] took has been through [try_run]. The
    mutex is free again. Nothing is promised about the queue. *)
Theorem wait_returns_when_no_task_is_held
    (pool_size : nat) (scripts : list (list call)) (w w' : world) (i : tid) :
  (Z.of_nat (pool_size + length scripts) < size_max)%Z ->
  reachable (ThreadPool_ctor pool_size scripts) w ->
  step i w = Some w' ->
  trace w' = trace w ++ [EvWaitReturn i] ->
  (forall j th, threads w !! j = Some th -> busy (at_pc th) = false)
  /\ (forall j th, threads w' !! j = Some th -> busy (at_pc th) = false)
  /\ m_ongoing (pool w') = 0%Z
  /\ m_task_mutex (pool w') = None
  /\ m_tasks (pool w') = m_tasks (pool w).
Proof.
  intros Hmax Hr Hstep Htr.
  assert (Hlen : length (threads (ThreadPool_ctor pool_size scripts))
                 = pool_size + length scripts).
  { cbn. rewrite length_app, length_replicate, length_map. reflexivity. }
  assert (Hc : counted w).
  { eapply reachable_counted; [|apply ctor_counted | exact Hr].
    rewrite Hlen. exact Hmax. }
  assert (Hc' : counted w').
  { eapply step_counted; [|exact Hc | exact Hstep].
    rewrite (reachable_length _ _ Hr), Hlen. exact Hmax. }
  destruct (wait_returns_at_zero i w w' Hstep Htr) as [Hz (scr & Hi)].
  assert (Hw' : w' = goto i Idle (mkThread WaitFinalCv scr)
                       (emit (EvWaitReturn i) (with_pool (set_mutex None) w))).
  { unfold step in Hstep. rewrite Hi in Hstep. cbn in Hstep.
    destruct (decide _); [|contradiction]. inversion Hstep. reflexivity. }
  assert (Hz' : m_ongoing (pool w') = 0%Z) by (rewrite Hw'; exact Hz).
  split.
  { apply busy_threads_zero. unfold counted in Hc. lia. }
  split.
  { apply busy_threads_zero. unfold counted in Hc'. lia. }
  split; [exact Hz'|]. rewrite Hw'. split; reflexivity.
Qed.

(** ** From submission to claim *)

(** Thread at [p] has taken Task [t] from the queue, as a caller of kind
    [k], and is on its way to the test of line 62. *)
Definition taking (k : caller) (t : task_id) (p : pc) : Prop :=
  match p with
  | TryRun k' t' TrTest => k' = k /\ t' = t
  | WaitLoopUnlock t' => k = FromWait /\ t' = t
  | WorkUnlock t' => k = FromWorker /\ t' = t
  | _ => False
  end.

Definition claimed (t : task_id) (tr : list event) : Prop :=
  exists j k, In (EvClaim j t k) tr.

Record Submitted (w : world) : Prop := mkSubmitted {
  sb_pushed : forall i th t,
      threads w !! i = Some th ->
      at_pc th = AsyncUnlock t \/ at_pc th = AsyncReturn t ->
      In t (served w);
  sb_submit : forall i t, In (EvSubmit i t) (trace w) -> In t (served w);
  sb_taken : forall i t k,
      In (EvDequeue i t k) (trace w) ->
      k <> FromGet
      /\ ((exists th, threads w !! i = Some th /\ taking k t (at_pc th))
          \/ claimed t (trace w))
}.

Lemma step_taking i w w' :
  step i w = Some w' ->
  exists p scr p' scr' evs,
    threads w !! i = Some (mkThread p scr)
    /\ threads w' = <[i := mkThread p' scr']> (threads w)
    /\ trace w' = trace w ++ evs
    /\ (forall t, p' = AsyncUnlock t \/ p' = AsyncReturn t ->
          (p = AsyncUnlock t \/ p = AsyncReturn t) \/ In t (m_tasks (pool w')))
    /\ (forall j t, In (EvSubmit j t) evs -> p = AsyncReturn t)
    /\ (forall j t k, In (EvDequeue j t k) evs ->
          j = i /\ k <> FromGet /\ taking k t p')
    /\ (forall k t, taking k t p ->
          taking k t p' \/ In (EvClaim i t k) evs
          \/ exists T, tasks w !! t = Some T /\ m_worked_on T = true).
Proof.
  intros Hstep.
  step_cases Hstep Hi; split_callers;
    eexists _, _, _, _, _; (split; [reflexivity|]); (split; [reflexivity|]);
    (split; [cbn; first [reflexivity | symmetry; apply app_nil_r]|]);
    (split; [cbn; intros ? [Hx|Hx]; inversion Hx; subst;
             first [left; auto; fail
                   | right; apply in_or_app; right; left; reflexivity]|]);
    (split; [cbn; intros ? ? Hx; repeat (destruct Hx as [Hx|Hx]; [inversion Hx|]);
             first [reflexivity | destruct Hx]|]);
    (split; [cbn; intros ? ? ? Hx;
             repeat (destruct Hx as [Hx|Hx]; [inversion Hx; subst|]);
             first [ split; [reflexivity|]; split; [discriminate|];
                     split; reflexivity
                   | solve [destruct Hx] ]|]);
    intros ? ?; unfold taking; cbn; intros Hx;
    first [ solve [destruct Hx]
          | destruct Hx as [? ?]; subst;
            first [ discriminate
                  | left; split; reflexivity
                  | right; left; left; reflexivity
                  | right; right; eexists; split; eassumption ] ].
Qed.

Lemma step_served_mono i w w' t :
  step i w = Some w' -> In t (served w) -> In t (served w').
Proof.
  intros Hstep Hin.
  destruct (step_handoff_modes i w w' Hstep)
    as (_ & _ & _ & _ & _ & _ & _ &
        [(_ & ->) | [(_ & _ & _ & ->) | (t' & _ & _ & ->)]]); auto.
  apply in_or_app. auto.
Qed.

Lemma step_submitted i w w' :
  Inv w -> Submitted w -> step i w = Some w' -> Submitted w'.
Proof.
  intros HI [Hpushed Hsubmit Htaken] Hstep.
  destruct (step_taking i w w' Hstep)
    as (p & scr & p' & scr' & evs & Hi & Hth & Htr & T1 & T2 & T3 & T4).
  assert (Hlt : i < length (threads w)) by (eapply lookup_lt_Some, Hi).
  assert (Hmono : forall t, In t (served w) -> In t (served w'))
    by (intros t; apply step_served_mono with i; exact Hstep).
  assert (Hclaimed : forall t, claimed t (trace w) -> claimed t (trace w')).
  { intros t (j & k & Hin). exists j, k. rewrite Htr. apply in_or_app. auto. }
  split.
  - intros j th t Hj Hpc. rewrite Hth in Hj.
    destruct (decide (j = i)) as [->|Hne].
    + rewrite list_lookup_insert_eq in Hj by exact Hlt.
      inversion Hj; subst th. cbn in Hpc.
      destruct (T1 t Hpc) as [Hold|Hq].
      * apply Hmono. eapply Hpushed; [exact Hi | exact Hold].
      * apply in_or_app. auto.
    + rewrite list_lookup_insert_ne in Hj by congruence.
      apply Hmono. eapply Hpushed; eassumption.
  - intros j t Hin. rewrite Htr in Hin. apply in_app_or in Hin as [Hin|Hin].
    + apply Hmono. eapply Hsubmit, Hin.
    + apply Hmono. eapply Hpushed; [exact Hi|]. right. cbn. eapply T2, Hin.
  - intros j t k Hin. rewrite Htr in Hin. apply in_app_or in Hin as [Hin|Hin].
    + destruct (Htaken j t k Hin) as [Hk [(th & Hj & Htk)|Hc]].
      * split; [exact Hk|]. destruct (decide (j = i)) as [->|Hne].
        -- assert (th = mkThread p scr) by congruence. subst th. cbn in Htk.
           destruct (T4 k t Htk) as [Hk'|[Hc|(T & HT & Hflag)]].
           ++ left. eexists. rewrite Hth, list_lookup_insert_eq by exact Hlt.
              split; [reflexivity | exact Hk'].
           ++ right. exists i, k. rewrite Htr. apply in_or_app. auto.
           ++ right. apply Hclaimed. eapply claimed_in_trace; eassumption.
        -- left. exists th. rewrite Hth, list_lookup_insert_ne by congruence. auto.
      * split; [exact Hk|]. right. apply Hclaimed, Hc.
    + destruct (T3 j t k Hin) as (-> & Hk & Htk). split; [exact Hk|].
      left. eexists. rewrite Hth, list_lookup_insert_eq by exact Hlt.
      split; [reflexivity | exact Htk].
Qed.

Lemma ctor_submitted pool_size scripts : Submitted (ThreadPool_ctor pool_size scripts).
Proof.
  split.
  - intros i th t Hi Hpc.
    apply ctor_thread in Hi as [[_ Hth]|(_ & scr & _ & Hth)]; subst th;
      destruct Hpc; discriminate.
  - intros i t [].
  - intros i t k [].
Qed.

Lemma reachable_submitted w0 w :
  Inv w0 -> Submitted w0 -> reachable w0 w -> Inv w /\ Submitted w.
Proof.
  intros HI HS Hr. induction Hr as [|w1 i w2 _ [IH1 IH2] Hstep]; [auto|].
  split; [eapply step_inv; eauto | eapply step_submitted; eauto].
Qed.

(** X11. No Task is lost between [async] and [try_run]. In every execution, a
    Task whose Future [async] has returned is in the queue or has been
    taken from it; and a Task taken from the queue, which only [do_work]
    and [wait(Wait::Async)] do, has been claimed by some thread, unless the
    thread that took it is still on its way to the test of line 62. *)
Theorem submitted_task_is_not_lost
    (pool_size : nat) (scripts : list (list call)) (w : world) :
  reachable (ThreadPool_ctor pool_size scripts) w ->
  (forall i t,
      In (EvSubmit i t) (trace w) ->
      In t (m_tasks (pool w)) \/ exists j k, In (EvDequeue j t k) (trace w))
  /\ (forall j t k,
        In (EvDequeue j t k) (trace w) ->
        k <> FromGet
        /\ ((exists th, threads w !! j = Some th /\ taking k t (at_pc th))
            \/ exists i k', In (EvClaim i t k') (trace w))).
Proof.
  intros Hr.
  destruct (reachable_submitted _ _ (ctor_inv pool_size scripts)
              (ctor_submitted pool_size scripts) Hr) as [HI HS].
  split.
  - intros i t Hin. pose proof (sb_submit w HS i t Hin) as Hs.
    apply in_app_or in Hs as [Hs|Hs]; [right | left; exact Hs].
    apply in_all_dequeued, Hs.
  - intros j t k Hin. apply (sb_taken w HS j t k Hin).
Qed.

Lemma taking_busy k t p : taking k t p -> k <> FromGet -> busy p = true.
Proof.
  destruct p; cbn; try contradiction.
  - destruct p; try contradiction. intros [-> _] Hk. destruct k; congruence.
  - reflexivity.
  - reflexivity.
Qed.

(** X12. When the pool is at rest. In every execution with fewer than 2^64
    threads, in a world in which [m_ongoing] is zero and the queue is
    empty (the two tests of [is_working()], taken together) every Task
    whose Future [async] has returned has been claimed; it is complete ([ready()] is true), unless the thread
    that claimed it did so in [Future::get] and is still running it:
    [m_ongoing] does not count the Tasks that [get] runs. *)
Theorem idle_pool_has_claimed_every_task
    (pool_size : nat) (scripts : list (list call)) (w : world)
    (i : tid) (t : task_id) :
  (Z.of_nat (pool_size + length scripts) < size_max)%Z ->
  reachable (ThreadPool_ctor pool_size scripts) w ->
  is_working w = false ->
  In (EvSubmit i t) (trace w) ->
  exists T,
    tasks w !! t = Some T
    /\ m_worked_on T = true
    /\ (ready T = true
        \/ exists j scr p,
             threads w !! j = Some (mkThread (TryRun FromGet t p) scr)
             /\ p <> TrTest).
Proof.
  intros Hmax Hr Hidle Hsub.
  destruct (reachable_submitted _ _ (ctor_inv pool_size scripts)
              (ctor_submitted pool_size scripts) Hr) as [HI HS].
  assert (Hlen : length (threads (ThreadPool_ctor pool_size scripts))
                 = pool_size + length scripts).
  { cbn. rewrite length_app, length_replicate, length_map. reflexivity. }
  assert (Hc : counted w).
  { eapply reachable_counted; [|apply ctor_counted | exact Hr].
    rewrite Hlen. exact Hmax. }
  unfold is_working, tasks_count in Hidle.
  apply orb_false_iff in Hidle as [Hon Hq].
  apply Z.ltb_ge in Hon. apply Nat.ltb_ge in Hq.
  assert (Hbusy : forall j th, threads w !! j = Some th -> busy (at_pc th) = false).
  { apply busy_threads_zero. unfold counted in Hc. lia. }
  assert (Hempty : m_tasks (pool w) = []).
  { destruct (m_tasks (pool w)); [reflexivity | cbn in Hq; lia]. }
  pose proof (sb_submit w HS i t Hsub) as Hs. unfold served in Hs.
  rewrite Hempty, app_nil_r in Hs.
  apply in_all_dequeued in Hs as (j & k & Hdq).
  destruct (sb_taken w HS j t k Hdq) as [Hk [(th & Hj & Htk)|(j' & k' & Hcl)]].
  { pose proof (taking_busy k t _ Htk Hk) as Hb.
    rewrite (Hbusy j th Hj) in Hb. discriminate. }
  assert (Hlt : t < length (tasks w)).
  { destruct (decide (t < length (tasks w))) as [|Hge]; [assumption|].
    exfalso. eapply (stages_nil_not_in t (trace w) (EvClaim j' t k'));
      [apply (inv_fresh w HI); lia | reflexivity | exact Hcl]. }
  apply lookup_lt_is_Some in Hlt as [T HT]. exists T. split; [exact HT|].
  destruct (inv_tasks w HI t T HT) as (a & ka & n & Hn & Hst & HT0 & Hrun).
  assert (H1 : 1 <= n).
  { destruct n; [|lia]. exfalso.
    assert (Hin : In (EvClaim j' t k') (stages t (trace w)))
      by (apply in_stages; auto).
    rewrite Hst in Hin. destruct Hin. }
  split.
  { rewrite HT0. cbn. apply bool_decide_eq_true. exact H1. }
  destruct (decide (n = 5)) as [->|Hn5].
  - left. rewrite HT0. reflexivity.
  - right. destruct Hrun as (th & Ha & Hpc); [lia|].
    destruct th as [pa scra]. cbn in Hpc. subst pa.
    pose proof (Hbusy a _ Ha) as Hb. cbn in Hb.
    destruct ka; try discriminate Hb.
    exists a, scra, (pc_at n (callable T)). split; [exact Ha|].
    apply pc_at_not_test. lia.
Qed.

(** ** Future::wait and the flags of a Task *)

(** X13. [Future::wait] (line 93) returns only after some thread has claimed
    the Task, invoked the callable and given its outcome to the promise,
    all before the return; [wait] does not run the Task itself, so that
    thread did it in [Future::get], in [wait(Wait::Async)] or in
    [do_work], and in [do_work] only if it is one of the workers. *)
Theorem future_wait_returns_after_delivery
    (pool_size : nat) (scripts : list (list call)) (w : world)
    (tr1 tr2 : list event) (i : tid) (t : task_id) :
  reachable (ThreadPool_ctor pool_size scripts) w ->
  trace w = tr1 ++ EvFutureWait i t :: tr2 ->
  exists j k T,
    tasks w !! t = Some T
    /\ In (EvClaim j t k) tr1
    /\ In (EvInvoke j t k) tr1
    /\ In (EvDeliver j t (deliver (callable T))) tr1
    /\ (k = FromWorker -> j < pool_size).
Proof.
  intros Hr Htr.
  assert (HI : Inv w) by (eapply reachable_inv; [apply ctor_inv | exact Hr]).
  assert (HW : workers_ok pool_size w).
  { eapply reachable_workers; [apply ctor_workers | exact Hr]. }
  destruct (inv_history w HI tr1 _ tr2 Htr) as (j & r & Hdel).
  apply in_split in Hdel as (a & b & Hab).
  assert (Htr' : trace w = a ++ EvDeliver j t r :: (b ++ EvFutureWait i t :: tr2)).
  { rewrite Htr, Hab, <- app_assoc. reflexivity. }
  destruct (inv_history w HI a _ _ Htr') as (k & Hst).
  assert (Hsub : forall x, In x a -> In x tr1).
  { intros x Hx. rewrite Hab. apply in_or_app. auto. }
  assert (Hc : In (EvClaim j t k) a).
  { apply (in_stages t a). rewrite Hst. left. reflexivity. }
  assert (Hv : In (EvInvoke j t k) a).
  { apply (in_stages t a). rewrite Hst. right. left. reflexivity. }
  assert (Hw : forall x, In x tr1 -> In x (trace w)).
  { intros x Hx. rewrite Htr. apply in_or_app. auto. }
  assert (Hlt : t < length (tasks w)).
  { destruct (decide (t < length (tasks w))) as [|Hge]; [assumption|].
    exfalso. eapply (stages_nil_not_in t (trace w) (EvClaim j t k));
      [apply (inv_fresh w HI); lia | reflexivity | apply Hw, Hsub, Hc]. }
  apply lookup_lt_is_Some in Hlt as [T HT].
  assert (Hd : In (EvDeliver j t r) tr1).
  { rewrite Hab. apply in_or_app. right. left. reflexivity. }
  assert (r = deliver (callable T)) as ->.
  { eapply delivered_is_outcome; [exact HI | apply Hw, Hd | exact HT]. }
  exists j, k, T. split; [exact HT|]. split; [apply Hsub, Hc|].
  split; [apply Hsub, Hv|]. split; [exact Hd|].
  intros ->. eapply (wk_events pool_size w HW); [apply Hw, Hsub, Hc | reflexivity].
Qed.

(** X14. The life of a Task. In every execution the events of a Task are the
    first [n] of: the claim of line 62, the invocation of the callable,
    the outcome given to the promise (the callable's own), the completion
    signal of line 55, [m_ready = true] of line 66; in this order, each at
    most once, all by the thread that claimed the Task. So neither
    promise is set twice. The Task is claimed from the first of them on
    and [ready()] after the last. *)
Theorem task_goes_through_its_stages_once
    (pool_size : nat) (scripts : list (list call)) (w : world)
    (t : task_id) (T : Task) :
  reachable (ThreadPool_ctor pool_size scripts) w ->
  tasks w !! t = Some T ->
  exists j k n,
    n <= 5
    /\ stages t (trace w) = take n (script_of j k t (callable T))
    /\ (m_worked_on T = true <-> 1 <= n)
    /\ (ready T = true <-> n = 5).
Proof.
  intros Hr HT.
  assert (HI : Inv w) by (eapply reachable_inv; [apply ctor_inv | exact Hr]).
  destruct (inv_tasks w HI t T HT) as (j & k & n & Hn & Hst & HT0 & _).
  exists j, k, n. split; [exact Hn|]. split; [exact Hst|].
  unfold ready. rewrite HT0. cbn. rewrite !bool_decide_eq_true. lia.
Qed.

(** X15. The flags of a Task are set in the order of lines 62, 48/50/53, 55 and
    66, and by one thread. In every execution: [ready()] is true only if
    [Task::wait()] returns; [Task::wait()] returns only if the promise
    holds the callable's outcome; the promise holds something only if the
    Task is claimed; a claimed Task that is not [ready()] has a thread
    inside [try_run] past the test of line 62; a Task that is [ready()]
    has none. *)
Theorem task_flags_are_ordered
    (pool_size : nat) (scripts : list (list call)) (w : world)
    (t : task_id) (T : Task) :
  reachable (ThreadPool_ctor pool_size scripts) w ->
  tasks w !! t = Some T ->
  (ready T = true -> Task_wait T = Some tt)
  /\ (Task_wait T = Some tt -> channel T = Some (deliver (callable T)))
  /\ (forall r, channel T = Some r ->
        r = deliver (callable T) /\ m_worked_on T = true)
  /\ (m_worked_on T = true -> ready T = false ->
        exists j scr k p,
          threads w !! j = Some (mkThread (TryRun k t p) scr) /\ p <> TrTest)
  /\ (ready T = true ->
        forall j scr k p,
          threads w !! j = Some (mkThread (TryRun k t p) scr) -> p = TrTest).
Proof.
  intros Hr HT.
  assert (HI : Inv w) by (eapply reachable_inv; [apply ctor_inv | exact Hr]).
  destruct (inv_tasks w HI t T HT) as (a & ka & n & Hn & Hst & HT0 & Hrun).
  unfold ready, Task_wait. rewrite HT0. cbn.
  split; [|split; [|split; [|split]]].
  - intros H. apply bool_decide_eq_true in H.
    rewrite bool_decide_true by lia. reflexivity.
  - destruct (bool_decide (4 <= n)) eqn:H4; [|discriminate]. intros _.
    apply bool_decide_eq_true in H4.
    destruct (decide (3 <= n)); [reflexivity | lia].
  - intros r. destruct (decide (3 <= n)) as [H3|]; [|discriminate].
    intros [= <-]. split; [reflexivity|]. apply bool_decide_eq_true. lia.
  - intros H1 H5. apply bool_decide_eq_true in H1.
    apply bool_decide_eq_false in H5.
    destruct Hrun as (th & Ha & Hpc); [lia|]. destruct th as [pa scra].
    cbn in Hpc. subst pa. exists a, scra, ka, (pc_at n (callable T)).
    split; [exact Ha|]. apply pc_at_not_test. lia.
  - intros H5 j scr k p Hj. apply bool_decide_eq_true in H5.
    destruct (decide (p = TrTest)) as [|Hp]; [assumption|]. exfalso.
    destruct (inv_threads w HI j _ Hj) as (_ & Hrunning & _).
    destruct (Hrunning k t p eq_refl Hp) as (T' & n' & HT' & Hn' & _ & Hst').
    assert (Hlen : length (stages t (trace w)) = n').
    { rewrite Hst', length_take. cbn. lia. }
    rewrite Hst, length_take in Hlen. cbn in Hlen. lia.
Qed.

(** ** Shutting down *)

(** A thread in [do_work] that is not between the test of line 196 and
    the end of the iteration: locking, waiting, testing [m_quit], or gone. *)
Definition between_tasks (p : pc) : bool :=
  match p with
  | WorkLock | WorkCv | WorkQuit | Exited => true
  | _ => false
  end.

Lemma step_quit j w w' :
  step j w = Some w' ->
  exists p scr p' scr' evs,
    threads w !! j = Some (mkThread p scr)
    /\ threads w' = <[j := mkThread p' scr']> (threads w)
    /\ trace w' = trace w ++ evs
    /\ (m_quit (pool w) = true -> m_quit (pool w') = true)
    /\ (forall i, i <> j -> dequeued i evs = [])
    /\ (m_quit (pool w) = true -> between_tasks p = true ->
          between_tasks p' = true /\ evs = []
          /\ m_tasks (pool w') = m_tasks (pool w)).
Proof.
  intros Hstep.
  step_cases Hstep Hi; split_callers;
    eexists _, _, _, _, _; (split; [reflexivity|]); (split; [reflexivity|]);
    (split; [cbn; first [reflexivity | symmetry; apply app_nil_r]|]);
    (split; [cbn; intros; first [assumption | reflexivity | congruence]|]);
    (split; [cbn; intros ? Hne;
             first [reflexivity
                   | destruct (decide _); [congruence | reflexivity]]|]);
    cbn; intros Hq Hb;
    first [discriminate Hb | congruence | repeat split; reflexivity].
Qed.

Lemma dequeued_app i tr1 tr2 :
  dequeued i (tr1 ++ tr2) = dequeued i tr1 ++ dequeued i tr2.
Proof. apply omap_app. Qed.

(** X16. The destructor does not have the queue emptied. Once [m_quit] is set
    it stays set; and from then on a worker that is between two Tasks
    (locking the mutex, waiting, testing [m_quit]) takes no further Task
    and changes nothing in the queue, whatever the queue holds: it stays
    between Tasks until it has returned from [do_work]. *)
Theorem worker_takes_nothing_after_quit (w w' : world) :
  reachable w w' ->
  m_quit (pool w) = true ->
  m_quit (pool w') = true
  /\ forall i th,
       threads w !! i = Some th ->
       between_tasks (at_pc th) = true ->
       (exists th', threads w' !! i = Some th'
                    /\ between_tasks (at_pc th') = true)
       /\ dequeued i (trace w') = dequeued i (trace w).
Proof.
  intros Hr Hq. induction Hr as [|w1 j w2 _ [IHq IH] Hstep].
  - split; [exact Hq|]. intros i th Hi Hb. split; [eauto | reflexivity].
  - destruct (step_quit j w1 w2 Hstep)
      as (p & scr & p' & scr' & evs & Hj & Hth & Htr & Hquit & Hother & Hown).
    assert (Hlt : j < length (threads w1)) by (eapply lookup_lt_Some, Hj).
    split; [apply Hquit, IHq|].
    intros i th Hi Hb. destruct (IH i th Hi Hb) as [(th1 & Hi1 & Hb1) Hd].
    rewrite Hth, Htr, dequeued_app, Hd.
    destruct (decide (i = j)) as [->|Hne].
    + assert (th1 = mkThread p scr) by congruence. subst th1. cbn in Hb1.
      destruct (Hown IHq Hb1) as (Hb' & -> & _).
      rewrite list_lookup_insert_eq by exact Hlt.
      split; [eauto | apply app_nil_r].
    + rewrite list_lookup_insert_ne by congruence.
      rewrite (Hother i Hne), app_nil_r. eauto.
Qed.

(** ** do_work, with no other thread taking a step *)

(** One iteration of the loop of lines 194-210 on a queue that is not
    empty: seven steps when the Task at the head is claimed already,
    eleven when the worker runs it. *)
Lemma work_turn w i scr t q T :
  threads w !! i = Some (mkThread WorkLock scr) ->
  m_task_mutex (pool w) = None ->
  m_quit (pool w) = false ->
  m_tasks (pool w) = t :: q ->
  tasks w !! t = Some T ->
  (0 <= m_ongoing (pool w) < size_max)%Z ->
  exists w',
    run (replicate (if m_worked_on T then 7 else 11) i) w = Some w'
    /\ threads w' = threads w
    /\ pool w' = set_queue q (pool w)
    /\ (if m_worked_on T
        then tasks w' = tasks w
             /\ trace w' = trace w ++ EvDequeue i t FromWorker
                                   :: [EvSkip i t FromWorker]
        else tasks w' = <[t := completed T]> (tasks w)
             /\ trace w' = trace w ++ EvDequeue i t FromWorker
                                   :: script_of i FromWorker t (callable T)).
Proof.
  intros Hi Hmx Hquit Hq HT Hon.
  assert (Hlen : i < length (threads w)) by (eapply lookup_lt_Some, Hi).
  (* lines 193-203 *)
  set (w5 := mkWorld (tasks w)
               (set_mutex None (set_queue q
                  (set_ongoing (incr (m_ongoing (pool w)))
                     (set_mutex (Some i) (pool w)))))
               (<[i := mkThread (TryRun FromWorker t TrTest) scr]> (threads w))
               (trace w ++ [EvDequeue i t FromWorker])).
  assert (H5 : run (replicate 5 i) w = Some w5).
  { cbn [replicate].
    erewrite run_cons.
    2:{ unfold step. rewrite Hi. cbn. unfold lock. rewrite Hmx. reflexivity. }
    erewrite run_cons.
    2:{ unfold step. cbn [threads goto with_thread with_pool].
        rewrite list_lookup_insert_eq by exact Hlen. cbn. rewrite Hquit, Hq.
        reflexivity. }
    erewrite run_cons.
    2:{ unfold step. cbn [threads goto with_thread with_pool].
        rewrite list_lookup_insert_eq by (rewrite ?length_insert; exact Hlen).
        cbn. rewrite Hquit. reflexivity. }
    erewrite run_cons.
    2:{ unfold step. cbn [threads goto with_thread with_pool].
        rewrite list_lookup_insert_eq by (rewrite ?length_insert; exact Hlen).
        cbn. rewrite Hq. reflexivity. }
    erewrite run_cons.
    2:{ unfold step. cbn [threads goto with_thread with_pool emit].
        rewrite list_lookup_insert_eq by (rewrite ?length_insert; exact Hlen).
        cbn. reflexivity. }
    cbn [run]. f_equal. unfold w5, goto, with_pool, with_thread, emit. cbn.
    f_equal. rewrite !list_insert_insert_eq. reflexivity. }
  (* line 205 *)
  assert (Hi5 : threads w5 !! i = Some (mkThread (TryRun FromWorker t TrTest) scr)).
  { apply list_lookup_insert_eq, Hlen. }
  destruct (try_run_alone w5 i scr FromWorker t T Hi5 HT)
    as (w6 & Hrun6 & Hth6 & Hpool6 & Hrest).
  (* lines 207-209 *)
  assert (Hi6 : threads w6 !! i = Some (mkThread WorkDec scr)).
  { rewrite Hth6. apply list_lookup_insert_eq. unfold w5. cbn.
    rewrite length_insert. exact Hlen. }
  assert (H7 : step i w6
               = Some (mkWorld (tasks w6)
                         (set_ongoing (decr (m_ongoing (pool w6))) (pool w6))
                         (<[i := mkThread WorkLock scr]> (threads w6))
                         (trace w6))).
  { unfold step. rewrite Hi6. reflexivity. }
  eexists. split.
  - replace (if m_worked_on T then 7 else 11)
      with (5 + ((if m_worked_on T then 1 else 5) + 1))
      by (destruct (m_worked_on T); reflexivity).
    rewrite run_replicate_add, H5. cbn [mbind option_bind].
    rewrite run_replicate_add, Hrun6. cbn [mbind option_bind replicate].
    erewrite run_cons; [reflexivity | exact H7].
  - cbn [threads pool tasks trace]. split.
    + rewrite Hth6. unfold w5. cbn. rewrite !list_insert_insert_eq.
      apply list_insert_id, Hi.
    + split.
      * rewrite Hpool6. unfold w5. cbn. rewrite decr_incr by exact Hon.
        destruct (pool w); cbn in *. subst. reflexivity.
      * destruct (m_worked_on T); destruct Hrest as [-> ->]; unfold w5; cbn;
          (split; [reflexivity | rewrite <- app_assoc; reflexivity]).
Qed.

(** A worker that finds nothing to do goes back to waiting and has
    changed nothing. *)
Lemma work_idle w i scr :
  threads w !! i = Some (mkThread WorkLock scr) ->
  m_task_mutex (pool w) = None ->
  m_quit (pool w) = false ->
  m_tasks (pool w) = [] ->
  run [i; i] w = Some w.
Proof.
  intros Hi Hmx Hquit Hq.
  assert (Hlen : i < length (threads w)) by (eapply lookup_lt_Some, Hi).
  erewrite run_cons.
  2:{ unfold step. rewrite Hi. cbn. unfold lock. rewrite Hmx. reflexivity. }
  erewrite run_cons.
  2:{ unfold step. cbn [threads goto with_thread with_pool].
      rewrite list_lookup_insert_eq by exact Hlen. cbn. rewrite Hquit, Hq.
      reflexivity. }
  cbn [run]. f_equal. unfold goto, with_pool, with_thread. cbn.
  rewrite list_insert_insert_eq, (list_insert_id _ _ _ Hi).
  destruct w as [ts P ths tr]. cbn in *. destruct P; cbn in *. subst. reflexivity.
Qed.

(** A worker that finds [m_quit] set returns from [do_work], whatever is
    in the queue. *)
Lemma work_exit w i scr :
  threads w !! i = Some (mkThread WorkLock scr) ->
  m_task_mutex (pool w) = None ->
  m_quit (pool w) = true ->
  run [i; i; i] w
  = Some (mkWorld (tasks w) (pool w) (<[i := mkThread Exited scr]> (threads w))
                  (trace w)).
Proof.
  intros Hi Hmx Hquit.
  assert (Hlen : i < length (threads w)) by (eapply lookup_lt_Some, Hi).
  erewrite run_cons.
  2:{ unfold step. rewrite Hi. cbn. unfold lock. rewrite Hmx. reflexivity. }
  erewrite run_cons.
  2:{ unfold step. cbn [threads goto with_thread with_pool].
      rewrite list_lookup_insert_eq by exact Hlen. cbn. rewrite Hquit.
      reflexivity. }
  erewrite run_cons.
  2:{ unfold step. cbn [threads goto with_thread with_pool].
      rewrite list_lookup_insert_eq by (rewrite ?length_insert; exact Hlen).
      cbn. rewrite Hquit. reflexivity. }
  cbn [run]. f_equal. unfold goto, with_pool, with_thread. cbn.
  rewrite !list_insert_insert_eq.
  destruct w as [ts P ths tr]. cbn in *. destruct P; cbn in *. subst. reflexivity.
Qed.

(** X17. [do_work] from the top of its loop, with the mutex free and no other
    thread taking a step. With [m_quit] set the worker returns, whatever is
    in the queue. Otherwise, with an empty queue it goes back to waiting,
    having changed nothing; and with a Task at the head of the queue it
    takes that Task, runs it through [try_run] unless it is claimed
    already, and is back at the top of the loop with the mutex free and
    [m_ongoing] what it was. *)
Theorem worker_serves_the_queue (w : world) (i : tid) (scr : list call) :
  threads w !! i = Some (mkThread WorkLock scr) ->
  m_task_mutex (pool w) = None ->
  (0 <= m_ongoing (pool w) < size_max)%Z ->
  (m_quit (pool w) = true ->
     exists w', run [i; i; i] w = Some w'
       /\ threads w' = <[i := mkThread Exited scr]> (threads w)
       /\ pool w' = pool w /\ tasks w' = tasks w /\ trace w' = trace w)
  /\ (m_quit (pool w) = false -> m_tasks (pool w) = [] -> run [i; i] w = Some w)
  /\ (forall t q T,
        m_quit (pool w) = false ->
        m_tasks (pool w) = t :: q ->
        tasks w !! t = Some T ->
        exists w',
          run (replicate (if m_worked_on T then 7 else 11) i) w = Some w'
          /\ threads w' = threads w
          /\ pool w' = set_queue q (pool w)
          /\ (if m_worked_on T
              then tasks w' = tasks w
                   /\ trace w' = trace w ++ EvDequeue i t FromWorker
                                         :: [EvSkip i t FromWorker]
              else tasks w' = <[t := completed T]> (tasks w)
                   /\ trace w' = trace w ++ EvDequeue i t FromWorker
                                         :: script_of i FromWorker t (callable T))).
Proof.
  intros Hi Hmx Hon. split; [|split].
  - intros Hq. eexists. split; [exact (work_exit w i scr Hi Hmx Hq)|]. cbn. auto.
  - intros Hq He. exact (work_idle w i scr Hi Hmx Hq He).
  - intros t q T Hq Ht HT. exact (work_turn w i scr t q T Hi Hmx Hq Ht HT Hon).
Qed.

(** ** async, then get *)

(** [async] from the call to the return of the Future, with the mutex
    free and no other thread taking a step. *)
Lemma async_alone w i b rest :
  threads w !! i = Some (mkThread Idle (CallAsync b :: rest)) ->
  m_task_mutex (pool w) = None ->
  run (replicate 6 i) w
  = Some (mkWorld (tasks w ++ [Task_ctor b])
                  (set_queue (m_tasks (pool w) ++ [length (tasks w)]) (pool w))
                  (<[i := mkThread Idle rest]> (threads w))
                  (trace w ++ [EvSubmit i (length (tasks w))])).
Proof.
  intros Hi Hmx.
  assert (Hlen : i < length (threads w)) by (eapply lookup_lt_Some, Hi).
  cbn [replicate].
  erewrite run_cons.
  2:{ unfold step. rewrite Hi. reflexivity. }
  erewrite run_cons.
  2:{ unfold step. cbn [threads goto with_thread].
      rewrite list_lookup_insert_eq by exact Hlen. reflexivity. }
  erewrite run_cons.
  2:{ unfold step. cbn [threads goto with_thread with_tasks].
      rewrite list_lookup_insert_eq by (rewrite ?length_insert; exact Hlen).
      cbn. unfold lock. cbn. rewrite Hmx. reflexivity. }
  erewrite run_cons.
  2:{ unfold step. cbn [threads goto with_thread with_tasks with_pool].
      rewrite list_lookup_insert_eq by (rewrite ?length_insert; exact Hlen).
      reflexivity. }
  erewrite run_cons.
  2:{ unfold step. cbn [threads goto with_thread with_tasks with_pool].
      rewrite list_lookup_insert_eq by (rewrite ?length_insert; exact Hlen).
      reflexivity. }
  erewrite run_cons.
  2:{ unfold step. cbn [threads goto with_thread with_tasks with_pool].
      rewrite list_lookup_insert_eq by (rewrite ?length_insert; exact Hlen).
      reflexivity. }
  cbn [run]. f_equal. unfold goto, with_pool, with_thread, with_tasks, emit. cbn.
  rewrite !list_insert_insert_eq.
  destruct w as [ts P ths tr]. cbn in *. destruct P; cbn in *. subst. reflexivity.
Qed.

(** X19. Submitting a callable and asking for its result at once, with the
    mutex free and no other thread taking a step. [async] creates a Task
    that nobody has claimed, pushes it at the back of the queue and
    returns, in six steps, without invoking the callable and without
    touching [m_ongoing]. [get] then claims the Task, invokes the callable
    on the calling thread and returns its outcome (the value it returned,
    or the exception it threw), in seven steps. The Task is complete and is
    still in the queue. *)
Theorem async_then_get_runs_the_callable
    (w : world) (i : tid) (b : behaviour) (rest : list call) :
  threads w !! i
  = Some (mkThread Idle (CallAsync b :: CallGet (length (tasks w)) :: rest)) ->
  m_task_mutex (pool w) = None ->
  exists w1 w2,
    run (replicate 6 i) w = Some w1
    /\ tasks w1 = tasks w ++ [Task_ctor b]
    /\ pool w1 = set_queue (m_tasks (pool w) ++ [length (tasks w)]) (pool w)
    /\ trace w1 = trace w ++ [EvSubmit i (length (tasks w))]
    /\ run (replicate 7 i) w1 = Some w2
    /\ threads w2 = <[i := mkThread Idle rest]> (threads w)
    /\ tasks w2 = tasks w ++ [completed (Task_ctor b)]
    /\ pool w2 = pool w1
    /\ trace w2 = trace w1 ++ script_of i FromGet (length (tasks w)) b
                           ++ [EvGet i (length (tasks w)) (deliver b)].
Proof.
  intros Hi Hmx.
  assert (Hlen : i < length (threads w)) by (eapply lookup_lt_Some, Hi).
  pose proof (async_alone w i b _ Hi Hmx) as H1.
  set (t := length (tasks w)) in *.
  set (w1 := mkWorld _ _ _ _) in H1.
  assert (Hi1 : threads w1 !! i = Some (mkThread Idle (CallGet t :: rest))).
  { apply list_lookup_insert_eq, Hlen. }
  assert (Ht1 : tasks w1 !! t = Some (Task_ctor b)).
  { unfold w1. cbn. apply list_lookup_middle. reflexivity. }
  assert (Hlt1 : t < length (tasks w1)) by (eapply lookup_lt_Some, Ht1).
  pose proof (step_call_get w1 i rest t Hi1 Hlt1) as H2.
  set (w2 := mkWorld _ _ _ _) in H2.
  assert (Hi2 : threads w2 !! i = Some (mkThread (TryRun FromGet t TrTest) rest)).
  { apply list_lookup_insert_eq. unfold w1. cbn. rewrite length_insert. exact Hlen. }
  destruct (try_run_alone w2 i rest FromGet t (Task_ctor b) Hi2 Ht1)
    as (w3 & H3 & Hth3 & Hp3 & Hts3 & Htr3).
  cbn [m_worked_on Task_ctor] in H3.
  assert (Hi3 : threads w3 !! i = Some (mkThread (GetRead t) rest)).
  { rewrite Hth3. apply list_lookup_insert_eq. unfold w2, w1. cbn.
    rewrite !length_insert. exact Hlen. }
  assert (Ht3 : tasks w3 !! t = Some (completed (Task_ctor b))).
  { rewrite Hts3. apply list_lookup_insert_eq. exact Hlt1. }
  pose proof (step_get_read w3 i rest t _ _ Hi3 Ht3 eq_refl) as H4.
  exists w1. eexists. split; [exact H1|].
  split; [reflexivity|]. split; [reflexivity|]. split; [reflexivity|].
  split.
  { change 7 with (1 + (5 + 1)). rewrite run_replicate_add. cbn [replicate].
    erewrite run_cons; [|exact H2]. cbn [run mbind option_bind].
    rewrite run_replicate_add, H3. cbn [mbind option_bind replicate].
    erewrite run_cons; [reflexivity | exact H4]. }
  cbn [threads tasks pool trace].
  split.
  { rewrite Hth3. unfold w2, w1. cbn. rewrite !list_insert_insert_eq. reflexivity. }
  split.
  { rewrite Hts3. unfold w2, w1. cbn. unfold t.
    rewrite insert_app_r_alt by lia. rewrite Nat.sub_diag. reflexivity. }
  split; [rewrite Hp3; reflexivity|].
  rewrite Htr3. unfold w2. cbn. rewrite <- app_assoc. reflexivity.
Qed.

(** X21. [async] returns from every world of an execution: whoever holds the
    mutex unlocks it after at most four steps of its own, without touching
    any Task; then the six steps of [async] go through. The new Task is
    unclaimed and at the back of the queue, and nothing has been claimed or
    invoked on the way. *)
Theorem async_can_always_return
    (pool_size : nat) (scripts : list (list call)) (w : world)
    (i : tid) (b : behaviour) (rest : list call) :
  reachable (ThreadPool_ctor pool_size scripts) w ->
  threads w !! i = Some (mkThread Idle (CallAsync b :: rest)) ->
  exists sched w' evs q,
    run sched w = Some w'
    /\ length sched <= 10
    /\ threads w' !! i = Some (mkThread Idle rest)
    /\ tasks w' = tasks w ++ [Task_ctor b]
    /\ m_tasks (pool w') = q ++ [length (tasks w)]
    /\ m_task_mutex (pool w') = None
    /\ trace w' = trace w ++ evs ++ [EvSubmit i (length (tasks w))]
    /\ Forall (fun e => stage_of e = None) evs.
Proof.
  intros Hr Hi.
  pose proof (reachable_mutex _ _ (ctor_mutex pool_size scripts) Hr) as HM.
  assert (Hlt : i < length (threads w)) by (eapply lookup_lt_Some, Hi).
  destruct (m_task_mutex (pool w)) as [j|] eqn:Hm.
  - destruct (mx_held w HM j Hm) as ([p scr] & Hj & Hl). cbn in Hl.
    assert (Hne : i <> j).
    { intros ->. rewrite Hi in Hj. inversion Hj; subst p. discriminate Hl. }
    destruct (unlock_alone 4 w j p scr HM Hj Hl)
      as (k & w1 & evs & p' & Hk & Hrun & Hfree & Htr & Hev & Hth & Hts);
      [destruct p; cbn; lia|].
    assert (Hi1 : threads w1 !! i = Some (mkThread Idle (CallAsync b :: rest))).
    { rewrite Hth, list_lookup_insert_ne by congruence. exact Hi. }
    pose proof (async_alone w1 i b rest Hi1 Hfree) as Hrun1.
    eexists (replicate k j ++ replicate 6 i), _, evs, (m_tasks (pool w1)).
    split; [rewrite run_app, Hrun; exact Hrun1|].
    split; [rewrite length_app, !length_replicate; lia|]. cbn.
    split; [apply list_lookup_insert_eq; rewrite Hth, length_insert; exact Hlt|].
    split; [rewrite Hts; reflexivity|].
    split; [rewrite Hts; reflexivity|].
    split; [exact Hfree|].
    split; [rewrite Htr, Hts, <- app_assoc; reflexivity | exact Hev].
  - pose proof (async_alone w i b rest Hi Hm) as Hrun.
    eexists (replicate 6 i), _, [], (m_tasks (pool w)).
    split; [exact Hrun|].
    split; [rewrite length_replicate; lia|]. cbn.
    split; [apply list_lookup_insert_eq, Hlt|].
    split; [reflexivity|]. split; [reflexivity|]. split; [exact Hm|].
    split; [reflexivity | constructor].
Qed.

(** ** Workers and callers *)

Lemma step_roles j w w' :
  step j w = Some w' ->
  exists p scr p' scr',
    threads w !! j = Some (mkThread p scr)
    /\ threads w' = <[j := mkThread p' scr']> (threads w)
    /\ worker_pc p' = worker_pc p
    /\ m_pool_size (pool w') = m_pool_size (pool w)
    /\ (m_quit (pool w) = true -> m_quit (pool w') = true)
    /\ (p' = Exited -> m_quit (pool w') = true).
Proof.
  intros Hstep.
  step_cases Hstep Hi; split_callers;
    eexists _, _, _, _; (split; [reflexivity|]); (split; [reflexivity|]);
    (split; [reflexivity|]); (split; [reflexivity|]);
    (split; [cbn; intros; first [assumption | reflexivity | congruence]|]);
    cbn; intros; first [assumption | discriminate | congruence].
Qed.

Record Roles (n : nat) (w : world) : Prop := mkRoles {
  rl_size : pool_size w = n;
  rl_worker : forall i th, threads w !! i = Some th ->
                           (worker_pc (at_pc th) = true <-> i < n);
  rl_exited : forall i th, threads w !! i = Some th -> at_pc th = Exited ->
                           m_quit (pool w) = true
}.

Lemma step_roles_inv n j w w' : Roles n w -> step j w = Some w' -> Roles n w'.
Proof.
  intros [Hsz Hwk Hex] Hstep.
  destruct (step_roles j w w' Hstep)
    as (p & scr & p' & scr' & Hj & Hth & Hpc & Hsize & Hquit & Hexit).
  assert (Hlt : j < length (threads w)) by (eapply lookup_lt_Some, Hj).
  split.
  - unfold pool_size in *. congruence.
  - intros i th Hi. rewrite Hth in Hi. destruct (decide (i = j)) as [->|Hne].
    + rewrite list_lookup_insert_eq in Hi by exact Hlt. inversion Hi; subst th.
      cbn. rewrite Hpc. apply (Hwk j _ Hj).
    + rewrite list_lookup_insert_ne in Hi by congruence. apply (Hwk i th Hi).
  - intros i th Hi Hpc'. rewrite Hth in Hi. destruct (decide (i = j)) as [->|Hne].
    + rewrite list_lookup_insert_eq in Hi by exact Hlt. inversion Hi; subst th.
      apply Hexit, Hpc'.
    + rewrite list_lookup_insert_ne in Hi by congruence.
      apply Hquit. eapply Hex; eassumption.
Qed.

Lemma ctor_roles n scripts : Roles n (ThreadPool_ctor n scripts).
Proof.
  split.
  - reflexivity.
  - intros i th Hi.
    apply ctor_thread in Hi as [[Hlt Hth]|(Hge & scr & _ & Hth)]; subst th; cbn.
    + tauto.
    + split; [discriminate | lia].
  - intros i th Hi Hpc.
    apply ctor_thread in Hi as [[_ Hth]|(_ & scr & _ & Hth)]; subst th;
      discriminate.
Qed.

Lemma reachable_roles n w0 w : Roles n w0 -> reachable w0 w -> Roles n w.
Proof.
  intros H0 Hr. induction Hr; [exact H0 | eapply step_roles_inv; eauto].
Qed.

(** X20. [ThreadPool(pool_size)] starts [pool_size] threads in [do_work], and
    that is how it stays. In every execution [pool_size()] is the
    constructor's argument; the threads in [do_work] (or back from it) are
    the first [pool_size] threads and no others, so a caller of the pool
    never runs the worker loop and a worker never runs a caller's code;
    and a worker has returned from [do_work] only if [m_quit] is set,
    which only the destructor does. *)
Theorem workers_stay_in_do_work
    (n : nat) (scripts : list (list call)) (w : world) :
  reachable (ThreadPool_ctor n scripts) w ->
  pool_size w = n
  /\ length (threads w) = n + length scripts
  /\ (forall i th, threads w !! i = Some th ->
        (worker_pc (at_pc th) = true <-> i < n))
  /\ (forall i th, threads w !! i = Some th -> at_pc th = Exited ->
        m_quit (pool w) = true)
  /\ (forall j w', step j w = Some w' ->
        m_quit (pool w) = false -> m_quit (pool w') = true ->
        exists scr, threads w !! j = Some (mkThread DtorQuit scr) /\ n <= j).
Proof.
  intros Hr.
  pose proof (reachable_roles n _ _ (ctor_roles n scripts) Hr) as [Hsz Hwk Hex].
  split; [exact Hsz|]. split.
  { rewrite (reachable_length _ _ Hr). cbn.
    rewrite length_app, length_replicate, length_map. reflexivity. }
  split; [exact Hwk|]. split; [exact Hex|].
  intros j w' Hstep Hq Hq'.
  assert (Hj : exists scr, threads w !! j = Some (mkThread DtorQuit scr)).
  { step_cases Hstep Hi; cbn in Hq'; try congruence. eauto. }
  destruct Hj as (scr & Hj). exists scr. split; [exact Hj|].
  destruct (decide (n <= j)) as [|Hlt]; [assumption|]. exfalso.
  assert (H : worker_pc DtorQuit = true) by (apply (Hwk j _ Hj); lia).
  discriminate H.
Qed.

(** ** Executions *)

(** One worker, and a user thread that has submitted a callable. *)
Definition submitted_one : world :=
  Eval vm_compute in
    match run (replicate 6 1) one_worker with Some w => w | None => one_worker end.

(** The user thread has gone on into [get] and claimed the Task; the
    worker has then taken the Task from the queue, found it claimed and
    decremented [m_ongoing]. *)
Definition resting : world :=
  Eval vm_compute in
    match run ([1; 1] ++ replicate 7 0) submitted_one with
    | Some w => w
    | None => one_worker
    end.

Lemma resting_reachable : reachable one_worker resting.
Proof.
  apply (run_reachable (replicate 6 1 ++ [1; 1] ++ replicate 7 0)).
  vm_compute. reflexivity.
Qed.

(** The pool is at rest while the callable has not been invoked yet: the
    Task is claimed by the thread in [get], which is about to invoke it. *)
Example pool_at_rest_while_get_runs :
  is_working resting = false
  /\ tasks resting !! 0 = Some (mkTask true false false None (Returns 42))
  /\ threads resting !! 1 = Some (mkThread (TryRun FromGet 0 TrInvoke) []).
Proof. repeat split; reflexivity. Qed.

(** One worker, and a user thread that submits a callable and waits on
    the Future: the worker has run the Task and [Future::wait] has
    returned. *)
Definition waited : world :=
  Eval vm_compute in
    match run (replicate 6 1 ++ replicate 11 0 ++ [1; 1])
              (ThreadPool_ctor 1 [[CallAsync (Returns 42); CallFutureWait 0]]) with
    | Some w => w
    | None => one_worker
    end.

Lemma waited_reachable :
  reachable (ThreadPool_ctor 1 [[CallAsync (Returns 42); CallFutureWait 0]]) waited.
Proof.
  apply (run_reachable (replicate 6 1 ++ replicate 11 0 ++ [1; 1])).
  vm_compute. reflexivity.
Qed.

(** One worker, and a user thread that has submitted a callable and gone
    into the destructor, where it has set [m_quit]; then the worker has
    returned and the destructor too. *)
Definition quitting : world :=
  Eval vm_compute in
    match run (replicate 8 1)
              (ThreadPool_ctor 1 [[CallAsync (Returns 42); CallDestroy]]) with
    | Some w => w
    | None => one_worker
    end.

Definition destroyed : world :=
  Eval vm_compute in
    match run [0; 0; 0; 1] quitting with Some w => w | None => one_worker end.

Lemma destroyed_reachable : reachable quitting destroyed.
Proof. apply (run_reachable [0; 0; 0; 1]). vm_compute. reflexivity. Qed.

(** No worker; the user thread of [two_queued] has emptied the queue. *)
Definition drained : world :=
  Eval vm_compute in
    match run (replicate 21 0) two_queued with Some w => w | None => two_queued end.

Lemma drained_reachable : reachable two_queued drained.
Proof. apply (run_reachable (replicate 21 0)). vm_compute. reflexivity. Qed.

(** The user thread of [one_worker] has locked the mutex in [async]. *)
Definition pushing : world :=
  Eval vm_compute in
    match run (replicate 3 1) one_worker with Some w => w | None => one_worker end.

Lemma pushing_reachable : reachable one_worker pushing.
Proof. apply (run_reachable (replicate 3 1)). vm_compute. reflexivity. Qed.

Lemma queue_is_guarded_by_the_mutex_witness :
  m_task_mutex (pool pushing) = Some 1.
Proof.
  refine (proj1 (proj2 (queue_is_guarded_by_the_mutex 1
            [[CallAsync (Returns 42); CallGet 0]] pushing pushing_reachable))
          1 _ eq_refl _).
  cbn. discriminate.
Defined.

Lemma queue_is_first_in_first_out_witness :
  exists newer pushed,
    all_dequeued (trace drained) = all_dequeued (trace two_queued) ++ newer
    /\ newer ++ m_tasks (pool drained) = m_tasks (pool two_queued) ++ pushed.
Proof. exact (queue_is_first_in_first_out two_queued drained drained_reachable). Defined.

Lemma task_leaves_the_queue_once_witness :
  NoDup (all_dequeued (trace raced) ++ m_tasks (pool raced)).
Proof.
  exact (proj1 (task_leaves_the_queue_once 1 [[CallAsync (Returns 42); CallGet 0]]
                  raced raced_reachable)).
Defined.

Lemma ongoing_counts_busy_threads_witness :
  m_ongoing (pool raced) = Z.of_nat (busy_threads (threads raced)).
Proof.
  refine (proj1 (ongoing_counts_busy_threads 1 [[CallAsync (Returns 42); CallGet 0]]
                   raced _ raced_reachable)).
  reflexivity.
Defined.

Lemma submitted_task_is_not_lost_witness :
  In 0 (m_tasks (pool raced)) \/ exists j k, In (EvDequeue j 0 k) (trace raced).
Proof.
  refine (proj1 (submitted_task_is_not_lost 1 [[CallAsync (Returns 42); CallGet 0]]
                   raced raced_reachable) 1 0 _).
  cbn. auto.
Defined.

Lemma idle_pool_has_claimed_every_task_witness :
  exists T,
    tasks resting !! 0 = Some T
    /\ m_worked_on T = true
    /\ (ready T = true
        \/ exists j scr p,
             threads resting !! j = Some (mkThread (TryRun FromGet 0 p) scr)
             /\ p <> TrTest).
Proof.
  refine (idle_pool_has_claimed_every_task 1 [[CallAsync (Returns 42); CallGet 0]]
            resting 1 0 _ resting_reachable _ _).
  - reflexivity.
  - reflexivity.
  - cbn. auto.
Defined.

Lemma future_wait_returns_after_delivery_witness :
  exists j k T,
    tasks waited !! 0 = Some T
    /\ In (EvClaim j 0 k) (removelast (trace waited))
    /\ In (EvInvoke j 0 k) (removelast (trace waited))
    /\ In (EvDeliver j 0 (deliver (callable T))) (removelast (trace waited))
    /\ (k = FromWorker -> j < 1).
Proof.
  refine (future_wait_returns_after_delivery 1
            [[CallAsync (Returns 42); CallFutureWait 0]] waited
            (removelast (trace waited)) [] 1 0 waited_reachable _).
  reflexivity.
Defined.

Lemma task_goes_through_its_stages_once_witness :
  exists j k n,
    n <= 5
    /\ stages 0 (trace raced) = take n (script_of j k 0 (Returns 42)).
Proof.
  destruct (task_goes_through_its_stages_once 1
              [[CallAsync (Returns 42); CallGet 0]] raced 0
              (mkTask true false false (Some (Value 42)) (Returns 42))
              raced_reachable eq_refl) as (j & k & n & Hn & Hst & _).
  exists j, k, n. auto.
Defined.

Lemma task_flags_are_ordered_witness :
  exists j scr k p,
    threads raced !! j = Some (mkThread (TryRun k 0 p) scr) /\ p <> TrTest.
Proof.
  destruct (task_flags_are_ordered 1 [[CallAsync (Returns 42); CallGet 0]] raced 0
              (mkTask true false false (Some (Value 42)) (Returns 42))
              raced_reachable eq_refl) as (_ & _ & _ & Hrunning & _).
  exact (Hrunning eq_refl eq_refl).
Defined.

Lemma worker_takes_nothing_after_quit_witness :
  m_quit (pool destroyed) = true
  /\ dequeued 0 (trace destroyed) = dequeued 0 (trace quitting)
  /\ m_tasks (pool quitting) = [0].
Proof.
  destruct (worker_takes_nothing_after_quit quitting destroyed
              destroyed_reachable eq_refl) as [Hq Hw].
  destruct (Hw 0 (mkThread WorkLock []) eq_refl eq_refl) as [_ Hd].
  split; [exact Hq|]. split; [exact Hd | reflexivity].
Defined.

Lemma worker_serves_the_queue_witness :
  exists w',
    run (replicate 11 0) submitted_one = Some w'
    /\ threads w' = threads submitted_one
    /\ m_tasks (pool w') = []
    /\ tasks w' = [completed (Task_ctor (Returns 42))].
Proof.
  destruct (worker_serves_the_queue submitted_one 0 [] eq_refl eq_refl)
    as (_ & _ & Hturn).
  { cbn. unfold size_max. lia. }
  destruct (Hturn 0 [] (Task_ctor (Returns 42)) eq_refl eq_refl eq_refl)
    as (w' & Hrun & Hth & Hp & Hts & _).
  exists w'. split; [exact Hrun|]. split; [exact Hth|].
  split; [rewrite Hp; reflexivity | exact Hts].
Defined.

Lemma async_then_get_runs_the_callable_witness :
  exists w1 w2,
    run (replicate 6 0) (no_worker (Returns 42)) = Some w1
    /\ run (replicate 7 0) w1 = Some w2
    /\ trace w2 = EvSubmit 0 0 :: script_of 0 FromGet 0 (Returns 42)
                  ++ [EvGet 0 0 (Value 42)]
    /\ m_tasks (pool w2) = [0].
Proof.
  destruct (async_then_get_runs_the_callable (no_worker (Returns 42)) 0
              (Returns 42) [] eq_refl eq_refl)
    as (w1 & w2 & H1 & _ & Hp1 & Htr1 & H2 & _ & _ & Hp2 & Htr2).
  exists w1, w2. split; [exact H1|]. split; [exact H2|].
  split; [rewrite Htr2, Htr1; reflexivity|].
  rewrite Hp2, Hp1. reflexivity.
Defined.

Lemma workers_stay_in_do_work_witness :
  pool_size raced = 1 /\ length (threads raced) = 2.
Proof.
  destruct (workers_stay_in_do_work 1 [[CallAsync (Returns 42); CallGet 0]]
              raced raced_reachable) as (H1 & H2 & _).
  exact (conj H1 H2).
Defined.

Lemma mutex_holder_unlocks_witness :
  exists k w',
    1 <= k <= 4
    /\ run (replicate k 1) pushing = Some w'
    /\ m_task_mutex (pool w') = None.
Proof.
  destruct (mutex_holder_unlocks 1 [[CallAsync (Returns 42); CallGet 0]] pushing 1
              pushing_reachable eq_refl)
    as (_ & k & w' & _ & Hk & Hrun & Hfree & _).
  exists k, w'. auto.
Defined.

(** Two user threads and no worker: thread 0 is inside [async] and holds
    the mutex; thread 1 is about to call [async]. *)
Definition contended : world :=
  Eval vm_compute in
    match run (replicate 3 0)
              (ThreadPool_ctor 0 [[CallAsync (Returns 1)]; [CallAsync (Returns 2)]]) with
    | Some w => w
    | None => one_worker
    end.

Lemma async_can_always_return_witness :
  exists sched w',
    run sched contended = Some w'
    /\ length sched <= 10
    /\ threads w' !! 1 = Some (mkThread Idle [])
    /\ m_tasks (pool contended) = []
    /\ m_task_mutex (pool contended) = Some 0.
Proof.
  destruct (async_can_always_return 0
              [[CallAsync (Returns 1)]; [CallAsync (Returns 2)]]
              contended 1 (Returns 2) [])
    as (sched & w' & _ & _ & Hrun & Hlen & Hth & _).
  - apply (run_reachable (replicate 3 0)). vm_compute. reflexivity.
  - reflexivity.
  - exists sched, w'. split; [exact Hrun|]. split; [exact Hlen|].
    split; [exact Hth|]. split; reflexivity.
Defined.

(** No worker; the user thread is in [wait(Wait::Sync)], at the predicate
    of line 180. *)
Definition waiting : world :=
  Eval vm_compute in
    match run [0; 0] (ThreadPool_ctor 0 [[CallWait Sync]]) with
    | Some w => w
    | None => one_worker
    end.

Definition waited_for : world :=
  Eval vm_compute in
    match step 0 waiting with Some w => w | None => one_worker end.

Lemma wait_returns_when_no_task_is_held_witness :
  m_ongoing (pool waited_for) = 0%Z /\ m_task_mutex (pool waited_for) = None.
Proof.
  destruct (wait_returns_when_no_task_is_held 0 [[CallWait Sync]]
              waiting waited_for 0) as (_ & _ & Hz & Hm & _).
  - reflexivity.
  - apply (run_reachable [0; 0]). vm_compute. reflexivity.
  - vm_compute. reflexivity.
  - reflexivity.
  - exact (conj Hz Hm).
Defined.

End SchedulerFacts.

(* ===================================================================== *)
(** * Properties of the notifications *)
(* ===================================================================== *)

Module WakeupFacts.
Import Pool Wakeups.

(** ** Three callers *)

(** A pool with one worker (thread 0) and three user threads: thread 1
    submits a callable, thread 2 calls [wait(Wait::Async)], thread 3 calls
    [wait(Wait::Sync)]. *)
Definition three_callers : state :=
  ThreadPool_ctor 1 [[CallAsync (Returns 1)]; [CallWait Async]; [CallWait Sync]].

(** The worker finds the queue empty and blocks (line 195). Thread 1
    submits; its [notify_one] wakes the worker. Thread 2 enters the loop of
    [wait] and takes the Task from the queue (lines 164-171): [m_ongoing]
    is 1. The worker finds the queue empty again and blocks. Thread 3
    locks, finds [m_ongoing == 0] false and blocks (lines 179-180). *)
Definition until_blocked : list turn :=
  turns 3 0 ++ turns 5 1 ++ [Turn 1 0] ++ turns 1 1
  ++ turns 5 2 ++ turns 3 0 ++ turns 4 3.

(** Then thread 2 runs the Task (line 173), decrements [m_ongoing] (line
    175), finds the queue empty (lines 164-166), and returns from lines
    179-180, where it finds [m_ongoing == 0]. *)
Definition unnotified : list turn := until_blocked ++ turns 10 2.

Definition stuck : state :=
  Eval vm_compute in
    match run unnotified three_callers with Some s => s | None => three_callers end.

(** C8, on an execution in which [wait] does not return. Thread 3 is
    inside [m_complete_condition.wait] of line 180, where it blocked while
    [m_ongoing] was 1 (thread 2 had taken the Task from the queue). Thread
    2 then ran the Task and decremented [m_ongoing] to 0 at line 175, which
    calls no notify (line 208, where a worker decrements, does), and went
    on to return from its own [wait]. Now [m_ongoing] is 0, the queue is
    empty, the mutex is free, every Task is complete, and the call of
    [wait(Wait::Sync)] has not returned: thread 3 is still blocked, and no
    thread has a step left that could wake it, whatever the scheduler
    does. The two decrements, side by side: after the one of line 175 no
    notification is due; after the one of line 207 the [notify_one] of
    line 208 is. *)
Theorem wait_stays_blocked_at_zero :
  (forall s i j scr,
     threads (world_of s) !! i = Some (mkThread WaitLoopDec scr) ->
     phases s !! i = Some Running ->
     step (Turn i j) s
     = Some (mkState
               (mkWorld (tasks (world_of s))
                  (set_ongoing (decr (m_ongoing (pool (world_of s))))
                               (pool (world_of s)))
                  (<[i := mkThread WaitLoopLock scr]> (threads (world_of s)))
                  (trace (world_of s)))
               (phases s)))
  /\ (forall s i j scr,
     threads (world_of s) !! i = Some (mkThread WorkDec scr) ->
     phases s !! i = Some Running ->
     step (Turn i j) s
     = Some (mkState
               (mkWorld (tasks (world_of s))
                  (set_ongoing (decr (m_ongoing (pool (world_of s))))
                               (pool (world_of s)))
                  (<[i := mkThread WorkLock scr]> (threads (world_of s)))
                  (trace (world_of s)))
               (<[i := Notifying m_complete_condition false]> (phases s))))
  /\ (exists s,
     run until_blocked three_callers = Some s
     /\ m_ongoing (pool (world_of s)) = 1%Z
     /\ phases s !! 3 = Some (Blocked m_complete_condition)
     /\ run (turns 10 2) s = Some stuck)
  /\ run unnotified three_callers = Some stuck
  /\ m_ongoing (pool (world_of stuck)) = 0%Z
  /\ m_tasks (pool (world_of stuck)) = []
  /\ m_task_mutex (pool (world_of stuck)) = None
  /\ tasks (world_of stuck) = [mkTask true true true (Some (Value 1)) (Returns 1)]
  /\ threads (world_of stuck) !! 3 = Some (mkThread WaitFinalLock [])
  /\ phases stuck !! 3 = Some (Blocked m_complete_condition)
  /\ trace (world_of stuck)
     = [EvSubmit 1 0; EvDequeue 2 0 FromWait; EvClaim 2 0 FromWait;
        EvInvoke 2 0 FromWait; EvDeliver 2 0 (Value 1); EvSignal 2 0;
        EvReady 2 0; EvWaitReturn 2]
  /\ (forall tn, step tn stuck = None)
  /\ (forall sched s, run sched stuck = Some s -> sched = [] /\ s = stuck).
Proof.
  assert (Hstep : forall tn, step tn stuck = None).
  { intros [i j]. unfold step. cbn [who].
    destruct i as [|[|[|[|i]]]]; reflexivity. }
  split.
  { intros s i j scr Hi Hph. unfold step. cbn [who]. rewrite Hi, Hph.
    cbn. unfold Pool.step. rewrite Hi. reflexivity. }
  split.
  { intros s i j scr Hi Hph. unfold step. cbn [who]. rewrite Hi, Hph.
    cbn. unfold Pool.step. rewrite Hi. reflexivity. }
  split.
  { eexists. split; [vm_compute; reflexivity|].
    split; [reflexivity|]. split; [reflexivity|]. vm_compute. reflexivity. }
  split; [vm_compute; reflexivity|].
  do 7 (split; [reflexivity|]).
  split; [exact Hstep|].
  intros [|tn sched] s Hrun.
  - inversion Hrun. auto.
  - cbn in Hrun. rewrite Hstep in Hrun. discriminate Hrun.
Qed.

(** ** Two callers *)

(** One worker (thread 0), a thread that submits a callable (thread 1),
    and a thread that calls [wait(Wait::Sync)] (thread 2). *)
Definition two_callers : state :=
  ThreadPool_ctor 1 [[CallAsync (Returns 1)]; [CallWait Sync]].

(** The worker takes the Task from the queue: [m_ongoing] is 1. *)
Definition worker_takes : list turn :=
  turns 3 0 ++ turns 5 1 ++ [Turn 1 0] ++ turns 1 1 ++ turns 5 0.

(** The decrement of a worker is followed by a notification (lines
    207-208): thread 2, blocked in line 180 while the worker runs the Task,
    is woken by it, finds [m_ongoing == 0] and returns. *)
Example worker_wakes_the_waiter :
  (fun s => (trace (world_of s), phases s))
    <$> run (worker_takes ++ turns 4 2 ++ turns 6 0 ++ [Turn 0 2] ++ turns 2 2)
            two_callers
  = Some ([EvSubmit 1 0; EvDequeue 0 0 FromWorker; EvClaim 0 0 FromWorker;
           EvInvoke 0 0 FromWorker; EvDeliver 0 0 (Value 1); EvSignal 0 0;
           EvReady 0 0; EvWaitReturn 2],
          [Running; Running; Running]).
Proof. vm_compute. reflexivity. Qed.

(** But the worker decrements and notifies without the mutex: when it
    does both after thread 2 has evaluated the predicate and before thread
    2 blocks, the notification finds nobody to wake, and thread 2 blocks
    with [m_ongoing] already 0. The worker goes back to its own wait, and
    no thread has a step left. *)
Example wake_up_is_lost :
  exists s,
    run (worker_takes ++ turns 3 2 ++ turns 6 0 ++ [Turn 0 2] ++ turns 1 2
           ++ turns 3 0) two_callers = Some s
    /\ m_ongoing (pool (world_of s)) = 0%Z
    /\ phases s = [Blocked m_work_condition; Running; Blocked m_complete_condition]
    /\ trace (world_of s)
       = [EvSubmit 1 0; EvDequeue 0 0 FromWorker; EvClaim 0 0 FromWorker;
          EvInvoke 0 0 FromWorker; EvDeliver 0 0 (Value 1); EvSignal 0 0;
          EvReady 0 0]
    /\ forall tn, step tn s = None.
Proof.
  eexists. split; [vm_compute; reflexivity|].
  split; [reflexivity|]. split; [reflexivity|]. split; [reflexivity|].
  intros [i j]. unfold step. cbn [who].
  destruct i as [|[|[|i]]]; reflexivity.
Qed.

(** ** The destructor *)

(** Two workers (threads 0 and 1) and a thread that destroys the pool. *)
Definition two_workers : state := ThreadPool_ctor 2 [[CallDestroy]].

(** Both workers are blocked in line 195 when the destructor runs: the
    [notify_all] of line 129 wakes them, they find [m_quit] set and return
    from [do_work], and the joins of lines 130-132 return. *)
Example destructor_wakes_the_workers :
  (fun s => (map at_pc (threads (world_of s)), phases s))
    <$> run (turns 3 0 ++ turns 3 1 ++ turns 3 2 ++ turns 3 0 ++ turns 3 1
               ++ turns 1 2) two_workers
  = Some ([Exited; Exited; Idle], [Running; Running; Running]).
Proof. vm_compute. reflexivity. Qed.

(** Lines 128-129 set [m_quit] and notify without the mutex: when they do
    so after worker 0 has evaluated the predicate of line 195 and before it
    blocks, the notification does not reach it. Worker 0 blocks with
    [m_quit] set, worker 1 returns, and the destructor waits in [join]:
    no thread has a step left. *)
Example destructor_loses_the_wake_up :
  exists s,
    run (turns 2 0 ++ turns 3 2 ++ turns 1 0 ++ turns 3 1) two_workers = Some s
    /\ m_quit (pool (world_of s)) = true
    /\ map at_pc (threads (world_of s)) = [WorkLock; Exited; DtorJoin]
    /\ phases s = [Blocked m_work_condition; Running; Running]
    /\ forall tn, step tn s = None.
Proof.
  eexists. split; [vm_compute; reflexivity|].
  split; [reflexivity|]. split; [reflexivity|]. split; [reflexivity|].
  intros [i j]. unfold step. cbn [who].
  destruct i as [|[|[|i]]]; reflexivity.
Qed.

End WakeupFacts.
